(** * MiniChessVovka: the search engine of ai.py over the rules of gamestate.py

    A shallow embedding of the 6x6 crazyhouse engine: Python values and
    exceptions, hashlib's SHA-256, the rules engine (gamestate.py), and the
    search (ai.py): hashing, evaluation, quiescence, move ordering, the
    alpha-beta core with its transposition / killer / history tables, the
    parallel root dispatcher and the iterative-deepening driver; the square
    names and move strings of utils.py.

    Conventions.
    - Python exceptions are values of [exn]; a computation returns an
      [outcome]: [Ok v], [Raise e], or [OutOfFuel] when the recursion budget
      of the model (the depth of the Python call stack) is used up.
      [OutOfFuel] is not a Python exception and no [try] catches it.
    - Numbers: every score the engine computes is an integer or one of the
      two float infinities; see [score].
    - Characters are ASCII; [print] calls and timing are not modelled. *)

From Stdlib Require Import ZArith NArith List String Ascii Bool Lia Permutation.
From Stdlib Require Import DecimalString OrderedTypeEx.
Import ListNotations.
Open Scope string_scope.
Open Scope list_scope.
Open Scope Z_scope.

Set Implicit Arguments.

(* ------------------------------------------------------------------ *)
(** ** Exceptions and outcomes *)

Inductive exn : Type :=
| IndexError | TypeError | ValueError | AttributeError | KeyError
| EnvFault (* an unexpected failure of the environment (pool, memory, ...) *).

Inductive outcome (A : Type) : Type :=
| Ok (a : A)
| Raise (e : exn)
| OutOfFuel.

Arguments Ok {A} a.
Arguments Raise {A} e.
Arguments OutOfFuel {A}.

Definition bind {A B : Type} (c : outcome A) (k : A -> outcome B) : outcome B :=
  match c with
  | Ok a => k a
  | Raise e => Raise e
  | OutOfFuel => OutOfFuel
  end.

Declare Scope outcome_scope.
Delimit Scope outcome_scope with outcome.
Notation "x <- c ;; k" := (bind c (fun x => k))
  (at level 61, c at next level, right associativity) : outcome_scope.
Notation "' p <- c ;; k" := (bind c (fun x => match x with p => k end))
  (at level 61, p pattern, c at next level, right associativity) : outcome_scope.
Open Scope outcome_scope.

(** [try: c except Exception: h] *)
Definition try_except {A : Type} (c : outcome A) (h : exn -> outcome A) : outcome A :=
  match c with
  | Raise e => h e
  | other => other
  end.

Definition returns {A : Type} (c : outcome A) : Prop := exists a, c = Ok a.
Definition terminates {A : Type} (c : outcome A) : Prop := c <> OutOfFuel.

Fixpoint mapM {A B : Type} (f : A -> outcome B) (l : list A) : outcome (list B) :=
  match l with
  | [] => Ok []
  | x :: r => y <- f x ;; ys <- mapM f r ;; Ok (y :: ys)
  end.

(* ------------------------------------------------------------------ *)
(** ** Python sequences: indexing with negative wrap-around and IndexError *)

Definition py_index {A : Type} (l : list A) (i : Z) : outcome A :=
  let n := Z.of_nat (List.length l) in
  let j := if i <? 0 then i + n else i in
  if (j <? 0) || (n <=? j) then Raise IndexError
  else match nth_error l (Z.to_nat j) with
       | Some x => Ok x
       | None => Raise IndexError
       end.

Fixpoint replace_nth {A : Type} (l : list A) (n : nat) (x : A) : list A :=
  match l, n with
  | [], _ => []
  | _ :: r, O => x :: r
  | y :: r, S m => y :: replace_nth r m x
  end.

(** [l[i] = x] *)
Definition py_setitem {A : Type} (l : list A) (i : Z) (x : A) : outcome (list A) :=
  let n := Z.of_nat (List.length l) in
  let j := if i <? 0 then i + n else i in
  if (j <? 0) || (n <=? j) then Raise IndexError
  else Ok (replace_nth l (Z.to_nat j) x).

(** [range(a, b)] for the small ranges of the engine. *)
Definition range (a b : Z) : list Z :=
  map (fun k => a + Z.of_nat k) (seq 0 (Z.to_nat (b - a))).

(* ------------------------------------------------------------------ *)
(** ** Characters and strings *)

Definition ord (c : ascii) : Z := Z.of_nat (nat_of_ascii c).
Definition chr (z : Z) : ascii := ascii_of_nat (Z.to_nat z).

Definition char_eqb (a b : ascii) : bool := Ascii.eqb a b.

(** [c.isupper()], [c.upper()], [c.lower()] on one ASCII character. *)
Definition isupper (c : ascii) : bool := (65 <=? ord c) && (ord c <=? 90).
Definition islower (c : ascii) : bool := (97 <=? ord c) && (ord c <=? 122).
Definition upper (c : ascii) : ascii := if islower c then chr (ord c - 32) else c.
Definition lower (c : ascii) : ascii := if isupper c then chr (ord c + 32) else c.

Fixpoint str_map (f : ascii -> ascii) (s : string) : string :=
  match s with
  | EmptyString => EmptyString
  | String c r => String (f c) (str_map f r)
  end.

Definition str_upper : string -> string := str_map upper.

Fixpoint str_mem (c : ascii) (s : string) : bool :=
  match s with
  | EmptyString => false
  | String d r => char_eqb c d || str_mem c r
  end.

Definition str1 (c : ascii) : string := String c EmptyString.

Fixpoint concat_str (l : list string) : string :=
  match l with
  | [] => EmptyString
  | s :: r => String.append s (concat_str r)
  end.

(** [sep.join(l)] *)
Fixpoint join (sep : string) (l : list string) : string :=
  match l with
  | [] => EmptyString
  | [s] => s
  | s :: r => String.append s (String.append sep (join sep r))
  end.

Definition hex_digit (n : Z) : ascii :=
  if n <? 10 then chr (48 + n) else chr (87 + n).

Definition hex2 (n : Z) : string :=
  String (hex_digit ((n / 16) mod 16)) (String (hex_digit (n mod 16)) EmptyString).

Definition str_of_Z (z : Z) : string := NilZero.string_of_int (Z.to_int z).

Definition quote1 : ascii := chr 39.   (* ' *)
Definition quote2 : ascii := chr 34.   (* the double quote *)
Definition backslash : ascii := chr 92.

(* ------------------------------------------------------------------ *)
(** ** Python values and [repr] *)

Inductive pyval : Type :=
| PyNone
| PyBool (b : bool)
| PyInt (z : Z)
| PyStr (s : string)
| PyBytes (s : string)
| PyTuple (l : list pyval)
| PyList (l : list pyval).

(** Is the code point printed as itself by [repr] of a str?  (Latin-1) *)
Definition str_printable (n : Z) : bool :=
  ((32 <=? n) && (n <? 127)) || ((161 <=? n) && (n <=? 255) && negb (n =? 173)).

Definition repr_char (is_bytes : bool) (q : ascii) (c : ascii) : string :=
  let n := ord c in
  if char_eqb c backslash then String backslash (str1 backslash)
  else if char_eqb c q then String backslash (str1 q)
  else if n =? 9 then String backslash "t"
  else if n =? 10 then String backslash "n"
  else if n =? 13 then String backslash "r"
  else if (if is_bytes then (32 <=? n) && (n <? 127) else str_printable n)
       then str1 c
       else String backslash (String "x" (hex2 n)).

Fixpoint repr_chars (is_bytes : bool) (q : ascii) (s : string) : string :=
  match s with
  | EmptyString => EmptyString
  | String c r => String.append (repr_char is_bytes q c) (repr_chars is_bytes q r)
  end.

(** The quote Python chooses: the double quote only when the text holds a
    single quote and no double quote. *)
Definition repr_quote (s : string) : ascii :=
  if str_mem quote1 s && negb (str_mem quote2 s) then quote2 else quote1.

Definition repr_str (s : string) : string :=
  let q := repr_quote s in
  String q (String.append (repr_chars false q s) (str1 q)).

Definition repr_bytes (s : string) : string :=
  let q := repr_quote s in
  String "b" (String q (String.append (repr_chars true q s) (str1 q))).

Fixpoint repr (v : pyval) : string :=
  match v with
  | PyNone => "None"
  | PyBool true => "True"
  | PyBool false => "False"
  | PyInt z => str_of_Z z
  | PyStr s => repr_str s
  | PyBytes s => repr_bytes s
  | PyTuple l =>
      match l with
      | [] => "()"
      | [x] => String.append "(" (String.append (repr x) ",)")
      | _ => String.append "(" (String.append (join ", " (map repr l)) ")")
      end
  | PyList l => String.append "[" (String.append (join ", " (map repr l)) "]")
  end.

(** [s.encode('utf-8')] for code points below 256. *)
Definition utf8_char (c : ascii) : list Z :=
  let n := ord c in
  if n <? 128 then [n] else [192 + n / 64; 128 + n mod 64].

Fixpoint encode_utf8 (s : string) : list Z :=
  match s with
  | EmptyString => []
  | String c r => utf8_char c ++ encode_utf8 r
  end.

(** Truth value of a Python object. *)
Definition truthy (v : pyval) : bool :=
  match v with
  | PyNone => false
  | PyBool b => b
  | PyInt z => negb (z =? 0)
  | PyStr s | PyBytes s => negb (String.eqb s EmptyString)
  | PyTuple l | PyList l => match l with [] => false | _ => true end
  end.

(** An object usable as an index or in integer arithmetic ([bool] is an [int]). *)
Definition as_int (v : pyval) : outcome Z :=
  match v with
  | PyInt z => Ok z
  | PyBool b => Ok (if b then 1 else 0)
  | _ => Raise TypeError
  end.

(* ------------------------------------------------------------------ *)
(** ** hashlib.sha256 (FIPS 180-4) on a list of bytes *)

Module SHA256.

Definition w32 (x : Z) : Z := x mod 4294967296.
Definition add32 (x y : Z) : Z := w32 (x + y).
Definition rotr (n x : Z) : Z := w32 (Z.lor (Z.shiftr x n) (Z.shiftl x (32 - n))).
Definition shr (n x : Z) : Z := Z.shiftr x n.
Definition not32 (x : Z) : Z := 4294967295 - x.

Definition Ch (x y z : Z) : Z := Z.lxor (Z.land x y) (Z.land (not32 x) z).
Definition Maj (x y z : Z) : Z :=
  Z.lxor (Z.lxor (Z.land x y) (Z.land x z)) (Z.land y z).
Definition Sigma0 (x : Z) : Z := Z.lxor (Z.lxor (rotr 2 x) (rotr 13 x)) (rotr 22 x).
Definition Sigma1 (x : Z) : Z := Z.lxor (Z.lxor (rotr 6 x) (rotr 11 x)) (rotr 25 x).
Definition sigma0 (x : Z) : Z := Z.lxor (Z.lxor (rotr 7 x) (rotr 18 x)) (shr 3 x).
Definition sigma1 (x : Z) : Z := Z.lxor (Z.lxor (rotr 17 x) (rotr 19 x)) (shr 10 x).

(** The round constants are the first 32 fractional bits of the cube roots
    of the first 64 primes, the initial hash value those of the square roots
    of the first 8; both are computed rather than tabulated. *)
Definition primes64 : list Z :=
  [2; 3; 5; 7; 11; 13; 17; 19; 23; 29; 31; 37; 41; 43; 47; 53;
   59; 61; 67; 71; 73; 79; 83; 89; 97; 101; 103; 107; 109; 113; 127; 131;
   137; 139; 149; 151; 157; 163; 167; 173; 179; 181; 191; 193; 197; 199; 211; 223;
   227; 229; 233; 239; 241; 251; 257; 263; 269; 271; 277; 281; 283; 293; 307; 311].

(** Integer cube root, one bit at a time from bit [k-1] down. *)
Fixpoint icbrt_bits (k : nat) (n x : Z) : Z :=
  match k with
  | O => x
  | S j =>
      let y := x + 2 ^ Z.of_nat j in
      icbrt_bits j n (if y * y * y <=? n then y else x)
  end.

Definition icbrt (n : Z) : Z := icbrt_bits 40 n 0.

Definition K : list Z := Eval vm_compute in
  map (fun p => w32 (icbrt (p * 2 ^ 96))) primes64.

Definition H0 : list Z := Eval vm_compute in
  map (fun p => w32 (Z.sqrt (p * 2 ^ 64))) (firstn 8 primes64).

Record hstate : Type := HState
  { ha : Z; hb : Z; hc : Z; hd : Z; he : Z; hf : Z; hg : Z; hh : Z }.

Definition initial_hash : hstate :=
  HState (nth 0 H0 0) (nth 1 H0 0) (nth 2 H0 0) (nth 3 H0 0)
         (nth 4 H0 0) (nth 5 H0 0) (nth 6 H0 0) (nth 7 H0 0).

(** Padding: a 1 bit, zeros, and the bit length as a 64-bit big-endian number. *)
Definition be_bytes (n : nat) (x : Z) : list Z :=
  map (fun i => (x / 256 ^ Z.of_nat (n - 1 - i)) mod 256) (seq 0 n).

Definition pad (msg : list Z) : list Z :=
  let l := Z.of_nat (List.length msg) in
  let k := (55 - l) mod 64 in
  msg ++ [128] ++ repeat 0 (Z.to_nat k) ++ be_bytes 8 (8 * l).

Fixpoint words_of_bytes (n : nat) (bs : list Z) : list Z :=
  match n with
  | O => []
  | S m =>
      match bs with
      | a :: b :: c :: d :: r =>
          (((a * 256 + b) * 256 + c) * 256 + d) :: words_of_bytes m r
      | _ => []
      end
  end.

(** The message schedule: [w] holds the words so far, newest first. *)
Fixpoint extend (n : nat) (w : list Z) : list Z :=
  match n with
  | O => w
  | S m =>
      let x := add32 (add32 (sigma1 (nth 1 w 0)) (nth 6 w 0))
                     (add32 (sigma0 (nth 14 w 0)) (nth 15 w 0)) in
      extend m (x :: w)
  end.

Definition schedule (block : list Z) : list Z :=
  rev (extend 48 (rev (words_of_bytes 16 block))).

Definition round (s : hstate) (kw : Z * Z) : hstate :=
  let (k, w) := kw in
  let t1 := add32 (add32 (add32 (hh s) (Sigma1 (he s)))
                         (add32 (Ch (he s) (hf s) (hg s)) k)) w in
  let t2 := add32 (Sigma0 (ha s)) (Maj (ha s) (hb s) (hc s)) in
  HState (add32 t1 t2) (ha s) (hb s) (hc s) (add32 (hd s) t1) (he s) (hf s) (hg s).

Definition compress (s : hstate) (block : list Z) : hstate :=
  let t := fold_left round (combine K (schedule block)) s in
  HState (add32 (ha s) (ha t)) (add32 (hb s) (hb t)) (add32 (hc s) (hc t))
         (add32 (hd s) (hd t)) (add32 (he s) (he t)) (add32 (hf s) (hf t))
         (add32 (hg s) (hg t)) (add32 (hh s) (hh t)).

Fixpoint blocks (n : nat) (bs : list Z) : list (list Z) :=
  match n with
  | O => []
  | S m => match bs with
           | [] => []
           | _ => firstn 64 bs :: blocks m (skipn 64 bs)
           end
  end.

Definition digest (msg : list Z) : hstate :=
  let p := pad msg in
  fold_left compress (blocks (List.length p) p) initial_hash.

Definition hex8 (x : Z) : string :=
  String (hex_digit ((x / 268435456) mod 16))
  (String (hex_digit ((x / 16777216) mod 16))
  (String (hex_digit ((x / 1048576) mod 16))
  (String (hex_digit ((x / 65536) mod 16))
  (String (hex_digit ((x / 4096) mod 16))
  (String (hex_digit ((x / 256) mod 16))
  (String (hex_digit ((x / 16) mod 16))
  (String (hex_digit (x mod 16)) EmptyString))))))).

(** [hashlib.sha256(msg).hexdigest()] *)
Definition hexdigest (msg : list Z) : string :=
  let s := digest msg in
  concat_str [hex8 (ha s); hex8 (hb s); hex8 (hc s); hex8 (hd s);
              hex8 (he s); hex8 (hf s); hex8 (hg s); hex8 (hh s)].

End SHA256.

(* ------------------------------------------------------------------ *)
(** ** config.py, pieces.py, utils.py *)

Definition BOARD_SIZE : Z := 6.
Definition EMPTY_SQUARE : ascii := ".".

Definition PROMOTION_PIECES_WHITE_STR : list ascii := ["R"; "N"; "B"]%char.
Definition PROMOTION_PIECES_BLACK_STR : list ascii := ["r"; "n"; "b"]%char.

Definition KNIGHT_MOVES : list (Z * Z) :=
  [(1, 2); (1, -2); (-1, 2); (-1, -2); (2, 1); (2, -1); (-2, 1); (-2, -1)].
Definition DIAGONAL_MOVES : list (Z * Z) := [(1, 1); (1, -1); (-1, 1); (-1, -1)].
Definition STRAIGHT_MOVES : list (Z * Z) := [(1, 0); (-1, 0); (0, 1); (0, -1)].
Definition KING_MOVES : list (Z * Z) := DIAGONAL_MOVES ++ STRAIGHT_MOVES.

(** The side to move, ['w'] or ['b']. *)
Inductive color : Type := White | Black.

Definition color_char (c : color) : ascii :=
  match c with White => "w" | Black => "b" end%char.

Definition color_eqb (a b : color) : bool :=
  match a, b with
  | White, White | Black, Black => true
  | _, _ => false
  end.

Definition get_piece_color (piece : ascii) : option color :=
  if char_eqb piece EMPTY_SQUARE then None
  else Some (if isupper piece then White else Black).

Definition is_on_board (r f : Z) : bool :=
  (0 <=? r) && (r <? BOARD_SIZE) && (0 <=? f) && (f <? BOARD_SIZE).

Definition get_opposite_color (c : color) : color :=
  match c with White => Black | Black => White end.

(** [get_opposite_color] on an arbitrary character: ['b'] for ['w'], and
    ['w'] for anything else. *)
Definition get_opposite_color_chr (c : ascii) : color :=
  if char_eqb c "w" then Black else White.

(* ------------------------------------------------------------------ *)
(** ** Moves *)

Definition Square : Type := (Z * Z)%type.

(** [((r1,f1),(r2,f2),promotion)] or [('drop', piece_code, (r,f))]. *)
Inductive Move : Type :=
| NormalMove (src dst : Square) (promotion : option ascii)
| DropMove (piece_code : string) (sq : Square).

Definition square_eqb (a b : Square) : bool :=
  (fst a =? fst b) && (snd a =? snd b).

Definition opt_char_eqb (a b : option ascii) : bool :=
  match a, b with
  | None, None => true
  | Some x, Some y => char_eqb x y
  | _, _ => false
  end.

Definition Move_eqb (a b : Move) : bool :=
  match a, b with
  | NormalMove s1 d1 p1, NormalMove s2 d2 p2 =>
      square_eqb s1 s2 && square_eqb d1 d2 && opt_char_eqb p1 p2
  | DropMove c1 q1, DropMove c2 q2 => String.eqb c1 c2 && square_eqb q1 q2
  | _, _ => false
  end.

(** [move in l] *)
Definition move_in (m : Move) (l : list Move) : bool := existsb (Move_eqb m) l.

Definition py_of_square (q : Square) : pyval := PyTuple [PyInt (fst q); PyInt (snd q)].

Definition py_of_move (m : Move) : pyval :=
  match m with
  | NormalMove s d p =>
      PyTuple [py_of_square s; py_of_square d;
               match p with None => PyNone | Some c => PyStr (str1 c) end]
  | DropMove code q => PyTuple [PyStr "drop"; PyStr code; py_of_square q]
  end.

(* ------------------------------------------------------------------ *)
(** ** Hands: insertion-ordered dictionaries

    A hand maps a piece type to a count.  The engine writes the keys
    ['P'], ['N'], ... itself, but a dictionary accepts any hashable key; the
    atoms below are enough to tell apart keys that [sorted] can compare from
    keys it cannot. *)

Inductive hand_key : Type :=
| HStr (s : string)
| HBytes (s : string)
| HInt (z : Z)
| HNone.

Definition hand_key_eqb (a b : hand_key) : bool :=
  match a, b with
  | HStr s, HStr t => String.eqb s t
  | HBytes s, HBytes t => String.eqb s t
  | HInt x, HInt y => x =? y
  | HNone, HNone => true
  | _, _ => false
  end.

Definition hand : Type := list (hand_key * Z).

(** [h.get(k, d)] *)
Fixpoint hand_get (h : hand) (k : hand_key) (d : Z) : Z :=
  match h with
  | [] => d
  | (k', v) :: r => if hand_key_eqb k k' then v else hand_get r k d
  end.

(** [k in h] *)
Definition hand_mem (h : hand) (k : hand_key) : bool :=
  existsb (fun kv => hand_key_eqb k (fst kv)) h.

(** [h[k] = v]: an existing key keeps its place, a new key goes last. *)
Fixpoint hand_set (h : hand) (k : hand_key) (v : Z) : hand :=
  match h with
  | [] => [(k, v)]
  | (k', v') :: r =>
      if hand_key_eqb k k' then (k', v) :: r else (k', v') :: hand_set r k v
  end.

Definition py_of_hand_key (k : hand_key) : pyval :=
  match k with
  | HStr s => PyStr s
  | HBytes s => PyBytes s
  | HInt z => PyInt z
  | HNone => PyNone
  end.

(** [k.upper()]: strings and bytes have the method, the rest raise. *)
Definition hand_key_upper (k : hand_key) : outcome hand_key :=
  match k with
  | HStr s => Ok (HStr (str_upper s))
  | HBytes s => Ok (HBytes (str_upper s))
  | _ => Raise AttributeError
  end.

(* ------------------------------------------------------------------ *)
(** ** gamestate.py: the GameState object

    The record holds every attribute the rules engine or the search reads
    or writes.  [saved_states] (the undo stack of the GUI), the AI switches
    and [ai_depth] are touched by none of the functions below and are
    left out. *)

Record GameState : Type := mkGameState
  { board : list (list ascii);
    current_turn : color;
    hands : hand * hand;                       (* {'w': ..., 'b': ...} *)
    king_pos : option Square * option Square;  (* {'w': ..., 'b': ...} *)
    checkmate : bool;
    stalemate : bool;
    last_move : option Move;
    move_log : list Move;
    game_over_message : string;
    selected_square : option Square;
    selected_drop_piece : option string;
    highlighted_moves : list Move;
    needs_promotion_choice : bool;
    promotion_square : option Square;
    last_move_for_promotion : option Move;
    _all_legal_moves_cache : option (list Move) }.

Definition set_board (gs : GameState) (b : list (list ascii)) : GameState :=
  mkGameState b (current_turn gs) (hands gs) (king_pos gs) (checkmate gs)
    (stalemate gs) (last_move gs) (move_log gs) (game_over_message gs)
    (selected_square gs) (selected_drop_piece gs) (highlighted_moves gs)
    (needs_promotion_choice gs) (promotion_square gs)
    (last_move_for_promotion gs) (_all_legal_moves_cache gs).

Definition set_current_turn (gs : GameState) (c : color) : GameState :=
  mkGameState (board gs) c (hands gs) (king_pos gs) (checkmate gs)
    (stalemate gs) (last_move gs) (move_log gs) (game_over_message gs)
    (selected_square gs) (selected_drop_piece gs) (highlighted_moves gs)
    (needs_promotion_choice gs) (promotion_square gs)
    (last_move_for_promotion gs) (_all_legal_moves_cache gs).

Definition set_hands (gs : GameState) (h : hand * hand) : GameState :=
  mkGameState (board gs) (current_turn gs) h (king_pos gs) (checkmate gs)
    (stalemate gs) (last_move gs) (move_log gs) (game_over_message gs)
    (selected_square gs) (selected_drop_piece gs) (highlighted_moves gs)
    (needs_promotion_choice gs) (promotion_square gs)
    (last_move_for_promotion gs) (_all_legal_moves_cache gs).

Definition set_king_pos (gs : GameState) (k : option Square * option Square) : GameState :=
  mkGameState (board gs) (current_turn gs) (hands gs) k (checkmate gs)
    (stalemate gs) (last_move gs) (move_log gs) (game_over_message gs)
    (selected_square gs) (selected_drop_piece gs) (highlighted_moves gs)
    (needs_promotion_choice gs) (promotion_square gs)
    (last_move_for_promotion gs) (_all_legal_moves_cache gs).

(** [checkmate], [stalemate] and [game_over_message] are set together. *)
Definition set_game_over (gs : GameState) (cm sm : bool) (msg : string) : GameState :=
  mkGameState (board gs) (current_turn gs) (hands gs) (king_pos gs) cm sm
    (last_move gs) (move_log gs) msg
    (selected_square gs) (selected_drop_piece gs) (highlighted_moves gs)
    (needs_promotion_choice gs) (promotion_square gs)
    (last_move_for_promotion gs) (_all_legal_moves_cache gs).

Definition set_last_move (gs : GameState) (m : option Move) (log : list Move) : GameState :=
  mkGameState (board gs) (current_turn gs) (hands gs) (king_pos gs) (checkmate gs)
    (stalemate gs) m log (game_over_message gs)
    (selected_square gs) (selected_drop_piece gs) (highlighted_moves gs)
    (needs_promotion_choice gs) (promotion_square gs)
    (last_move_for_promotion gs) (_all_legal_moves_cache gs).

(** [selected_square = None; selected_drop_piece = None; highlighted_moves = []] *)
Definition clear_selection (gs : GameState) : GameState :=
  mkGameState (board gs) (current_turn gs) (hands gs) (king_pos gs) (checkmate gs)
    (stalemate gs) (last_move gs) (move_log gs) (game_over_message gs)
    None None []
    (needs_promotion_choice gs) (promotion_square gs)
    (last_move_for_promotion gs) (_all_legal_moves_cache gs).

Definition set_promotion (gs : GameState) (needs : bool) (sq : option Square)
    (lm : option Move) : GameState :=
  mkGameState (board gs) (current_turn gs) (hands gs) (king_pos gs) (checkmate gs)
    (stalemate gs) (last_move gs) (move_log gs) (game_over_message gs)
    (selected_square gs) (selected_drop_piece gs) (highlighted_moves gs)
    needs sq lm (_all_legal_moves_cache gs).

Definition set_needs_promotion_choice (gs : GameState) (needs : bool) : GameState :=
  set_promotion gs needs (promotion_square gs) (last_move_for_promotion gs).

Definition set_cache (gs : GameState) (c : option (list Move)) : GameState :=
  mkGameState (board gs) (current_turn gs) (hands gs) (king_pos gs) (checkmate gs)
    (stalemate gs) (last_move gs) (move_log gs) (game_over_message gs)
    (selected_square gs) (selected_drop_piece gs) (highlighted_moves gs)
    (needs_promotion_choice gs) (promotion_square gs)
    (last_move_for_promotion gs) c.

Definition hand_of (gs : GameState) (c : color) : hand :=
  match c with White => fst (hands gs) | Black => snd (hands gs) end.

Definition set_hand_of (gs : GameState) (c : color) (h : hand) : GameState :=
  match c with
  | White => set_hands gs (h, snd (hands gs))
  | Black => set_hands gs (fst (hands gs), h)
  end.

Definition king_of (gs : GameState) (c : color) : option Square :=
  match c with White => fst (king_pos gs) | Black => snd (king_pos gs) end.

Definition set_king_of (gs : GameState) (c : color) (k : option Square) : GameState :=
  match c with
  | White => set_king_pos gs (k, snd (king_pos gs))
  | Black => set_king_pos gs (fst (king_pos gs), k)
  end.

(** [self.board[r][f]] and [self.board[r][f] = x] *)
Definition get_cell (b : list (list ascii)) (r f : Z) : outcome ascii :=
  row <- py_index b r ;; py_index row f.

Definition set_cell (b : list (list ascii)) (r f : Z) (x : ascii)
    : outcome (list (list ascii)) :=
  row <- py_index b r ;;
  row' <- py_setitem row f x ;;
  py_setitem b r row'.

(** [copy.deepcopy(gamestate)] and the pickle round trip: a value is its
    own deep copy. *)
Definition deepcopy (gs : GameState) : GameState := gs.

(** [GameState.copy]: a fresh object; [move_log] and the legal-move cache
    start empty. *)
Definition copy (gs : GameState) : GameState :=
  mkGameState (board gs) (current_turn gs) (hands gs) (king_pos gs) (checkmate gs)
    (stalemate gs) (last_move gs) [] (game_over_message gs)
    (selected_square gs) (selected_drop_piece gs) (highlighted_moves gs)
    (needs_promotion_choice gs) (promotion_square gs)
    (last_move_for_promotion gs) None.

(** [find_kings]: the last ['K'] and the last ['k'] in row-major order. *)
Definition find_kings (gs : GameState) : outcome GameState :=
  let scan (acc : outcome (option Square * option Square)) (rf : Z * Z) :=
    kp <- acc ;;
    piece <- get_cell (board gs) (fst rf) (snd rf) ;;
    if char_eqb piece "K" then Ok (Some rf, snd kp)
    else if char_eqb piece "k" then Ok (fst kp, Some rf)
    else Ok kp in
  kp <- fold_left scan
          (list_prod (range 0 BOARD_SIZE) (range 0 BOARD_SIZE))
          (Ok (None, None)) ;;
  Ok (set_king_pos gs kp).

Definition concatM {A B : Type} (f : A -> outcome (list B)) (l : list A)
    : outcome (list B) :=
  ls <- mapM f l ;; Ok (List.concat ls).

(** [any(f(x) for x in l)], stopping at the first hit. *)
Fixpoint existsM {A : Type} (f : A -> outcome bool) (l : list A) : outcome bool :=
  match l with
  | [] => Ok false
  | x :: r => b <- f x ;; if b then Ok true else existsM f r
  end.

Fixpoint filterM {A : Type} (f : A -> outcome bool) (l : list A) : outcome (list A) :=
  match l with
  | [] => Ok []
  | x :: r => b <- f x ;; ys <- filterM f r ;; Ok (if b then x :: ys else ys)
  end.

Definition color_is (oc : option color) (c : color) : bool :=
  match oc with Some d => color_eqb d c | None => false end.

(** *** Attack detection *)

(** [is_on_board(r, f) and self.board[r][f] == p] *)
Definition cell_is (b : list (list ascii)) (r f : Z) (p : ascii) : outcome bool :=
  if is_on_board r f then c <- get_cell b r f ;; Ok (char_eqb c p) else Ok false.

(** One ray of the [while is_on_board(cr, cf)] loops; a ray leaves the
    board after at most [BOARD_SIZE] squares. *)
Fixpoint ray_attacked (n : nat) (b : list (list ascii)) (cr cf dr df : Z)
    (p1 p2 : ascii) : outcome bool :=
  match n with
  | O => Ok false
  | S m =>
      if is_on_board cr cf then
        piece <- get_cell b cr cf ;;
        if negb (char_eqb piece EMPTY_SQUARE)
        then Ok (char_eqb piece p1 || char_eqb piece p2)
        else ray_attacked m b (cr + dr) (cf + df) dr df p1 p2
      else Ok false
  end.

Definition _internal_is_square_attacked (gs : GameState) (r f : Z)
    (attacker_color : color) : outcome bool :=
  let b := board gs in
  let white := color_eqb attacker_color White in
  let pawn_piece : ascii := (if white then "P" else "p")%char in
  let pawn_dir := if white then -1 else 1 in
  by_pawn <- existsM (fun df_attack => cell_is b (r - pawn_dir) (f + df_attack) pawn_piece)
               [-1; 1] ;;
  if by_pawn then Ok true else
  let knight_piece : ascii := (if white then "N" else "n")%char in
  by_knight <- existsM (fun d => cell_is b (r + fst d) (f + snd d) knight_piece)
                 KNIGHT_MOVES ;;
  if by_knight then Ok true else
  let bishop_piece : ascii := (if white then "B" else "b")%char in
  let rook_piece : ascii := (if white then "R" else "r")%char in
  let queen_piece : ascii := (if white then "Q" else "q")%char in
  by_diag <- existsM (fun d => ray_attacked 6 b (r + fst d) (f + snd d) (fst d) (snd d)
                                 bishop_piece queen_piece) DIAGONAL_MOVES ;;
  if by_diag then Ok true else
  by_line <- existsM (fun d => ray_attacked 6 b (r + fst d) (f + snd d) (fst d) (snd d)
                                 rook_piece queen_piece) STRAIGHT_MOVES ;;
  if by_line then Ok true else
  let king_piece : ascii := (if white then "K" else "k")%char in
  existsM (fun d => cell_is b (r + fst d) (f + snd d) king_piece) KING_MOVES.

(** [is_in_check]: looks the king up again with [find_kings] when its
    position is not recorded, which rewrites [king_pos]. *)
Definition is_in_check (gs : GameState) (c : color) : outcome (bool * GameState) :=
  match king_of gs c with
  | Some (kr, kf) =>
      a <- _internal_is_square_attacked gs kr kf (get_opposite_color c) ;; Ok (a, gs)
  | None =>
      gs' <- find_kings gs ;;
      match king_of gs' c with
      | Some (kr, kf) =>
          a <- _internal_is_square_attacked gs' kr kf (get_opposite_color c) ;;
          Ok (a, gs')
      | None => Ok (false, gs')
      end
  end.

(** *** Move generation *)

Definition promotion_rank (c : color) : Z :=
  match c with White => 0 | Black => BOARD_SIZE - 1 end.

Definition prom_pieces (c : color) : list ascii :=
  match c with
  | White => PROMOTION_PIECES_WHITE_STR
  | Black => PROMOTION_PIECES_BLACK_STR
  end.

(** The moves of a pawn from [(r, f)] to [(nr, nf)]: one per promotion
    piece on the last rank, one plain move elsewhere. *)
Definition pawn_step (r f nr nf : Z) (c : color) : list Move :=
  if nr =? promotion_rank c
  then map (fun p => NormalMove (r, f) (nr, nf) (Some p)) (prom_pieces c)
  else [NormalMove (r, f) (nr, nf) None].

Definition get_pawn_moves (gs : GameState) (r f : Z) (c : color) : outcome (list Move) :=
  let direction := match c with White => -1 | Black => 1 end in
  let nr := r + direction in
  forward <-
    (if is_on_board nr f then
       t <- get_cell (board gs) nr f ;;
       Ok (if char_eqb t EMPTY_SQUARE then pawn_step r f nr f c else [])
     else Ok []) ;;
  captures <-
    concatM (fun df =>
      let nf := f + df in
      if is_on_board nr nf then
        t <- get_cell (board gs) nr nf ;;
        Ok (if negb (char_eqb t EMPTY_SQUARE) && negb (color_is (get_piece_color t) c)
            then pawn_step r f nr nf c else [])
      else Ok []) [-1; 1] ;;
  Ok (forward ++ captures).

(** The shared body of [get_knight_moves] and [get_king_moves]. *)
Definition get_step_moves (gs : GameState) (r f : Z) (c : color)
    (steps : list (Z * Z)) : outcome (list Move) :=
  concatM (fun d =>
    let nr := r + fst d in
    let nf := f + snd d in
    if is_on_board nr nf then
      t <- get_cell (board gs) nr nf ;;
      Ok (if char_eqb t EMPTY_SQUARE || negb (color_is (get_piece_color t) c)
          then [NormalMove (r, f) (nr, nf) None] else [])
    else Ok []) steps.

Definition get_knight_moves (gs : GameState) (r f : Z) (c : color) :=
  get_step_moves gs r f c KNIGHT_MOVES.

Definition get_king_moves (gs : GameState) (r f : Z) (c : color) :=
  get_step_moves gs r f c KING_MOVES.

Fixpoint slide (n : nat) (b : list (list ascii)) (r f : Z) (c : color)
    (nr nf dr df : Z) : outcome (list Move) :=
  match n with
  | O => Ok []
  | S m =>
      if is_on_board nr nf then
        t <- get_cell b nr nf ;;
        if char_eqb t EMPTY_SQUARE then
          rest <- slide m b r f c (nr + dr) (nf + df) dr df ;;
          Ok (NormalMove (r, f) (nr, nf) None :: rest)
        else if negb (color_is (get_piece_color t) c)
        then Ok [NormalMove (r, f) (nr, nf) None]
        else Ok []
      else Ok []
  end.

Definition get_sliding_moves (gs : GameState) (r f : Z) (c : color)
    (directions : list (Z * Z)) : outcome (list Move) :=
  concatM (fun d => slide 6 (board gs) r f c (r + fst d) (f + snd d) (fst d) (snd d))
          directions.

Definition get_bishop_moves (gs : GameState) (r f : Z) (c : color) :=
  get_sliding_moves gs r f c DIAGONAL_MOVES.
Definition get_rook_moves (gs : GameState) (r f : Z) (c : color) :=
  get_sliding_moves gs r f c STRAIGHT_MOVES.
Definition get_queen_moves (gs : GameState) (r f : Z) (c : color) :=
  get_sliding_moves gs r f c (DIAGONAL_MOVES ++ STRAIGHT_MOVES).

(** The drops of one hand entry: every empty square, except the promotion
    rank for a pawn.  The piece code is [color + piece_type_upper], a string
    concatenation. *)
Definition drops_of_entry (gs : GameState) (c : color) (kv : hand_key * Z)
    : outcome (list Move) :=
  let (piece_type_upper, count) := kv in
  if 0 <? count then
    match piece_type_upper with
    | HStr s =>
        let piece_code := String (color_char c) s in
        let is_pawn := String.eqb s "P" in
        concatM (fun r =>
          if is_pawn && (r =? promotion_rank c) then Ok []
          else concatM (fun f =>
                 t <- get_cell (board gs) r f ;;
                 Ok (if char_eqb t EMPTY_SQUARE then [DropMove piece_code (r, f)] else []))
               (range 0 BOARD_SIZE))
          (range 0 BOARD_SIZE)
    | _ => Raise TypeError
    end
  else Ok [].

Definition generate_all_pseudo_legal_moves (gs : GameState) (c : color)
    : outcome (list Move) :=
  board_moves <-
    concatM (fun rf =>
      let (r, f) := (rf : Z * Z) in
      piece <- get_cell (board gs) r f ;;
      if negb (char_eqb piece EMPTY_SQUARE) && color_is (get_piece_color piece) c then
        let piece_type := upper piece in
        if char_eqb piece_type "P" then get_pawn_moves gs r f c
        else if char_eqb piece_type "N" then get_knight_moves gs r f c
        else if char_eqb piece_type "B" then get_bishop_moves gs r f c
        else if char_eqb piece_type "R" then get_rook_moves gs r f c
        else if char_eqb piece_type "Q" then get_queen_moves gs r f c
        else if char_eqb piece_type "K" then get_king_moves gs r f c
        else Ok []
      else Ok [])
      (list_prod (range 0 BOARD_SIZE) (range 0 BOARD_SIZE)) ;;
  drop_moves <- concatM (drops_of_entry gs c) (hand_of gs c) ;;
  Ok (board_moves ++ drop_moves).

(** *** Applying a move *)

Definition str_index (s : string) (i : Z) : outcome ascii :=
  py_index (list_ascii_of_string s) i.

(** How [make_move] left its body: with [return False], at the pending
    promotion ([return True] before the turn changes), or through the final
    part that ends with the optional [check_game_over]. *)
Inductive move_exit : Type :=
| Rejected (gs : GameState)
| Pending (gs : GameState)
| Finalised (gs : GameState).

(** [last_move = move; move_log.append(move); current_turn = opposite;]
    and the selection is cleared. *)
Definition finalise_move (gs : GameState) (move : Move) : GameState :=
  clear_selection
    (set_current_turn (set_last_move gs (Some move) (move_log gs ++ [move]))
                      (get_opposite_color (current_turn gs))).

(** The "ensure all keys exist" loop followed by the increment. *)
Definition add_captured (h : hand) (captured_type : ascii) : hand :=
  let h1 := fold_left (fun acc p => if hand_mem acc (HStr (str1 p)) then acc
                                    else hand_set acc (HStr (str1 p)) 0)
                      ["P"; "N"; "B"; "R"; "Q"]%char h in
  let k := HStr (str1 captured_type) in
  hand_set h1 k (hand_get h1 k 0 + 1).

Definition make_move_body (gs0 : GameState) (move : Move) : outcome move_exit :=
  let gs := set_cache gs0 None in
  if needs_promotion_choice gs then Ok (Rejected gs) else
  match move with
  | DropMove piece_code (r, f) =>
      col <- str_index piece_code 0 ;;
      piece_type_upper <- str_index piece_code 1 ;;
      target <- get_cell (board gs) r f ;;
      if negb (char_eqb target EMPTY_SQUARE) then Ok (Rejected gs) else
      if negb (char_eqb col (color_char (current_turn gs))) then Ok (Rejected gs) else
      let c := current_turn gs in
      let k := HStr (str1 piece_type_upper) in
      if hand_get (hand_of gs c) k 0 <=? 0 then Ok (Rejected gs) else
      if char_eqb piece_type_upper "P" && (r =? promotion_rank c) then Ok (Rejected gs) else
      let correct_piece_char :=
        if char_eqb col "w" then upper piece_type_upper else lower piece_type_upper in
      b' <- set_cell (board gs) r f correct_piece_char ;;
      let gs1 := set_board gs b' in
      let h := hand_of gs1 c in
      let gs2 := set_hand_of gs1 c (hand_set h k (hand_get h k 0 - 1)) in
      Ok (Finalised (finalise_move gs2 move))
  | NormalMove (r1, f1) (r2, f2) promotion_choice =>
      piece <- get_cell (board gs) r1 f1 ;;
      if char_eqb piece EMPTY_SQUARE then Ok (Rejected gs) else
      let moving_color := if isupper piece then White else Black in
      if negb (color_eqb moving_color (current_turn gs)) then Ok (Rejected gs) else
      target_piece <- get_cell (board gs) r2 f2 ;;
      let is_capture := negb (char_eqb target_piece EMPTY_SQUARE) in
      b1 <- set_cell (board gs) r1 f1 EMPTY_SQUARE ;;
      let gs1 := set_board gs b1 in
      let captured_type := upper target_piece in
      let counted := is_capture && negb (char_eqb captured_type "K") in
      let gs2 :=
        if counted
        then set_hand_of gs1 moving_color
               (add_captured (hand_of gs1 moving_color) captured_type)
        else gs1 in
      let gs3 :=
        if char_eqb (upper piece) "K"
        then set_king_of gs2 moving_color (Some (r2, f2)) else gs2 in
      let is_pawn_move := char_eqb (upper piece) "P" in
      if is_pawn_move && (r2 =? promotion_rank moving_color) then
        match promotion_choice with
        | Some choice =>
            if negb (existsb (char_eqb choice) (prom_pieces moving_color)) then
              b2 <- set_cell (board gs3) r1 f1 piece ;;
              let gs4 := set_board gs3 b2 in
              let k := HStr (str1 captured_type) in
              let h := hand_of gs4 moving_color in
              Ok (Rejected (if counted
                            then set_hand_of gs4 moving_color
                                   (hand_set h k (hand_get h k 0 - 1))
                            else gs4))
            else
              b2 <- set_cell (board gs3) r2 f2 choice ;;
              Ok (Finalised (finalise_move
                    (set_promotion (set_board gs3 b2) false None None) move))
        | None =>
            b2 <- set_cell (board gs3) r2 f2 piece ;;
            let base := NormalMove (r1, f1) (r2, f2) None in
            let gs4 := set_promotion (set_board gs3 b2) true (Some (r2, f2)) (Some base) in
            Ok (Pending (set_last_move gs4 (Some base) (move_log gs4 ++ [base])))
        end
      else
        b2 <- set_cell (board gs3) r2 f2 piece ;;
        Ok (Finalised (finalise_move
              (set_needs_promotion_choice (set_board gs3 b2) false) move))
  end.

(** [make_move(move, is_check_game_over=False)] *)
Definition make_move_no_check (gs : GameState) (move : Move)
    : outcome (bool * GameState) :=
  e <- make_move_body gs move ;;
  match e with
  | Rejected gs' => Ok (false, gs')
  | Pending gs' | Finalised gs' => Ok (true, gs')
  end.

(** [get_all_legal_moves]: answers from [_all_legal_moves_cache] when it
    is filled, and fills it otherwise.  Each pseudo-legal move is tried on a
    [copy] of the state. *)
Definition get_all_legal_moves (gs : GameState) : outcome (list Move * GameState) :=
  match _all_legal_moves_cache gs with
  | Some l => Ok (l, gs)
  | None =>
      if needs_promotion_choice gs then Ok ([], set_cache gs (Some []))
      else
        let current_color := current_turn gs in
        pseudo <- generate_all_pseudo_legal_moves gs current_color ;;
        legal <- filterM (fun move =>
                   '(move_made, temp) <- make_move_no_check (copy gs) move ;;
                   if move_made then
                     '(is_check_after, _) <- is_in_check temp current_color ;;
                     Ok (negb is_check_after)
                   else Ok false) pseudo ;;
        Ok (legal, set_cache gs (Some legal))
  end.

Definition check_game_over (gs : GameState) : outcome (bool * GameState) :=
  if needs_promotion_choice gs then Ok (false, gs) else
  '(legal_moves, gs1) <- get_all_legal_moves gs ;;
  match legal_moves with
  | [] =>
      '(chk, gs2) <- is_in_check gs1 (current_turn gs1) ;;
      if chk then
        Ok (true, set_game_over gs2 true (stalemate gs2)
                    (match current_turn gs1 with
                     | White => "Checkmate! Black wins."
                     | Black => "Checkmate! White wins."
                     end))
      else Ok (true, set_game_over gs2 (checkmate gs2) true "Stalemate! Draw.")
  | _ => Ok (false, set_game_over gs1 false false EmptyString)
  end.

(** [make_move(move, is_check_game_over)] *)
Definition make_move (gs : GameState) (move : Move) (is_check_game_over : bool)
    : outcome (bool * GameState) :=
  e <- make_move_body gs move ;;
  match e with
  | Rejected gs' => Ok (false, gs')
  | Pending gs' => Ok (true, gs')
  | Finalised gs' =>
      if is_check_game_over
      then '(_, gs'') <- check_game_over gs' ;; Ok (true, gs'')
      else Ok (true, gs')
  end.

Definition completed_move (lm : Move) (chosen : ascii) : outcome Move :=
  match lm with
  | NormalMove s d _ => Ok (NormalMove s d (Some chosen))
  | DropMove _ _ => Raise ValueError
  end.

Definition complete_promotion (gs : GameState) (chosen_piece_char : ascii)
    : outcome (bool * GameState) :=
  match needs_promotion_choice gs, promotion_square gs with
  | true, Some (r, f) =>
      let original_player_color := get_opposite_color (current_turn gs) in
      if negb (existsb (char_eqb chosen_piece_char) (prom_pieces original_player_color))
      then Ok (false, gs)
      else
        b <- set_cell (board gs) r f chosen_piece_char ;;
        let gs1 := set_board gs b in
        gs2 <-
          match move_log gs1, last_move_for_promotion gs1 with
          | _ :: _, Some lmp =>
              cm <- completed_move lmp chosen_piece_char ;;
              if Move_eqb (last (move_log gs1) lmp) lmp
              then Ok (set_last_move gs1 (Some cm) (removelast (move_log gs1) ++ [cm]))
              else Ok (set_last_move gs1 (Some cm) (move_log gs1))
          | _, _ =>
              match last_move gs1 with
              | Some (NormalMove s d _) =>
                  if square_eqb d (r, f)
                  then Ok (set_last_move gs1 (Some (NormalMove s d (Some chosen_piece_char)))
                                         (move_log gs1))
                  else Ok gs1
              | _ => Ok gs1
              end
          end ;;
        let gs3 := set_cache (clear_selection (set_promotion gs2 false None None)) None in
        '(_, gs4) <- check_game_over gs3 ;;
        Ok (true, gs4)
  | _, _ => Ok (false, gs)
  end.

(** [is_move_legal]: GameState has no such method, so ai.py installs its
    stub, [move in self.get_all_legal_moves()] under a [try] that answers
    [False]. *)
Definition is_move_legal (gs : GameState) (move : Move) : outcome (bool * GameState) :=
  match get_all_legal_moves gs with
  | Ok (l, gs') => Ok (move_in move l, gs')
  | Raise _ => Ok (false, gs)
  | OutOfFuel => OutOfFuel
  end.

(** [GameState()] followed by [setup_initial_board()]. *)
Definition initial_state : GameState :=
  mkGameState
    [ ["."; "."; "b"; "n"; "r"; "k"];
      ["."; "."; "."; "."; "."; "p"];
      ["."; "."; "."; "."; "."; "."];
      ["."; "."; "."; "."; "."; "."];
      ["P"; "."; "."; "."; "."; "."];
      ["K"; "R"; "N"; "B"; "."; "."] ]%char
    White
    ([(HStr "P", 0); (HStr "N", 0); (HStr "B", 0); (HStr "R", 0)],
     [(HStr "P", 0); (HStr "N", 0); (HStr "B", 0); (HStr "R", 0)])
    (Some (5, 0), Some (0, 5))
    false false None [] EmptyString None None [] false None None None.

(* ------------------------------------------------------------------ *)
(** ** ai.py: scores and constants

    The engine mixes Python ints with [float('inf')] and with floats that
    hold whole numbers (an attacker count in halves times an even bonus), so
    a score is an integer or an infinity. *)

Inductive score : Type := NegInf | Num (z : Z) | PosInf.

Definition score_ltb (a b : score) : bool :=
  match a, b with
  | NegInf, NegInf => false
  | NegInf, _ => true
  | Num _, NegInf => false
  | Num x, Num y => x <? y
  | Num _, PosInf => true
  | PosInf, _ => false
  end.

Definition score_leb (a b : score) : bool := negb (score_ltb b a).

Definition score_eqb (a b : score) : bool :=
  match a, b with
  | NegInf, NegInf | PosInf, PosInf => true
  | Num x, Num y => x =? y
  | _, _ => false
  end.

(** Python's [max(a, b)] keeps [a] unless [b > a]; [min(a, b)] keeps [a]
    unless [b < a]. *)
Definition score_max (a b : score) : score := if score_ltb a b then b else a.
Definition score_min (a b : score) : score := if score_ltb b a then b else a.

Definition score_lt (a b : score) : Prop := score_ltb a b = true.
Definition score_le (a b : score) : Prop := score_leb a b = true.

Definition PIECE_VALUES : list (string * Z) :=
  [("P", 100); ("N", 320); ("B", 330); ("R", 500); ("Q", 900); ("K", 20000)].
Definition HAND_PIECE_VALUES : list (string * Z) :=
  [("P", 150); ("N", 400); ("B", 410); ("R", 650); ("Q", 1000)].

(** [d.get(k, default)] for the two constant tables. *)
Fixpoint table_get (d : list (string * Z)) (k : string) (default : Z) : Z :=
  match d with
  | [] => default
  | (k', v) :: r => if String.eqb k k' then v else table_get r k default
  end.

(** A table keyed by strings never holds a bytes key. *)
Definition table_get_key (d : list (string * Z)) (k : hand_key) (default : Z) : Z :=
  match k with
  | HStr s => table_get d s default
  | _ => default
  end.

(** [PIECE_VALUES.get(piece.upper(), 0)] for a board character. *)
Definition piece_value (piece : ascii) : Z :=
  table_get PIECE_VALUES (str1 (upper piece)) 0.

Definition OPENING_PHASE : Z := 0.
Definition ENDGAME_PHASE : Z := 1.
Definition CENTER_SQUARES : list Square := [(2, 2); (2, 3); (3, 2); (3, 3)].
Definition CENTER_BONUS : Z := 15.
Definition KING_SAFETY_BONUS : Z := 8.
Definition PAWN_STRUCTURE_BONUS : Z := 5.
Definition ATTACK_KING_ZONE_BONUS : Z := 20.
Definition DROP_THREAT_BONUS : Z := 25.

Definition CHECKMATE_SCORE : Z := 1000000.
Definition STALEMATE_SCORE : Z := 0.
Definition MAX_QUIESCENCE_DEPTH : Z := 4.

Definition in_center (q : Square) : bool := existsb (square_eqb q) CENTER_SQUARES.

(* ------------------------------------------------------------------ *)
(** ** ai.py: get_position_hash *)

(** [a < b] on dictionary keys: defined inside one type, a TypeError across
    types and on [None]. *)
Definition key_lt (a b : hand_key) : outcome bool :=
  match a, b with
  | HStr s, HStr t => Ok (String.ltb s t)
  | HBytes s, HBytes t => Ok (String.ltb s t)
  | HInt x, HInt y => Ok (x <? y)
  | _, _ => Raise TypeError
  end.

(** [(k1, v1) < (k2, v2)]: the first components that differ decide. *)
Definition item_lt (a b : hand_key * Z) : outcome bool :=
  if hand_key_eqb (fst a) (fst b)
  then Ok (snd a <? snd b)
  else key_lt (fst a) (fst b).

Fixpoint insert_sorted (x : hand_key * Z) (l : list (hand_key * Z))
    : outcome (list (hand_key * Z)) :=
  match l with
  | [] => Ok [x]
  | y :: r =>
      lt <- item_lt x y ;;
      if lt then Ok (x :: y :: r)
      else r' <- insert_sorted x r ;; Ok (y :: r')
  end.

(** [sorted(d.items())]; any TypeError of a comparison escapes. *)
Fixpoint py_sorted (l : list (hand_key * Z)) : outcome (list (hand_key * Z)) :=
  match l with
  | [] => Ok []
  | x :: r => r' <- py_sorted r ;; insert_sorted x r'
  end.

Definition py_of_item (kv : hand_key * Z) : pyval :=
  PyTuple [py_of_hand_key (fst kv); PyInt (snd kv)].

Definition error_hash : string := "error_hash".

(** The body of the [try]: GameState has neither [en_passant_target] nor
    the four castling attributes, so [getattr] yields its defaults. *)
Definition state_string (gs : GameState) : outcome string :=
  let board_tuple := PyTuple (map (fun row => PyStr (string_of_list_ascii row)) (board gs)) in
  white_hand <- py_sorted (hand_of gs White) ;;
  black_hand <- py_sorted (hand_of gs Black) ;;
  let white_hand_tuple := PyTuple (map py_of_item white_hand) in
  let black_hand_tuple := PyTuple (map py_of_item black_hand) in
  let turn := PyStr (str1 (color_char (current_turn gs))) in
  let en_passant := PyNone in
  let castling := PyTuple [PyBool false; PyBool false; PyBool false; PyBool false] in
  Ok (repr (PyTuple [board_tuple; white_hand_tuple; black_hand_tuple; turn;
                     en_passant; castling])).

Definition get_position_hash (gs : GameState) : string :=
  match state_string gs with
  | Ok s => SHA256.hexdigest (encode_utf8 s)
  | _ => error_hash
  end.

(* ------------------------------------------------------------------ *)
(** ** ai.py: evaluate_position *)

Fixpoint foldM {A B : Type} (f : B -> A -> outcome B) (l : list A) (acc : B) : outcome B :=
  match l with
  | [] => Ok acc
  | x :: r => acc' <- f acc x ;; foldM f r acc'
  end.

Definition all_squares : list Square :=
  list_prod (range 0 BOARD_SIZE) (range 0 BOARD_SIZE).

(** Board material of the stalemate branch: (white, black). *)
Definition board_material (gs : GameState) : outcome (Z * Z) :=
  foldM (fun (acc : Z * Z) (rc : Square) =>
           piece <- get_cell (board gs) (fst rc) (snd rc) ;;
           if negb (char_eqb piece EMPTY_SQUARE) then
             let value := piece_value piece in
             if color_is (get_piece_color piece) White
             then Ok (fst acc + value, snd acc)
             else Ok (fst acc, snd acc + value)
           else Ok acc)
        all_squares (0, 0).

(** [sum of TABLE.get(piece.upper(), 0) * count] over a hand. *)
Definition hand_material (table : list (string * Z)) (h : hand) : outcome Z :=
  foldM (fun acc (kv : hand_key * Z) =>
           k <- hand_key_upper (fst kv) ;;
           Ok (acc + table_get_key table k 0 * snd kv))
        h 0.

Definition stalemate_score (gs : GameState) : outcome score :=
  '(wb, bb) <- board_material gs ;;
  wh <- hand_material HAND_PIECE_VALUES (hand_of gs White) ;;
  bh <- hand_material HAND_PIECE_VALUES (hand_of gs Black) ;;
  let white_material := wb + wh in
  let black_material := bb + bh in
  let material_diff := white_material - black_material in
  if color_eqb (current_turn gs) White && (100 <? material_diff) then Ok (Num (-10000))
  else if color_eqb (current_turn gs) Black && (material_diff <? -100) then Ok (Num 10000)
  else Ok (Num 0).

Definition king_rc (k : option Square) : Z * Z :=
  match k with Some p => p | None => (-1, -1) end.

(** Step 1 of the evaluation: material, centre, king proximity; collects
    the pawns and the total material. *)
Record eval_acc : Type := mkEvalAcc
  { ea_score : Z; ea_total : Z; ea_wp : list Square; ea_bp : list Square }.

Definition eval_board (gs : GameState) (wk bk : Z * Z) : outcome eval_acc :=
  foldM (fun (a : eval_acc) (rc : Square) =>
    let (r, c) := rc in
    piece <- get_cell (board gs) r c ;;
    if negb (char_eqb piece EMPTY_SQUARE) then
      let piece_type := upper piece in
      let value := piece_value piece in
      let total := ea_total a + value in
      let near (k : Z * Z) :=
        negb (fst k =? -1) && negb (char_eqb piece_type "K")
        && (Z.max (Z.abs (r - fst k)) (Z.abs (c - snd k)) <=? 2) in
      if color_is (get_piece_color piece) White then
        let s := ea_score a + value
                 + (if in_center rc then CENTER_BONUS else 0)
                 + (if near wk then KING_SAFETY_BONUS else 0) in
        Ok (mkEvalAcc s total
              (if char_eqb piece_type "P" then ea_wp a ++ [rc] else ea_wp a) (ea_bp a))
      else
        let s := ea_score a - value
                 - (if in_center rc then CENTER_BONUS else 0)
                 - (if near bk then KING_SAFETY_BONUS else 0) in
        Ok (mkEvalAcc s total (ea_wp a)
              (if char_eqb piece_type "P" then ea_bp a ++ [rc] else ea_bp a))
    else Ok a)
    all_squares (mkEvalAcc 0 0 [] []).

(** [sum(h.values())] *)
Definition hand_count (h : hand) : Z := fold_left (fun acc kv => acc + snd kv) h 0.

(** Does one of the three squares of row [scan_r] in front of the pawn hold
    an enemy pawn?  (The body of the [is_passed] loops.) *)
Definition blocked_at (gs : GameState) (scan_r c : Z) (enemy : ascii) : outcome bool :=
  a <- get_cell (board gs) scan_r c ;;
  if char_eqb a enemy then Ok true else
  l <- (if 0 <? c then x <- get_cell (board gs) scan_r (c - 1) ;; Ok (char_eqb x enemy)
        else Ok false) ;;
  if l then Ok true else
  if c <? BOARD_SIZE - 1
  then x <- get_cell (board gs) scan_r (c + 1) ;; Ok (char_eqb x enemy)
  else Ok false.

(** Step 3: connected and passed pawns of one side, as a bonus for it. *)
Definition pawn_bonus (gs : GameState) (white : bool) (rc : Square) : outcome Z :=
  let (r, c) := rc in
  let own : ascii := (if white then "P" else "p")%char in
  let enemy : ascii := (if white then "p" else "P")%char in
  l <- (if 0 <? c then x <- get_cell (board gs) r (c - 1) ;; Ok (char_eqb x own)
        else Ok false) ;;
  rt <- (if c <? BOARD_SIZE - 1
         then x <- get_cell (board gs) r (c + 1) ;; Ok (char_eqb x own)
         else Ok false) ;;
  let rows := if white then rev (range 0 r) else range (r + 1) BOARD_SIZE in
  blocked <- existsM (fun scan_r => blocked_at gs scan_r c enemy) rows ;;
  Ok ((if l then PAWN_STRUCTURE_BONUS else 0)
      + (if rt then PAWN_STRUCTURE_BONUS else 0)
      + (if blocked then 0
         else if white then (BOARD_SIZE - 1 - r) * 10 else r * 10)).

(** Step 5: minor pieces and rooks still on the back rank [row]. *)
Definition undeveloped (gs : GameState) (row : Z) (pieces : list ascii) : outcome Z :=
  foldM (fun acc c =>
           piece <- get_cell (board gs) row c ;;
           Ok (if existsb (char_eqb piece) pieces
                  && negb (char_eqb piece EMPTY_SQUARE)
               then acc + 1 else acc))
        (range 0 BOARD_SIZE) 0.

(** Step 6: pressure of the pieces of colour [att] on the eight squares
    around the king at [(kr, kc)], counted in halves (a knight adds 1, a
    bishop, rook or queen line adds 0.5). *)
Definition attack_halves (gs : GameState) (att : color) (kr kc : Z) : outcome Z :=
  foldM (fun acc (d : Z * Z) =>
    let (dr, dc) := d in
    if (dr =? 0) && (dc =? 0) then Ok acc else
    let check_r := kr + dr in
    let check_c := kc + dc in
    if is_on_board check_r check_c then
      foldM (fun acc2 (rc : Square) =>
        let (r, c) := rc in
        piece <- get_cell (board gs) r c ;;
        if negb (char_eqb piece EMPTY_SQUARE) && color_is (get_piece_color piece) att then
          let piece_type := upper piece in
          if char_eqb piece_type "N" then
            Ok (if existsb (square_eqb (check_r - r, check_c - c)) KNIGHT_MOVES
                then acc2 + 2 else acc2)
          else if char_eqb piece_type "B" || char_eqb piece_type "Q" then
            Ok (if (Z.abs (check_r - r) =? Z.abs (check_c - c)) && negb (check_r =? r)
                then acc2 + 1 else acc2)
          else if char_eqb piece_type "R" || char_eqb piece_type "Q" then
            Ok (if ((check_r =? r) || (check_c =? c))
                   && negb ((check_r =? r) && (check_c =? c))
                then acc2 + 1 else acc2)
          else Ok acc2
        else Ok acc2) all_squares acc
    else Ok acc)
    (list_prod [-1; 0; 1] [-1; 0; 1]) 0.

Definition full_evaluation (gs : GameState) : outcome Z :=
  let wk := king_rc (king_of gs White) in
  let bk := king_rc (king_of gs Black) in
  a <- eval_board gs wk bk ;;
  let white_hand_count := hand_count (hand_of gs White) in
  let black_hand_count := hand_count (hand_of gs Black) in
  wh <- hand_material HAND_PIECE_VALUES (hand_of gs White) ;;
  wt <- hand_material PIECE_VALUES (hand_of gs White) ;;
  bh <- hand_material HAND_PIECE_VALUES (hand_of gs Black) ;;
  bt <- hand_material PIECE_VALUES (hand_of gs Black) ;;
  let score1 := ea_score a + wh - bh
                + white_hand_count * DROP_THREAT_BONUS
                - black_hand_count * DROP_THREAT_BONUS in
  let total_material := ea_total a + wt + bt in
  let phase :=
    if total_material <? 2 * table_get PIECE_VALUES "R" 0 + 2 * table_get PIECE_VALUES "K" 0
    then ENDGAME_PHASE else OPENING_PHASE in
  wpawn <- foldM (fun acc rc => b <- pawn_bonus gs true rc ;; Ok (acc + b)) (ea_wp a) 0 ;;
  bpawn <- foldM (fun acc rc => b <- pawn_bonus gs false rc ;; Ok (acc + b)) (ea_bp a) 0 ;;
  let score3 := score1 + wpawn - bpawn in
  let king_term :=
    if phase =? OPENING_PHASE
    then (if in_center wk then -20 else 0) + (if in_center bk then 20 else 0)
    else (if in_center wk then 10 else 0) + (if in_center bk then -10 else 0) in
  let score4 := score3 + king_term in
  score5 <-
    (if phase =? OPENING_PHASE then
       wu <- undeveloped gs 5 ["N"; "B"; "R"]%char ;;
       bu <- undeveloped gs 0 ["n"; "b"; "r"]%char ;;
       Ok (score4 - wu * 15 + bu * 15)
     else Ok score4) ;;
  score6 <-
    (if negb (fst wk =? -1) && negb (fst bk =? -1) then
       wa <- attack_halves gs White (fst bk) (snd bk) ;;
       ba <- attack_halves gs Black (fst wk) (snd wk) ;;
       Ok (score5 + wa * (ATTACK_KING_ZONE_BONUS / 2) - ba * (ATTACK_KING_ZONE_BONUS / 2))
     else Ok score5) ;;
  Ok (score6 + (if color_eqb (current_turn gs) White then 10 else -10)).

Definition evaluate_position (gs : GameState) : outcome score :=
  if checkmate gs then
    Ok (if color_eqb (current_turn gs) White then NegInf else PosInf)
  else if stalemate gs then stalemate_score gs
  else z <- full_evaluation gs ;; Ok (Num z).

(* ------------------------------------------------------------------ *)
(** ** ai.py: the global tables

    [tt], [killer_moves] and [history_scores] are module-level
    dictionaries.  A dictionary is an association list in insertion order
    with one entry per key. *)

Section Dict.
Variables (K V : Type) (keq : K -> K -> bool).

Fixpoint dict_get (d : list (K * V)) (k : K) : option V :=
  match d with
  | [] => None
  | (k', v) :: r => if keq k k' then Some v else dict_get r k
  end.

Fixpoint dict_set (d : list (K * V)) (k : K) (v : V) : list (K * V) :=
  match d with
  | [] => [(k, v)]
  | (k', v') :: r => if keq k k' then (k', v) :: r else (k', v') :: dict_set r k v
  end.

End Dict.

Inductive tt_flag : Type := EXACT | LOWERBOUND | UPPERBOUND.

Record tt_entry : Type := mkEntry
  { te_depth : Z; te_score : score; te_flag : tt_flag; te_best_move : option Move }.

Record Tables : Type := mkTables
  { tt : list (string * tt_entry);
    killer_moves : list (Z * list Move);
    history_scores : list (string * Z) }.

Definition empty_tables : Tables := mkTables [] [] [].

Definition tt_get (t : Tables) (h : string) : option tt_entry :=
  dict_get String.eqb (tt t) h.

(** [killer_moves.get(depth, [])] *)
Definition killers_get (t : Tables) (depth : Z) : list Move :=
  match dict_get Z.eqb (killer_moves t) depth with
  | Some l => l
  | None => []
  end.

(** [history_scores.get(move_repr, 0)] *)
Definition history_get (t : Tables) (move_repr : string) : Z :=
  match dict_get String.eqb (history_scores t) move_repr with
  | Some z => z
  | None => 0
  end.

(* ------------------------------------------------------------------ *)
(** ** ai.py: mvv_lva_score

    The function inspects its argument at run time ([isinstance], tuple
    unpacking), so it is modelled on Python values. *)

(** [a, b = v] *)
Definition unpack2 (v : pyval) : outcome (pyval * pyval) :=
  match v with
  | PyTuple [a; b] | PyList [a; b] => Ok (a, b)
  | PyStr (String a (String b EmptyString)) => Ok (PyStr (str1 a), PyStr (str1 b))
  | PyBytes (String a (String b EmptyString)) => Ok (PyInt (ord a), PyInt (ord b))
  | PyTuple _ | PyList _ | PyStr _ | PyBytes _ => Raise ValueError
  | _ => Raise TypeError
  end.

(** [v == z] for an int constant [z] *)
Definition py_eq_int (v : pyval) (z : Z) : bool :=
  match v with
  | PyInt x => x =? z
  | PyBool b => (if b then 1 else 0) =? z
  | _ => false
  end.

(** [(a, b) in CENTER_SQUARES] *)
Definition py_in_center (a b : pyval) : bool :=
  existsb (fun q => py_eq_int a (fst q) && py_eq_int b (snd q)) CENTER_SQUARES.

(** [max(abs(r - ek_r), abs(c - ek_c)) <= 2] when the king is recorded *)
Definition near_king (k : option Square) (r c : Z) : bool :=
  match k with
  | Some (ek_r, ek_c) => Z.max (Z.abs (r - ek_r)) (Z.abs (c - ek_c)) <=? 2
  | None => false
  end.

Definition is_drop_tag (v : pyval) : bool :=
  match v with PyStr s => String.eqb s "drop" | _ => false end.

Definition mvv_lva_normal (gs : GameState) (t : Tables) (move : pyval) (l : list pyval)
    : outcome Z :=
  match l with
  | [src; dst; promotion] =>
      '(start_r, start_c) <- unpack2 src ;;
      '(end_r, end_c) <- unpack2 dst ;;
      sr <- as_int start_r ;;
      row <- py_index (board gs) sr ;;
      sc <- as_int start_c ;;
      aggressor_piece <- py_index row sc ;;
      er <- as_int end_r ;;
      row2 <- py_index (board gs) er ;;
      ec <- as_int end_c ;;
      victim_piece <- py_index row2 ec ;;
      if char_eqb aggressor_piece EMPTY_SQUARE then Ok 0 else
      let aggressor_value := piece_value aggressor_piece in
      let piece_color := if isupper aggressor_piece then White else Black in
      let s1 := if negb (char_eqb victim_piece EMPTY_SQUARE)
                then piece_value victim_piece * 10 - aggressor_value else 0 in
      let s2 := if truthy promotion then 900 else 0 in
      let enemy_color := get_opposite_color piece_color in
      let s3 := if near_king (king_of gs enemy_color) er ec then 500 else 0 in
      let s4 := if py_in_center end_r end_c then 30 else 0 in
      let s5 := if color_eqb piece_color White && (sr =? 5) && (er <? 5) then 20
                else if color_eqb piece_color Black && (sr =? 0) && (0 <? er) then 20
                else 0 in
      Ok (s1 + s2 + s3 + s4 + s5 + history_get t (repr move))
  | _ => Raise ValueError
  end.

Definition mvv_lva_drop (gs : GameState) (t : Tables) (move : pyval) (l : list pyval)
    : outcome Z :=
  piece_code <- py_index l 1 ;;
  match piece_code with
  | PyStr (String c0 (String c1 EmptyString)) =>
      sq <- py_index l 2 ;;
      '(drop_r, drop_c) <- unpack2 sq ;;
      let piece_type := str1 (upper c1) in
      let base := table_get HAND_PIECE_VALUES piece_type 0 / 10 in
      let b1 := if py_in_center drop_r drop_c then base + 50 else base in
      let enemy_color := get_opposite_color_chr c0 in
      b2 <- match king_of gs enemy_color with
            | Some (ek_r, ek_c) =>
                r <- as_int drop_r ;;
                c <- as_int drop_c ;;
                Ok (if Z.max (Z.abs (r - ek_r)) (Z.abs (c - ek_c)) <=? 2
                    then b1 + 100 else b1)
            | None => Ok b1
            end ;;
      Ok (b2 + history_get t (repr move))
  | _ => Ok 0
  end.

Definition mvv_lva_score (gs : GameState) (t : Tables) (move : pyval) : outcome Z :=
  match move with
  | PyTuple (first :: rest) =>
      if negb (is_drop_tag first)
      then mvv_lva_normal gs t move (first :: rest)
      else mvv_lva_drop gs t move (first :: rest)
  | _ => Ok 0
  end.

(* ------------------------------------------------------------------ *)
(** ** Sorting moves: [list.sort(key=..., reverse=True)]

    The keys are computed first (an exception of the key function escapes),
    then the list is sorted stably, greatest key first. *)

Fixpoint insert_desc (x : Z * Move) (l : list (Z * Move)) : list (Z * Move) :=
  match l with
  | [] => [x]
  | y :: r => if fst y <=? fst x then x :: y :: r else y :: insert_desc x r
  end.

Definition sort_desc (l : list (Z * Move)) : list (Z * Move) :=
  fold_right insert_desc [] l.

Definition sort_moves (key : Move -> outcome Z) (moves : list Move) : outcome (list Move) :=
  keys <- mapM key moves ;;
  Ok (map snd (sort_desc (combine keys moves))).

(* ------------------------------------------------------------------ *)
(** ** ai.py: get_noisy_moves and quiescence_search *)

(** The [try] around each move swallows the IndexError of a destination
    outside the board. *)
Definition is_noisy (gs : GameState) (move : Move) : bool :=
  match move with
  | DropMove _ _ => false
  | NormalMove _ (end_r, end_c) promotion =>
      match get_cell (board gs) end_r end_c with
      | Ok t => negb (char_eqb t EMPTY_SQUARE)
                || match promotion with Some _ => true | None => false end
      | _ => false
      end
  end.

Definition get_noisy_moves (gs : GameState) : outcome (list Move * GameState) :=
  '(moves, gs') <- get_all_legal_moves gs ;;
  Ok (filter (is_noisy gs') moves, gs').

(** ['Q'], or ['R'] when the queen is not a promotion piece and the rook is. *)
Definition best_prom_piece (white : bool) : ascii :=
  let pieces := if white then PROMOTION_PIECES_WHITE_STR else PROMOTION_PIECES_BLACK_STR in
  let q : ascii := (if white then "Q" else "q")%char in
  let r : ascii := (if white then "R" else "r")%char in
  if negb (existsb (char_eqb q) pieces) && existsb (char_eqb r) pieces then r else q.

(** The state after [move] on a deep copy, with a pending promotion
    resolved; [None] stands for [continue]. *)
Definition child_state (gs : GameState) (move : Move) (white : bool)
    : outcome (option GameState) :=
  '(move_made, next_state) <- make_move (deepcopy gs) move false ;;
  if negb move_made then Ok None else
  if needs_promotion_choice next_state then
    '(done, next_state') <- complete_promotion next_state (best_prom_piece white) ;;
    Ok (if done then Some next_state' else None)
  else Ok (Some next_state).

(** The [for move in noisy_moves] loop of one side; the result is the value
    the function returns. *)
Fixpoint quiescence_loop (rec : GameState -> score -> score -> outcome score)
    (white : bool) (gs : GameState) (moves : list Move) (alpha beta : score)
    : outcome score :=
  match moves with
  | [] => Ok (if white then alpha else beta)
  | move :: rest =>
      next <- child_state gs move white ;;
      match next with
      | None => quiescence_loop rec white gs rest alpha beta
      | Some next_state =>
          s <- rec next_state alpha beta ;;
          let alpha' := if white then score_max alpha s else alpha in
          let beta' := if white then beta else score_min beta s in
          if score_leb beta' alpha'
          then Ok (if white then beta' else alpha')
          else quiescence_loop rec white gs rest alpha' beta'
      end
  end.

(** [quiescence_search(gamestate, alpha, beta, depth)].  The second
    component is the caller's state object afterwards: [get_noisy_moves]
    fills its legal-move cache. *)
Fixpoint quiescence_search (fuel : nat) (t : Tables) (gs : GameState)
    (alpha beta : score) (depth : Z) : outcome (score * GameState) :=
  match fuel with
  | O => OutOfFuel
  | S fuel' =>
      if checkmate gs || stalemate gs then
        s <- evaluate_position gs ;; Ok (s, gs)
      else
        stand_pat_score <- evaluate_position gs ;;
        if depth =? 0 then Ok (stand_pat_score, gs) else
        let white := color_eqb (current_turn gs) White in
        if (if white then score_leb beta stand_pat_score
            else score_leb stand_pat_score alpha)
        then Ok (if white then beta else alpha, gs)
        else
          let alpha' := if white then score_max alpha stand_pat_score else alpha in
          let beta' := if white then beta else score_min beta stand_pat_score in
          '(noisy, gs') <- get_noisy_moves gs ;;
          noisy_moves <- sort_moves (fun m => mvv_lva_score gs' t (py_of_move m)) noisy ;;
          s <- quiescence_loop
                 (fun ns a b => '(s, _) <- quiescence_search fuel' t ns a b (depth - 1) ;; Ok s)
                 white gs' noisy_moves alpha' beta' ;;
          Ok (s, gs')
  end.

(* ------------------------------------------------------------------ *)
(** ** ai.py: minimax_alpha_beta *)

(** The running values of the move loop: [max_eval] or [min_eval],
    [best_move_for_depth], [alpha], [beta]. *)
Record loop_state : Type := mkLoop
  { ls_eval : score; ls_best : option Move; ls_alpha : score; ls_beta : score }.

(** The update of the killer and history tables at a cutoff. *)
Definition record_cutoff (depth : Z) (best : Move) (t : Tables) : Tables :=
  let move_repr := repr (py_of_move best) in
  let history' :=
    dict_set String.eqb (history_scores t) move_repr
             (history_get t move_repr + depth * depth) in
  let killers0 :=
    match dict_get Z.eqb (killer_moves t) depth with
    | Some _ => killer_moves t
    | None => dict_set Z.eqb (killer_moves t) depth []
    end in
  let l := match dict_get Z.eqb killers0 depth with Some l => l | None => [] end in
  let killers' :=
    if negb (move_in best l) then
      let l1 := best :: l in
      let l2 := if (2 <? Z.of_nat (List.length l1)) then removelast l1 else l1 in
      dict_set Z.eqb killers0 depth l2
    else killers0 in
  mkTables (tt t) killers' history'.

(** What follows the recursive call in the loop body: the new running
    values, the tables, and whether the loop breaks. *)
Definition ab_update (maximizing : bool) (depth : Z) (move : Move) (eval_score : score)
    (st : loop_state) (t : Tables) : bool * loop_state * Tables :=
  let better := if maximizing then score_ltb (ls_eval st) eval_score
                else score_ltb eval_score (ls_eval st) in
  let ev := if better then eval_score else ls_eval st in
  let best := if better then Some move else ls_best st in
  let alpha := if maximizing then score_max (ls_alpha st) eval_score else ls_alpha st in
  let beta := if maximizing then ls_beta st else score_min (ls_beta st) eval_score in
  let st' := mkLoop ev best alpha beta in
  if score_leb beta alpha then
    (true, st', match best with Some b => record_cutoff depth b t | None => t end)
  else (false, st', t).

Fixpoint ab_loop
    (rec : GameState -> score -> score -> Tables -> outcome (score * Tables))
    (maximizing : bool) (depth : Z) (gs : GameState) (moves : list Move)
    (st : loop_state) (t : Tables) : outcome (loop_state * Tables) :=
  match moves with
  | [] => Ok (st, t)
  | move :: rest =>
      next <- child_state gs move maximizing ;;
      match next with
      | None => ab_loop rec maximizing depth gs rest st t
      | Some next_state =>
          '(eval_score, t1) <- rec next_state (ls_alpha st) (ls_beta st) t ;;
          let '(stop, st', t2) := ab_update maximizing depth move eval_score st t1 in
          if stop then Ok (st', t2)
          else ab_loop rec maximizing depth gs rest st' t2
      end
  end.

(** [move_order_score]: the TT move, then the killers, then MVV-LVA. *)
Fixpoint index_of (m : Move) (l : list Move) : Z :=
  match l with
  | [] => 0
  | x :: r => if Move_eqb x m then 0 else 1 + index_of m r
  end.

Definition move_order_score (gs : GameState) (t : Tables) (tt_best : option Move)
    (killers : list Move) (move : Move) : outcome Z :=
  if match tt_best with Some b => Move_eqb move b | None => false end
  then Ok 1000000
  else if move_in move killers then Ok (50000 + (100 - index_of move killers))
  else mvv_lva_score gs t (py_of_move move).

(** The bound stored with the result. *)
Definition bound_flag (final_score orig_alpha orig_beta : score) : tt_flag :=
  if score_leb final_score orig_alpha then UPPERBOUND
  else if score_leb orig_beta final_score then LOWERBOUND
  else EXACT.

(** The part of [minimax_alpha_beta] after the probe: ordering, the move
    loop, and the store.  [gs] already holds the legal moves in its cache;
    sorting them in place reorders that cache. *)
Definition ab_expand
    (rec : GameState -> score -> score -> Tables -> outcome (score * Tables))
    (gs : GameState) (pos_hash : string) (tt_entry : option tt_entry)
    (legal_moves : list Move) (depth : Z) (alpha beta : score) (maximizing : bool)
    (t : Tables) : outcome ((score * option Move) * GameState * Tables) :=
  let tt_best := match tt_entry with Some e => te_best_move e | None => None end in
  let killers := killers_get t depth in
  sorted <- sort_moves (move_order_score gs t tt_best killers) legal_moves ;;
  let gs' := set_cache gs (Some sorted) in
  let st0 := mkLoop (if maximizing then NegInf else PosInf) None alpha beta in
  '(st, t1) <- ab_loop rec maximizing depth gs' sorted st0 t ;;
  let final_score := ls_eval st in
  let flag := bound_flag final_score alpha beta in
  let t2 := mkTables
              (dict_set String.eqb (tt t1) pos_hash
                        (mkEntry depth final_score flag (ls_best st)))
              (killer_moves t1) (history_scores t1) in
  Ok ((final_score, ls_best st), gs', t2).

(** [minimax_alpha_beta(gamestate, depth, alpha, beta, maximizing_player)]
    returns [(score, best_move)]; the model adds the caller's state object
    and the tables as they are afterwards. *)
Fixpoint minimax_alpha_beta (fuel : nat) (gs : GameState) (depth : Z)
    (alpha beta : score) (maximizing_player : bool) (t : Tables)
    : outcome ((score * option Move) * GameState * Tables) :=
  match fuel with
  | O => OutOfFuel
  | S fuel' =>
      if (depth =? 0) || checkmate gs || stalemate gs then
        '(q_score, gs') <- quiescence_search fuel' t gs alpha beta MAX_QUIESCENCE_DEPTH ;;
        Ok ((q_score, None), gs', t)
      else
        let pos_hash := get_position_hash gs in
        let tt_entry := tt_get t pos_hash in
        '(legal_moves, gs1) <- get_all_legal_moves gs ;;
        match legal_moves with
        | [] => s <- evaluate_position gs1 ;; Ok ((s, None), gs1, t)
        | _ =>
            let rec := fun ns a b t0 =>
              '(r, _, t') <- minimax_alpha_beta fuel' ns (depth - 1) a b
                               (negb maximizing_player) t0 ;;
              Ok (fst r, t') in
            match tt_entry with
            | Some e =>
                if depth <=? te_depth e then
                  match te_flag e with
                  | EXACT => Ok ((te_score e, te_best_move e), gs1, t)
                  | _ =>
                      let alpha' := match te_flag e with
                                    | LOWERBOUND => score_max alpha (te_score e)
                                    | _ => alpha
                                    end in
                      let beta' := match te_flag e with
                                   | UPPERBOUND => score_min beta (te_score e)
                                   | _ => beta
                                   end in
                      if score_leb beta' alpha'
                      then Ok ((te_score e, te_best_move e), gs1, t)
                      else ab_expand rec gs1 pos_hash tt_entry legal_moves depth
                                     alpha' beta' maximizing_player t
                  end
                else ab_expand rec gs1 pos_hash tt_entry legal_moves depth
                               alpha beta maximizing_player t
            | None => ab_expand rec gs1 pos_hash tt_entry legal_moves depth
                                alpha beta maximizing_player t
            end
        end
  end.

(** The recursive call of the move loop at a node searched with [depth]:
    [eval_score, _ = minimax_alpha_beta(next_state, depth - 1, alpha, beta,
    not maximizing_player)]. *)
Definition ab_child (fuel : nat) (depth : Z) (maximizing_player : bool)
    : GameState -> score -> score -> Tables -> outcome (score * Tables) :=
  fun ns a b t0 =>
    '(r, _, t') <- minimax_alpha_beta fuel ns (depth - 1) a b (negb maximizing_player) t0 ;;
    Ok (fst r, t').

(* ------------------------------------------------------------------ *)
(** ** ai.py: the worker search ([_minimax_recursive], [_quiescence_search])

    Both clone a state with [gamestate.fast_copy_for_simulation()].
    gamestate.py defines no method of that name, so the attribute lookup
    raises AttributeError ([no_fast_copy]); the search is stated for any
    clone operation, the missing one included. *)

Definition no_fast_copy (gs : GameState) : outcome GameState := Raise AttributeError.

(** What the environment contributes: whether the process pool fails for
    the search of depth [d], whether an unexpected exception strikes the
    driver at the start of iteration [d], and the numbers drawn by
    [random.choice] ([rand 0] for the driver, [rand d] for the dispatcher
    at depth [d]). *)
Record Env : Type := mkEnv
  { pool_fault : Z -> bool;
    driver_fault : Z -> bool;
    rand : Z -> nat }.

Definition calm (seed : nat) : Env := mkEnv (fun _ => false) (fun _ => false) (fun _ => seed).

(** [random.choice(l)] with the drawn number [n]. *)
Definition random_choice (n : nat) (l : list Move) : outcome Move :=
  match nth_error l (n mod List.length l) with
  | Some m => Ok m
  | None => Raise IndexError
  end.

Definition mate_for (c : color) : score :=
  match c with White => Num (- CHECKMATE_SCORE) | Black => Num CHECKMATE_SCORE end.

(** The score of a state without legal moves: mate against the side to
    move, or stalemate. *)
Definition terminal_score (gs : GameState) : outcome score :=
  '(chk, _) <- is_in_check gs (current_turn gs) ;;
  Ok (if chk then mate_for (current_turn gs) else Num STALEMATE_SCORE).

Section Engine.

Variable fast_copy_for_simulation : GameState -> outcome GameState.

(** The move loop of [_quiescence_search] for one side; the result is the
    value the function returns. *)
Fixpoint _quiescence_loop (rec : GameState -> score -> score -> outcome score)
    (maximizing : bool) (gs : GameState) (moves : list Move) (alpha beta : score)
    : outcome score :=
  match moves with
  | [] => Ok (if maximizing then alpha else beta)
  | move :: rest =>
      next_state <- fast_copy_for_simulation gs ;;
      '(move_made, ns) <- make_move next_state move false ;;
      if negb move_made then _quiescence_loop rec maximizing gs rest alpha beta else
      s <- rec ns alpha beta ;;
      if maximizing then
        if score_leb (Num CHECKMATE_SCORE) s then Ok (Num CHECKMATE_SCORE) else
        let alpha' := score_max alpha s in
        if score_leb beta alpha' then Ok alpha'
        else _quiescence_loop rec maximizing gs rest alpha' beta
      else
        if score_leb s (Num (- CHECKMATE_SCORE)) then Ok (Num (- CHECKMATE_SCORE)) else
        let beta' := score_min beta s in
        if score_leb beta' alpha then Ok beta'
        else _quiescence_loop rec maximizing gs rest alpha beta'
  end.

Fixpoint _quiescence_search (fuel : nat) (gs : GameState) (alpha beta : score)
    (maximizing_player : bool) (depth : Z) : outcome score :=
  match fuel with
  | O => OutOfFuel
  | S fuel' =>
      stand_pat_score <- evaluate_position gs ;;
      '(legal_moves_q, gs1) <- get_all_legal_moves gs ;;
      match legal_moves_q with
      | [] => terminal_score gs1
      | _ =>
          if depth =? 0 then Ok stand_pat_score else
          if (if maximizing_player then score_leb beta stand_pat_score
              else score_leb stand_pat_score alpha)
          then Ok (if maximizing_player then beta else alpha)
          else
            let alpha' := if maximizing_player then score_max alpha stand_pat_score
                          else alpha in
            let beta' := if maximizing_player then beta
                         else score_min beta stand_pat_score in
            '(noisy_moves, gs2) <- get_noisy_moves gs1 ;;
            match noisy_moves with
            | [] => Ok stand_pat_score
            | _ =>
                _quiescence_loop
                  (fun ns a b => _quiescence_search fuel' ns a b
                                   (negb maximizing_player) (depth - 1))
                  maximizing_player gs2 noisy_moves alpha' beta'
            end
      end
  end.

(** The move loop of [_minimax_recursive]: [ev] is [max_eval] or
    [min_eval]. *)
Fixpoint _minimax_loop (rec : GameState -> score -> score -> outcome score)
    (maximizing : bool) (gs : GameState) (moves : list Move) (ev alpha beta : score)
    : outcome score :=
  match moves with
  | [] => Ok ev
  | move :: rest =>
      next_state <- fast_copy_for_simulation gs ;;
      '(move_made, ns) <- make_move next_state move false ;;
      if negb move_made then _minimax_loop rec maximizing gs rest ev alpha beta else
      eval_score <- rec ns alpha beta ;;
      if maximizing then
        if score_leb (Num CHECKMATE_SCORE) eval_score then Ok (Num CHECKMATE_SCORE) else
        let ev' := score_max ev eval_score in
        let alpha' := score_max alpha eval_score in
        if score_leb beta alpha' then Ok ev'
        else _minimax_loop rec maximizing gs rest ev' alpha' beta
      else
        if score_leb eval_score (Num (- CHECKMATE_SCORE))
        then Ok (Num (- CHECKMATE_SCORE)) else
        let ev' := score_min ev eval_score in
        let beta' := score_min beta eval_score in
        if score_leb beta' alpha then Ok ev'
        else _minimax_loop rec maximizing gs rest ev' alpha beta'
  end.

Fixpoint _minimax_recursive (fuel : nat) (gs : GameState) (depth : Z)
    (alpha beta : score) (maximizing_player : bool) : outcome score :=
  match fuel with
  | O => OutOfFuel
  | S fuel' =>
      '(legal_moves, gs1) <- get_all_legal_moves gs ;;
      match legal_moves with
      | [] => terminal_score gs1
      | _ =>
          if depth =? 0 then
            _quiescence_search fuel' gs1 alpha beta maximizing_player MAX_QUIESCENCE_DEPTH
          else
            _minimax_loop
              (fun ns a b => _minimax_recursive fuel' ns (depth - 1) a b
                               (negb maximizing_player))
              maximizing_player gs1 legal_moves
              (if maximizing_player then NegInf else PosInf) alpha beta
      end
  end.

(** The worst score for the side that moves at the root. *)
Definition error_score (maximizing_player : bool) : score :=
  Num (if maximizing_player then - CHECKMATE_SCORE else CHECKMATE_SCORE).

(** [_minimax_worker]: everything happens inside [try ... except
    Exception], which answers [error_score]. *)
Definition _minimax_worker (fuel : nat) (move : Move) (gamestate_copy : GameState)
    (depth : Z) (alpha beta : score) (maximizing_player : bool)
    : outcome (Move * score) :=
  try_except
    ('(move_made, gs1) <- make_move gamestate_copy move false ;;
     if negb move_made then Ok (move, error_score maximizing_player) else
     s <- _minimax_recursive fuel gs1 (depth - 1) alpha beta (negb maximizing_player) ;;
     Ok (move, s))
    (fun _ => Ok (move, error_score maximizing_player)).

(* ------------------------------------------------------------------ *)
(** ** ai.py: minimax, the parallel root dispatcher *)

Definition mating_score (c : color) : score :=
  match c with White => Num CHECKMATE_SCORE | Black => Num (- CHECKMATE_SCORE) end.

(** The first move whose score is the mating score. *)
Definition find_mate (c : color) (all_results : list (Move * score)) : option Move :=
  match find (fun r => score_eqb (snd r) (mating_score c)) all_results with
  | Some r => Some (fst r)
  | None => None
  end.

(** The extremal scan: [best_move] starts as the first move, [best_score]
    as the infinity of the other side, and a strictly better score wins. *)
Definition pick_extremal (c : color) (first : Move) (all_results : list (Move * score))
    : Move * score :=
  fold_left (fun (best : Move * score) (r : Move * score) =>
               if match c with
                  | White => score_ltb (snd best) (snd r)
                  | Black => score_ltb (snd r) (snd best)
                  end
               then r else best)
            all_results
            (first, match c with White => NegInf | Black => PosInf end).

(** The reconciliation of the collected [(move, score)] pairs; [None] when
    there is none. *)
Definition reconcile (c : color) (all_results : list (Move * score))
    : option (Move * score) :=
  match all_results with
  | [] => None
  | (first, _) :: _ =>
      match find_mate c all_results with
      | Some best_mate_move => Some (best_mate_move, mating_score c)
      | None => Some (pick_extremal c first all_results)
      end
  end.

(** The [except] branch of [minimax]: a random legal move, or nothing. *)
Definition minimax_fallback (env : Env) (gs : GameState) (depth : Z)
    : outcome ((option Move * score) * GameState) :=
  match get_all_legal_moves gs with
  | Ok (moves, gs') =>
      match moves with
      | [] => Ok ((None, Num 0), gs')
      | _ => match random_choice (rand env depth) moves with
             | Ok m => Ok ((Some m, Num 0), gs')
             | _ => Ok ((None, Num 0), gs')
             end
      end
  | Raise _ => Ok ((None, Num 0), gs)
  | OutOfFuel => OutOfFuel
  end.

(** The branch for an empty result list. *)
Definition minimax_no_results (env : Env) (gs : GameState) (depth : Z)
    : outcome ((option Move * score) * GameState) :=
  if checkmate gs then Ok ((None, mate_for (current_turn gs)), gs)
  else if stalemate gs then Ok ((None, Num STALEMATE_SCORE), gs)
  else
    '(legal_moves_fallback, gs1) <- get_all_legal_moves gs ;;
    match legal_moves_fallback with
    | [] =>
        '(chk, gs2) <- is_in_check gs1 (current_turn gs1) ;;
        Ok ((None, if chk then mate_for (current_turn gs1) else Num STALEMATE_SCORE), gs2)
    | _ =>
        m <- random_choice (rand env depth) legal_moves_fallback ;;
        Ok ((Some m, NegInf), gs1)
    end.

(** [minimax(gamestate, depth, move_cache)] returns [(move, score)]; the
    model adds the caller's state object as it is afterwards.  Every worker
    gets a pickled copy of the state and runs in its own process, sharing
    nothing, so the results are those of the workers run one after another.
    A worker always returns a pair with a score, so the two [None] filters
    keep every result. *)
Definition minimax (env : Env) (fuel : nat) (gs : GameState) (depth : Z)
    : outcome ((option Move * score) * GameState) :=
  match get_all_legal_moves gs with
  | OutOfFuel => OutOfFuel
  | Raise _ => minimax_fallback env gs depth
  | Ok (legal_moves, gs1) =>
      match legal_moves with
      | [] => Ok ((None, Num 0), gs1)
      | _ =>
          if pool_fault env depth then minimax_fallback env gs1 depth else
          let maximizing_player := color_eqb (current_turn gs1) White in
          match mapM (fun move =>
                        _minimax_worker fuel move (deepcopy gs1) depth NegInf PosInf
                                        maximizing_player) legal_moves with
          | OutOfFuel => OutOfFuel
          | Raise _ => minimax_fallback env gs1 depth
          | Ok all_results =>
              match reconcile (current_turn gs1) all_results with
              | Some (m, s) => Ok ((Some m, s), gs1)
              | None =>
                  match minimax_no_results env gs1 depth with
                  | Raise _ => minimax_fallback env gs1 depth
                  | other => other
                  end
              end
          end
      end
  end.

(* ------------------------------------------------------------------ *)
(** ** ai.py: find_best_move, the iterative-deepening driver

    [move_cache] maps [(position_hash, depth)] to [repr(move)], read back
    with [eval]; [eval] inverts [repr] on moves, so the model keeps the
    move itself. *)

Definition MoveCache : Type := list ((string * Z) * Move).

Definition cache_key_eqb (a b : string * Z) : bool :=
  String.eqb (fst a) (fst b) && (snd a =? snd b).

Definition cache_get (mc : MoveCache) (k : string * Z) : option Move :=
  dict_get cache_key_eqb mc k.

Definition cache_set (mc : MoveCache) (k : string * Z) (m : Move) : MoveCache :=
  dict_set cache_key_eqb mc k m.

(** [abs(best_score) >= CHECKMATE_SCORE * 0.9] *)
Definition mate_found (s : score) : bool :=
  match s with
  | Num z => 900000 <=? Z.abs z
  | _ => true
  end.

(** How the [for current_depth] loop ended: normally (exhausted or
    [break]) or with an exception. *)
Record driver_state : Type := mkDriver
  { d_raised : bool;
    d_best_move : option Move;
    d_best_score : score;
    d_gs : GameState;
    d_cache : MoveCache }.

Fixpoint deepening_loop (env : Env) (fuel : nat) (pos_hash : string) (depth : Z)
    (depths : list Z) (best_move : option Move) (best_score : score)
    (gs : GameState) (mc : MoveCache) : outcome driver_state :=
  match depths with
  | [] => Ok (mkDriver false best_move best_score gs mc)
  | current_depth :: rest =>
      if driver_fault env current_depth
      then Ok (mkDriver true best_move best_score gs mc) else
      '(hit, gs1) <-
        match cache_get mc (pos_hash, current_depth) with
        | Some cached_move =>
            if current_depth =? depth then
              '(legal, gs') <- is_move_legal gs cached_move ;;
              Ok (if legal then Some cached_move else None, gs')
            else Ok (None, gs)
        | None => Ok (None, gs)
        end ;;
      match hit with
      | Some cached_move => Ok (mkDriver false (Some cached_move) best_score gs1 mc)
      | None =>
          '(r, gs2) <- minimax env fuel gs1 current_depth ;;
          match fst r with
          | Some iter_best_move =>
              let mc' := cache_set mc (pos_hash, current_depth) iter_best_move in
              if mate_found (snd r)
              then Ok (mkDriver false (Some iter_best_move) (snd r) gs2 mc')
              else deepening_loop env fuel pos_hash depth rest
                     (Some iter_best_move) (snd r) gs2 mc'
          | None => Ok (mkDriver false best_move best_score gs2 mc)
          end
      end
  end.

(** [find_best_move(gamestate, depth)] returns a move or [None]; the model
    adds the caller's state object and [move_cache] as they are
    afterwards. *)
Definition find_best_move (env : Env) (fuel : nat) (gs : GameState) (depth : Z)
    (mc : MoveCache) : outcome (option Move * GameState * MoveCache) :=
  if needs_promotion_choice gs then Ok (None, gs, mc) else
  let pos_hash := get_position_hash gs in
  let cache_key := (pos_hash, depth) in
  '(hit, gs1) <-
    match cache_get mc cache_key with
    | Some cached_move =>
        '(legal, gs') <- is_move_legal gs cached_move ;;
        Ok (if legal then Some cached_move else None, gs')
    | None => Ok (None, gs)
    end ;;
  match hit with
  | Some cached_move => Ok (Some cached_move, gs1, mc)
  | None =>
      let gs_copy_for_moves := deepcopy gs1 in
      '(legal_moves, _) <- get_all_legal_moves gs_copy_for_moves ;;
      match legal_moves with
      | [] => _ <- evaluate_position gs1 ;; Ok (None, gs1, mc)
      | [only] => Ok (Some only, gs1, cache_set mc cache_key only)
      | _ =>
          d <- deepening_loop env fuel pos_hash depth (range 1 (depth + 1))
                 None (Num 0) gs1 mc ;;
          let best_move :=
            if d_raised d then
              match d_best_move d with
              | Some m => Some m
              | None => match random_choice (rand env 0) legal_moves with
                        | Ok m => Some m
                        | _ => None
                        end
              end
            else d_best_move d in
          match best_move with
          | Some m => Ok (Some m, d_gs d, cache_set (d_cache d) cache_key m)
          | None => Ok (None, d_gs d, d_cache d)
          end
      end
  end.

End Engine.

(* ------------------------------------------------------------------ *)
(** ** Specification vocabulary and example positions *)

(** A board of [BOARD_SIZE] rows of [BOARD_SIZE] squares. *)
Definition wf_board (b : list (list ascii)) : Prop :=
  List.length b = 6%nat /\ Forall (fun row => List.length row = 6%nat) b.

(** Hand keys that have an [upper] method (strings and bytes). *)
Definition key_has_upper (k : hand_key) : Prop :=
  match k with HStr _ | HBytes _ => True | _ => False end.

Definition hands_have_upper (gs : GameState) : Prop :=
  Forall (fun kv => key_has_upper (fst kv)) (hand_of gs White) /\
  Forall (fun kv => key_has_upper (fst kv)) (hand_of gs Black).

(** The material of one side as the stalemate branch counts it: the pieces
    on the board at board value plus the hand at hand value. *)
Definition side_material (gs : GameState) (c : color) : outcome Z :=
  '(wb, bb) <- board_material gs ;;
  h <- hand_material HAND_PIECE_VALUES (hand_of gs c) ;;
  Ok (match c with White => wb | Black => bb end + h).

(** The score that counts as a loss for the side to move. *)
Definition loss_equivalent (c : color) : score :=
  match c with White => Num (-10000) | Black => Num 10000 end.

Definition STALEMATE_THRESHOLD : Z := 100.

(** The lead of the side to move over the other side, and the reverse. *)
Definition mover_lead (gs : GameState) : outcome Z :=
  mine <- side_material gs (current_turn gs) ;;
  theirs <- side_material gs (get_opposite_color (current_turn gs)) ;;
  Ok (mine - theirs).

Definition opponent_lead (gs : GameState) : outcome Z :=
  l <- mover_lead gs ;; Ok (- l).

(** The stalemate rule in the words of the specification: a lead of the
    side WITHOUT the move beyond the threshold makes the score a loss for
    the side to move, anything else makes it 0. *)
Definition stalemate_rule_as_stated (gs : GameState) : Prop :=
  forall lead, opponent_lead gs = Ok lead ->
    evaluate_position gs
    = Ok (if STALEMATE_THRESHOLD <? lead then loss_equivalent (current_turn gs) else Num 0).

(** *** The move loop of the alpha-beta core as a transition system

    A configuration is the list of moves still to try, the running values
    and the tables.  [loop_step] is one iteration that does not break;
    [loop_cutoff] is an iteration that ends in the cutoff. *)

Definition loop_config : Type := (list Move * loop_state * Tables)%type.

Section MoveLoop.

Variables (rec : GameState -> score -> score -> Tables -> outcome (score * Tables))
          (maximizing : bool) (depth : Z) (gs : GameState).

Inductive loop_step : loop_config -> loop_config -> Prop :=
| loop_skip (m : Move) (rest : list Move) (st : loop_state) (t : Tables) :
    child_state gs m maximizing = Ok None ->
    loop_step (m :: rest, st, t) (rest, st, t)
| loop_next (m : Move) (rest : list Move) (st st' : loop_state) (t t1 t2 : Tables)
    (ns : GameState) (e : score) :
    child_state gs m maximizing = Ok (Some ns) ->
    rec ns (ls_alpha st) (ls_beta st) t = Ok (e, t1) ->
    ab_update maximizing depth m e st t1 = (false, st', t2) ->
    loop_step (m :: rest, st, t) (rest, st', t2).

Inductive loop_reaches : loop_config -> loop_config -> Prop :=
| reach_here (c : loop_config) : loop_reaches c c
| reach_more (c1 c2 c3 : loop_config) :
    loop_reaches c1 c2 -> loop_step c2 c3 -> loop_reaches c1 c3.

(** At configuration [c] the move [m] is searched, scores [e], and the
    loop breaks with running values [st'] and tables [t2]; [t1] are the
    tables the recursive call left. *)
Definition loop_cutoff (c : loop_config) (m : Move) (e : score)
    (t1 : Tables) (st' : loop_state) (t2 : Tables) : Prop :=
  exists rest st t ns,
    c = (m :: rest, st, t) /\
    child_state gs m maximizing = Ok (Some ns) /\
    rec ns (ls_alpha st) (ls_beta st) t = Ok (e, t1) /\
    ab_update maximizing depth m e st t1 = (true, st', t2).

End MoveLoop.

(** The window is open: [alpha < beta]. *)
Definition window_open (st : loop_state) : Prop := score_lt (ls_alpha st) (ls_beta st).

(** The loop as [ab_expand] starts it. *)
Definition loop_entry (maximizing : bool) (alpha beta : score) : loop_state :=
  mkLoop (if maximizing then NegInf else PosInf) None alpha beta.

(** Every killer list holds at most two moves. *)
Definition killers_bounded (t : Tables) : Prop :=
  Forall (fun kv => (List.length (snd kv) <= 2)%nat) (killer_moves t).

(** The budget-0 clause of the quiescence claim in the words of the
    specification, for the worker's quiescence search: a call with budget 0
    returns the stand-pat evaluation. *)
Definition budget_zero_rule_as_stated : Prop :=
  forall (fast_copy : GameState -> outcome GameState) (gs : GameState)
         (alpha beta : score) (maximizing : bool),
    _quiescence_search fast_copy 1 gs alpha beta maximizing 0 = evaluate_position gs.

(** The legal moves of the initial position, and a table holding one
    exact entry for it. *)
Definition initial_moves : list Move := Eval vm_compute in
  match get_all_legal_moves initial_state with Ok (l, _) => l | _ => [] end.

Definition probe_entry : tt_entry :=
  mkEntry 3 (Num 42) EXACT (Some (NormalMove (4, 0) (3, 0) None)).

Definition probe_tables : Tables :=
  mkTables [(get_position_hash initial_state, probe_entry)] [] [].

Definition empty_row : list ascii := ["."; "."; "."; "."; "."; "."]%char.

(** White to move has no legal move and is not in check; Black is a queen up. *)
Definition stalemate_position : GameState :=
  mkGameState
    [ ["."; "."; "."; "."; "."; "k"]%char;
      empty_row;
      empty_row;
      ["."; "q"; "."; "."; "."; "."]%char;
      empty_row;
      ["K"; "."; "."; "."; "."; "."]%char ]
    White ([], []) (Some (5, 0), Some (0, 5))
    false false None [] EmptyString None None [] false None None None.

(** The same position once [check_game_over] has flagged it. *)
Definition stalemate_state : GameState :=
  set_game_over (set_cache stalemate_position (Some [])) false true "Stalemate! Draw.".

(** White mates in one with the rook: (5,0) to (0,0). *)
Definition mate_in_one : GameState :=
  mkGameState
    [ ["."; "."; "."; "."; "."; "k"]%char;
      empty_row;
      ["."; "."; "."; "."; "."; "K"]%char;
      empty_row;
      empty_row;
      ["R"; "."; "."; "."; "."; "."]%char ]
    White ([], []) (Some (2, 5), Some (0, 5))
    false false None [] EmptyString None None [] false None None None.

(** Its legal moves and the worker results at depth 1. *)
Definition mate_in_one_moves : list Move := Eval vm_compute in
  match get_all_legal_moves mate_in_one with Ok (l, _) => l | _ => [] end.

Definition mate_in_one_results : list (Move * score) := Eval vm_compute in
  match mapM (fun move => _minimax_worker no_fast_copy 8 move mate_in_one 1
                            NegInf PosInf true) mate_in_one_moves with
  | Ok l => l
  | _ => []
  end.

(** The opening position as another object would hold it: hands filled in
    the opposite insertion order, a move log, a selection and a filled
    legal-move cache. *)
Definition reordered_state : GameState :=
  mkGameState (board initial_state) White
    (rev (fst (hands initial_state)), rev (snd (hands initial_state)))
    (Some (5, 0), Some (0, 5))
    false false (Some (NormalMove (3, 0) (4, 0) None))
    [NormalMove (3, 0) (4, 0) None] EmptyString (Some (4, 0)) None
    [NormalMove (4, 0) (3, 0) None] false None None (Some []).

(** The opening position with a White hand [{'P': 0, b'N': 0}]: a [str]
    and a [bytes] key do not compare, so [sorted] raises TypeError inside
    [get_position_hash]; both counts are 0, so no drop is generated, and
    [bytes] has [upper], so the evaluation reads the hand without error. *)
Definition unhashable_state : GameState :=
  set_hands initial_state
    ([(HStr "P", 0); (HBytes "N", 0)], snd (hands initial_state)).

(** A table entry filed under the key of the failed hash, as a search of
    some other state with a failed hash leaves it. *)
Definition sentinel_entry : tt_entry :=
  mkEntry 7 (Num 424242) EXACT (Some (NormalMove (5, 1) (4, 1) None)).

Definition sentinel_tables : Tables :=
  mkTables [(error_hash, sentinel_entry)] [] [].

(** [gs'] is [gs] with, at most, another legal-move cache: every other
    attribute of the object is as before. *)
Definition unchanged_but_cache (gs gs' : GameState) : Prop :=
  exists c, gs' = set_cache gs c.

(* ------------------------------------------------------------------ *)
(** ** Predicates and auxiliary functions of the statements *)

(** [s] is at least as good as [r] for the side [c]. *)
Definition at_least_as_good (c : color) (s r : score) : Prop :=
  match c with White => score_le r s | Black => score_le s r end.

(** The Python value of a normal move with an arbitrary third component. *)
Definition py_normal (r1 c1 r2 c2 : Z) (promotion : pyval) : pyval :=
  PyTuple [PyTuple [PyInt r1; PyInt c1]; PyTuple [PyInt r2; PyInt c2]; promotion].

(** The Python value of a drop with an arbitrary piece code. *)
Definition py_drop (piece_code : pyval) (r c : Z) : pyval :=
  PyTuple [PyStr "drop"; piece_code; PyTuple [PyInt r; PyInt c]].

(** The squares of a move lie on the board (drops are not looked up). *)
Definition move_on_board (m : Move) : Prop :=
  match m with
  | NormalMove (r1, c1) (r2, c2) _ =>
      is_on_board r1 c1 = true /\ is_on_board r2 c2 = true
  | DropMove _ _ => True
  end.

(** A computation that does not exhaust the recursion budget. *)
Definition fuel_free {A : Type} (c : outcome A) : Prop := c <> OutOfFuel.

(** The killer list of [depth] after a cutoff by [m]: unchanged when [m]
    is already in it, otherwise [m] in front and at most two entries. *)
Definition killers_after (m : Move) (old : list Move) : list Move :=
  if move_in m old then old
  else if (2 <? Z.of_nat (List.length (m :: old))) then removelast (m :: old)
       else m :: old.

(** The running values kept by the loop: [max_eval <= alpha] on the
    maximizing side, [beta <= min_eval] on the minimizing side. *)
Definition loop_inv (maximizing : bool) (st : loop_state) : Prop :=
  if maximizing then score_le (ls_eval st) (ls_alpha st)
  else score_le (ls_beta st) (ls_eval st).

(** A total order on dictionary items that agrees with Python's [<]
    wherever Python defines it: keys of different types are ranked by
    type. *)
Definition key_rank (k : hand_key) : nat :=
  match k with HStr _ => 0 | HBytes _ => 1 | HInt _ => 2 | HNone => 3 end.

Definition key_cmp (a b : hand_key) : comparison :=
  match a, b with
  | HStr s, HStr t => String.compare s t
  | HBytes s, HBytes t => String.compare s t
  | HInt x, HInt y => Z.compare x y
  | _, _ => Nat.compare (key_rank a) (key_rank b)
  end.

Definition item_cmp (a b : hand_key * Z) : comparison :=
  match key_cmp (fst a) (fst b) with
  | Eq => Z.compare (snd a) (snd b)
  | c => c
  end.

Definition item_ltbT (a b : hand_key * Z) : bool :=
  match item_cmp a b with Lt => true | _ => false end.

(** Insertion sort along the total order. *)
Fixpoint insertT (x : hand_key * Z) (l : list (hand_key * Z)) : list (hand_key * Z) :=
  match l with
  | [] => [x]
  | y :: r => if item_ltbT x y then x :: y :: r else y :: insertT x r
  end.

Definition sortT (l : list (hand_key * Z)) : list (hand_key * Z) :=
  fold_right insertT [] l.

(** Keys that [sorted] can compare with each other: all strings, all
    bytes, or all ints. *)
Definition homogeneous (l : list (hand_key * Z)) : Prop :=
  exists c, (c <= 2)%nat /\ Forall (fun kv => key_rank (fst kv) = c) l.

(** Lists that [sorted] accepts: at most one item (nothing is compared)
    or keys that compare with each other. *)
Definition sortable (l : list (hand_key * Z)) : Prop :=
  (List.length l <= 1)%nat \/ homogeneous l.

(** Two dictionaries with the same items: distinct keys, and the item
    lists are permutations of each other (insertion order is free). *)
Definition same_dict (h1 h2 : hand) : Prop :=
  NoDup (map fst h1) /\ Permutation h1 h2.

(** A lower-case hexadecimal digit. *)
Definition is_hex_char (c : ascii) : Prop :=
  In c (list_ascii_of_string "0123456789abcdef").

(** 64 hexadecimal digits: 256 bits. *)
Definition is_digest_256 (s : string) : Prop :=
  String.length s = 64%nat /\ Forall is_hex_char (list_ascii_of_string s).

(* ------------------------------------------------------------------ *)
(** ** utils.py: square names and move strings *)

(** [coords_to_algebraic(r, f)]: file letter and rank digit, ["??"] off the
    board. *)
Definition coords_to_algebraic (r f : Z) : string :=
  if negb (is_on_board r f) then "??"
  else
    let rank := BOARD_SIZE - 1 - r in
    let file := f in
    String.append (str1 (chr (ord "a" + file))) (str_of_Z (rank + 1)).

(** [int(c)] on a one-character string. *)
Definition int_of_char (c : ascii) : outcome Z :=
  if (48 <=? ord c) && (ord c <=? 57) then Ok (ord c - 48) else Raise ValueError.

(** [algebraic_to_coords(alg)]: [None] unless [alg] is a string of a file
    letter and a rank digit of the board. *)
Definition algebraic_to_coords (alg : pyval) : outcome (option Square) :=
  match alg with
  | PyStr (String file_char (String rank_char EmptyString)) =>
      let max_file_char := str1 (chr (ord "a" + BOARD_SIZE - 1)) in
      let max_rank_char := str_of_Z BOARD_SIZE in
      if negb ((String.leb "a" (str1 file_char) && String.leb (str1 file_char) max_file_char)
               && (String.leb "1" (str1 rank_char) && String.leb (str1 rank_char) max_rank_char))
      then Ok None
      else
        let file := ord file_char - ord "a" in
        d <- int_of_char rank_char ;;
        let rank := d - 1 in
        let internal_rank := BOARD_SIZE - 1 - rank in
        if negb (is_on_board internal_rank file) then Ok None
        else Ok (Some (internal_rank, file))
  | _ => Ok None
  end.

(** [format_move_for_print(move)] *)
Definition format_move_for_print (move : option Move) : string :=
  match move with
  | None => "None"
  | Some (DropMove piece (r, f)) =>
      String.append (str_upper piece) (String.append "@" (coords_to_algebraic r f))
  | Some (NormalMove (r1, f1) (r2, f2) promotion) =>
      let s := String.append (coords_to_algebraic r1 f1) (coords_to_algebraic r2 f2) in
      match promotion with
      | Some p => String.append s (String.append "=" (str1 (upper p)))
      | None => s
      end
  end.

(** [s.split(sep)] for a one-character separator. *)
Fixpoint str_split (sep : ascii) (s : string) : list string :=
  match s with
  | EmptyString => [EmptyString]
  | String c r =>
      if char_eqb c sep then EmptyString :: str_split sep r
      else match str_split sep r with
           | h :: t => String c h :: t
           | [] => [str1 c]
           end
  end.

(** The body of the [try] of [parse_move_string]; [Ok None] when it falls
    through to the final [return None]. *)
Definition parse_move_body (move_str : string) : outcome (option Move) :=
  if str_mem "@" move_str then
    match str_split "@" move_str with
    | [piece_char; sq_str] =>
        target_sq <- algebraic_to_coords (PyStr sq_str) ;;
        match target_sq with
        | Some sq => Ok (Some (DropMove piece_char sq))
        | None => Ok None
        end
    | _ => Raise ValueError
    end
  else if 4 <=? Z.of_nat (String.length move_str) then
    let start_sq_str := String.substring 0 2 move_str in
    let end_sq_str := String.substring 2 2 move_str in
    promotion_char <-
      (if Z.of_nat (String.length move_str) =? 5
       then c <- str_index move_str 4 ;; Ok (Some c)
       else Ok None) ;;
    start_sq <- algebraic_to_coords (PyStr start_sq_str) ;;
    end_sq <- algebraic_to_coords (PyStr end_sq_str) ;;
    match start_sq, end_sq with
    | Some s, Some d => Ok (Some (NormalMove s d promotion_char))
    | _, _ => Ok None
    end
  else Ok None.

(** [parse_move_string(move_str)]: any exception is answered with [None]. *)
Definition parse_move_string (move_str : string) : option Move :=
  match parse_move_body move_str with
  | Ok r => r
  | _ => None
  end.

(* ------------------------------------------------------------------ *)
(** ** Vocabulary of the properties of the rules and of the search *)

(** The position a Python index denotes in a list of length [n]. *)
Definition norm_index (n : nat) (i : Z) : Z := if i <? 0 then i + Z.of_nat n else i.

(** Everything [make_move] leaves as it was when it refuses a move. *)
Definition restored (gs gs' : GameState) : Prop :=
  board gs' = board gs /\ current_turn gs' = current_turn gs /\
  king_pos gs' = king_pos gs /\ move_log gs' = move_log gs /\
  last_move gs' = last_move gs /\
  needs_promotion_choice gs' = needs_promotion_choice gs /\
  checkmate gs' = checkmate gs /\ stalemate gs' = stalemate gs /\
  (forall c k, hand_get (hand_of gs' c) k 0 = hand_get (hand_of gs c) k 0) /\
  _all_legal_moves_cache gs' = None.

(** What [is_in_check] and [check_game_over] leave alone: everything but
    the recorded king squares, the game-over flags and message, and the
    legal-move cache. *)
Definition same_position (gs gs' : GameState) : Prop :=
  board gs' = board gs /\ current_turn gs' = current_turn gs /\
  hands gs' = hands gs /\ move_log gs' = move_log gs /\
  last_move gs' = last_move gs /\
  needs_promotion_choice gs' = needs_promotion_choice gs /\
  promotion_square gs' = promotion_square gs /\
  last_move_for_promotion gs' = last_move_for_promotion gs.

Definition exit_state (e : move_exit) : GameState :=
  match e with Rejected g | Pending g | Finalised g => g end.

(** What every generated move satisfies: a board move starts on a piece
    of the moving side and ends on a square of the board that holds no piece
    of that side, with a promotion piece only on the last rank and only from
    the side's list; a drop puts a piece held in hand on an empty square,
    and never a pawn on the last rank. *)
Definition generated_ok (gs : GameState) (c : color) (m : Move) : Prop :=
  match m with
  | NormalMove (r1, f1) (r2, f2) p =>
      is_on_board r1 f1 = true /\ is_on_board r2 f2 = true /\
      (exists s, get_cell (board gs) r1 f1 = Ok s /\
                 color_is (get_piece_color s) c = true) /\
      (exists t, get_cell (board gs) r2 f2 = Ok t /\
                 color_is (get_piece_color t) c = false) /\
      (forall x, p = Some x -> In x (prom_pieces c) /\ r2 = promotion_rank c)
  | DropMove code (r, f) =>
      is_on_board r f = true /\ get_cell (board gs) r f = Ok EMPTY_SQUARE /\
      exists s n, code = String (color_char c) s /\
                  In (HStr s, n) (hand_of gs c) /\ 0 < n /\
                  (s = "P" -> r <> promotion_rank c)
  end.

(** The part of [generated_ok] that concerns the target of a board move
    from [(r, f)]. *)
Definition target_ok (gs : GameState) (c : color) (r f : Z) (m : Move) : Prop :=
  exists r2 f2 p,
    m = NormalMove (r, f) (r2, f2) p /\
    is_on_board r2 f2 = true /\
    (exists t, get_cell (board gs) r2 f2 = Ok t /\
               color_is (get_piece_color t) c = false) /\
    (forall x, p = Some x -> In x (prom_pieces c) /\ r2 = promotion_rank c).

(** No history counter is lower and no transposition entry is missing in
    [t'] that [t] has. *)
Definition tables_grow (t t' : Tables) : Prop :=
  (forall k, history_get t k <= history_get t' k) /\
  (forall h, tt_get t h <> None -> tt_get t' h <> None).

(** 1 for a piece, 0 for the empty square. *)
Definition occ (c : ascii) : Z := if char_eqb c EMPTY_SQUARE then 0 else 1.

Definition row_count (row : list ascii) : Z :=
  fold_right (fun c acc => occ c + acc) 0 row.

(** The number of pieces on the board. *)
Definition board_count (b : list (list ascii)) : Z :=
  fold_right (fun row acc => row_count row + acc) 0 b.

(** The pieces on the board and in the two hands. *)
Definition pieces_total (gs : GameState) : Z :=
  board_count (board gs) + hand_count (hand_of gs White) + hand_count (hand_of gs Black).

(** The number of pieces lost by a board move onto a square holding [t]:
    a captured king leaves the game, any other captured piece goes to the
    hand of the capturing side. *)
Definition king_lost (t : ascii) : Z :=
  if negb (char_eqb t EMPTY_SQUARE) && char_eqb (upper t) "K" then 1 else 0.

(** The keys of the pieces actually held in a hand are non-empty strings,
    as the engine writes them. *)
Definition hand_keys_ok (h : hand) : Prop :=
  Forall (fun kv => 0 < snd kv -> exists c s, fst kv = HStr (String c s)) h.

(** The letter of the king of a side. *)
Definition king_char (c : color) : ascii :=
  match c with White => "K"%char | Black => "k"%char end.

(** White to move with a pawn one step from promotion, a rook that can
    take the knight on (0,1), and a knight in hand. *)
Definition promotion_position : GameState :=
  mkGameState
    [ ["."; "n"; "."; "."; "."; "k"]%char;
      ["P"; "."; "."; "."; "."; "."]%char;
      empty_row;
      empty_row;
      empty_row;
      ["K"; "R"; "."; "."; "."; "."]%char ]
    White ([(HStr "N", 1)], []) (Some (5, 0), Some (0, 5))
    false false None [] EmptyString None None [] false None None None.

(* ================================================================== *)
(** * Properties *)

Unset Implicit Arguments.

(** ** Scores *)

Lemma score_eqb_eq (a b : score) : score_eqb a b = true <-> a = b.
Proof.
  destruct a, b; simpl; split; intro H; try discriminate; try reflexivity.
  - apply Z.eqb_eq in H. now subst.
  - inversion H. apply Z.eqb_refl.
Qed.

Ltac score_cases :=
  unfold score_le, score_lt, score_leb, score_max, score_min in *;
  repeat match goal with
         | s : score |- _ => destruct s
         end;
  simpl in *;
  repeat match goal with
         | H : context [Z.ltb ?a ?b] |- _ => destruct (Z.ltb_spec a b); simpl in H
         | |- context [Z.ltb ?a ?b] => destruct (Z.ltb_spec a b); simpl
         end;
  try congruence; try reflexivity; try lia.

Lemma score_le_refl (a : score) : score_le a a.
Proof. score_cases. Qed.

Lemma score_le_trans (a b c : score) : score_le a b -> score_le b c -> score_le a c.
Proof. score_cases. Qed.

Lemma score_ltb_false_le (a b : score) : score_ltb a b = false -> score_le b a.
Proof. unfold score_le, score_leb. now intros ->. Qed.

Lemma score_ltb_true_le (a b : score) : score_ltb a b = true -> score_le a b.
Proof. score_cases. Qed.

Lemma score_le_NegInf (a : score) : score_le a NegInf -> a = NegInf.
Proof. score_cases. Qed.

Lemma score_le_PosInf (a : score) : score_le PosInf a -> a = PosInf.
Proof. score_cases. Qed.

Lemma score_max_ge_l (a b : score) : score_le a (score_max a b).
Proof. score_cases. Qed.

Lemma score_max_ge_r (a b : score) : score_le b (score_max a b).
Proof. score_cases. Qed.

Lemma score_min_le_l (a b : score) : score_le (score_min a b) a.
Proof. score_cases. Qed.

Lemma score_min_le_r (a b : score) : score_le (score_min a b) b.
Proof. score_cases. Qed.

(** ** Outcomes *)

Lemma bind_Ok {A B : Type} (c : outcome A) (k : A -> outcome B) (b : B) :
  bind c k = Ok b -> exists a, c = Ok a /\ k a = Ok b.
Proof. destruct c; simpl; intro H; try discriminate. eauto. Qed.

Lemma mapM_length {A B : Type} (f : A -> outcome B) (l : list A) (r : list B) :
  mapM f l = Ok r -> List.length r = List.length l.
Proof.
  revert r. induction l as [|x l IH]; simpl; intros r H.
  - inversion H. reflexivity.
  - apply bind_Ok in H. destruct H as [y [_ H]].
    apply bind_Ok in H. destruct H as [ys [Hys H]].
    inversion H. simpl. f_equal. now apply IH.
Qed.

(** ** The rules engine only touches the legal-move cache of the object it
    is asked about *)

Lemma set_cache_same (gs : GameState) : set_cache gs (_all_legal_moves_cache gs) = gs.
Proof. now destruct gs. Qed.

Lemma get_all_legal_moves_frame (gs gs' : GameState) (l : list Move) :
  get_all_legal_moves gs = Ok (l, gs') -> gs' = set_cache gs (Some l).
Proof.
  unfold get_all_legal_moves.
  destruct (_all_legal_moves_cache gs) as [c|] eqn:Hc.
  - intro H. inversion H. subst. rewrite <- Hc. symmetry. apply set_cache_same.
  - destruct (needs_promotion_choice gs).
    + intro H. now inversion H.
    + intro H. apply bind_Ok in H. destruct H as [p [_ H]].
      apply bind_Ok in H. destruct H as [lg [_ H]]. now inversion H.
Qed.

Lemma get_all_legal_moves_turn (gs gs' : GameState) (l : list Move) :
  get_all_legal_moves gs = Ok (l, gs') -> current_turn gs' = current_turn gs.
Proof. intro H. apply get_all_legal_moves_frame in H. now subst. Qed.

(* ------------------------------------------------------------------ *)
(** ** C1: the reconciliation of the root dispatcher *)

Lemma find_mate_Some (c : color) (l : list (Move * score)) (m : Move) :
  find_mate c l = Some m -> In (m, mating_score c) l.
Proof.
  unfold find_mate.
  destruct (find _ l) as [[m' s]|] eqn:Hf; intro H; inversion H; subst.
  apply find_some in Hf. destruct Hf as [Hin Heq].
  simpl in Heq. apply score_eqb_eq in Heq. now subst.
Qed.

Lemma find_mate_None (c : color) (l : list (Move * score)) :
  find_mate c l = None -> forall r, In r l -> snd r <> mating_score c.
Proof.
  unfold find_mate.
  destruct (find _ l) as [r0|] eqn:Hf; intro H; try discriminate.
  intros r Hin Heq.
  pose proof (find_none _ _ Hf r Hin) as Hn. simpl in Hn.
  apply score_eqb_eq in Heq. congruence.
Qed.

Lemma find_mate_exists (c : color) (l : list (Move * score)) :
  (exists r, In r l /\ snd r = mating_score c) -> exists m, find_mate c l = Some m.
Proof.
  intros [r [Hin Heq]].
  destruct (find_mate c l) as [m|] eqn:Hf; eauto.
  exfalso. exact (find_mate_None _ _ Hf _ Hin Heq).
Qed.

Lemma pick_extremal_fold (c : color) (first : Move) (l : list (Move * score))
    (best : Move * score) :
  let res := fold_left (fun (best : Move * score) (r : Move * score) =>
               if match c with
                  | White => score_ltb (snd best) (snd r)
                  | Black => score_ltb (snd r) (snd best)
                  end
               then r else best) l best in
  at_least_as_good c (snd res) (snd best) /\
  (forall r, In r l -> at_least_as_good c (snd res) (snd r)) /\
  (In res l \/ res = best).
Proof.
  revert best. induction l as [|r l IH]; intros best; simpl.
  - repeat split; [destruct c; apply score_le_refl | tauto | now right].
  - set (b' := if match c with
                     | White => score_ltb (snd best) (snd r)
                     | Black => score_ltb (snd r) (snd best)
                     end then r else best).
    destruct (IH b') as [H1 [H2 H3]].
    assert (Hb : at_least_as_good c (snd b') (snd best) /\
                 at_least_as_good c (snd b') (snd r) /\ (b' = r \/ b' = best)).
    { unfold b'. destruct c; simpl.
      - destruct (score_ltb (snd best) (snd r)) eqn:E.
        + repeat split; [now apply score_ltb_true_le | apply score_le_refl | now left].
        + repeat split; [apply score_le_refl | now apply score_ltb_false_le | now right].
      - destruct (score_ltb (snd r) (snd best)) eqn:E.
        + repeat split; [now apply score_ltb_true_le | apply score_le_refl | now left].
        + repeat split; [apply score_le_refl | now apply score_ltb_false_le | now right]. }
    destruct Hb as [Hb1 [Hb2 Hb3]].
    assert (Htr : forall x, at_least_as_good c (snd b') x ->
                            at_least_as_good c
                              (snd (fold_left (fun (best : Move * score) (r : Move * score) =>
                                 if match c with
                                    | White => score_ltb (snd best) (snd r)
                                    | Black => score_ltb (snd r) (snd best)
                                    end then r else best) l b')) x).
    { intros x Hx. destruct c; simpl in *; eapply score_le_trans; eauto. }
    repeat split.
    + now apply Htr.
    + intros r0 [-> | Hin]; [now apply Htr | now apply H2].
    + destruct H3 as [H3 | H3]; [left; now right |].
      rewrite H3. destruct Hb3 as [-> | ->]; [left; now left | now right].
Qed.

(** The extremal scan returns one of the collected pairs, and no collected
    score is better for the side to move. *)
Lemma pick_extremal_spec (c : color) (first : Move) (s0 : score)
    (rest : list (Move * score)) :
  let res := pick_extremal c first ((first, s0) :: rest) in
  In res ((first, s0) :: rest) /\
  forall r, In r ((first, s0) :: rest) -> at_least_as_good c (snd res) (snd r).
Proof.
  intro res. unfold res, pick_extremal.
  destruct (pick_extremal_fold c first ((first, s0) :: rest)
              (first, match c with White => NegInf | Black => PosInf end))
    as [_ [H2 H3]].
  split; [| exact H2].
  destruct H3 as [H3 | H3]; [exact H3 |].
  rewrite H3. left.
  specialize (H2 (first, s0) (or_introl eq_refl)). rewrite H3 in H2.
  destruct c; simpl in H2.
  - apply score_le_NegInf in H2. now subst.
  - apply score_le_PosInf in H2. now subst.
Qed.

(** C1.  When the dispatcher has collected the worker results
    [all_results] for the legal root moves, then (1) if some result carries
    the mating score of the side to move (CHECKMATE_SCORE for White,
    -CHECKMATE_SCORE for Black), [minimax] returns a move with that score
    together with the mating score, whatever the other scores are: the
    first such move; and (2) if no result carries it, [minimax] returns one
    of the collected pairs whose score is the maximum (White) or the minimum
    (Black) of all collected scores. *)
Theorem C1_mate_priority_then_extremal :
  forall (fast_copy : GameState -> outcome GameState) (env : Env) (fuel : nat)
         (gs gs1 : GameState) (depth : Z) (legal_moves : list Move)
         (all_results : list (Move * score)),
    get_all_legal_moves gs = Ok (legal_moves, gs1) ->
    legal_moves <> [] ->
    pool_fault env depth = false ->
    mapM (fun move => _minimax_worker fast_copy fuel move (deepcopy gs1) depth
                        NegInf PosInf (color_eqb (current_turn gs) White))
         legal_moves = Ok all_results ->
    let c := current_turn gs in
    ((exists r, In r all_results /\ snd r = mating_score c) ->
     exists m before after,
       minimax fast_copy env fuel gs depth = Ok ((Some m, mating_score c), gs1) /\
       all_results = before ++ (m, mating_score c) :: after /\
       (forall r, In r before -> snd r <> mating_score c)) /\
    ((forall r, In r all_results -> snd r <> mating_score c) ->
     exists m s,
       minimax fast_copy env fuel gs depth = Ok ((Some m, s), gs1) /\
       In (m, s) all_results /\
       (forall r, In r all_results -> at_least_as_good c s (snd r))).
Proof.
  intros fast_copy env fuel gs gs1 depth legal_moves all_results Hlegal Hne Hpool Hres c.
  pose proof (get_all_legal_moves_turn _ _ _ Hlegal) as Hturn.
  assert (Hrun : minimax fast_copy env fuel gs depth =
                 match reconcile c all_results with
                 | Some (m, s) => Ok ((Some m, s), gs1)
                 | None =>
                     match minimax_no_results env gs1 depth with
                     | Raise _ => minimax_fallback env gs1 depth
                     | other => other
                     end
                 end).
  { unfold minimax. rewrite Hlegal.
    destruct legal_moves as [|m0 rest]; [congruence |].
    rewrite Hpool, Hturn. unfold c. rewrite Hres. reflexivity. }
  assert (Hnonempty : exists first s0 rest, all_results = (first, s0) :: rest).
  { apply mapM_length in Hres.
    destruct all_results as [|[first s0] rest]; [| eauto].
    destruct legal_moves; [congruence | discriminate]. }
  destruct Hnonempty as [first [s0 [rest Hall]]].
  split.
  - intro Hex. apply find_mate_exists in Hex. destruct Hex as [m Hm].
    assert (Hsplit : exists before after,
               all_results = before ++ (m, mating_score c) :: after /\
               forall r, In r before -> snd r <> mating_score c).
    { clear - Hm. unfold find_mate in Hm.
      induction all_results as [|r l IH]; simpl in Hm; [discriminate |].
      destruct (score_eqb (snd r) (mating_score c)) eqn:E.
      - inversion Hm; subst. apply score_eqb_eq in E.
        exists [], l. split; [| intros ? []].
        destruct r as [m' s']; simpl in *. now subst.
      - destruct (IH Hm) as [b [a [Hl Hb]]].
        exists (r :: b), a. split; [simpl; now rewrite <- Hl |].
        intros r0 [<- | Hin]; [| now apply Hb].
        intro Heq. apply score_eqb_eq in Heq. congruence. }
    destruct Hsplit as [before [after [Hsp Hbefore]]].
    exists m, before, after. repeat split; auto.
    rewrite Hrun. unfold reconcile. rewrite Hall in *. now rewrite Hm.
  - intro Hnone.
    assert (Hm : find_mate c all_results = None).
    { destruct (find_mate c all_results) as [m|] eqn:Hf; [| reflexivity].
      apply find_mate_Some in Hf. exfalso. exact (Hnone _ Hf eq_refl). }
    destruct (pick_extremal_spec c first s0 rest) as [Hin Hbest].
    destruct (pick_extremal c first ((first, s0) :: rest)) as [m s] eqn:Hp.
    exists m, s. rewrite Hrun. unfold reconcile. rewrite Hall in *.
    rewrite Hm, Hp. repeat split; auto.
Qed.

Lemma C1_mate_priority_then_extremal_witness :
  exists m before after,
    minimax no_fast_copy (calm 0) 8 mate_in_one 1
    = Ok ((Some m, mating_score White), set_cache mate_in_one (Some mate_in_one_moves)) /\
    mate_in_one_results = before ++ (m, mating_score White) :: after /\
    (forall r, In r before -> snd r <> mating_score White).
Proof.
  destruct (@C1_mate_priority_then_extremal no_fast_copy (calm 0) 8 mate_in_one
              (set_cache mate_in_one (Some mate_in_one_moves)) 1
              mate_in_one_moves mate_in_one_results) as [H _].
  - vm_compute. reflexivity.
  - discriminate.
  - reflexivity.
  - vm_compute. reflexivity.
  - apply H. exists (NormalMove (5, 0) (0, 0) None, Num 1000000).
    split; [vm_compute; tauto | reflexivity].
Defined.

(* ------------------------------------------------------------------ *)
(** ** Reading a well-formed board never raises *)

Lemma py_index_ok {A : Type} (l : list A) (i : Z) :
  0 <= i < Z.of_nat (List.length l) -> exists x, py_index l i = Ok x.
Proof.
  intro H. unfold py_index.
  destruct (Z.ltb_spec i 0); [lia |].
  destruct (Z.ltb_spec i 0); [lia |].
  destruct (Z.leb_spec (Z.of_nat (List.length l)) i); [lia |]. simpl.
  destruct (nth_error l (Z.to_nat i)) eqn:E; [eauto |].
  apply nth_error_None in E. lia.
Qed.

Lemma py_index_In {A : Type} (l : list A) (i : Z) (x : A) :
  py_index l i = Ok x -> In x l.
Proof.
  unfold py_index.
  destruct (_ || _); [discriminate |].
  destruct (nth_error l _) eqn:E; intro H; inversion H; subst.
  eapply nth_error_In; eauto.
Qed.

Lemma is_on_board_range (r f : Z) :
  is_on_board r f = true <-> 0 <= r < 6 /\ 0 <= f < 6.
Proof.
  unfold is_on_board, BOARD_SIZE.
  rewrite !andb_true_iff, !Z.leb_le, !Z.ltb_lt. lia.
Qed.

Lemma get_cell_ok (b : list (list ascii)) (r f : Z) :
  wf_board b -> is_on_board r f = true -> exists x, get_cell b r f = Ok x.
Proof.
  intros [Hlen Hrows] Hon. apply is_on_board_range in Hon.
  unfold get_cell.
  destruct (@py_index_ok _ b r) as [row Hrow]; [lia |].
  rewrite Hrow. simpl.
  apply py_index_In in Hrow.
  rewrite Forall_forall in Hrows. specialize (Hrows _ Hrow).
  apply py_index_ok. lia.
Qed.

Lemma all_squares_on_board : Forall (fun rc => is_on_board (fst rc) (snd rc) = true) all_squares.
Proof. vm_compute. repeat constructor. Qed.

Lemma foldM_ok {A B : Type} (f : B -> A -> outcome B) (l : list A) (P : A -> Prop) :
  Forall P l ->
  (forall acc x, P x -> exists acc', f acc x = Ok acc') ->
  forall acc, exists r, foldM f l acc = Ok r.
Proof.
  intros HP Hf. induction HP as [|x l Hx _ IH]; intro acc; simpl.
  - eauto.
  - destruct (Hf acc x Hx) as [acc' ->]. simpl. apply IH.
Qed.

Lemma board_material_ok (gs : GameState) :
  wf_board (board gs) -> exists wb bb, board_material gs = Ok (wb, bb).
Proof.
  intro Hwf. unfold board_material.
  destruct (@foldM_ok _ _
              (fun (acc : Z * Z) (rc : Square) =>
                 piece <- get_cell (board gs) (fst rc) (snd rc) ;;
                 if negb (char_eqb piece EMPTY_SQUARE) then
                   let value := piece_value piece in
                   if color_is (get_piece_color piece) White
                   then Ok (fst acc + value, snd acc)
                   else Ok (fst acc, snd acc + value)
                 else Ok acc)
              all_squares _ all_squares_on_board) with (acc := (0, 0)) as [[wb bb] H].
  - intros acc rc Hon. destruct (get_cell_ok _ _ _ Hwf Hon) as [x ->]. simpl.
    destruct (negb _); [destruct (color_is _ _) |]; eauto.
  - eauto.
Qed.

Lemma hand_material_ok (table : list (string * Z)) (h : hand) :
  Forall (fun kv => key_has_upper (fst kv)) h -> exists z, hand_material table h = Ok z.
Proof.
  intro H. unfold hand_material.
  eapply foldM_ok; [exact H |].
  intros acc [k v] Hk. simpl in *. destruct k; simpl in *; try contradiction; eauto.
Qed.

(* ------------------------------------------------------------------ *)
(** ** C3: the stalemate branch of evaluate_position *)

Lemma stalemate_state_reached :
  check_game_over stalemate_position = Ok (true, stalemate_state).
Proof. vm_compute. reflexivity. Qed.

(** C3, as the specification words it, fails: in [stalemate_state] White is
    to move and stalemated, Black (the side without the move) is a queen
    up, and the evaluation is 0, not a loss for White. *)
Lemma C3_counterexample : ~ stalemate_rule_as_stated stalemate_state.
Proof.
  intro H. specialize (H 900 eq_refl). vm_compute in H. discriminate.
Qed.

(** C3 (amended).  For every stalemate state (stalemate flag set, checkmate
    flag clear) with a well-formed board and hand keys that are strings or
    bytes, [evaluate_position] returns a loss for the side to move (-10000
    when White is to move, +10000 when Black is) if the side TO move leads
    in material by more than 100, and 0 otherwise; material is the board
    pieces plus the pieces in hand, for both sides. *)
Theorem C3_stalemate_material_rule :
  forall gs : GameState,
    checkmate gs = false ->
    stalemate gs = true ->
    wf_board (board gs) ->
    hands_have_upper gs ->
    exists lead,
      mover_lead gs = Ok lead /\
      evaluate_position gs
      = Ok (if STALEMATE_THRESHOLD <? lead
            then loss_equivalent (current_turn gs) else Num 0).
Proof.
  intros gs Hcm Hsm Hwf [Hw Hb].
  destruct (board_material_ok gs Hwf) as [wb [bb Hbm]].
  destruct (hand_material_ok HAND_PIECE_VALUES _ Hw) as [wh Hwh].
  destruct (hand_material_ok HAND_PIECE_VALUES _ Hb) as [bh Hbh].
  unfold evaluate_position, stalemate_score, mover_lead, side_material.
  rewrite Hcm, Hsm, Hbm. cbn [bind].
  unfold STALEMATE_THRESHOLD.
  destruct (current_turn gs); cbn [get_opposite_color color_eqb andb];
    rewrite Hwh, Hbh; cbn [bind].
  - eexists. split; [reflexivity |].
    destruct (Z.ltb_spec 100 (wb + wh - (bb + bh))); reflexivity.
  - eexists. split; [reflexivity |].
    destruct (Z.ltb_spec (wb + wh - (bb + bh)) (-100));
    destruct (Z.ltb_spec 100 (bb + bh - (wb + wh))); try reflexivity; lia.
Qed.

Lemma C3_stalemate_material_rule_witness :
  exists lead,
    mover_lead stalemate_state = Ok lead /\
    evaluate_position stalemate_state
    = Ok (if STALEMATE_THRESHOLD <? lead
          then loss_equivalent (current_turn stalemate_state) else Num 0).
Proof.
  apply (@C3_stalemate_material_rule stalemate_state).
  - reflexivity.
  - reflexivity.
  - split; [reflexivity | repeat constructor].
  - split; constructor.
Defined.

(* ------------------------------------------------------------------ *)
(** ** C10: mvv_lva_score returns a number on the moves of the generator *)

Lemma mvv_lva_normal_ok (gs : GameState) (t : Tables) (r1 c1 r2 c2 : Z) (p : pyval) :
  wf_board (board gs) ->
  is_on_board r1 c1 = true -> is_on_board r2 c2 = true ->
  exists a v,
    get_cell (board gs) r1 c1 = Ok a /\
    get_cell (board gs) r2 c2 = Ok v /\
    (a = EMPTY_SQUARE -> mvv_lva_score gs t (py_normal r1 c1 r2 c2 p) = Ok 0) /\
    exists z, mvv_lva_score gs t (py_normal r1 c1 r2 c2 p) = Ok z.
Proof.
  intros Hwf H1 H2.
  destruct (@get_cell_ok _ r1 c1 Hwf H1) as [a Ha].
  destruct (@get_cell_ok _ r2 c2 Hwf H2) as [v Hv].
  exists a, v. split; [exact Ha |]. split; [exact Hv |].
  unfold mvv_lva_score, py_normal, mvv_lva_normal.
  cbn [is_drop_tag negb unpack2 bind as_int].
  unfold get_cell in Ha, Hv.
  destruct (py_index (board gs) r1) as [row1| |]; cbn [bind] in *; try discriminate.
  rewrite Ha. cbn [bind].
  destruct (py_index (board gs) r2) as [row2| |]; cbn [bind] in *; try discriminate.
  rewrite Hv. cbn [bind].
  split.
  - intros ->. reflexivity.
  - destruct (char_eqb a EMPTY_SQUARE); eauto.
Qed.

Lemma mvv_lva_drop_ok (gs : GameState) (t : Tables) (code : pyval) (r c : Z) :
  ((forall a b, code <> PyStr (String a (String b EmptyString))) ->
   mvv_lva_score gs t (py_drop code r c) = Ok 0) /\
  exists z, mvv_lva_score gs t (py_drop code r c) = Ok z.
Proof.
  unfold mvv_lva_score, py_drop, mvv_lva_drop.
  cbn [is_drop_tag negb String.eqb Ascii.eqb Bool.eqb andb].
  change (py_index [PyStr "drop"; code; PyTuple [PyInt r; PyInt c]] 1) with (Ok code).
  cbn [bind].
  assert (Hother : (forall a b, code <> PyStr (String a (String b EmptyString))) ->
                   match code with
                   | PyStr (String c0 (String c1 EmptyString)) =>
                       sq <- py_index [PyStr "drop"; code; PyTuple [PyInt r; PyInt c]] 2 ;;
                       '(drop_r, drop_c) <- unpack2 sq ;;
                       let piece_type := str1 (upper c1) in
                       let base := table_get HAND_PIECE_VALUES piece_type 0 / 10 in
                       let b1 := if py_in_center drop_r drop_c then base + 50 else base in
                       let enemy_color := get_opposite_color_chr c0 in
                       b2 <- match king_of gs enemy_color with
                             | Some (ek_r, ek_c) =>
                                 r <- as_int drop_r ;;
                                 c <- as_int drop_c ;;
                                 Ok (if Z.max (Z.abs (r - ek_r)) (Z.abs (c - ek_c)) <=? 2
                                     then b1 + 100 else b1)
                             | None => Ok b1
                             end ;;
                       Ok (b2 + history_get t
                                  (repr (PyTuple [PyStr "drop"; code; PyTuple [PyInt r; PyInt c]])))
                   | _ => Ok 0
                   end = Ok 0).
  { intro Hn. destruct code as [| | |s| | |]; try reflexivity.
    destruct s as [|a [|b [|x s]]]; try reflexivity.
    exfalso. exact (Hn a b eq_refl). }
  split; [exact Hother |].
  destruct code as [| | |s| | |]; eauto.
  destruct s as [|a [|b [|x s]]]; eauto.
  change (py_index [PyStr "drop"; PyStr (String a (String b EmptyString));
                    PyTuple [PyInt r; PyInt c]] 2)
    with (Ok (PyTuple [PyInt r; PyInt c])).
  cbn [bind unpack2 as_int].
  destruct (king_of gs (get_opposite_color_chr a)) as [[ek_r ek_c]|]; cbn [bind]; eauto.
Qed.

Lemma mvv_lva_other_shape (gs : GameState) (t : Tables) (v : pyval) :
  (forall x l, v <> PyTuple (x :: l)) -> mvv_lva_score gs t v = Ok 0.
Proof.
  intro H. destruct v as [| | | | |l|]; try reflexivity.
  destruct l as [|x l]; [reflexivity |]. exfalso. exact (H x l eq_refl).
Qed.

Lemma py_of_move_shape (m : Move) :
  match m with
  | NormalMove (r1, c1) (r2, c2) p =>
      py_of_move m = py_normal r1 c1 r2 c2
                       (match p with None => PyNone | Some c => PyStr (str1 c) end)
  | DropMove code (r, c) => py_of_move m = py_drop (PyStr code) r c
  end.
Proof. destruct m as [[r1 c1] [r2 c2] p | code [r c]]; reflexivity. Qed.

Lemma mvv_lva_move_ok (gs : GameState) (t : Tables) (m : Move) :
  wf_board (board gs) -> move_on_board m ->
  exists z, mvv_lva_score gs t (py_of_move m) = Ok z.
Proof.
  intros Hwf Hon. pose proof (py_of_move_shape m) as Hs.
  destruct m as [[r1 c1] [r2 c2] p | code [r c]]; rewrite Hs.
  - destruct Hon as [H1 H2].
    destruct (@mvv_lva_normal_ok gs t r1 c1 r2 c2
                (match p with None => PyNone | Some c => PyStr (str1 c) end) Hwf H1 H2)
      as [a [v [_ [_ [_ H]]]]]. exact H.
  - apply mvv_lva_drop_ok.
Qed.

Lemma mapM_ok {A B : Type} (f : A -> outcome B) (l : list A) (P : A -> Prop) :
  Forall P l -> (forall x, P x -> exists y, f x = Ok y) -> exists r, mapM f l = Ok r.
Proof.
  intros HP Hf. induction HP as [|x l Hx _ [r IH]]; simpl.
  - eauto.
  - destruct (Hf x Hx) as [y ->]. rewrite IH. simpl. eauto.
Qed.

(** C10.  On a well-formed board, [mvv_lva_score] returns a number,
    raising nothing, for every move of the two shapes the generator
    produces: a normal move [((r1,c1),(r2,c2),promotion)] with both squares
    on the board, whatever [promotion] is, and a drop
    [('drop', piece_code, (r,c))], whatever [piece_code] is.  A normal move
    whose source square is empty scores 0; a drop whose piece code is not a
    two-character string scores 0; a value that is not a non-empty tuple
    scores 0.  Hence sorting a list of such moves by this key succeeds. *)
Theorem C10_mvv_lva_score_never_raises :
  forall (gs : GameState) (t : Tables),
    wf_board (board gs) ->
    (forall r1 c1 r2 c2 promotion,
        is_on_board r1 c1 = true -> is_on_board r2 c2 = true ->
        (exists z, mvv_lva_score gs t (py_normal r1 c1 r2 c2 promotion) = Ok z) /\
        (get_cell (board gs) r1 c1 = Ok EMPTY_SQUARE ->
         mvv_lva_score gs t (py_normal r1 c1 r2 c2 promotion) = Ok 0)) /\
    (forall piece_code r c,
        (exists z, mvv_lva_score gs t (py_drop piece_code r c) = Ok z) /\
        ((forall a b, piece_code <> PyStr (String a (String b EmptyString))) ->
         mvv_lva_score gs t (py_drop piece_code r c) = Ok 0)) /\
    (forall v, (forall x l, v <> PyTuple (x :: l)) -> mvv_lva_score gs t v = Ok 0) /\
    (forall moves, Forall move_on_board moves ->
        exists sorted,
          sort_moves (fun m => mvv_lva_score gs t (py_of_move m)) moves = Ok sorted).
Proof.
  intros gs t Hwf. repeat split.
  - destruct (@mvv_lva_normal_ok gs t r1 c1 r2 c2 promotion Hwf H H0)
      as [a [v [_ [_ [_ Hz]]]]]. exact Hz.
  - intro Hempty.
    destruct (@mvv_lva_normal_ok gs t r1 c1 r2 c2 promotion Hwf H H0)
      as [a [v [Ha [_ [H0' _]]]]].
    apply H0'. congruence.
  - apply mvv_lva_drop_ok.
  - apply mvv_lva_drop_ok.
  - apply mvv_lva_other_shape.
  - intros moves Hm. unfold sort_moves.
    destruct (@mapM_ok _ _ (fun m => mvv_lva_score gs t (py_of_move m)) moves _ Hm)
      as [keys Hk].
    + intros m Hon. now apply mvv_lva_move_ok.
    + rewrite Hk. simpl. eauto.
Qed.

Lemma initial_board_wf : wf_board (board initial_state).
Proof. split; [reflexivity | repeat constructor]. Qed.

Lemma C10_mvv_lva_score_never_raises_witness :
  (exists z, mvv_lva_score initial_state empty_tables (py_normal 5 2 3 3 PyNone) = Ok z) /\
  mvv_lva_score initial_state empty_tables (py_normal 3 3 2 3 PyNone) = Ok 0 /\
  mvv_lva_score initial_state empty_tables (py_drop (PyStr "wKnight") 2 2) = Ok 0.
Proof.
  destruct (@C10_mvv_lva_score_never_raises initial_state empty_tables initial_board_wf)
    as [Hn [Hd _]].
  split; [| split].
  - apply (Hn 5 2 3 3 PyNone); reflexivity.
  - apply (Hn 3 3 2 3 PyNone); reflexivity.
  - apply (Hd (PyStr "wKnight") 2 2). intros a b. discriminate.
Defined.

(** Coordinates off the board make the lookup fail before the empty-source
    test is reached. *)
Remark mvv_lva_score_off_board :
  mvv_lva_score initial_state empty_tables (py_normal 6 0 0 0 PyNone) = Raise IndexError.
Proof. reflexivity. Qed.

(* ------------------------------------------------------------------ *)
(** ** The rules engine and the evaluator need no recursion budget

    Nothing outside the searches recurses on the call stack, so none of
    those functions can answer [OutOfFuel]. *)

Lemma ff_Ok {A : Type} (a : A) : fuel_free (Ok a).
Proof. discriminate. Qed.

Lemma ff_Raise {A : Type} (e : exn) : fuel_free (@Raise A e).
Proof. discriminate. Qed.

Lemma ff_bind {A B : Type} (c : outcome A) (k : A -> outcome B) :
  fuel_free c -> (forall a, fuel_free (k a)) -> fuel_free (bind c k).
Proof. intros Hc Hk. destruct c; simpl; [apply Hk | discriminate | contradiction]. Qed.

Lemma ff_mapM {A B : Type} (f : A -> outcome B) (l : list A) :
  (forall x, fuel_free (f x)) -> fuel_free (mapM f l).
Proof.
  intro Hf. induction l as [|x l IH]; simpl; [apply ff_Ok |].
  apply ff_bind; [apply Hf | intro y]. apply ff_bind; [exact IH | intro ys; apply ff_Ok].
Qed.

Lemma ff_concatM {A B : Type} (f : A -> outcome (list B)) (l : list A) :
  (forall x, fuel_free (f x)) -> fuel_free (concatM f l).
Proof.
  intro Hf. unfold concatM. apply ff_bind; [now apply ff_mapM | intro; apply ff_Ok].
Qed.

Lemma ff_existsM {A : Type} (f : A -> outcome bool) (l : list A) :
  (forall x, fuel_free (f x)) -> fuel_free (existsM f l).
Proof.
  intro Hf. induction l as [|x l IH]; simpl; [apply ff_Ok |].
  apply ff_bind; [apply Hf | intros [|]; [apply ff_Ok | exact IH]].
Qed.

Lemma ff_filterM {A : Type} (f : A -> outcome bool) (l : list A) :
  (forall x, fuel_free (f x)) -> fuel_free (filterM f l).
Proof.
  intro Hf. induction l as [|x l IH]; simpl; [apply ff_Ok |].
  apply ff_bind; [apply Hf | intro b]. apply ff_bind; [exact IH | intro; apply ff_Ok].
Qed.

Lemma ff_foldM {A B : Type} (f : B -> A -> outcome B) (l : list A) (acc : B) :
  (forall a x, fuel_free (f a x)) -> fuel_free (foldM f l acc).
Proof.
  intro Hf. revert acc. induction l as [|x l IH]; intro acc; simpl; [apply ff_Ok |].
  apply ff_bind; [apply Hf | intro; apply IH].
Qed.

Lemma ff_py_index {A : Type} (l : list A) (i : Z) : fuel_free (py_index l i).
Proof.
  unfold py_index. destruct (_ || _); [discriminate |].
  destruct (nth_error _ _); discriminate.
Qed.

Lemma ff_py_setitem {A : Type} (l : list A) (i : Z) (x : A) : fuel_free (py_setitem l i x).
Proof. unfold py_setitem. destruct (_ || _); discriminate. Qed.

Create HintDb fuel.
#[local] Hint Resolve ff_Ok ff_Raise ff_py_index ff_py_setitem : fuel.

(** Splits a goal [fuel_free c] along the structure of [c]. *)
Ltac ff_step :=
  match goal with
  | |- fuel_free (bind _ _) => apply ff_bind; [| intro]
  | |- fuel_free (mapM _ _) => apply ff_mapM; intro
  | |- fuel_free (concatM _ _) => apply ff_concatM; intro
  | |- fuel_free (existsM _ _) => apply ff_existsM; intro
  | |- fuel_free (filterM _ _) => apply ff_filterM; intro
  | |- fuel_free (foldM _ _ _) => apply ff_foldM; intros
  | |- fuel_free (if ?b then _ else _) => destruct b
  | |- fuel_free (match ?x with _ => _ end) => destruct x
  | |- fuel_free (let _ := _ in _) => cbv zeta
  | |- fuel_free ((fun _ => _) _) => cbv beta
  | |- fuel_free _ => solve [auto with fuel]
  end.

Ltac ff := repeat ff_step.

Lemma ff_get_cell (b : list (list ascii)) (r f : Z) : fuel_free (get_cell b r f).
Proof. unfold get_cell. ff. Qed.

Lemma ff_set_cell (b : list (list ascii)) (r f : Z) (x : ascii) :
  fuel_free (set_cell b r f x).
Proof. unfold set_cell. ff. Qed.

Lemma ff_str_index (s : string) (i : Z) : fuel_free (str_index s i).
Proof. unfold str_index. ff. Qed.

Lemma ff_as_int (v : pyval) : fuel_free (as_int v).
Proof. destruct v; simpl; ff. Qed.

Lemma ff_unpack2 (v : pyval) : fuel_free (unpack2 v).
Proof.
  destruct v as [| | |s|s|l|l]; simpl; try discriminate.
  - destruct s as [|a [|b [|c s]]]; discriminate.
  - destruct s as [|a [|b [|c s]]]; discriminate.
  - destruct l as [|a [|b [|c l]]]; discriminate.
  - destruct l as [|a [|b [|c l]]]; discriminate.
Qed.

#[local] Hint Resolve ff_get_cell ff_set_cell ff_str_index ff_as_int ff_unpack2 : fuel.

Lemma ff_cell_is (b : list (list ascii)) (r f : Z) (p : ascii) : fuel_free (cell_is b r f p).
Proof. unfold cell_is. ff. Qed.

Lemma ff_ray_attacked (n : nat) (b : list (list ascii)) (cr cf dr df : Z) (p1 p2 : ascii) :
  fuel_free (ray_attacked n b cr cf dr df p1 p2).
Proof.
  revert cr cf. induction n as [|n IH]; intros cr cf; simpl; [apply ff_Ok |].
  ff.
Qed.

#[local] Hint Resolve ff_cell_is ff_ray_attacked : fuel.

Lemma ff_is_square_attacked (gs : GameState) (r f : Z) (c : color) :
  fuel_free (_internal_is_square_attacked gs r f c).
Proof. unfold _internal_is_square_attacked. ff. Qed.

Lemma ff_fold_left_outcome {A B : Type} (f : outcome B -> A -> outcome B) (l : list A)
    (acc : outcome B) :
  fuel_free acc -> (forall a x, fuel_free a -> fuel_free (f a x)) ->
  fuel_free (fold_left f l acc).
Proof.
  intros Ha Hf. revert acc Ha. induction l as [|x l IH]; intros acc Ha; simpl; auto.
Qed.

Lemma ff_find_kings (gs : GameState) : fuel_free (find_kings gs).
Proof.
  unfold find_kings. apply ff_bind; [| intro; apply ff_Ok].
  apply ff_fold_left_outcome; [apply ff_Ok |].
  intros a x Ha. ff.
Qed.

#[local] Hint Resolve ff_is_square_attacked ff_find_kings : fuel.

Lemma ff_is_in_check (gs : GameState) (c : color) : fuel_free (is_in_check gs c).
Proof. unfold is_in_check. ff. Qed.

Lemma ff_slide (n : nat) (b : list (list ascii)) (r f : Z) (c : color) (nr nf dr df : Z) :
  fuel_free (slide n b r f c nr nf dr df).
Proof.
  revert nr nf. induction n as [|n IH]; intros nr nf; simpl; [apply ff_Ok |].
  ff.
Qed.

#[local] Hint Resolve ff_is_in_check ff_slide : fuel.

Lemma ff_get_pawn_moves (gs : GameState) (r f : Z) (c : color) :
  fuel_free (get_pawn_moves gs r f c).
Proof. unfold get_pawn_moves. ff. Qed.

Lemma ff_get_step_moves (gs : GameState) (r f : Z) (c : color) (steps : list (Z * Z)) :
  fuel_free (get_step_moves gs r f c steps).
Proof. unfold get_step_moves. ff. Qed.

Lemma ff_get_sliding_moves (gs : GameState) (r f : Z) (c : color) (ds : list (Z * Z)) :
  fuel_free (get_sliding_moves gs r f c ds).
Proof. unfold get_sliding_moves. ff. Qed.

#[local] Hint Resolve ff_get_pawn_moves ff_get_step_moves ff_get_sliding_moves : fuel.

Lemma ff_drops_of_entry (gs : GameState) (c : color) (kv : hand_key * Z) :
  fuel_free (drops_of_entry gs c kv).
Proof. unfold drops_of_entry. ff. Qed.

#[local] Hint Resolve ff_drops_of_entry : fuel.

Lemma ff_generate (gs : GameState) (c : color) :
  fuel_free (generate_all_pseudo_legal_moves gs c).
Proof.
  unfold generate_all_pseudo_legal_moves, get_knight_moves, get_king_moves,
    get_bishop_moves, get_rook_moves, get_queen_moves.
  ff.
Qed.

Lemma ff_make_move_body (gs : GameState) (m : Move) : fuel_free (make_move_body gs m).
Proof. unfold make_move_body. ff. Qed.

#[local] Hint Resolve ff_generate ff_make_move_body : fuel.

Lemma ff_make_move_no_check (gs : GameState) (m : Move) :
  fuel_free (make_move_no_check gs m).
Proof. unfold make_move_no_check. ff. Qed.

#[local] Hint Resolve ff_make_move_no_check : fuel.

Lemma ff_get_all_legal_moves (gs : GameState) : fuel_free (get_all_legal_moves gs).
Proof. unfold get_all_legal_moves. ff. Qed.

#[local] Hint Resolve ff_get_all_legal_moves : fuel.

Lemma ff_check_game_over (gs : GameState) : fuel_free (check_game_over gs).
Proof. unfold check_game_over. ff. Qed.

#[local] Hint Resolve ff_check_game_over : fuel.

Lemma ff_make_move (gs : GameState) (m : Move) (b : bool) : fuel_free (make_move gs m b).
Proof. unfold make_move. ff. Qed.

Lemma ff_completed_move (lm : Move) (c : ascii) : fuel_free (completed_move lm c).
Proof. destruct lm; simpl; ff. Qed.

#[local] Hint Resolve ff_make_move ff_completed_move : fuel.

Lemma ff_complete_promotion (gs : GameState) (c : ascii) :
  fuel_free (complete_promotion gs c).
Proof. unfold complete_promotion. ff. Qed.

#[local] Hint Resolve ff_complete_promotion : fuel.

Lemma ff_child_state (gs : GameState) (m : Move) (w : bool) : fuel_free (child_state gs m w).
Proof. unfold child_state. ff. Qed.

Lemma ff_is_move_legal (gs : GameState) (m : Move) : fuel_free (is_move_legal gs m).
Proof.
  unfold is_move_legal. pose proof (ff_get_all_legal_moves gs) as H.
  destruct (get_all_legal_moves gs) as [[l g]| |]; [discriminate | discriminate | contradiction].
Qed.

Lemma ff_hand_key_upper (k : hand_key) : fuel_free (hand_key_upper k).
Proof. destruct k; simpl; ff. Qed.

#[local] Hint Resolve ff_child_state ff_is_move_legal ff_hand_key_upper : fuel.

Lemma ff_board_material (gs : GameState) : fuel_free (board_material gs).
Proof. unfold board_material. ff. Qed.

Lemma ff_hand_material (table : list (string * Z)) (h : hand) :
  fuel_free (hand_material table h).
Proof. unfold hand_material. ff. Qed.

#[local] Hint Resolve ff_board_material ff_hand_material : fuel.

Lemma ff_blocked_at (gs : GameState) (scan_r c : Z) (enemy : ascii) :
  fuel_free (blocked_at gs scan_r c enemy).
Proof. unfold blocked_at. ff. Qed.

#[local] Hint Resolve ff_blocked_at : fuel.

Lemma ff_pawn_bonus (gs : GameState) (w : bool) (rc : Square) : fuel_free (pawn_bonus gs w rc).
Proof. unfold pawn_bonus. ff. Qed.

Lemma ff_undeveloped (gs : GameState) (row : Z) (ps : list ascii) :
  fuel_free (undeveloped gs row ps).
Proof. unfold undeveloped. ff. Qed.

Lemma ff_attack_halves (gs : GameState) (att : color) (kr kc : Z) :
  fuel_free (attack_halves gs att kr kc).
Proof. unfold attack_halves. ff. Qed.

Lemma ff_eval_board (gs : GameState) (wk bk : Z * Z) : fuel_free (eval_board gs wk bk).
Proof. unfold eval_board. ff. Qed.

#[local] Hint Resolve ff_pawn_bonus ff_undeveloped ff_attack_halves ff_eval_board : fuel.

Lemma ff_evaluate_position (gs : GameState) : fuel_free (evaluate_position gs).
Proof. unfold evaluate_position, stalemate_score, full_evaluation. ff. Qed.

Lemma ff_get_noisy_moves (gs : GameState) : fuel_free (get_noisy_moves gs).
Proof. unfold get_noisy_moves. ff. Qed.

Lemma ff_mvv_lva_score (gs : GameState) (t : Tables) (v : pyval) :
  fuel_free (mvv_lva_score gs t v).
Proof.
  unfold mvv_lva_score, mvv_lva_normal, mvv_lva_drop.
  destruct v as [| | | | |l|]; try apply ff_Ok.
  destruct l as [|x l]; [apply ff_Ok |].
  destruct (negb (is_drop_tag x)).
  - destruct l as [|a [|b [|c l]]]; try apply ff_Raise. ff.
  - ff.
Qed.

#[local] Hint Resolve ff_evaluate_position ff_get_noisy_moves ff_mvv_lva_score : fuel.

Lemma ff_sort_moves (key : Move -> outcome Z) (moves : list Move) :
  (forall m, fuel_free (key m)) -> fuel_free (sort_moves key moves).
Proof. intro H. unfold sort_moves. ff. Qed.

Lemma ff_terminal_score (gs : GameState) : fuel_free (terminal_score gs).
Proof. unfold terminal_score. ff. Qed.

Lemma ff_random_choice (n : nat) (l : list Move) : fuel_free (random_choice n l).
Proof. unfold random_choice. ff. Qed.

#[local] Hint Resolve ff_terminal_score ff_random_choice : fuel.

(* ------------------------------------------------------------------ *)
(** ** C6: quiescence search terminates within its budget *)

Lemma quiescence_loop_terminates
    (rec : GameState -> score -> score -> outcome score) (white : bool)
    (gs : GameState) (moves : list Move) :
  (forall ns a b, fuel_free (rec ns a b)) ->
  forall alpha beta, fuel_free (quiescence_loop rec white gs moves alpha beta).
Proof.
  intro Hrec. induction moves as [|m rest IH]; intros alpha beta; simpl; [apply ff_Ok |].
  ff; auto.
Qed.

Lemma quiescence_search_terminates (fuel : nat) :
  forall (t : Tables) (gs : GameState) (alpha beta : score) (depth : Z),
    0 <= depth -> (Z.to_nat depth < fuel)%nat ->
    fuel_free (quiescence_search fuel t gs alpha beta depth).
Proof.
  induction fuel as [|fuel IH]; intros t gs alpha beta depth Hd Hf; [lia |].
  simpl.
  destruct (checkmate gs || stalemate gs); [ff |].
  apply ff_bind; [auto with fuel | intro stand_pat].
  destruct (Z.eqb_spec depth 0) as [|Hne]; [apply ff_Ok |].
  match goal with |- fuel_free (if ?b then _ else _) => destruct b end; [apply ff_Ok |].
  apply ff_bind; [auto with fuel | intros [noisy gs']].
  apply ff_bind; [apply ff_sort_moves; intro; auto with fuel | intro sorted].
  apply ff_bind; [| intro; apply ff_Ok].
  apply quiescence_loop_terminates.
  intros ns a b. apply ff_bind; [| intros [s g]; apply ff_Ok].
  apply IH; lia.
Qed.

Section WorkerTermination.

Variable fast_copy : GameState -> outcome GameState.
Hypothesis fast_copy_fuel_free : forall gs, fuel_free (fast_copy gs).

Lemma _quiescence_loop_terminates
    (rec : GameState -> score -> score -> outcome score) (maximizing : bool)
    (gs : GameState) (moves : list Move) :
  (forall ns a b, fuel_free (rec ns a b)) ->
  forall alpha beta, fuel_free (_quiescence_loop fast_copy rec maximizing gs moves alpha beta).
Proof.
  intro Hrec. induction moves as [|m rest IH]; intros alpha beta; simpl; [ff |].
  ff; auto.
Qed.

Lemma _quiescence_search_terminates (fuel : nat) :
  forall (gs : GameState) (alpha beta : score) (maximizing : bool) (depth : Z),
    0 <= depth -> (Z.to_nat depth < fuel)%nat ->
    fuel_free (_quiescence_search fast_copy fuel gs alpha beta maximizing depth).
Proof.
  induction fuel as [|fuel IH]; intros gs alpha beta maximizing depth Hd Hf; [lia |].
  simpl.
  apply ff_bind; [auto with fuel | intro stand_pat].
  apply ff_bind; [auto with fuel | intros [legal gs1]].
  destruct legal as [|m0 legal]; [auto with fuel |].
  destruct (Z.eqb_spec depth 0) as [|Hne]; [apply ff_Ok |].
  match goal with |- fuel_free (if ?b then _ else _) => destruct b end; [apply ff_Ok |].
  apply ff_bind; [auto with fuel | intros [noisy gs2]].
  destruct noisy as [|n0 noisy]; [apply ff_Ok |].
  apply _quiescence_loop_terminates.
  intros ns a b. apply IH; lia.
Qed.

Lemma _minimax_loop_terminates
    (rec : GameState -> score -> score -> outcome score) (maximizing : bool)
    (gs : GameState) (moves : list Move) :
  (forall ns a b, fuel_free (rec ns a b)) ->
  forall ev alpha beta,
    fuel_free (_minimax_loop fast_copy rec maximizing gs moves ev alpha beta).
Proof.
  intro Hrec. induction moves as [|m rest IH]; intros ev alpha beta; simpl; [ff |].
  ff; auto.
Qed.

(** A worker search of depth [depth] needs [depth + 1] frames of its own
    and [MAX_QUIESCENCE_DEPTH + 1] for the quiescence search at its leaves. *)
Lemma _minimax_recursive_terminates (fuel : nat) :
  forall (gs : GameState) (depth : Z) (alpha beta : score) (maximizing : bool),
    0 <= depth -> (Z.to_nat depth + 5 < fuel)%nat ->
    fuel_free (_minimax_recursive fast_copy fuel gs depth alpha beta maximizing).
Proof.
  induction fuel as [|fuel IH]; intros gs depth alpha beta maximizing Hd Hf; [lia |].
  simpl.
  apply ff_bind; [auto with fuel | intros [legal gs1]].
  destruct legal as [|m0 legal]; [auto with fuel |].
  destruct (Z.eqb_spec depth 0) as [->|Hne].
  - apply _quiescence_search_terminates; unfold MAX_QUIESCENCE_DEPTH; simpl in *; lia.
  - apply _minimax_loop_terminates. intros ns a b. apply IH; lia.
Qed.

Lemma _minimax_worker_terminates (fuel : nat) (move : Move) (gs : GameState)
    (depth : Z) (alpha beta : score) (maximizing : bool) :
  1 <= depth -> (Z.to_nat depth + 4 < fuel)%nat ->
  returns (_minimax_worker fast_copy fuel move gs depth alpha beta maximizing).
Proof.
  intros Hd Hf. unfold _minimax_worker, returns.
  pose proof (ff_make_move gs move false) as Hmm.
  destruct (make_move gs move false) as [[made gs1]| |]; simpl;
    [| eauto | contradiction].
  destruct made; simpl; [| eauto].
  assert (Hrec : fuel_free (_minimax_recursive fast_copy fuel gs1 (depth - 1) alpha beta
                              (negb maximizing))).
  { apply _minimax_recursive_terminates; lia. }
  destruct (_minimax_recursive fast_copy fuel gs1 (depth - 1) alpha beta (negb maximizing));
    simpl; [eauto | eauto | contradiction].
Qed.

End WorkerTermination.

Lemma no_fast_copy_fuel_free (gs : GameState) : fuel_free (no_fast_copy gs).
Proof. discriminate. Qed.

Lemma quiescence_search_budget_zero (t : Tables) (gs : GameState) (alpha beta : score) :
  quiescence_search 1 t gs alpha beta 0 = (s <- evaluate_position gs ;; Ok (s, gs)).
Proof.
  simpl. destruct (checkmate gs || stalemate gs); [reflexivity |].
  destruct (evaluate_position gs); reflexivity.
Qed.

Lemma _quiescence_search_budget_zero (fast_copy : GameState -> outcome GameState)
    (gs : GameState) (alpha beta : score) (maximizing : bool) :
  _quiescence_search fast_copy 1 gs alpha beta maximizing 0
  = (stand_pat_score <- evaluate_position gs ;;
     '(legal_moves, gs1) <- get_all_legal_moves gs ;;
     match legal_moves with
     | [] => terminal_score gs1
     | _ => Ok stand_pat_score
     end).
Proof. reflexivity. Qed.

(** C6, budget-0 clause as the specification words it, fails for the
    worker's quiescence search: in [stalemate_position] White has no legal
    move, the stand-pat evaluation is -900, and the call with budget 0
    returns the stalemate score 0. *)
Lemma C6_counterexample : ~ budget_zero_rule_as_stated.
Proof.
  intro H.
  specialize (H no_fast_copy stalemate_position NegInf PosInf true).
  vm_compute in H. discriminate.
Qed.

(** C6 (amended).  Both quiescence searches terminate on every state: a
    call with depth budget [depth >= 0] needs at most [depth + 1] nested
    calls, since every recursive call gets [depth - 1].  A call with budget
    0 makes no recursive call and returns the stand-pat evaluation, except
    that [_quiescence_search] returns the mate or stalemate score when the
    state has no legal move.  The alpha-beta core and the worker search
    enter quiescence with the constant MAX_QUIESCENCE_DEPTH = 4, so the
    quiescence recursion entered from them is at most 5 calls deep, noisy
    moves at every level or not. *)
Theorem C6_quiescence_bounded_recursion :
  (forall (fuel : nat) (t : Tables) (gs : GameState) (alpha beta : score) (depth : Z),
      0 <= depth -> (Z.to_nat depth < fuel)%nat ->
      terminates (quiescence_search fuel t gs alpha beta depth)) /\
  (forall (fast_copy : GameState -> outcome GameState),
      (forall gs, terminates (fast_copy gs)) ->
      forall (fuel : nat) (gs : GameState) (alpha beta : score) (maximizing : bool)
             (depth : Z),
        0 <= depth -> (Z.to_nat depth < fuel)%nat ->
        terminates (_quiescence_search fast_copy fuel gs alpha beta maximizing depth)) /\
  (forall (t : Tables) (gs : GameState) (alpha beta : score),
      quiescence_search 1 t gs alpha beta 0 = (s <- evaluate_position gs ;; Ok (s, gs))) /\
  (forall (fast_copy : GameState -> outcome GameState) (gs : GameState)
          (alpha beta : score) (maximizing : bool),
      _quiescence_search fast_copy 1 gs alpha beta maximizing 0
      = (stand_pat_score <- evaluate_position gs ;;
         '(legal_moves, gs1) <- get_all_legal_moves gs ;;
         match legal_moves with
         | [] => terminal_score gs1
         | _ => Ok stand_pat_score
         end)) /\
  (forall (fuel : nat) (gs : GameState) (depth : Z) (alpha beta : score)
          (maximizing : bool) (t : Tables),
      (depth =? 0) || checkmate gs || stalemate gs = true ->
      minimax_alpha_beta (S fuel) gs depth alpha beta maximizing t
      = ('(q_score, gs') <- quiescence_search fuel t gs alpha beta MAX_QUIESCENCE_DEPTH ;;
         Ok ((q_score, None), gs', t)) /\
      ((5 <= fuel)%nat ->
       terminates (minimax_alpha_beta (S fuel) gs depth alpha beta maximizing t))) /\
  (forall (fast_copy : GameState -> outcome GameState) (fuel : nat) (gs gs1 : GameState)
          (alpha beta : score) (maximizing : bool) (m : Move) (legal_moves : list Move),
      get_all_legal_moves gs = Ok (m :: legal_moves, gs1) ->
      _minimax_recursive fast_copy (S fuel) gs 0 alpha beta maximizing
      = _quiescence_search fast_copy fuel gs1 alpha beta maximizing MAX_QUIESCENCE_DEPTH) /\
  MAX_QUIESCENCE_DEPTH = 4.
Proof.
  split; [| split; [| split; [| split; [| split; [| split]]]]].
  - intros. now apply quiescence_search_terminates.
  - intros fast_copy Hfc. intros. now apply _quiescence_search_terminates.
  - apply quiescence_search_budget_zero.
  - apply _quiescence_search_budget_zero.
  - intros fuel gs depth alpha beta maximizing t Hleaf. split.
    + simpl. rewrite Hleaf. reflexivity.
    + intro Hf. simpl. rewrite Hleaf.
      apply ff_bind; [| intros [q g]; apply ff_Ok].
      apply quiescence_search_terminates; unfold MAX_QUIESCENCE_DEPTH; simpl; lia.
  - intros fast_copy fuel gs gs1 alpha beta maximizing m legal_moves Hl.
    simpl. rewrite Hl. reflexivity.
  - reflexivity.
Qed.

Lemma C6_quiescence_bounded_recursion_witness :
  terminates (quiescence_search 5 empty_tables mate_in_one NegInf PosInf 4) /\
  terminates (_quiescence_search no_fast_copy 5 mate_in_one NegInf PosInf true 4) /\
  terminates (minimax_alpha_beta 6 mate_in_one 0 NegInf PosInf true empty_tables).
Proof.
  destruct C6_quiescence_bounded_recursion as [H1 [H2 [_ [_ [H5 _]]]]].
  split; [| split].
  - apply H1; simpl; lia.
  - apply H2; [intro; discriminate | lia | simpl; lia].
  - apply (H5 5%nat mate_in_one 0 NegInf PosInf true empty_tables); [reflexivity | lia].
Defined.

(* ------------------------------------------------------------------ *)
(** ** C2: the transposition-table probe of minimax_alpha_beta *)

Lemma dict_get_set_same {V : Type} (d : list (string * V)) (k : string) (v : V) :
  dict_get String.eqb (dict_set String.eqb d k v) k = Some v.
Proof.
  induction d as [|[k' v'] d IH]; simpl.
  - now rewrite String.eqb_refl.
  - destruct (String.eqb k k') eqn:E; simpl; rewrite E; [reflexivity | exact IH].
Qed.

Lemma ab_expand_stores
    (rec : GameState -> score -> score -> Tables -> outcome (score * Tables))
    (gs : GameState) (pos_hash : string) (e : option tt_entry) (legal : list Move)
    (depth : Z) (alpha beta : score) (maximizing : bool) (t : Tables)
    (r : score * option Move) (gs' : GameState) (t' : Tables) :
  ab_expand rec gs pos_hash e legal depth alpha beta maximizing t = Ok (r, gs', t') ->
  tt_get t' pos_hash = Some (mkEntry depth (fst r) (bound_flag (fst r) alpha beta) (snd r)).
Proof.
  unfold ab_expand. intro H.
  apply bind_Ok in H. destruct H as [sorted [_ H]].
  apply bind_Ok in H. destruct H as [[st t1] [_ H]].
  inversion H; subst. unfold tt_get. simpl. apply dict_get_set_same.
Qed.

(** C2.  At a node that is not terminal, with [depth > 0] and at least one
    legal move, where the table holds an entry [e] for the position's hash:
    if [te_depth e >= depth], an EXACT entry is returned at once (score and
    best move, tables untouched, no child searched); a LOWERBOUND entry
    raises alpha to [max alpha score] and an UPPERBOUND entry lowers beta to
    [min beta score], and when the tightened window is closed
    ([alpha >= beta]) the entry is returned at once, otherwise the moves are
    searched with the tightened window.  If [te_depth e < depth] the moves
    are searched with the caller's window: the entry causes no early return,
    and the search ends by storing a fresh entry of the requested depth. *)
Theorem C2_tt_probe :
  forall (fuel : nat) (gs gs1 : GameState) (depth : Z) (alpha beta : score)
         (maximizing : bool) (t : Tables) (e : tt_entry) (m : Move) (ms : list Move),
    0 < depth ->
    checkmate gs = false -> stalemate gs = false ->
    get_all_legal_moves gs = Ok (m :: ms, gs1) ->
    tt_get t (get_position_hash gs) = Some e ->
    let run := minimax_alpha_beta (S fuel) gs depth alpha beta maximizing t in
    let hit := Ok ((te_score e, te_best_move e), gs1, t) in
    let expand := fun a b =>
      ab_expand (ab_child fuel depth maximizing) gs1 (get_position_hash gs) (Some e)
                (m :: ms) depth a b maximizing t in
    (depth <= te_depth e ->
       (te_flag e = EXACT -> run = hit) /\
       (te_flag e = LOWERBOUND ->
          let alpha' := score_max alpha (te_score e) in
          score_le alpha alpha' /\ score_le (te_score e) alpha' /\
          (score_le beta alpha' -> run = hit) /\
          (~ score_le beta alpha' -> run = expand alpha' beta)) /\
       (te_flag e = UPPERBOUND ->
          let beta' := score_min beta (te_score e) in
          score_le beta' beta /\ score_le beta' (te_score e) /\
          (score_le beta' alpha -> run = hit) /\
          (~ score_le beta' alpha -> run = expand alpha beta'))) /\
    (te_depth e < depth -> run = expand alpha beta) /\
    (forall a b r gs' t',
        expand a b = Ok (r, gs', t') ->
        tt_get t' (get_position_hash gs)
        = Some (mkEntry depth (fst r) (bound_flag (fst r) a b) (snd r))).
Proof.
  intros fuel gs gs1 depth alpha beta maximizing t e m ms Hd Hcm Hsm Hlegal Htt
         run hit expand.
  assert (Hrun : run =
            if depth <=? te_depth e then
              match te_flag e with
              | EXACT => hit
              | _ =>
                  let alpha' := match te_flag e with
                                | LOWERBOUND => score_max alpha (te_score e)
                                | _ => alpha
                                end in
                  let beta' := match te_flag e with
                               | UPPERBOUND => score_min beta (te_score e)
                               | _ => beta
                               end in
                  if score_leb beta' alpha' then hit else expand alpha' beta'
              end
            else expand alpha beta).
  { unfold run. simpl. rewrite Hcm, Hsm.
    destruct (Z.eqb_spec depth 0) as [|_]; [lia |]. simpl.
    rewrite Htt, Hlegal. reflexivity. }
  split; [| split].
  - intro Hdeep. apply Z.leb_le in Hdeep. rewrite Hdeep in Hrun.
    split; [| split].
    + intro Hf. rewrite Hf in Hrun. exact Hrun.
    + intros Hf alpha'. rewrite Hf in Hrun. cbv zeta in Hrun. fold alpha' in Hrun.
      split; [apply score_max_ge_l |].
      split; [apply score_max_ge_r |].
      unfold score_le. split; intro Hc.
      * now rewrite Hc in Hrun.
      * destruct (score_leb beta alpha'); [congruence | exact Hrun].
    + intros Hf beta'. rewrite Hf in Hrun. cbv zeta in Hrun. fold beta' in Hrun.
      split; [apply score_min_le_l |].
      split; [apply score_min_le_r |].
      unfold score_le. split; intro Hc.
      * now rewrite Hc in Hrun.
      * destruct (score_leb beta' alpha); [congruence | exact Hrun].
  - intro Hshallow. apply Z.leb_gt in Hshallow. rewrite Hshallow in Hrun. exact Hrun.
  - intros a b r gs' t' H. unfold expand in H. now apply ab_expand_stores in H.
Qed.

Lemma C2_tt_probe_witness :
  minimax_alpha_beta 1 initial_state 1 NegInf PosInf true probe_tables
  = Ok ((Num 42, Some (NormalMove (4, 0) (3, 0) None)),
        set_cache initial_state (Some initial_moves), probe_tables).
Proof.
  destruct (@C2_tt_probe 0 initial_state (set_cache initial_state (Some initial_moves))
              1 NegInf PosInf true probe_tables probe_entry
              (NormalMove (4, 0) (3, 0) None) (tl initial_moves)) as [H _].
  - lia.
  - reflexivity.
  - reflexivity.
  - vm_compute. reflexivity.
  - vm_compute. reflexivity.
  - destruct H as [H _]; [simpl; lia |]. apply H. reflexivity.
Defined.

(* ------------------------------------------------------------------ *)
(** ** C9: killer and history bookkeeping at a cutoff *)

Section DictFacts.

Variables (K V : Type) (keq : K -> K -> bool).
Hypothesis keq_spec : forall a b, keq a b = true <-> a = b.

Lemma dict_get_set_eq (d : list (K * V)) (k : K) (v : V) :
  dict_get keq (dict_set keq d k v) k = Some v.
Proof.
  assert (Hr : keq k k = true) by now apply keq_spec.
  induction d as [|[k' v'] d IH]; simpl.
  - now rewrite Hr.
  - destruct (keq k k') eqn:E; simpl; rewrite E; [reflexivity | exact IH].
Qed.

Lemma dict_get_set_other (d : list (K * V)) (k k' : K) (v : V) :
  k <> k' -> dict_get keq (dict_set keq d k v) k' = dict_get keq d k'.
Proof.
  intro Hne. induction d as [|[k0 v0] d IH]; simpl.
  - destruct (keq k' k) eqn:E; [| reflexivity].
    apply keq_spec in E. congruence.
  - destruct (keq k k0) eqn:E; simpl.
    + apply keq_spec in E. subst k0.
      destruct (keq k' k) eqn:E'; [| reflexivity].
      apply keq_spec in E'. congruence.
    + destruct (keq k' k0); [reflexivity | exact IH].
Qed.

Lemma dict_set_Forall (Q : V -> Prop) (d : list (K * V)) (k : K) (v : V) :
  Forall (fun kv => Q (snd kv)) d -> Q v ->
  Forall (fun kv => Q (snd kv)) (dict_set keq d k v).
Proof.
  intros Hd Hv. induction Hd as [|[k0 v0] d H0 Hd IH]; simpl.
  - constructor; [exact Hv | constructor].
  - destruct (keq k k0); constructor; auto.
Qed.

Lemma dict_get_Forall (Q : V -> Prop) (d : list (K * V)) (k : K) (v : V) :
  Forall (fun kv => Q (snd kv)) d -> dict_get keq d k = Some v -> Q v.
Proof.
  intros Hd. induction Hd as [|[k0 v0] d H0 Hd IH]; simpl; [discriminate |].
  destruct (keq k k0); [intro H; inversion H; now subst | exact IH].
Qed.

End DictFacts.

Lemma string_eqb_spec (a b : string) : String.eqb a b = true <-> a = b.
Proof. apply String.eqb_eq. Qed.

Lemma Z_eqb_spec (a b : Z) : Z.eqb a b = true <-> a = b.
Proof. apply Z.eqb_eq. Qed.

Lemma killers_after_length (m : Move) (old : list Move) :
  (List.length old <= 2)%nat -> (List.length (killers_after m old) <= 2)%nat.
Proof.
  intro H. unfold killers_after.
  destruct (move_in m old); [exact H |].
  destruct old as [|a [|b [|c old]]]; simpl in *; lia.
Qed.

Lemma killers_after_front (m : Move) (old : list Move) :
  (List.length old <= 2)%nat -> move_in m old = false ->
  killers_after m old = firstn 2 (m :: old).
Proof.
  intros H Hn. unfold killers_after. rewrite Hn.
  destruct old as [|a [|b [|c old]]]; simpl in *; try reflexivity; lia.
Qed.

Lemma record_cutoff_tt (depth : Z) (m : Move) (t : Tables) :
  tt (record_cutoff depth m t) = tt t.
Proof. reflexivity. Qed.

Lemma record_cutoff_history (depth : Z) (m : Move) (t : Tables) :
  history_get (record_cutoff depth m t) (repr (py_of_move m))
  = history_get t (repr (py_of_move m)) + depth * depth /\
  forall k, k <> repr (py_of_move m) -> history_get (record_cutoff depth m t) k = history_get t k.
Proof.
  split.
  - unfold record_cutoff. unfold history_get at 1. cbn [history_scores].
    now rewrite (@dict_get_set_eq _ _ String.eqb string_eqb_spec).
  - intros k Hk. unfold record_cutoff, history_get. cbn [history_scores].
    rewrite (@dict_get_set_other _ _ String.eqb string_eqb_spec); [reflexivity | congruence].
Qed.

Lemma record_cutoff_killers (depth : Z) (m : Move) (t : Tables) :
  killers_get (record_cutoff depth m t) depth = killers_after m (killers_get t depth) /\
  forall d, d <> depth -> killers_get (record_cutoff depth m t) d = killers_get t d.
Proof.
  unfold record_cutoff, killers_get, killers_after. simpl.
  destruct (dict_get Z.eqb (killer_moves t) depth) as [old|] eqn:Hold.
  - rewrite Hold. destruct (move_in m old) eqn:Hin; simpl.
    + rewrite Hold. split; [reflexivity | reflexivity].
    + split.
      * now rewrite (@dict_get_set_eq _ _ Z.eqb Z_eqb_spec).
      * intros d Hd. now rewrite (@dict_get_set_other _ _ Z.eqb Z_eqb_spec).
  - rewrite (@dict_get_set_eq _ _ Z.eqb Z_eqb_spec). simpl. split.
    + now rewrite (@dict_get_set_eq _ _ Z.eqb Z_eqb_spec).
    + intros d Hd.
      rewrite (@dict_get_set_other _ _ Z.eqb Z_eqb_spec) by congruence.
      now rewrite (@dict_get_set_other _ _ Z.eqb Z_eqb_spec) by congruence.
Qed.

Lemma record_cutoff_bounded (depth : Z) (m : Move) (t : Tables) :
  killers_bounded t -> killers_bounded (record_cutoff depth m t).
Proof.
  unfold killers_bounded, record_cutoff. cbn [killer_moves]. intro Hb.
  destruct (dict_get Z.eqb (killer_moves t) depth) as [old|] eqn:Hold.
  - rewrite Hold.
    pose proof (@dict_get_Forall _ _ Z.eqb (fun l => (List.length l <= 2)%nat) _ _ _ Hb Hold)
      as Hl.
    pose proof (@killers_after_length m old Hl) as Hk. unfold killers_after in Hk.
    destruct (move_in m old) eqn:Hin; cbn [negb]; [exact Hb |].
    apply (@dict_set_Forall _ _ Z.eqb (fun l => (List.length l <= 2)%nat));
      [exact Hb | exact Hk].
  - rewrite (@dict_get_set_eq _ _ Z.eqb Z_eqb_spec).
    cbn [move_in existsb negb].
    apply (@dict_set_Forall _ _ Z.eqb (fun l => (List.length l <= 2)%nat)).
    + apply (@dict_set_Forall _ _ Z.eqb (fun l => (List.length l <= 2)%nat));
        [exact Hb | simpl; lia].
    + simpl. lia.
Qed.

Lemma killers_bounded_get (t : Tables) (d : Z) :
  killers_bounded t -> (List.length (killers_get t d) <= 2)%nat.
Proof.
  intro Hb. unfold killers_get.
  destruct (dict_get Z.eqb (killer_moves t) d) as [l|] eqn:E; [| simpl; lia].
  exact (@dict_get_Forall _ _ Z.eqb (fun l => (List.length l <= 2)%nat) _ _ _ Hb E).
Qed.

Lemma loop_entry_inv (maximizing : bool) (alpha beta : score) :
  loop_inv maximizing (loop_entry maximizing alpha beta).
Proof. destruct maximizing; simpl; score_cases. Qed.

Lemma ab_update_continue (maximizing : bool) (depth : Z) (m : Move) (e : score)
    (st st' : loop_state) (t t' : Tables) :
  ab_update maximizing depth m e st t = (false, st', t') ->
  loop_inv maximizing st ->
  t' = t /\ window_open st' /\ loop_inv maximizing st'.
Proof.
  unfold ab_update, loop_inv, window_open. destruct st as [ev best alpha beta]. simpl.
  destruct maximizing.
  - destruct (score_leb beta (score_max alpha e)) eqn:Hc; intro H; inversion H; subst.
    simpl. intro Hinv. split; [reflexivity |]. clear H. split.
    + unfold score_lt. unfold score_leb in Hc. now apply negb_false_iff in Hc.
    + clear Hc. destruct (score_ltb ev e) eqn:E.
      * apply score_max_ge_r.
      * eapply score_le_trans; [exact Hinv | apply score_max_ge_l].
  - destruct (score_leb (score_min beta e) alpha) eqn:Hc; intro H; inversion H; subst.
    simpl. intro Hinv. split; [reflexivity |]. clear H. split.
    + unfold score_lt. unfold score_leb in Hc. now apply negb_false_iff in Hc.
    + clear Hc. destruct (score_ltb e ev) eqn:E.
      * apply score_min_le_r.
      * eapply score_le_trans; [apply score_min_le_l | exact Hinv].
Qed.

Lemma ab_update_cutoff (maximizing : bool) (depth : Z) (m : Move) (e : score)
    (st st' : loop_state) (t t' : Tables) :
  ab_update maximizing depth m e st t = (true, st', t') ->
  window_open st -> loop_inv maximizing st ->
  ls_best st' = Some m /\ ls_eval st' = e /\ t' = record_cutoff depth m t.
Proof.
  unfold ab_update, loop_inv, window_open. destruct st as [ev best alpha beta]. simpl.
  destruct maximizing.
  - destruct (score_leb beta (score_max alpha e)) eqn:Hc; intro H; inversion H; subst; clear H.
    intros Hopen Hinv.
    assert (Hlt : score_ltb ev e = true) by (clear - Hc Hopen Hinv; score_cases).
    rewrite Hlt. auto.
  - destruct (score_leb (score_min beta e) alpha) eqn:Hc; intro H; inversion H; subst; clear H.
    intros Hopen Hinv.
    assert (Hlt : score_ltb e ev = true) by (clear - Hc Hopen Hinv; score_cases).
    rewrite Hlt. auto.
Qed.

(** The decisions of the loop body do not read the tables. *)
Lemma ab_update_blind (maximizing : bool) (depth : Z) (m : Move) (e : score)
    (st : loop_state) (t1 t2 : Tables) :
  fst (ab_update maximizing depth m e st t1) = fst (ab_update maximizing depth m e st t2).
Proof.
  unfold ab_update.
  destruct (score_leb _ _); reflexivity.
Qed.

Section LoopFacts.

Variables (rec : GameState -> score -> score -> Tables -> outcome (score * Tables))
          (maximizing : bool) (depth : Z) (gs : GameState).

Lemma loop_reaches_inv (c0 c : loop_config) :
  loop_reaches rec maximizing depth gs c0 c ->
  window_open (snd (fst c0)) -> loop_inv maximizing (snd (fst c0)) ->
  window_open (snd (fst c)) /\ loop_inv maximizing (snd (fst c)).
Proof.
  intros Hr Hopen Hinv. induction Hr as [c | c1 c2 c3 Hr IH Hstep]; [auto |].
  destruct (IH Hopen Hinv) as [Ho2 Hi2].
  destruct Hstep as [m rest st t Hskip | m rest st st' t t1 t2 ns e Hc Hrec Hup]; simpl in *.
  - auto.
  - destruct (ab_update_continue _ _ _ _ _ _ _ _ Hup Hi2) as [_ [Ho Hi]]. auto.
Qed.

(** The loop of the model runs along [loop_step] and ends either with the
    list exhausted or at a cutoff. *)
Lemma ab_loop_trace (moves : list Move) (st st' : loop_state) (t t' : Tables) :
  ab_loop rec maximizing depth gs moves st t = Ok (st', t') ->
  loop_reaches rec maximizing depth gs (moves, st, t) ([], st', t') \/
  exists c m e t1,
    loop_reaches rec maximizing depth gs (moves, st, t) c /\
    loop_cutoff rec maximizing depth gs c m e t1 st' t'.
Proof.
  assert (Hgen : forall c0 moves st t,
             loop_reaches rec maximizing depth gs c0 (moves, st, t) ->
             ab_loop rec maximizing depth gs moves st t = Ok (st', t') ->
             loop_reaches rec maximizing depth gs c0 ([], st', t') \/
             exists c m e t1,
               loop_reaches rec maximizing depth gs c0 c /\
               loop_cutoff rec maximizing depth gs c m e t1 st' t').
  { intros c0 mv. induction mv as [|m rest IH]; intros s0 t0 Hr H; simpl in H.
    - inversion H; subst. now left.
    - apply bind_Ok in H. destruct H as [next [Hc H]].
      destruct next as [ns|].
      + apply bind_Ok in H. destruct H as [[e t1] [Hrec H]].
        destruct (ab_update maximizing depth m e s0 t1) as [[stop s1] t2] eqn:Hup.
        destruct stop.
        * inversion H; subst. right. exists (m :: rest, s0, t0), m, e, t1.
          split; [exact Hr |]. exists rest, s0, t0, ns. auto.
        * apply (IH s1 t2); [| exact H].
          eapply reach_more; [exact Hr |]. eapply loop_next; eauto.
      + apply (IH s0 t0); [| exact H].
        eapply reach_more; [exact Hr |]. now apply loop_skip. }
  intro H. apply (Hgen (moves, st, t) moves st t); [apply reach_here | exact H].
Qed.

Hypothesis rec_bounded :
  forall ns a b t0 s t1, rec ns a b t0 = Ok (s, t1) -> killers_bounded t0 -> killers_bounded t1.

Lemma ab_loop_bounded (moves : list Move) (st st' : loop_state) (t t' : Tables) :
  ab_loop rec maximizing depth gs moves st t = Ok (st', t') ->
  killers_bounded t -> killers_bounded t'.
Proof.
  revert st t. induction moves as [|m rest IH]; intros st t H Hb; simpl in H.
  - now inversion H; subst.
  - apply bind_Ok in H. destruct H as [next [Hc H]].
    destruct next as [ns|]; [| eapply IH; eauto].
    apply bind_Ok in H. destruct H as [[e t1] [Hrec H]].
    pose proof (rec_bounded _ _ _ _ _ _ Hrec Hb) as Hb1.
    unfold ab_update in H.
    destruct (score_leb _ _).
    + inversion H; subst.
      destruct (if (if maximizing then score_ltb (ls_eval st) e else score_ltb e (ls_eval st))
                then Some m else ls_best st);
        [now apply record_cutoff_bounded | exact Hb1].
    + eapply IH; eauto.
Qed.

End LoopFacts.

Lemma minimax_alpha_beta_bounded (fuel : nat) :
  forall gs depth alpha beta maximizing t r gs' t',
    minimax_alpha_beta fuel gs depth alpha beta maximizing t = Ok (r, gs', t') ->
    killers_bounded t -> killers_bounded t'.
Proof.
  induction fuel as [|fuel IH]; intros gs depth alpha beta maximizing t r gs' t' H Hb;
    [discriminate |].
  simpl in H.
  assert (Hexp : forall e legal g a b,
             ab_expand
               (fun ns a0 b0 t0 =>
                  '(r0, _, t'0) <- minimax_alpha_beta fuel ns (depth - 1) a0 b0
                                     (negb maximizing) t0 ;;
                  Ok (fst r0, t'0))
               g (get_position_hash gs) e legal depth a b maximizing t = Ok (r, gs', t') ->
             killers_bounded t').
  { intros e legal g a b Hx. unfold ab_expand in Hx.
    apply bind_Ok in Hx. destruct Hx as [sorted [_ Hx]].
    apply bind_Ok in Hx. destruct Hx as [[st t1] [Hloop Hx]].
    inversion Hx; subst. unfold killers_bounded. simpl.
    eapply ab_loop_bounded; [| exact Hloop | exact Hb].
    intros ns a0 b0 t0 s t2 Hrec Hb0.
    apply bind_Ok in Hrec. destruct Hrec as [[[r0 g0] t3] [Hrec Hok]].
    inversion Hok; subst. eapply IH; eauto. }
  destruct ((depth =? 0) || checkmate gs || stalemate gs).
  - apply bind_Ok in H. destruct H as [[q g] [_ H]]. now inversion H; subst.
  - apply bind_Ok in H. destruct H as [[legal gs1] [_ H]].
    destruct legal as [|m0 legal].
    + apply bind_Ok in H. destruct H as [s [_ H]]. now inversion H; subst.
    + destruct (tt_get t (get_position_hash gs)) as [e|]; [| eapply Hexp; eauto].
      destruct (depth <=? te_depth e); [| eapply Hexp; eauto].
      destruct (te_flag e).
      * now inversion H; subst.
      * destruct (score_leb _ _); [now inversion H; subst | eapply Hexp; eauto].
      * destruct (score_leb _ _); [now inversion H; subst | eapply Hexp; eauto].
Qed.



(* ------------------------------------------------------------------ *)
(** ** C7: the position hash is a function of board, hands and turn *)


(** *** A total order that extends Python's [<] on dictionary items *)

Lemma string_cmp_trans (a b c : string) :
  String.compare a b = Lt -> String.compare b c = Lt -> String.compare a c = Lt.
Proof.
  intros H1 H2.
  apply String_as_OT.cmp_lt. apply String_as_OT.cmp_lt in H1, H2.
  eapply String_as_OT.lt_trans; eauto.
Qed.

Lemma key_cmp_eq (a b : hand_key) : key_cmp a b = Eq -> a = b.
Proof.
  destruct a, b; simpl; intro H; try discriminate; try reflexivity.
  - apply String_as_OT.cmp_eq in H. now subst.
  - apply String_as_OT.cmp_eq in H. now subst.
  - apply Z.compare_eq in H. now subst.
Qed.

Lemma key_cmp_refl (a : hand_key) : key_cmp a a = Eq.
Proof.
  destruct a; simpl; try reflexivity.
  - now apply String_as_OT.cmp_eq.
  - now apply String_as_OT.cmp_eq.
  - apply Z.compare_refl.
Qed.

Lemma key_cmp_antisym (a b : hand_key) : key_cmp a b = CompOpp (key_cmp b a).
Proof.
  destruct a, b; simpl; try reflexivity.
  - apply String.compare_antisym.
  - apply String.compare_antisym.
  - apply Z.compare_antisym.
Qed.

Lemma key_cmp_trans (a b c : hand_key) :
  key_cmp a b = Lt -> key_cmp b c = Lt -> key_cmp a c = Lt.
Proof.
  destruct a, b, c; simpl; intros H1 H2; try discriminate; try reflexivity.
  - eapply string_cmp_trans; eauto.
  - eapply string_cmp_trans; eauto.
  - exact (Z.lt_trans _ _ _ H1 H2).
Qed.

Lemma item_cmp_eq (a b : hand_key * Z) : item_cmp a b = Eq -> a = b.
Proof.
  unfold item_cmp. destruct a as [ka va], b as [kb vb]. simpl.
  destruct (key_cmp ka kb) eqn:E; intro H; try discriminate.
  apply key_cmp_eq in E. apply Z.compare_eq in H. now subst.
Qed.

Lemma item_cmp_antisym (a b : hand_key * Z) : item_cmp a b = CompOpp (item_cmp b a).
Proof.
  unfold item_cmp. rewrite (key_cmp_antisym (fst a) (fst b)).
  destruct (key_cmp (fst b) (fst a)); simpl; try reflexivity.
  apply Z.compare_antisym.
Qed.

Lemma item_cmp_trans (a b c : hand_key * Z) :
  item_cmp a b = Lt -> item_cmp b c = Lt -> item_cmp a c = Lt.
Proof.
  unfold item_cmp. destruct a as [ka va], b as [kb vb], c as [kc vc]. simpl.
  destruct (key_cmp ka kb) eqn:E1; intro H1; try discriminate;
    destruct (key_cmp kb kc) eqn:E2; intro H2; try discriminate.
  - apply key_cmp_eq in E1, E2. subst. rewrite key_cmp_refl.
    exact (Z.lt_trans _ _ _ H1 H2).
  - apply key_cmp_eq in E1. subst. now rewrite E2.
  - apply key_cmp_eq in E2. subst. now rewrite E1.
  - now rewrite (key_cmp_trans _ _ _ E1 E2).
Qed.

Lemma item_ltbT_total (a b : hand_key * Z) :
  item_ltbT a b = false -> item_ltbT b a = false -> a = b.
Proof.
  unfold item_ltbT. rewrite (item_cmp_antisym b a).
  destruct (item_cmp a b) eqn:E; simpl; intros; try discriminate.
  now apply item_cmp_eq.
Qed.

Lemma item_ltbT_asym (a b : hand_key * Z) : item_ltbT a b = true -> item_ltbT b a = false.
Proof.
  unfold item_ltbT. rewrite (item_cmp_antisym b a).
  destruct (item_cmp a b); simpl; intros; try discriminate; reflexivity.
Qed.

Lemma item_ltbT_trans (a b c : hand_key * Z) :
  item_ltbT a b = true -> item_ltbT b c = true -> item_ltbT a c = true.
Proof.
  unfold item_ltbT.
  destruct (item_cmp a b) eqn:E1; intro H1; try discriminate.
  destruct (item_cmp b c) eqn:E2; intro H2; try discriminate.
  now rewrite (item_cmp_trans _ _ _ E1 E2).
Qed.

(** Insertion commutes: the sorted list depends on the items only. *)
Lemma insertT_comm (x y : hand_key * Z) (l : list (hand_key * Z)) :
  insertT x (insertT y l) = insertT y (insertT x l).
Proof.
  induction l as [|h r IH]; simpl.
  - destruct (item_ltbT x y) eqn:Exy; destruct (item_ltbT y x) eqn:Eyx; try reflexivity.
    + apply item_ltbT_asym in Exy. congruence.
    + now rewrite (item_ltbT_total _ _ Exy Eyx).
  - destruct (item_ltbT y h) eqn:Eyh; destruct (item_ltbT x h) eqn:Exh; simpl.
    + destruct (item_ltbT x y) eqn:Exy; destruct (item_ltbT y x) eqn:Eyx;
        simpl; rewrite ?Exh, ?Eyh; try reflexivity.
      * apply item_ltbT_asym in Exy. congruence.
      * now rewrite (item_ltbT_total _ _ Exy Eyx).
    + rewrite Eyh.
      destruct (item_ltbT x y) eqn:Exy.
      * rewrite (item_ltbT_trans _ _ _ Exy Eyh) in Exh. discriminate.
      * simpl. now rewrite Exh.
    + rewrite Exh.
      destruct (item_ltbT y x) eqn:Eyx.
      * rewrite (item_ltbT_trans _ _ _ Eyx Exh) in Eyh. discriminate.
      * simpl. now rewrite Eyh.
    + rewrite Exh, Eyh. now rewrite IH.
Qed.

Lemma sortT_perm (l1 l2 : list (hand_key * Z)) :
  Permutation l1 l2 -> sortT l1 = sortT l2.
Proof.
  induction 1 as [| x l l' _ IH | x y l | l l' l'' _ IH1 _ IH2]; simpl.
  - reflexivity.
  - now rewrite IH.
  - apply insertT_comm.
  - now rewrite IH1.
Qed.

Lemma insertT_perm (x : hand_key * Z) (l : list (hand_key * Z)) :
  Permutation (x :: l) (insertT x l).
Proof.
  induction l as [|h r IH]; simpl; [reflexivity |].
  destruct (item_ltbT x h); [reflexivity |].
  eapply perm_trans; [apply perm_swap | now apply perm_skip].
Qed.

Lemma sortT_is_perm (l : list (hand_key * Z)) : Permutation l (sortT l).
Proof.
  induction l as [|x l IH]; simpl; [reflexivity |].
  eapply perm_trans; [apply perm_skip; exact IH | apply insertT_perm].
Qed.

(** *** Python's comparison agrees with the total order where it is defined *)

Lemma item_lt_same_class (a b : hand_key * Z) (c : nat) :
  (c <= 2)%nat -> key_rank (fst a) = c -> key_rank (fst b) = c ->
  item_lt a b = Ok (item_ltbT a b).
Proof.
  intros Hc Ha Hb. unfold item_lt, item_ltbT, item_cmp.
  destruct a as [ka va], b as [kb vb]. simpl in *.
  destruct ka, kb; simpl in *; try lia.
  - destruct (String.eqb s s0) eqn:E.
    + apply String.eqb_eq in E. subst.
      assert (Hr : String.compare s0 s0 = Eq) by now apply String_as_OT.cmp_eq.
      rewrite Hr. unfold Z.ltb. destruct (va ?= vb); reflexivity.
    + unfold String.ltb. destruct (String.compare s s0) eqn:Ec; try reflexivity.
      apply String_as_OT.cmp_eq in Ec. subst. rewrite String.eqb_refl in E. discriminate.
  - destruct (String.eqb s s0) eqn:E.
    + apply String.eqb_eq in E. subst.
      assert (Hr : String.compare s0 s0 = Eq) by now apply String_as_OT.cmp_eq.
      rewrite Hr. unfold Z.ltb. destruct (va ?= vb); reflexivity.
    + unfold String.ltb. destruct (String.compare s s0) eqn:Ec; try reflexivity.
      apply String_as_OT.cmp_eq in Ec. subst. rewrite String.eqb_refl in E. discriminate.
  - destruct (Z.eqb_spec z z0) as [->|Hne].
    + rewrite Z.compare_refl. unfold Z.ltb. destruct (va ?= vb); reflexivity.
    + unfold Z.ltb. destruct (z ?= z0) eqn:Ec; try reflexivity.
      apply Z.compare_eq in Ec. contradiction.
Qed.

Lemma item_lt_Ok_class (a b : hand_key * Z) (r : bool) :
  fst a <> fst b -> item_lt a b = Ok r ->
  key_rank (fst a) = key_rank (fst b) /\ (key_rank (fst a) <= 2)%nat.
Proof.
  unfold item_lt. destruct a as [ka va], b as [kb vb]. simpl. intros Hne.
  destruct ka, kb; simpl; intro H; try discriminate; try (split; [reflexivity | lia]).
  exfalso. now apply Hne.
Qed.

Lemma Forall_insertT (P : hand_key * Z -> Prop) (x : hand_key * Z) (l : list (hand_key * Z)) :
  P x -> Forall P l -> Forall P (insertT x l).
Proof.
  intros Hx Hl. eapply Permutation_Forall; [apply insertT_perm |]. now constructor.
Qed.

Lemma insert_sorted_homogeneous (c : nat) (x : hand_key * Z) (l : list (hand_key * Z)) :
  (c <= 2)%nat -> key_rank (fst x) = c -> Forall (fun kv => key_rank (fst kv) = c) l ->
  insert_sorted x l = Ok (insertT x l).
Proof.
  intros Hc Hx Hl. induction Hl as [|h r Hh Hr IH]; simpl; [reflexivity |].
  rewrite (item_lt_same_class x h c Hc Hx Hh). simpl.
  destruct (item_ltbT x h); [reflexivity |]. now rewrite IH.
Qed.

Lemma py_sorted_sortable (l : list (hand_key * Z)) :
  sortable l -> py_sorted l = Ok (sortT l).
Proof.
  intros [Hlen | [c [Hc Hl]]].
  - destruct l as [|x [|y l]]; simpl in *; try reflexivity; lia.
  - induction Hl as [|x r Hx Hr IH]; simpl; [reflexivity |].
    rewrite IH. simpl. apply (insert_sorted_homogeneous c); auto.
    eapply Permutation_Forall; [apply sortT_is_perm | exact Hr].
Qed.

Lemma py_sorted_Ok_sortable (l l' : list (hand_key * Z)) :
  NoDup (map fst l) -> py_sorted l = Ok l' -> sortable l.
Proof.
  revert l'. induction l as [|x r IH]; intros l' Hnd H.
  - left. simpl. lia.
  - simpl in H. apply bind_Ok in H. destruct H as [r' [Hr H]].
    inversion Hnd as [|k ks Hnotin Hnd']; subst.
    pose proof (IH r' Hnd' Hr) as Hsr.
    rewrite (py_sorted_sortable r Hsr) in Hr. inversion Hr; subst r'.
    destruct r as [|y r]; [left; simpl; lia |].
    right.
    pose proof (sortT_is_perm (y :: r)) as Hperm.
    destruct (sortT (y :: r)) as [|h s] eqn:Es.
    { apply Permutation_sym, Permutation_nil in Hperm. discriminate. }
    simpl in H. apply bind_Ok in H. destruct H as [b [Hlt _]].
    assert (Hin : In h (y :: r)).
    { eapply Permutation_in; [apply Permutation_sym; exact Hperm | now left]. }
    assert (Hne : fst x <> fst h).
    { intro Heq. apply Hnotin. rewrite Heq. now apply in_map. }
    destruct (item_lt_Ok_class x h b Hne Hlt) as [Hrank Hgood].
    exists (key_rank (fst x)). split; [exact Hgood |].
    constructor; [reflexivity |].
    destruct Hsr as [Hlen | [c [Hc Hall]]].
    + destruct r; [| simpl in Hlen; lia].
      destruct Hin as [<- | []]. constructor; [simpl; congruence | constructor].
    + apply Forall_forall. intros kv Hkv. rewrite Forall_forall in Hall.
      rewrite (Hall kv Hkv). rewrite (Hall h Hin) in Hrank. congruence.
Qed.

Lemma sortable_perm (l1 l2 : list (hand_key * Z)) :
  Permutation l1 l2 -> sortable l1 -> sortable l2.
Proof.
  intros Hp [Hlen | [c [Hc Hall]]].
  - left. now rewrite <- (Permutation_length Hp).
  - right. exists c. split; [exact Hc |]. eapply Permutation_Forall; eauto.
Qed.

Lemma same_dict_sym (h1 h2 : hand) : same_dict h1 h2 -> same_dict h2 h1.
Proof.
  intros [Hnd Hp]. split; [| now apply Permutation_sym].
  eapply Permutation_NoDup; [| exact Hnd]. now apply Permutation_map.
Qed.

Lemma py_sorted_same_dict (h1 h2 : hand) (s : list (hand_key * Z)) :
  same_dict h1 h2 -> py_sorted h1 = Ok s -> py_sorted h2 = Ok s.
Proof.
  intros [Hnd Hp] H.
  pose proof (py_sorted_Ok_sortable h1 s Hnd H) as Hs.
  rewrite (py_sorted_sortable h1 Hs) in H. inversion H; subst.
  rewrite (py_sorted_sortable h2 (sortable_perm _ _ Hp Hs)).
  now rewrite (sortT_perm _ _ Hp).
Qed.

Lemma state_string_same_fields (s1 s2 : GameState) (x : string) :
  board s1 = board s2 ->
  current_turn s1 = current_turn s2 ->
  same_dict (hand_of s1 White) (hand_of s2 White) ->
  same_dict (hand_of s1 Black) (hand_of s2 Black) ->
  state_string s1 = Ok x -> state_string s2 = Ok x.
Proof.
  intros Hb Ht Hw Hk. unfold state_string. intro H.
  apply bind_Ok in H. destruct H as [w [Hsw H]].
  apply bind_Ok in H. destruct H as [k [Hsk H]].
  rewrite (py_sorted_same_dict _ _ _ Hw Hsw). cbn [bind].
  rewrite (py_sorted_same_dict _ _ _ Hk Hsk). cbn [bind].
  now rewrite <- Hb, <- Ht.
Qed.

(** *** The shape of a digest *)

Lemma hex_digit_is_hex (n : Z) : is_hex_char (hex_digit (n mod 16)).
Proof.
  assert (H : 0 <= n mod 16 < 16) by (apply Z.mod_pos_bound; lia).
  assert (Hc : n mod 16 = 0 \/ n mod 16 = 1 \/ n mod 16 = 2 \/ n mod 16 = 3 \/
               n mod 16 = 4 \/ n mod 16 = 5 \/ n mod 16 = 6 \/ n mod 16 = 7 \/
               n mod 16 = 8 \/ n mod 16 = 9 \/ n mod 16 = 10 \/ n mod 16 = 11 \/
               n mod 16 = 12 \/ n mod 16 = 13 \/ n mod 16 = 14 \/ n mod 16 = 15) by lia.
  unfold is_hex_char.
  repeat (destruct Hc as [-> | Hc]; [vm_compute; tauto |]).
  rewrite Hc. vm_compute. tauto.
Qed.

Lemma hex8_len (x : Z) : String.length (SHA256.hex8 x) = 8%nat.
Proof. unfold SHA256.hex8. cbn [String.length]. reflexivity. Qed.

Lemma hex8_chars (x : Z) :
  Forall is_hex_char (list_ascii_of_string (SHA256.hex8 x)).
Proof.
  unfold SHA256.hex8. cbn [list_ascii_of_string].
  repeat (apply Forall_cons; [apply hex_digit_is_hex |]). apply Forall_nil.
Qed.

Lemma append_len (a b : string) :
  String.length (String.append a b) = (String.length a + String.length b)%nat.
Proof. induction a as [|c a IH]; simpl; [reflexivity | now rewrite IH]. Qed.

Lemma append_chars (a b : string) :
  Forall is_hex_char (list_ascii_of_string a) ->
  Forall is_hex_char (list_ascii_of_string b) ->
  Forall is_hex_char (list_ascii_of_string (String.append a b)).
Proof.
  induction a as [|c a IH]; simpl; intros Ha Hb; [exact Hb |].
  inversion Ha; subst. apply Forall_cons; auto.
Qed.

Lemma hexdigest_shape (msg : list Z) : is_digest_256 (SHA256.hexdigest msg).
Proof.
  unfold is_digest_256, SHA256.hexdigest.
  generalize (SHA256.digest msg). intro s.
  cbn [concat_str]. split.
  - rewrite !append_len, !hex8_len. reflexivity.
  - repeat (apply append_chars; [apply hex8_chars |]). apply Forall_nil.
Qed.

(** C7.  The hash depends on the board contents, the two hands as
    dictionaries and the side to move, and on nothing else: two states that
    agree on these (the hands may list the same items in any insertion
    order; GameState has no en-passant or castling attribute, so the
    defaults always enter) have equal hashes, whatever their other fields,
    identity or history.  When the hand keys can be sorted (always the case
    for the string keys the engine writes) the hash is a SHA-256 digest in
    hexadecimal: 64 hex digits, 256 bits. *)
Theorem C7_hash_deterministic :
  forall s1 s2 : GameState,
    board s1 = board s2 ->
    current_turn s1 = current_turn s2 ->
    same_dict (hand_of s1 White) (hand_of s2 White) ->
    same_dict (hand_of s1 Black) (hand_of s2 Black) ->
    get_position_hash s1 = get_position_hash s2 /\
    (sortable (hand_of s1 White) -> sortable (hand_of s1 Black) ->
     is_digest_256 (get_position_hash s1)).
Proof.
  intros s1 s2 Hb Ht Hw Hk. split.
  - unfold get_position_hash.
    destruct (state_string s1) as [x| |] eqn:E1.
    + now rewrite (state_string_same_fields s1 s2 x Hb Ht Hw Hk E1).
    + destruct (state_string s2) as [y| |] eqn:E2; try reflexivity.
      rewrite (state_string_same_fields s2 s1 y (eq_sym Hb) (eq_sym Ht)
                 (same_dict_sym _ _ Hw) (same_dict_sym _ _ Hk) E2) in E1.
      discriminate.
    + destruct (state_string s2) as [y| |] eqn:E2; try reflexivity.
      rewrite (state_string_same_fields s2 s1 y (eq_sym Hb) (eq_sym Ht)
                 (same_dict_sym _ _ Hw) (same_dict_sym _ _ Hk) E2) in E1.
      discriminate.
  - intros Hsw Hsk. unfold get_position_hash, state_string.
    rewrite (py_sorted_sortable _ Hsw), (py_sorted_sortable _ Hsk). cbn [bind].
    apply hexdigest_shape.
Qed.

Lemma C7_hash_deterministic_witness :
  get_position_hash initial_state = get_position_hash reordered_state /\
  is_digest_256 (get_position_hash initial_state).
Proof.
  assert (Hd : same_dict (hand_of initial_state White)
                         (hand_of reordered_state White)).
  { split; [| apply Permutation_rev].
    vm_compute. repeat constructor; simpl; intuition discriminate. }
  assert (Hd' : same_dict (hand_of initial_state Black)
                          (hand_of reordered_state Black)).
  { split; [| apply Permutation_rev].
    vm_compute. repeat constructor; simpl; intuition discriminate. }
  assert (Hs : sortable (hand_of initial_state White)).
  { right. exists 0%nat. split; [lia |]. vm_compute. repeat constructor. }
  assert (Hs' : sortable (hand_of initial_state Black)).
  { right. exists 0%nat. split; [lia |]. vm_compute. repeat constructor. }
  destruct (C7_hash_deterministic initial_state reordered_state
              eq_refl eq_refl Hd Hd') as [He Hx].
  split; [exact He | exact (Hx Hs Hs')].
Defined.

(* ------------------------------------------------------------------ *)
(** ** A state whose hash fails *)

Lemma cache_key_eqb_spec (a b : string * Z) : cache_key_eqb a b = true <-> a = b.
Proof.
  destruct a as [s x], b as [u y]. unfold cache_key_eqb. simpl.
  rewrite Bool.andb_true_iff, String.eqb_eq, Z.eqb_eq. split.
  - intros [-> ->]. reflexivity.
  - intro H. inversion H. auto.
Qed.

Lemma cache_get_set (mc : MoveCache) (k : string * Z) (m : Move) :
  cache_get (cache_set mc k m) k = Some m.
Proof. exact (dict_get_set_eq _ _ cache_key_eqb cache_key_eqb_spec mc k m). Qed.

(** Whenever [find_best_move] returns a move, [move_cache] holds that move
    under [(pos_hash, depth)] afterwards. *)
Lemma find_best_move_stores
    (fc : GameState -> outcome GameState) (env : Env) (fuel : nat)
    (gs : GameState) (depth : Z) (mc : MoveCache)
    (m : Move) (gs' : GameState) (mc' : MoveCache) :
  find_best_move fc env fuel gs depth mc = Ok (Some m, gs', mc') ->
  cache_get mc' (get_position_hash gs, depth) = Some m.
Proof.
  unfold find_best_move.
  destruct (needs_promotion_choice gs); [discriminate |].
  intro H. apply bind_Ok in H. destruct H as [[hit gs1] [Hhit H]].
  destruct hit as [cm|].
  - inversion H; subst.
    destruct (cache_get mc' (get_position_hash gs, depth)) as [c|] eqn:Hc;
      [| discriminate].
    apply bind_Ok in Hhit. destruct Hhit as [[legal g] [_ Hhit]].
    destruct legal; inversion Hhit; subst. reflexivity.
  - apply bind_Ok in H. destruct H as [[legal_moves g] [_ H]].
    destruct legal_moves as [|a [|b l]].
    + apply bind_Ok in H. destruct H as [sc [_ H]]. discriminate.
    + inversion H; subst. apply cache_get_set.
    + apply bind_Ok in H. destruct H as [d [_ H]].
      match type of H with
      | match ?bm with _ => _ end = _ => destruct bm as [x|] eqn:Hbm
      end; inversion H; subst. apply cache_get_set.
Qed.



(* ------------------------------------------------------------------ *)
(** ** The caller's state object *)

Lemma unchanged_refl (gs : GameState) : unchanged_but_cache gs gs.
Proof. exists (_all_legal_moves_cache gs). symmetry. apply set_cache_same. Qed.

Lemma unchanged_trans (a b c : GameState) :
  unchanged_but_cache a b -> unchanged_but_cache b c -> unchanged_but_cache a c.
Proof. intros [x ->] [y ->]. now exists y. Qed.

Lemma unchanged_set_cache (gs gs' : GameState) (c : option (list Move)) :
  unchanged_but_cache gs gs' -> unchanged_but_cache gs (set_cache gs' c).
Proof. intros [x ->]. now exists c. Qed.

Lemma unchanged_fields (gs gs' : GameState) :
  unchanged_but_cache gs gs' ->
  board gs' = board gs /\ current_turn gs' = current_turn gs /\
  hands gs' = hands gs /\ king_pos gs' = king_pos gs /\
  checkmate gs' = checkmate gs /\ stalemate gs' = stalemate gs /\
  last_move gs' = last_move gs /\ move_log gs' = move_log gs /\
  game_over_message gs' = game_over_message gs /\
  selected_square gs' = selected_square gs /\
  selected_drop_piece gs' = selected_drop_piece gs /\
  highlighted_moves gs' = highlighted_moves gs /\
  needs_promotion_choice gs' = needs_promotion_choice gs /\
  promotion_square gs' = promotion_square gs /\
  last_move_for_promotion gs' = last_move_for_promotion gs.
Proof. intros [c ->]. repeat split. Qed.

Lemma get_all_legal_moves_unchanged (gs gs' : GameState) (l : list Move) :
  get_all_legal_moves gs = Ok (l, gs') -> unchanged_but_cache gs gs'.
Proof. intro H. exists (Some l). now apply get_all_legal_moves_frame. Qed.

Lemma is_move_legal_unchanged (gs gs' : GameState) (m : Move) (b : bool) :
  is_move_legal gs m = Ok (b, gs') -> unchanged_but_cache gs gs'.
Proof.
  unfold is_move_legal.
  destruct (get_all_legal_moves gs) as [[l g]| |] eqn:E; intro H; inversion H; subst.
  - now apply get_all_legal_moves_unchanged in E.
  - apply unchanged_refl.
Qed.

Lemma quiescence_search_unchanged (fuel : nat) (t : Tables) (gs gs' : GameState)
    (alpha beta : score) (depth : Z) (s : score) :
  quiescence_search fuel t gs alpha beta depth = Ok (s, gs') ->
  unchanged_but_cache gs gs'.
Proof.
  destruct fuel as [|fuel]; [discriminate |]. simpl.
  destruct (checkmate gs || stalemate gs).
  - intro H. apply bind_Ok in H. destruct H as [x [_ H]]. inversion H.
    apply unchanged_refl.
  - intro H. apply bind_Ok in H. destruct H as [sp [_ H]].
    destruct (depth =? 0); [inversion H; apply unchanged_refl |].
    match type of H with
    | (if ?c then _ else _) = _ => destruct c
    end; [inversion H; apply unchanged_refl |].
    apply bind_Ok in H. destruct H as [[noisy g] [Hn H]].
    apply bind_Ok in H. destruct H as [sorted [_ H]].
    apply bind_Ok in H. destruct H as [s' [_ H]]. inversion H; subst.
    unfold get_noisy_moves in Hn.
    apply bind_Ok in Hn. destruct Hn as [[l g'] [Hl Hn]]. inversion Hn; subst.
    now apply get_all_legal_moves_unchanged in Hl.
Qed.

Lemma minimax_alpha_beta_unchanged (fuel : nat) (gs gs' : GameState) (depth : Z)
    (alpha beta : score) (maximizing : bool) (t t' : Tables)
    (r : score * option Move) :
  minimax_alpha_beta fuel gs depth alpha beta maximizing t = Ok (r, gs', t') ->
  unchanged_but_cache gs gs'.
Proof.
  destruct fuel as [|fuel]; [discriminate |]. simpl.
  destruct ((depth =? 0) || checkmate gs || stalemate gs).
  - intro H. apply bind_Ok in H. destruct H as [[q g] [Hq H]]. inversion H; subst.
    now apply quiescence_search_unchanged in Hq.
  - intro H. apply bind_Ok in H. destruct H as [[l g1] [Hl H]].
    apply get_all_legal_moves_unchanged in Hl.
    assert (Hexp : forall rec h e a b,
               ab_expand rec g1 h e l depth a b maximizing t = Ok (r, gs', t') ->
               unchanged_but_cache gs gs').
    { intros rec h e a b He. unfold ab_expand in He.
      apply bind_Ok in He. destruct He as [sorted [_ He]].
      apply bind_Ok in He. destruct He as [[st t1] [_ He]]. inversion He; subst.
      now apply unchanged_set_cache. }
    destruct l as [|m ms].
    + apply bind_Ok in H. destruct H as [x [_ H]]. inversion H; subst. exact Hl.
    + cbv zeta in H.
      destruct (tt_get t (get_position_hash gs)) as [e|]; [| now apply Hexp in H].
      destruct (depth <=? te_depth e); [| now apply Hexp in H].
      destruct (te_flag e).
      * inversion H; subst. exact Hl.
      * destruct (score_leb _ _); [inversion H; subst; exact Hl | now apply Hexp in H].
      * destruct (score_leb _ _); [inversion H; subst; exact Hl | now apply Hexp in H].
Qed.

Lemma minimax_fallback_unchanged (env : Env) (gs gs' : GameState) (depth : Z)
    (r : option Move * score) :
  minimax_fallback env gs depth = Ok (r, gs') -> unchanged_but_cache gs gs'.
Proof.
  unfold minimax_fallback.
  destruct (get_all_legal_moves gs) as [[l g]| |] eqn:E; intro H.
  - apply get_all_legal_moves_unchanged in E.
    destruct l as [|m ms]; [inversion H; subst; exact E |].
    destruct (random_choice _ _); inversion H; subst; exact E.
  - inversion H. apply unchanged_refl.
  - discriminate.
Qed.

Lemma reconcile_nonempty (c : color) (l : list (Move * score)) :
  l <> [] -> reconcile c l <> None.
Proof.
  destruct l as [|[m s] l]; [congruence |]. intros _. unfold reconcile.
  destruct (find_mate c ((m, s) :: l)); discriminate.
Qed.

Lemma minimax_unchanged (fc : GameState -> outcome GameState) (env : Env)
    (fuel : nat) (gs gs' : GameState) (depth : Z) (r : option Move * score) :
  minimax fc env fuel gs depth = Ok (r, gs') -> unchanged_but_cache gs gs'.
Proof.
  unfold minimax.
  destruct (get_all_legal_moves gs) as [[l g1]| |] eqn:E; intro H.
  - apply get_all_legal_moves_unchanged in E.
    destruct l as [|m ms]; [inversion H; subst; exact E |].
    destruct (pool_fault env depth).
    { apply minimax_fallback_unchanged in H. exact (unchanged_trans _ _ _ E H). }
    destruct (mapM _ (m :: ms)) as [all_results| |] eqn:Hm.
    + destruct (reconcile (current_turn g1) all_results) as [[bm bs]|] eqn:Hr.
      * inversion H; subst. exact E.
      * exfalso. apply (reconcile_nonempty (current_turn g1) all_results); [| exact Hr].
        apply mapM_length in Hm. intro Hnil. subst. discriminate.
    + apply minimax_fallback_unchanged in H. exact (unchanged_trans _ _ _ E H).
    + discriminate.
  - now apply minimax_fallback_unchanged in H.
  - discriminate.
Qed.

Lemma deepening_loop_unchanged (fc : GameState -> outcome GameState) (env : Env)
    (fuel : nat) (pos_hash : string) (depth : Z) (depths : list Z) :
  forall (best_move : option Move) (best_score : score) (gs : GameState)
         (mc : MoveCache) (d : driver_state),
    deepening_loop fc env fuel pos_hash depth depths best_move best_score gs mc = Ok d ->
    unchanged_but_cache gs (d_gs d).
Proof.
  induction depths as [|cd rest IH]; intros bm bs gs mc d; simpl; intro H.
  - inversion H. apply unchanged_refl.
  - destruct (driver_fault env cd); [inversion H; apply unchanged_refl |].
    apply bind_Ok in H. destruct H as [[hit gs1] [Hhit H]].
    assert (H1 : unchanged_but_cache gs gs1).
    { destruct (cache_get mc (pos_hash, cd)) as [cm|].
      - destruct (cd =? depth).
        + apply bind_Ok in Hhit. destruct Hhit as [[legal g] [Hl Hhit]].
          inversion Hhit; subst. now apply is_move_legal_unchanged in Hl.
        + inversion Hhit. apply unchanged_refl.
      - inversion Hhit. apply unchanged_refl. }
    destruct hit as [cm|]; [inversion H; exact H1 |].
    apply bind_Ok in H. destruct H as [[r gs2] [Hmm H]].
    apply minimax_unchanged in Hmm.
    pose proof (unchanged_trans _ _ _ H1 Hmm) as H2.
    cbn [fst snd] in H.
    destruct (fst r) as [ibm|]; [| inversion H; exact H2].
    destruct (mate_found (snd r)); [inversion H; exact H2 |].
    apply IH in H. exact (unchanged_trans _ _ _ H2 H).
Qed.

Lemma find_best_move_unchanged (fc : GameState -> outcome GameState) (env : Env)
    (fuel : nat) (gs gs' : GameState) (depth : Z) (mc mc' : MoveCache)
    (r : option Move) :
  find_best_move fc env fuel gs depth mc = Ok (r, gs', mc') ->
  unchanged_but_cache gs gs'.
Proof.
  unfold find_best_move.
  destruct (needs_promotion_choice gs); [intro H; inversion H; apply unchanged_refl |].
  intro H. apply bind_Ok in H. destruct H as [[hit gs1] [Hhit H]].
  assert (H1 : unchanged_but_cache gs gs1).
  { destruct (cache_get mc (get_position_hash gs, depth)) as [cm|].
    - apply bind_Ok in Hhit. destruct Hhit as [[legal g] [Hl Hhit]].
      inversion Hhit; subst. now apply is_move_legal_unchanged in Hl.
    - inversion Hhit. apply unchanged_refl. }
  destruct hit as [cm|]; [inversion H; subst; exact H1 |].
  apply bind_Ok in H. destruct H as [[legal_moves g] [_ H]].
  destruct legal_moves as [|a [|b l]].
  - apply bind_Ok in H. destruct H as [sc [_ H]]. inversion H; subst. exact H1.
  - inversion H; subst. exact H1.
  - apply bind_Ok in H. destruct H as [d [Hd H]].
    apply deepening_loop_unchanged in Hd.
    match type of H with
    | match ?bm with _ => _ end = _ => destruct bm
    end; inversion H; subst; exact (unchanged_trans _ _ _ H1 Hd).
Qed.

(** C8 as stated fails: the opening position enters [find_best_move] with
    an empty legal-move cache and comes back with the cache filled, since
    [minimax] asks the caller's object for its legal moves; the same holds
    for [minimax_alpha_beta], which moreover leaves a filled cache in the
    order of its in-place sort. *)
Lemma C8_counterexample :
  _all_legal_moves_cache initial_state = None /\
  (exists r gs' mc',
     find_best_move no_fast_copy (calm 0) 10 initial_state 1 [] = Ok (r, gs', mc') /\
     _all_legal_moves_cache gs' = Some initial_moves /\
     gs' <> initial_state) /\
  (exists r gs' t' l,
     minimax_alpha_beta 10 (set_cache initial_state (Some initial_moves)) 1
                        NegInf PosInf true empty_tables = Ok (r, gs', t') /\
     hd_error initial_moves = Some (NormalMove (4, 0) (3, 0) None) /\
     _all_legal_moves_cache gs' = Some (NormalMove (5, 2) (3, 3) None :: l) /\
     gs' <> set_cache initial_state (Some initial_moves)).
Proof.
  split; [reflexivity |]. split.
  - do 3 eexists. split; [vm_compute; reflexivity |].
    split; [reflexivity |].
    intro H. apply (f_equal _all_legal_moves_cache) in H. discriminate.
  - do 4 eexists. split; [vm_compute; reflexivity |].
    split; [reflexivity |].
    split; [reflexivity |].
    intro H. apply (f_equal _all_legal_moves_cache) in H. discriminate.
Qed.

(** C8 (amended).  When [find_best_move], [minimax] or
    [minimax_alpha_beta] returns, the state object the caller passed is as
    before in every attribute other than its legal-move cache: board,
    hands, side to move, king positions, flags, move log, selection and
    promotion fields are identical.  Moves are applied to copies only; the
    cache is the one attribute the engine writes on the caller's object. *)
Theorem C8_caller_state_frame :
  forall (fc : GameState -> outcome GameState) (env : Env) (fuel : nat)
         (gs : GameState) (depth : Z),
    (forall mc r gs' mc',
        find_best_move fc env fuel gs depth mc = Ok (r, gs', mc') ->
        unchanged_but_cache gs gs') /\
    (forall r gs',
        minimax fc env fuel gs depth = Ok (r, gs') ->
        unchanged_but_cache gs gs') /\
    (forall alpha beta maximizing t r gs' t',
        minimax_alpha_beta fuel gs depth alpha beta maximizing t = Ok (r, gs', t') ->
        unchanged_but_cache gs gs') /\
    (forall gs', unchanged_but_cache gs gs' ->
        board gs' = board gs /\ hands gs' = hands gs /\
        current_turn gs' = current_turn gs /\ king_pos gs' = king_pos gs /\
        checkmate gs' = checkmate gs /\ stalemate gs' = stalemate gs /\
        needs_promotion_choice gs' = needs_promotion_choice gs /\
        move_log gs' = move_log gs /\ last_move gs' = last_move gs).
Proof.
  intros fc env fuel gs depth. split; [| split; [| split]].
  - intros mc r gs' mc' H.
    exact (find_best_move_unchanged fc env fuel gs gs' depth mc mc' r H).
  - intros r gs' H. exact (minimax_unchanged fc env fuel gs gs' depth r H).
  - intros alpha beta maximizing t r gs' t' H.
    exact (minimax_alpha_beta_unchanged fuel gs gs' depth alpha beta maximizing t t' r H).
  - intros gs' H. apply unchanged_fields in H. tauto.
Qed.

Lemma C8_caller_state_frame_witness :
  exists r gs' mc',
    find_best_move no_fast_copy (calm 0) 10 initial_state 1 [] = Ok (r, gs', mc') /\
    unchanged_but_cache initial_state gs' /\
    board gs' = board initial_state /\ hands gs' = hands initial_state.
Proof.
  assert (Hrun : exists r gs' mc',
            find_best_move no_fast_copy (calm 0) 10 initial_state 1 []
            = Ok (r, gs', mc'))
    by (do 3 eexists; vm_compute; reflexivity).
  destruct Hrun as [r [gs' [mc' Hrun]]].
  exists r, gs', mc'. split; [exact Hrun |].
  destruct (C8_caller_state_frame no_fast_copy (calm 0) 10%nat initial_state 1)
    as [Hf [_ [_ Hfields]]].
  pose proof (Hf [] r gs' mc' Hrun) as Hu.
  split; [exact Hu |].
  destruct (Hfields gs' Hu) as [Hb [Hh _]]. split; assumption.
Defined.

(* ------------------------------------------------------------------ *)
(** ** The driver always has a move to return *)

Lemma range_bounds (a b x : Z) : In x (range a b) -> a <= x < b.
Proof.
  unfold range. rewrite in_map_iff. intros [k [<- Hk]].
  apply in_seq in Hk. lia.
Qed.

Lemma range_nonempty (a b : Z) : a < b -> range a b <> [].
Proof.
  intro H. unfold range.
  destruct (Z.to_nat (b - a)) as [|n] eqn:E; [lia | discriminate].
Qed.

Lemma random_choice_ok (n : nat) (m : Move) (ms : list Move) :
  exists x, random_choice n (m :: ms) = Ok x /\ In x (m :: ms).
Proof.
  unfold random_choice.
  destruct (nth_error (m :: ms) (n mod List.length (m :: ms))) as [x|] eqn:E.
  - exists x. split; [reflexivity |]. eapply nth_error_In; eauto.
  - apply nth_error_None in E.
    pose proof (Nat.mod_upper_bound n (List.length (m :: ms))) as Hb.
    simpl in *. lia.
Qed.

Lemma get_all_legal_moves_again (gs gs1 : GameState) (l : list Move) :
  get_all_legal_moves gs = Ok (l, gs1) -> get_all_legal_moves gs1 = Ok (l, gs1).
Proof. intro H. apply get_all_legal_moves_frame in H. subst. reflexivity. Qed.

Lemma is_move_legal_known (gs gs1 : GameState) (l : list Move) (cm : Move) :
  get_all_legal_moves gs = Ok (l, gs1) ->
  is_move_legal gs cm = Ok (move_in cm l, gs1).
Proof. intro H. unfold is_move_legal. now rewrite H. Qed.

Lemma minimax_fallback_move (env : Env) (gs gs1 : GameState) (depth : Z)
    (m : Move) (ms : list Move) :
  get_all_legal_moves gs = Ok (m :: ms, gs1) ->
  exists bm, minimax_fallback env gs depth = Ok ((Some bm, Num 0), gs1) /\
             In bm (m :: ms).
Proof.
  intro H. unfold minimax_fallback. rewrite H.
  destruct (random_choice_ok (rand env depth) m ms) as [x [-> Hx]]. eauto.
Qed.

Lemma _minimax_worker_never_raises (fc : GameState -> outcome GameState)
    (fuel : nat) (move : Move) (gs : GameState) (depth : Z) (alpha beta : score)
    (maximizing : bool) (e : exn) :
  _minimax_worker fc fuel move gs depth alpha beta maximizing <> Raise e.
Proof.
  unfold _minimax_worker, try_except.
  match goal with |- match ?c with _ => _ end <> _ => destruct c end; discriminate.
Qed.

Section DriverProgress.

Variable fast_copy : GameState -> outcome GameState.
Hypothesis fast_copy_fuel_free : forall gs, fuel_free (fast_copy gs).

Lemma minimax_returns_move (env : Env) (fuel : nat) (gs gs1 : GameState)
    (depth : Z) (m : Move) (ms : list Move) :
  get_all_legal_moves gs = Ok (m :: ms, gs1) ->
  1 <= depth -> (Z.to_nat depth + 4 < fuel)%nat ->
  exists bm s, minimax fast_copy env fuel gs depth = Ok ((Some bm, s), gs1).
Proof.
  intros H Hd Hf. unfold minimax. rewrite H.
  pose proof (get_all_legal_moves_again _ _ _ H) as H1.
  destruct (pool_fault env depth).
  { destruct (minimax_fallback_move env gs1 gs1 depth m ms H1) as [bm [-> _]]. eauto. }
  destruct (mapM_ok
              (fun move => _minimax_worker fast_copy fuel move (deepcopy gs1) depth
                             NegInf PosInf (color_eqb (current_turn gs1) White))
              (m :: ms) (fun _ => True)) as [r Hr].
  - apply Forall_forall. auto.
  - intros x _.
    exact (_minimax_worker_terminates fast_copy fast_copy_fuel_free fuel x (deepcopy gs1)
             depth NegInf PosInf (color_eqb (current_turn gs1) White) Hd Hf).
  - rewrite Hr. pose proof (mapM_length _ _ _ Hr) as Hlen.
    destruct r as [|[f s] r]; [discriminate |].
    unfold reconcile.
    destruct (find_mate (current_turn gs1) ((f, s) :: r)); [eauto |].
    destruct (pick_extremal (current_turn gs1) f ((f, s) :: r)). eauto.
Qed.

Lemma deepening_loop_progress (env : Env) (fuel : nat) (pos_hash : string)
    (depth : Z) (m : Move) (ms : list Move) (depths : list Z) :
  forall (best_move : option Move) (best_score : score) (gs : GameState)
         (mc : MoveCache),
    (exists g, get_all_legal_moves gs = Ok (m :: ms, g)) ->
    Forall (fun d => 1 <= d /\ (Z.to_nat d + 4 < fuel)%nat) depths ->
    best_move <> None \/ depths <> [] ->
    exists d,
      deepening_loop fast_copy env fuel pos_hash depth depths best_move best_score gs mc
      = Ok d /\
      (d_raised d = true \/ d_best_move d <> None).
Proof.
  induction depths as [|cd rest IH]; intros bm bs gs mc [g Hg] Hall Hstart; simpl.
  - destruct Hstart as [Hb | Hn]; [| congruence]. eexists. split; [reflexivity |].
    right. exact Hb.
  - inversion Hall as [|? ? [Hcd Hfuel] Hrest]; subst.
    destruct (driver_fault env cd).
    { eexists. split; [reflexivity |]. left. reflexivity. }
    assert (Hhit : exists hit gs1,
              match cache_get mc (pos_hash, cd) with
              | Some cached_move =>
                  if cd =? depth then
                    '(legal, gs') <- is_move_legal gs cached_move ;;
                    Ok (if legal then Some cached_move else None, gs')
                  else Ok (None, gs)
              | None => Ok (None, gs)
              end = Ok (hit, gs1) /\
              exists g1, get_all_legal_moves gs1 = Ok (m :: ms, g1)).
    { destruct (cache_get mc (pos_hash, cd)) as [cm|]; [| eauto 6].
      destruct (cd =? depth); [| eauto 6].
      rewrite (is_move_legal_known gs g (m :: ms) cm Hg). cbn [bind].
      do 2 eexists. split; [reflexivity |].
      exists g. now apply get_all_legal_moves_again in Hg. }
    destruct Hhit as [hit [gs1 [-> [g1 Hg1]]]]. cbn [bind].
    destruct hit as [cm|].
    { eexists. split; [reflexivity |]. right. discriminate. }
    destruct (minimax_returns_move env fuel gs1 g1 cd m ms Hg1 Hcd Hfuel)
      as [ibm [s ->]]. cbn [bind fst snd].
    destruct (mate_found s).
    { eexists. split; [reflexivity |]. right. discriminate. }
    apply IH; [| exact Hrest | left; discriminate].
    exists g1. now apply get_all_legal_moves_again in Hg1.
Qed.

Lemma find_best_move_returns_move (env : Env) (fuel : nat) (gs gs1 : GameState)
    (depth : Z) (mc : MoveCache) (m : Move) (ms : list Move) :
  needs_promotion_choice gs = false ->
  get_all_legal_moves gs = Ok (m :: ms, gs1) ->
  1 <= depth -> (Z.to_nat depth + 4 < fuel)%nat ->
  exists bm gs' mc',
    find_best_move fast_copy env fuel gs depth mc = Ok (Some bm, gs', mc').
Proof.
  intros Hp Hg Hd Hf. unfold find_best_move. rewrite Hp.
  assert (Hhit : exists hit g0,
            match cache_get mc (get_position_hash gs, depth) with
            | Some cached_move =>
                '(legal, gs') <- is_move_legal gs cached_move ;;
                Ok (if legal then Some cached_move else None, gs')
            | None => Ok (None, gs)
            end = Ok (hit, g0) /\
            exists g1, get_all_legal_moves g0 = Ok (m :: ms, g1)).
  { destruct (cache_get mc (get_position_hash gs, depth)) as [cm|]; [| eauto 6].
    rewrite (is_move_legal_known gs gs1 (m :: ms) cm Hg). cbn [bind].
    do 2 eexists. split; [reflexivity |].
    exists gs1. now apply get_all_legal_moves_again in Hg. }
  destruct Hhit as [hit [g0 [-> [g1 Hg1]]]]. cbn [bind].
  destruct hit as [cm|]; [eauto |].
  unfold deepcopy. rewrite Hg1. cbn [bind].
  destruct ms as [|m2 ms]; [eauto |].
  destruct (deepening_loop_progress env fuel (get_position_hash gs) depth m (m2 :: ms)
              (range 1 (depth + 1)) None (Num 0) g0 mc) as [d [-> Hd']].
  - eauto.
  - apply Forall_forall. intros x Hx. apply range_bounds in Hx. lia.
  - right. apply range_nonempty. lia.
  - cbn [bind].
    destruct (d_raised d).
    + destruct (d_best_move d) as [b|]; [eauto |].
      destruct (random_choice_ok (rand env 0) m (m2 :: ms)) as [x [-> _]]. eauto.
    + destruct Hd' as [Hr | Hb]; [discriminate |].
      destruct (d_best_move d) as [b|]; [eauto | congruence].
Qed.

End DriverProgress.

Lemma range_first (a b : Z) : a < b -> exists rest, range a b = a :: rest.
Proof.
  intro H. unfold range.
  destruct (Z.to_nat (b - a)) as [|n] eqn:E; [lia |].
  simpl. rewrite Z.add_0_r. eauto.
Qed.

Lemma _minimax_worker_catches (fc : GameState -> outcome GameState) (fuel : nat)
    (move : Move) (gs : GameState) (depth : Z) (alpha beta : score)
    (maximizing : bool) (e : exn) :
  (make_move gs move false = Raise e \/
   exists gs1, make_move gs move false = Ok (true, gs1) /\
               _minimax_recursive fc fuel gs1 (depth - 1) alpha beta (negb maximizing)
               = Raise e) ->
  _minimax_worker fc fuel move gs depth alpha beta maximizing
  = Ok (move, error_score maximizing).
Proof.
  unfold _minimax_worker. intros [-> | [gs1 [-> H]]]; [reflexivity |].
  cbn [bind negb]. rewrite H. reflexivity.
Qed.

(** C5 as stated fails.  The opening position has fifteen legal moves and
    no pending promotion, yet a search of depth 0 returns [None]: the
    deepening loop [range(1, depth + 1)] is empty.  And a fault at the
    second iteration is answered with the move of the first iteration,
    whatever number [random.choice] would draw. *)
Lemma C5_counterexample :
  (exists g, get_all_legal_moves initial_state = Ok (initial_moves, g)) /\
  List.length initial_moves = 15%nat /\
  needs_promotion_choice initial_state = false /\
  (exists gs' mc',
     find_best_move no_fast_copy (calm 0) 10 initial_state 0 [] = Ok (None, gs', mc')) /\
  (forall seed : nat,
     exists gs' mc',
       find_best_move no_fast_copy
         (mkEnv (fun _ => false) (fun d => d =? 2) (fun _ => seed))
         10 initial_state 2 []
       = Ok (Some (NormalMove (5, 2) (3, 3) None), gs', mc')) /\
  random_choice 0 initial_moves = Ok (NormalMove (4, 0) (3, 0) None).
Proof.
  split; [eexists; vm_compute; reflexivity |].
  split; [reflexivity |].
  split; [reflexivity |].
  split; [do 2 eexists; vm_compute; reflexivity |].
  split; [| reflexivity].
  intro seed. do 2 eexists. vm_compute. reflexivity.
Qed.

(** C5 (amended).  For a state with at least one legal move and no pending
    promotion choice, [find_best_move] with [depth >= 1] returns some move,
    whatever the pool or the driver suffers (given a call stack deep enough
    for the requested depth).  A root worker never lets an exception out:
    when applying its move or the search below it raises, the worker
    answers that move with the worst score for the side to move.  A fault
    at the start of the search, before any iteration has produced a move,
    is answered with the legal move that [random.choice] draws (after
    later faults the best move found so far is returned). *)
Theorem C5_find_best_move_returns_a_move :
  forall (fc : GameState -> outcome GameState) (env : Env) (fuel : nat)
         (gs gs1 : GameState) (depth : Z) (mc : MoveCache)
         (m : Move) (ms : list Move),
    (forall g, fuel_free (fc g)) ->
    needs_promotion_choice gs = false ->
    get_all_legal_moves gs = Ok (m :: ms, gs1) ->
    1 <= depth ->
    (Z.to_nat depth + 4 < fuel)%nat ->
    (exists bm gs' mc',
        find_best_move fc env fuel gs depth mc = Ok (Some bm, gs', mc')) /\
    (forall move g d a b mx e,
        _minimax_worker fc fuel move g d a b mx <> Raise e) /\
    (forall move g d a b mx e,
        (make_move g move false = Raise e \/
         exists g1, make_move g move false = Ok (true, g1) /\
                    _minimax_recursive fc fuel g1 (d - 1) a b (negb mx) = Raise e) ->
        _minimax_worker fc fuel move g d a b mx = Ok (move, error_score mx)) /\
    (driver_fault env 1 = true ->
     cache_get mc (get_position_hash gs, depth) = None ->
     ms <> [] ->
     exists bm,
       random_choice (rand env 0) (m :: ms) = Ok bm /\
       find_best_move fc env fuel gs depth mc
       = Ok (Some bm, gs, cache_set mc (get_position_hash gs, depth) bm)).
Proof.
  intros fc env fuel gs gs1 depth mc m ms Hfc Hp Hg Hd Hf.
  split; [| split; [| split]].
  - exact (find_best_move_returns_move fc Hfc env fuel gs gs1 depth mc m ms Hp Hg Hd Hf).
  - intros. apply _minimax_worker_never_raises.
  - intros move g d a b mx e H.
    exact (_minimax_worker_catches fc fuel move g d a b mx e H).
  - intros Hfault Hmiss Hms.
    destruct (random_choice_ok (rand env 0) m ms) as [bm [Hbm _]].
    exists bm. split; [exact Hbm |].
    unfold find_best_move. rewrite Hp, Hmiss. cbn [bind].
    unfold deepcopy. rewrite Hg. cbn [bind].
    destruct ms as [|m2 ms]; [congruence |].
    destruct (range_first 1 (depth + 1)) as [rest ->]; [lia |].
    simpl deepening_loop. rewrite Hfault. cbn [bind d_raised d_best_move d_gs d_cache].
    rewrite Hbm. reflexivity.
Qed.

Lemma C5_find_best_move_returns_a_move_witness :
  exists bm gs' mc',
    find_best_move no_fast_copy (calm 0) 10 initial_state 2 [] = Ok (Some bm, gs', mc').
Proof.
  assert (Hg : get_all_legal_moves initial_state
               = Ok (NormalMove (4, 0) (3, 0) None :: tl initial_moves,
                     set_cache initial_state (Some initial_moves)))
    by (vm_compute; reflexivity).
  assert (Hd : 1 <= 2) by lia.
  assert (Hf : (Z.to_nat 2 + 4 < 10)%nat) by (simpl; lia).
  destruct (C5_find_best_move_returns_a_move no_fast_copy (calm 0) 10%nat initial_state
              _ 2 [] _ _ no_fast_copy_fuel_free eq_refl Hg Hd Hf) as [Hmove _].
  exact Hmove.
Defined.

(* ================================================================== *)
(** * Further properties of the rules, the search and the move strings *)

Lemma ord_chr_id (c : ascii) : chr (ord c) = c.
Proof. unfold chr, ord. rewrite Nat2Z.id. apply ascii_nat_embedding. Qed.

Lemma leb_one_char (a b : ascii) :
  String.leb (str1 a) (str1 b) = (ord a <=? ord b).
Proof.
  unfold String.leb, str1, ord. cbn [String.compare].
  unfold Ascii.compare, nat_of_ascii.
  rewrite !N_nat_Z.
  rewrite <- (N2Z.inj_compare (N_of_ascii a) (N_of_ascii b)).
  unfold Z.leb.
  destruct (Z.of_N (N_of_ascii a) ?= Z.of_N (N_of_ascii b)); reflexivity.
Qed.

Lemma on_board_cases (r f : Z) :
  is_on_board r f = true ->
  (r = 0 \/ r = 1 \/ r = 2 \/ r = 3 \/ r = 4 \/ r = 5) /\
  (f = 0 \/ f = 1 \/ f = 2 \/ f = 3 \/ f = 4 \/ f = 5).
Proof.
  unfold is_on_board, BOARD_SIZE. rewrite !andb_true_iff, !Z.leb_le, !Z.ltb_lt. lia.
Qed.

Lemma coords_to_algebraic_back (r f : Z) :
  is_on_board r f = true ->
  algebraic_to_coords (PyStr (coords_to_algebraic r f)) = Ok (Some (r, f)).
Proof.
  intro E. destruct (on_board_cases r f E) as [Hr Hf].
  repeat (destruct Hr as [-> | Hr]); try subst r;
    repeat (destruct Hf as [-> | Hf]); try subst f; reflexivity.
Qed.

(** X1.  Naming a square and reading the name back gives the square:
    [algebraic_to_coords] undoes [coords_to_algebraic] on every square of
    the board, and off the board the name ["??"] reads back as [None]. *)
Theorem coords_round_trip :
  forall r f : Z,
    algebraic_to_coords (PyStr (coords_to_algebraic r f))
    = Ok (if is_on_board r f then Some (r, f) else None).
Proof.
  intros r f. destruct (is_on_board r f) eqn:E.
  - now apply coords_to_algebraic_back.
  - unfold coords_to_algebraic. rewrite E. reflexivity.
Qed.

Lemma ord_cases (c : ascii) (lo hi : Z) :
  lo <= ord c <= hi -> exists k, lo <= k <= hi /\ c = chr k.
Proof. intro H. exists (ord c). split; [exact H | symmetry; apply ord_chr_id]. Qed.

Lemma algebraic_two_chars (c1 c2 : ascii) :
  algebraic_to_coords (PyStr (String c1 (String c2 EmptyString)))
  = if (97 <=? ord c1) && (ord c1 <=? 102) && ((49 <=? ord c2) && (ord c2 <=? 54))
    then Ok (Some (54 - ord c2, ord c1 - 97)) else Ok None.
Proof.
  unfold algebraic_to_coords.
  change (str_of_Z BOARD_SIZE) with (str1 "6").
  change (chr (ord "a" + BOARD_SIZE - 1)) with "f"%char.
  change "a"%string with (str1 "a"). change "1"%string with (str1 "1").
  rewrite !leb_one_char.
  change (ord "a") with 97. change (ord "1") with 49.
  change (ord "f") with 102. change (ord "6") with 54.
  destruct ((97 <=? ord c1) && (ord c1 <=? 102) && ((49 <=? ord c2) && (ord c2 <=? 54))) eqn:E;
    cbn [negb]; [| reflexivity].
  rewrite !andb_true_iff, !Z.leb_le in E. destruct E as [[H1 H2] [H3 H4]].
  unfold int_of_char.
  replace ((48 <=? ord c2) && (ord c2 <=? 57)) with true
    by (symmetry; rewrite andb_true_iff, !Z.leb_le; lia).
  cbn [bind]. unfold BOARD_SIZE.
  replace (is_on_board (6 - 1 - (ord c2 - 48 - 1)) (ord c1 - 97)) with true.
  - cbn [negb]. do 3 f_equal. lia.
  - symmetry. unfold is_on_board, BOARD_SIZE.
    rewrite !andb_true_iff, !Z.leb_le, !Z.ltb_lt. lia.
Qed.

(** X2.  [algebraic_to_coords] never raises, whatever value it is given,
    and when it answers with a square, the square is on the board and the
    argument was the two-character name [coords_to_algebraic] gives it. *)
Theorem algebraic_round_trip :
  forall alg : pyval,
    (exists r, algebraic_to_coords alg = Ok r) /\
    (forall sq, algebraic_to_coords alg = Ok (Some sq) ->
       is_on_board (fst sq) (snd sq) = true /\
       alg = PyStr (coords_to_algebraic (fst sq) (snd sq))).
Proof.
  intro alg.
  assert (Hnone : forall sq, Ok (@None Square) = Ok (Some sq) ->
            is_on_board (fst sq) (snd sq) = true /\
            alg = PyStr (coords_to_algebraic (fst sq) (snd sq))) by (intros; discriminate).
  destruct alg as [| | |s| | |]; try (split; [eexists; reflexivity | exact Hnone]).
  destruct s as [|c1 [|c2 [|c3 s]]]; try (split; [eexists; reflexivity | exact Hnone]).
  rewrite algebraic_two_chars.
  destruct ((97 <=? ord c1) && (ord c1 <=? 102) && ((49 <=? ord c2) && (ord c2 <=? 54))) eqn:E;
    [| split; [eexists; reflexivity | exact Hnone]].
  split; [eexists; reflexivity |].
  rewrite !andb_true_iff, !Z.leb_le in E. destruct E as [[H1 H2] [H3 H4]].
  destruct (ord_cases c1 97 102 (conj H1 H2)) as [k1 [Hk1 ->]].
  destruct (ord_cases c2 49 54 (conj H3 H4)) as [k2 [Hk2 ->]].
  assert (C1 : k1 = 97 \/ k1 = 98 \/ k1 = 99 \/ k1 = 100 \/ k1 = 101 \/ k1 = 102) by lia.
  assert (C2 : k2 = 49 \/ k2 = 50 \/ k2 = 51 \/ k2 = 52 \/ k2 = 53 \/ k2 = 54) by lia.
  clear - C1 C2.
  intros sq H.
  repeat (destruct C1 as [-> | C1]); try subst k1;
    repeat (destruct C2 as [-> | C2]); try subst k2;
    vm_compute in H; inversion H; subst; split; reflexivity.
Qed.

Lemma algebraic_round_trip_witness :
  algebraic_to_coords (PyStr "c2") = Ok (Some (4, 2)) /\
  is_on_board 4 2 = true /\
  PyStr "c2" = PyStr (coords_to_algebraic 4 2).
Proof.
  split; [reflexivity |].
  exact (proj2 (algebraic_round_trip (PyStr "c2")) (4, 2) eq_refl).
Defined.

Lemma coords_two_chars (r f : Z) :
  is_on_board r f = true ->
  exists a b, coords_to_algebraic r f = String a (String b EmptyString) /\
              char_eqb "@" a = false /\ char_eqb "@" b = false /\
              char_eqb a "@" = false /\ char_eqb b "@" = false.
Proof.
  intro E. destruct (on_board_cases r f E) as [Hr Hf].
  repeat (destruct Hr as [-> | Hr]); try subst r;
    repeat (destruct Hf as [-> | Hf]); try subst f;
    do 2 eexists; (split; [vm_compute; reflexivity | repeat split]).
Qed.

Lemma algebraic_of_coords (r f : Z) (a b : ascii) :
  is_on_board r f = true ->
  coords_to_algebraic r f = String a (String b EmptyString) ->
  algebraic_to_coords (PyStr (String a (String b EmptyString))) = Ok (Some (r, f)).
Proof. intros E H. rewrite <- H. now apply coords_to_algebraic_back. Qed.

Lemma upper_not_at (p : ascii) :
  p <> "@"%char -> char_eqb "@" (upper p) = false.
Proof.
  destruct p as [[] [] [] [] [] [] [] []]; intro H;
    solve [reflexivity | exfalso; apply H; reflexivity].
Qed.

Lemma isupper_not_at (t : ascii) :
  isupper t = true -> upper t = t /\ char_eqb t "@" = false.
Proof.
  destruct t as [[] [] [] [] [] [] [] []]; intro H;
    solve [split; reflexivity | discriminate H].
Qed.

(** X3.  [parse_move_string] reads back what [format_move_for_print]
    writes for a board move between squares of the board without a
    promotion piece; a promotion piece is lost on the way (the text has six
    characters and only a fifth one is read), and a drop comes back with
    its piece code in upper case. *)
Theorem parse_format_round_trip :
  forall r1 f1 r2 f2 : Z,
    is_on_board r1 f1 = true -> is_on_board r2 f2 = true ->
    parse_move_string (format_move_for_print (Some (NormalMove (r1, f1) (r2, f2) None)))
    = Some (NormalMove (r1, f1) (r2, f2) None) /\
    (forall p : ascii, p <> "@"%char ->
       parse_move_string
         (format_move_for_print (Some (NormalMove (r1, f1) (r2, f2) (Some p))))
       = Some (NormalMove (r1, f1) (r2, f2) None)) /\
    (forall (c : color) (t : ascii), isupper t = true ->
       parse_move_string
         (format_move_for_print (Some (DropMove (String (color_char c) (str1 t)) (r1, f1))))
       = Some (DropMove (String (upper (color_char c)) (str1 t)) (r1, f1))).
Proof.
  intros r1 f1 r2 f2 E1 E2.
  destruct (coords_two_chars r1 f1 E1) as [a1 [b1 [H1 [Ha1 [Hb1 [Ha1' Hb1']]]]]].
  destruct (coords_two_chars r2 f2 E2) as [a2 [b2 [H2 [Ha2 [Hb2 _]]]]].
  pose proof (algebraic_of_coords r1 f1 a1 b1 E1 H1) as A1.
  pose proof (algebraic_of_coords r2 f2 a2 b2 E2 H2) as A2.
  split; [| split].
  - unfold format_move_for_print. rewrite H1, H2.
    unfold parse_move_string, parse_move_body.
    cbn [String.append str_mem String.length String.substring].
    rewrite Ha1, Hb1, Ha2, Hb2. cbn [orb].
    change (4 <=? Z.of_nat 4) with true. change (Z.of_nat 4 =? 5) with false.
    cbn iota. cbn [bind]. rewrite A1. cbn [bind]. rewrite A2. reflexivity.
  - intros p Hp. unfold format_move_for_print. rewrite H1, H2.
    unfold parse_move_string, parse_move_body, str1.
    cbn [String.append str_mem String.length String.substring].
    rewrite Ha1, Hb1, Ha2, Hb2, (upper_not_at p Hp).
    change (char_eqb "@" "=") with false. cbn [orb].
    change (4 <=? Z.of_nat 6) with true. change (Z.of_nat 6 =? 5) with false.
    cbn iota. cbn [bind]. rewrite A1. cbn [bind]. rewrite A2. reflexivity.
  - intros c t Ht. destruct (isupper_not_at t Ht) as [Hu Hn].
    unfold format_move_for_print. rewrite H1.
    unfold parse_move_string, parse_move_body, str1, str_upper.
    cbn [str_map String.append str_mem str_split]. rewrite Hu.
    change (char_eqb "@" "@") with true. rewrite !orb_true_r. cbn iota.
    rewrite Hn, Ha1', Hb1'.
    destruct c;
      (change (char_eqb (upper (color_char White)) "@") with false ||
       change (char_eqb (upper (color_char Black)) "@") with false);
      cbn iota; rewrite A1; reflexivity.
Qed.

Lemma parse_format_round_trip_witness :
  parse_move_string (format_move_for_print (Some (NormalMove (1, 0) (0, 0) None)))
  = Some (NormalMove (1, 0) (0, 0) None) /\
  parse_move_string
    (format_move_for_print (Some (NormalMove (1, 0) (0, 0) (Some "Q"%char))))
  = Some (NormalMove (1, 0) (0, 0) None) /\
  parse_move_string (format_move_for_print (Some (DropMove "wN" (1, 0))))
  = Some (DropMove "WN" (1, 0)).
Proof.
  destruct (parse_format_round_trip 1 0 0 0 eq_refl eq_refl) as [H1 [H2 H3]].
  split; [exact H1 |].
  split; [apply H2; discriminate | exact (H3 White "N"%char eq_refl)].
Defined.

(* ------------------------------------------------------------------ *)
(** ** Sequences and boards under item assignment *)

Lemma replace_nth_length {A : Type} (l : list A) (n : nat) (x : A) :
  List.length (replace_nth l n x) = List.length l.
Proof.
  revert n. induction l as [|y l IH]; intros [|n]; simpl; auto.
Qed.

Lemma nth_error_replace_nth_same {A : Type} (l : list A) (n : nat) (x : A) :
  (n < List.length l)%nat -> nth_error (replace_nth l n x) n = Some x.
Proof.
  revert n. induction l as [|y l IH]; intros [|n] H; simpl in *; try lia; auto.
  apply IH. lia.
Qed.

Lemma nth_error_replace_nth_other {A : Type} (l : list A) (n m : nat) (x : A) :
  n <> m -> nth_error (replace_nth l n x) m = nth_error l m.
Proof.
  revert n m. induction l as [|y l IH]; intros [|n] [|m] H; simpl; auto.
  congruence.
Qed.

Lemma replace_nth_twice {A : Type} (l : list A) (n : nat) (x y : A) :
  replace_nth (replace_nth l n x) n y = replace_nth l n y.
Proof.
  revert n. induction l as [|z l IH]; intros [|n]; simpl; auto.
  now rewrite IH.
Qed.

Lemma replace_nth_same {A : Type} (l : list A) (n : nat) (x : A) :
  nth_error l n = Some x -> replace_nth l n x = l.
Proof.
  revert n. induction l as [|z l IH]; intros [|n] H; simpl in *; try discriminate.
  - now inversion H.
  - now rewrite IH.
Qed.


Lemma py_index_Ok {A : Type} (l : list A) (i : Z) (x : A) :
  py_index l i = Ok x <->
  0 <= norm_index (List.length l) i < Z.of_nat (List.length l) /\
  nth_error l (Z.to_nat (norm_index (List.length l) i)) = Some x.
Proof.
  unfold py_index, norm_index.
  set (j := if i <? 0 then i + Z.of_nat (List.length l) else i).
  destruct ((j <? 0) || (Z.of_nat (List.length l) <=? j)) eqn:E.
  - split; [discriminate |]. intros [Hb _].
    apply orb_true_iff in E. rewrite Z.ltb_lt, Z.leb_le in E. lia.
  - apply orb_false_iff in E. rewrite Z.ltb_ge, Z.leb_gt in E.
    destruct (nth_error l (Z.to_nat j)) as [y|] eqn:En.
    + split.
      * intro H. inversion H. subst. split; [lia | reflexivity].
      * intros [_ H]. now inversion H.
    + split; [discriminate |]. intros [_ H]. discriminate.
Qed.

Lemma py_setitem_Ok {A : Type} (l l' : list A) (i : Z) (x : A) :
  py_setitem l i x = Ok l' <->
  0 <= norm_index (List.length l) i < Z.of_nat (List.length l) /\
  l' = replace_nth l (Z.to_nat (norm_index (List.length l) i)) x.
Proof.
  unfold py_setitem, norm_index.
  set (j := if i <? 0 then i + Z.of_nat (List.length l) else i).
  destruct ((j <? 0) || (Z.of_nat (List.length l) <=? j)) eqn:E.
  - split; [discriminate |]. intros [Hb _].
    apply orb_true_iff in E. rewrite Z.ltb_lt, Z.leb_le in E. lia.
  - apply orb_false_iff in E. rewrite Z.ltb_ge, Z.leb_gt in E.
    split.
    + intro H. inversion H. split; [lia | reflexivity].
    + intros [_ ->]. reflexivity.
Qed.

Lemma py_setitem_length {A : Type} (l l' : list A) (i : Z) (x : A) :
  py_setitem l i x = Ok l' -> List.length l' = List.length l.
Proof. intro H. apply py_setitem_Ok in H. destruct H as [_ ->]. apply replace_nth_length. Qed.

Lemma py_setitem_restore {A : Type} (l l1 : list A) (i : Z) (a x : A) :
  py_index l i = Ok a -> py_setitem l i x = Ok l1 -> py_setitem l1 i a = Ok l.
Proof.
  intros Hi Hs. apply py_index_Ok in Hi. destruct Hi as [Hb Hn].
  apply py_setitem_Ok in Hs. destruct Hs as [_ ->].
  apply py_setitem_Ok. rewrite replace_nth_length. split; [exact Hb |].
  rewrite replace_nth_twice. symmetry. now apply replace_nth_same.
Qed.

Lemma py_index_setitem_same {A : Type} (l l1 : list A) (i : Z) (x : A) :
  py_setitem l i x = Ok l1 -> py_index l1 i = Ok x.
Proof.
  intro Hs. apply py_setitem_Ok in Hs. destruct Hs as [Hb ->].
  apply py_index_Ok. rewrite replace_nth_length. split; [exact Hb |].
  apply nth_error_replace_nth_same. lia.
Qed.

Lemma set_cell_Ok (b b' : list (list ascii)) (r f : Z) (x : ascii) :
  set_cell b r f x = Ok b' ->
  exists row row',
    py_index b r = Ok row /\ py_setitem row f x = Ok row' /\ py_setitem b r row' = Ok b'.
Proof.
  unfold set_cell. intro H.
  apply bind_Ok in H. destruct H as [row [Hr H]].
  apply bind_Ok in H. destruct H as [row' [Hs H]]. eauto.
Qed.

Lemma set_cell_restore (b b1 : list (list ascii)) (r f : Z) (a x : ascii) :
  get_cell b r f = Ok a -> set_cell b r f x = Ok b1 -> set_cell b1 r f a = Ok b.
Proof.
  unfold get_cell. intros Hg Hs.
  apply bind_Ok in Hg. destruct Hg as [row [Hr Hg]].
  apply set_cell_Ok in Hs. destruct Hs as [row0 [row' [Hr0 [Hs1 Hs2]]]].
  rewrite Hr in Hr0. inversion Hr0. subst row0.
  unfold set_cell.
  rewrite (py_index_setitem_same b b1 r row' Hs2). cbn [bind].
  rewrite (py_setitem_restore row row' f a x Hg Hs1). cbn [bind].
  exact (py_setitem_restore b b1 r row row' Hr Hs2).
Qed.

Lemma Forall_replace_nth {A : Type} (P : A -> Prop) (l : list A) (n : nat) (x : A) :
  Forall P l -> P x -> Forall P (replace_nth l n x).
Proof.
  intros Hl Hx. revert n. induction Hl as [|y l Hy Hl IH]; intros [|n]; simpl;
    constructor; auto.
Qed.

Lemma set_cell_wf (b b' : list (list ascii)) (r f : Z) (x : ascii) :
  wf_board b -> set_cell b r f x = Ok b' -> wf_board b'.
Proof.
  intros [Hlen Hrows] Hs.
  apply set_cell_Ok in Hs. destruct Hs as [row [row' [Hr [Hs1 Hs2]]]].
  pose proof (py_setitem_length _ _ _ _ Hs1) as Hl1.
  apply py_index_Ok in Hr. destruct Hr as [_ Hn]. apply nth_error_In in Hn.
  rewrite Forall_forall in Hrows. pose proof (Hrows row Hn) as Hrow.
  apply py_setitem_Ok in Hs2. destruct Hs2 as [_ ->].
  split; [now rewrite replace_nth_length |].
  apply Forall_replace_nth; [now apply Forall_forall | congruence].
Qed.


(* ------------------------------------------------------------------ *)
(** ** Hands as dictionaries *)

Lemma hand_key_eqb_eq (a b : hand_key) : hand_key_eqb a b = true <-> a = b.
Proof.
  destruct a, b; simpl; try (split; [discriminate | congruence]).
  - rewrite String.eqb_eq. split; congruence.
  - rewrite String.eqb_eq. split; congruence.
  - rewrite Z.eqb_eq. split; congruence.
  - split; auto.
Qed.

Lemma hand_key_eqb_refl (a : hand_key) : hand_key_eqb a a = true.
Proof. now apply hand_key_eqb_eq. Qed.

Lemma hand_get_set (h : hand) (k k' : hand_key) (v d : Z) :
  hand_get (hand_set h k v) k' d = if hand_key_eqb k' k then v else hand_get h k' d.
Proof.
  induction h as [|[k0 v0] h IH]; simpl.
  - reflexivity.
  - destruct (hand_key_eqb k k0) eqn:E; simpl.
    + apply hand_key_eqb_eq in E. subst k0.
      destruct (hand_key_eqb k' k); reflexivity.
    + rewrite IH. destruct (hand_key_eqb k' k0) eqn:E0; [| reflexivity].
      destruct (hand_key_eqb k' k) eqn:E1; [| reflexivity].
      apply hand_key_eqb_eq in E0, E1. subst. rewrite hand_key_eqb_refl in E. discriminate.
Qed.

Lemma hand_get_absent (h : hand) (k : hand_key) (d : Z) :
  hand_mem h k = false -> hand_get h k d = d.
Proof.
  unfold hand_mem. induction h as [|[k0 v0] h IH]; simpl; [reflexivity |].
  intro H. apply orb_false_iff in H. destruct H as [H1 H2].
  rewrite H1. now apply IH.
Qed.

Lemma hand_get_ensure (keys : list ascii) (h : hand) (k : hand_key) :
  hand_get (fold_left (fun acc p => if hand_mem acc (HStr (str1 p)) then acc
                                    else hand_set acc (HStr (str1 p)) 0) keys h) k 0
  = hand_get h k 0.
Proof.
  revert h. induction keys as [|p keys IH]; intro h; simpl; [reflexivity |].
  rewrite IH. destruct (hand_mem h (HStr (str1 p))) eqn:E; [reflexivity |].
  rewrite hand_get_set. destruct (hand_key_eqb k (HStr (str1 p))) eqn:E1; [| reflexivity].
  apply hand_key_eqb_eq in E1. subst k. symmetry. now apply hand_get_absent.
Qed.

Lemma add_captured_get (h : hand) (t : ascii) (k : hand_key) :
  hand_get (add_captured h t) k 0
  = hand_get h k 0 + (if hand_key_eqb k (HStr (str1 t)) then 1 else 0).
Proof.
  unfold add_captured. rewrite hand_get_set, !hand_get_ensure.
  destruct (hand_key_eqb k (HStr (str1 t))) eqn:E; [| lia].
  apply hand_key_eqb_eq in E. now subst k.
Qed.

Lemma hand_of_set_hand_of (gs : GameState) (c c' : color) (h : hand) :
  hand_of (set_hand_of gs c h) c' = if color_eqb c' c then h else hand_of gs c'.
Proof. destruct c, c'; reflexivity. Qed.

Lemma char_eqb_eq (a b : ascii) : char_eqb a b = true <-> a = b.
Proof. apply Ascii.eqb_eq. Qed.

(* ------------------------------------------------------------------ *)
(** ** make_move *)


Lemma restored_set_cache (gs : GameState) : restored gs (set_cache gs None).
Proof. unfold restored. simpl. repeat split; reflexivity. Qed.

Lemma make_move_body_rejected (gs gs' : GameState) (move : Move) :
  make_move_body gs move = Ok (Rejected gs') -> restored gs gs'.
Proof.
  unfold make_move_body.
  change (needs_promotion_choice (set_cache gs None)) with (needs_promotion_choice gs).
  destruct (needs_promotion_choice gs) eqn:Hp.
  { intro H. inversion H. apply restored_set_cache. }
  destruct move as [[r1 f1] [r2 f2] promotion | piece_code [r f]].
  - intro H. apply bind_Ok in H. destruct H as [piece [Hpiece H]].
    destruct (char_eqb piece EMPTY_SQUARE); [inversion H; apply restored_set_cache |].
    set (mc := if isupper piece then White else Black) in *.
    destruct (negb (color_eqb mc (current_turn (set_cache gs None))));
      [inversion H; apply restored_set_cache |].
    apply bind_Ok in H. destruct H as [target [Htarget H]].
    apply bind_Ok in H. destruct H as [b1 [Hb1 H]].
    cbv zeta in H.
    destruct (char_eqb (upper piece) "P" && (r2 =? promotion_rank mc)) eqn:Hprom.
    + apply andb_true_iff in Hprom. destruct Hprom as [Hpawn _].
      assert (Hk : char_eqb (upper piece) "K" = false).
      { apply char_eqb_eq in Hpawn. rewrite Hpawn. reflexivity. }
      rewrite Hk in H.
      destruct promotion as [choice|].
      * destruct (negb (existsb (char_eqb choice) (prom_pieces mc))).
        -- apply bind_Ok in H. destruct H as [b2 [Hb2 H]].
           assert (Hrest : b2 = board gs).
           { destruct (negb (char_eqb target EMPTY_SQUARE) &&
                       negb (char_eqb (upper target) "K")) in Hb2;
               simpl in Hb2;
               [destruct mc; simpl in Hb2 |];
               pose proof (set_cell_restore _ _ _ _ _ _ Hpiece Hb1) as Hr;
               simpl in Hr; rewrite Hr in Hb2; now inversion Hb2. }
           destruct (negb (char_eqb target EMPTY_SQUARE) &&
                     negb (char_eqb (upper target) "K")) eqn:Hc;
             inversion H; subst gs'; clear H.
           ++ unfold restored. repeat split; try (destruct mc; simpl; congruence).
              intros c k. rewrite !hand_of_set_hand_of.
              destruct (color_eqb c mc) eqn:Ec.
              ** rewrite hand_get_set.
                 assert (Hh : forall g, hand_of (set_board g b2) mc = hand_of g mc)
                   by (intro g; destruct mc; reflexivity).
                 rewrite !Hh, !hand_of_set_hand_of.
                 replace (color_eqb mc mc) with true by (destruct mc; reflexivity).
                 rewrite !add_captured_get.
                 assert (Hc' : c = mc) by (destruct c, mc; simpl in Ec; congruence).
                 subst c.
                 assert (Hh1 : hand_of (set_board (set_cache gs None) b1) mc = hand_of gs mc)
                   by (destruct mc; reflexivity).
                 rewrite !Hh1, hand_key_eqb_refl.
                 destruct (hand_key_eqb k (HStr (str1 (upper target)))) eqn:Ek; [| lia].
                 apply hand_key_eqb_eq in Ek. subst k. lia.
              ** destruct c, mc; simpl in Ec; try discriminate; reflexivity.
           ++ unfold restored. repeat split; simpl; congruence.
        -- apply bind_Ok in H. destruct H as [b2 [_ H]]. discriminate.
      * apply bind_Ok in H. destruct H as [b2 [_ H]]. discriminate.
    + apply bind_Ok in H. destruct H as [b2 [_ H]]. discriminate.
  - intro H. apply bind_Ok in H. destruct H as [col [_ H]].
    apply bind_Ok in H. destruct H as [pt [_ H]].
    apply bind_Ok in H. destruct H as [target [_ H]].
    repeat match type of H with
           | (if ?c then _ else _) = _ =>
               destruct c; [inversion H; apply restored_set_cache |]
           end.
    cbv zeta in H. apply bind_Ok in H. destruct H as [b' [_ H]]. discriminate.
Qed.


Lemma make_move_body_finalised (gs gs' : GameState) (move : Move) :
  make_move_body gs move = Ok (Finalised gs') ->
  current_turn gs' = get_opposite_color (current_turn gs) /\
  move_log gs' = move_log gs ++ [move] /\
  last_move gs' = Some move /\
  needs_promotion_choice gs' = false /\
  _all_legal_moves_cache gs' = None.
Proof.
  unfold make_move_body.
  change (needs_promotion_choice (set_cache gs None)) with (needs_promotion_choice gs).
  destruct (needs_promotion_choice gs) eqn:Hp; [discriminate |].
  destruct move as [[r1 f1] [r2 f2] promotion | piece_code [r f]].
  - intro H. apply bind_Ok in H. destruct H as [piece [_ H]].
    destruct (char_eqb piece EMPTY_SQUARE); [discriminate |].
    set (mc := if isupper piece then White else Black) in *.
    destruct (negb (color_eqb mc (current_turn (set_cache gs None)))); [discriminate |].
    apply bind_Ok in H. destruct H as [target [_ H]].
    apply bind_Ok in H. destruct H as [b1 [_ H]].
    cbv zeta in H.
    destruct (negb (char_eqb target EMPTY_SQUARE) && negb (char_eqb (upper target) "K"));
      destruct (char_eqb (upper piece) "K");
      destruct (char_eqb (upper piece) "P" && (r2 =? promotion_rank mc));
      try destruct promotion as [choice|];
      try destruct (negb (existsb (char_eqb choice) (prom_pieces mc)));
      apply bind_Ok in H; destruct H as [b2 [_ H]]; inversion H; subst gs';
      destruct mc; simpl; auto.
  - intro H. apply bind_Ok in H. destruct H as [col [_ H]].
    apply bind_Ok in H. destruct H as [pt [_ H]].
    apply bind_Ok in H. destruct H as [target [_ H]].
    repeat match type of H with
           | (if ?c then _ else _) = _ => destruct c; [discriminate |]
           end.
    cbv zeta in H. apply bind_Ok in H. destruct H as [b' [_ H]].
    inversion H; subst gs'. simpl in Hp.
    destruct (current_turn gs) eqn:Et; simpl; rewrite ?Et; simpl; auto.
Qed.

Lemma make_move_body_pending (gs gs' : GameState) (move : Move) :
  make_move_body gs move = Ok (Pending gs') ->
  exists src dst,
    move = NormalMove src dst None /\
    current_turn gs' = current_turn gs /\
    move_log gs' = move_log gs ++ [move] /\
    last_move gs' = Some move /\
    needs_promotion_choice gs' = true /\
    promotion_square gs' = Some dst /\
    last_move_for_promotion gs' = Some move /\
    _all_legal_moves_cache gs' = None.
Proof.
  unfold make_move_body.
  change (needs_promotion_choice (set_cache gs None)) with (needs_promotion_choice gs).
  destruct (needs_promotion_choice gs) eqn:Hp; [discriminate |].
  destruct move as [[r1 f1] [r2 f2] promotion | piece_code [r f]].
  - intro H. apply bind_Ok in H. destruct H as [piece [_ H]].
    destruct (char_eqb piece EMPTY_SQUARE); [discriminate |].
    set (mc := if isupper piece then White else Black) in *.
    destruct (negb (color_eqb mc (current_turn (set_cache gs None)))); [discriminate |].
    apply bind_Ok in H. destruct H as [target [_ H]].
    apply bind_Ok in H. destruct H as [b1 [_ H]].
    cbv zeta in H.
    exists (r1, f1), (r2, f2).
    destruct (negb (char_eqb target EMPTY_SQUARE) && negb (char_eqb (upper target) "K"));
      destruct (char_eqb (upper piece) "K");
      destruct (char_eqb (upper piece) "P" && (r2 =? promotion_rank mc));
      try destruct promotion as [choice|];
      try destruct (negb (existsb (char_eqb choice) (prom_pieces mc)));
      apply bind_Ok in H; destruct H as [b2 [_ H]]; inversion H; subst gs';
      destruct mc; simpl; auto 10.
  - intro H. apply bind_Ok in H. destruct H as [col [_ H]].
    apply bind_Ok in H. destruct H as [pt [_ H]].
    apply bind_Ok in H. destruct H as [target [_ H]].
    repeat match type of H with
           | (if ?c then _ else _) = _ => destruct c; [discriminate |]
           end.
    cbv zeta in H. apply bind_Ok in H. destruct H as [b' [_ H]]. discriminate.
Qed.


Lemma same_position_refl (gs : GameState) : same_position gs gs.
Proof. unfold same_position. repeat split. Qed.

Lemma same_position_trans (a b c : GameState) :
  same_position a b -> same_position b c -> same_position a c.
Proof. unfold same_position. intuition congruence. Qed.

Lemma find_kings_same_position (gs gs' : GameState) :
  find_kings gs = Ok gs' -> same_position gs gs'.
Proof.
  unfold find_kings. intro H. apply bind_Ok in H. destruct H as [kp [_ H]].
  inversion H. unfold same_position. simpl. repeat split.
Qed.

Lemma is_in_check_same_position (gs gs' : GameState) (c : color) (b : bool) :
  is_in_check gs c = Ok (b, gs') -> same_position gs gs'.
Proof.
  unfold is_in_check. destruct (king_of gs c) as [[kr kf]|].
  - intro H. apply bind_Ok in H. destruct H as [a [_ H]]. inversion H.
    apply same_position_refl.
  - intro H. apply bind_Ok in H. destruct H as [g [Hg H]].
    apply find_kings_same_position in Hg.
    destruct (king_of g c) as [[kr kf]|].
    + apply bind_Ok in H. destruct H as [a [_ H]]. inversion H. now subst.
    + inversion H. now subst.
Qed.

Lemma check_game_over_same_position (gs gs' : GameState) (b : bool) :
  check_game_over gs = Ok (b, gs') -> same_position gs gs'.
Proof.
  unfold check_game_over.
  destruct (needs_promotion_choice gs); [intro H; inversion H; apply same_position_refl |].
  intro H. apply bind_Ok in H. destruct H as [[l g1] [Hl H]].
  apply get_all_legal_moves_frame in Hl. subst g1.
  assert (H0 : same_position gs (set_cache gs (Some l)))
    by (unfold same_position; simpl; repeat split).
  destruct l as [|m ms].
  - apply bind_Ok in H. destruct H as [[chk g2] [Hc H]].
    apply is_in_check_same_position in Hc.
    pose proof (same_position_trans _ _ _ H0 Hc) as H1.
    destruct chk; inversion H; subst gs';
      unfold same_position in *; simpl; intuition.
  - inversion H. subst gs'. unfold same_position; simpl; repeat split.
Qed.


Lemma make_move_exits (gs gs' : GameState) (move : Move) (chk made : bool) :
  make_move gs move chk = Ok (made, gs') ->
  exists e,
    make_move_body gs move = Ok e /\
    match e with
    | Rejected g => made = false /\ gs' = g
    | Pending g => made = true /\ gs' = g
    | Finalised g =>
        made = true /\
        (gs' = g \/ exists b, chk = true /\ check_game_over g = Ok (b, gs'))
    end.
Proof.
  unfold make_move. intro H. apply bind_Ok in H. destruct H as [e [He H]].
  exists e. split; [exact He |].
  destruct e as [g|g|g].
  - inversion H. auto.
  - inversion H. auto.
  - destruct chk.
    + apply bind_Ok in H. destruct H as [[b g'] [Hc H]]. inversion H. subst.
      split; [reflexivity |]. right. eauto.
    + inversion H. auto.
Qed.



(** X5.  A move that [make_move] accepts is logged.  Unless it is a pawn move
    that waits for its promotion piece, the turn passes to the other side
    and no promotion is pending; a waiting pawn move keeps the turn and
    records its target square. *)
Theorem make_move_accepted :
  forall (gs gs' : GameState) (move : Move) (chk : bool),
    make_move gs move chk = Ok (true, gs') ->
    move_log gs' = move_log gs ++ [move] /\
    last_move gs' = Some move /\
    (needs_promotion_choice gs' = false /\
     current_turn gs' = get_opposite_color (current_turn gs)
     \/
     needs_promotion_choice gs' = true /\
     current_turn gs' = current_turn gs /\
     exists src dst, move = NormalMove src dst None /\
                     promotion_square gs' = Some dst /\
                     last_move_for_promotion gs' = Some move).
Proof.
  intros gs gs' move chk H.
  apply make_move_exits in H. destruct H as [e [He H]].
  destruct e as [g|g|g]; destruct H as [H1 H2]; try discriminate.
  - subst g. apply make_move_body_pending in He.
    destruct He as [src [dst [Hm [Ht [Hl [Hlm [Hn [Hsq [Hlp _]]]]]]]]].
    split; [exact Hl |]. split; [exact Hlm |]. right.
    split; [exact Hn |]. split; [exact Ht |]. eauto.
  - apply make_move_body_finalised in He.
    destruct He as [Ht [Hl [Hlm [Hn _]]]].
    destruct H2 as [-> | [b [_ Hc]]].
    + split; [exact Hl |]. split; [exact Hlm |]. left. auto.
    + apply check_game_over_same_position in Hc.
      destruct Hc as [_ [Ht' [_ [Hl' [Hlm' [Hn' _]]]]]].
      split; [congruence |]. split; [congruence |]. left. split; congruence.
Qed.

Lemma make_move_accepted_witness :
  exists gs',
    make_move initial_state (NormalMove (4, 0) (3, 0) None) true = Ok (true, gs') /\
    move_log gs' = move_log initial_state ++ [NormalMove (4, 0) (3, 0) None] /\
    last_move gs' = Some (NormalMove (4, 0) (3, 0) None).
Proof.
  assert (Hrun : exists gs',
            make_move initial_state (NormalMove (4, 0) (3, 0) None) true
            = Ok (true, gs'))
    by (eexists; vm_compute; reflexivity).
  destruct Hrun as [gs' Hrun]. exists gs'. split; [exact Hrun |].
  destruct (make_move_accepted initial_state gs' _ true Hrun) as [Hlog [Hlast _]].
  split; assumption.
Defined.



Lemma make_move_body_wf (gs : GameState) (move : Move) (e : move_exit) :
  wf_board (board gs) -> make_move_body gs move = Ok e -> wf_board (board (exit_state e)).
Proof.
  intro Hwf. unfold make_move_body.
  change (needs_promotion_choice (set_cache gs None)) with (needs_promotion_choice gs).
  change (board (set_cache gs None)) with (board gs).
  destruct (needs_promotion_choice gs); [intro H; inversion H; exact Hwf |].
  destruct move as [[r1 f1] [r2 f2] promotion | piece_code [r f]].
  - intro H. apply bind_Ok in H. destruct H as [piece [_ H]].
    destruct (char_eqb piece EMPTY_SQUARE); [inversion H; exact Hwf |].
    set (mc := if isupper piece then White else Black) in *.
    destruct (negb (color_eqb mc (current_turn (set_cache gs None))));
      [inversion H; exact Hwf |].
    apply bind_Ok in H. destruct H as [target [_ H]].
    apply bind_Ok in H. destruct H as [b1 [Hb1 H]].
    apply (set_cell_wf _ _ _ _ _ Hwf) in Hb1.
    cbv zeta in H.
    destruct (negb (char_eqb target EMPTY_SQUARE) && negb (char_eqb (upper target) "K"));
      destruct (char_eqb (upper piece) "K");
      destruct (char_eqb (upper piece) "P" && (r2 =? promotion_rank mc));
      try destruct promotion as [choice|];
      try destruct (negb (existsb (char_eqb choice) (prom_pieces mc)));
      apply bind_Ok in H; destruct H as [b2 [Hb2 H]];
      (assert (Hw2 : wf_board b2)
         by (destruct mc; simpl in Hb2; exact (set_cell_wf _ _ _ _ _ Hb1 Hb2)));
      inversion H; subst e; destruct mc; simpl; exact Hw2.
  - intro H. apply bind_Ok in H. destruct H as [col [_ H]].
    apply bind_Ok in H. destruct H as [pt [_ H]].
    apply bind_Ok in H. destruct H as [target [_ H]].
    repeat match type of H with
           | (if ?c then _ else _) = _ => destruct c; [inversion H; exact Hwf |]
           end.
    cbv zeta in H. apply bind_Ok in H. destruct H as [b' [Hb' H]].
    apply (set_cell_wf _ _ _ _ _ Hwf) in Hb'.
    inversion H; subst e. destruct (current_turn gs); simpl; exact Hb'.
Qed.

(** X6.  The board keeps its shape: after [make_move] (accepted or not, with or
    without the game-over check) and after [complete_promotion] a board of
    six rows of six squares is again one. *)
Theorem board_shape_preserved :
  forall (gs gs' : GameState) (made : bool),
    wf_board (board gs) ->
    (forall move chk, make_move gs move chk = Ok (made, gs') -> wf_board (board gs')) /\
    (forall p, complete_promotion gs p = Ok (made, gs') -> wf_board (board gs')).
Proof.
  intros gs gs' made Hwf. split.
  - intros move chk H. apply make_move_exits in H. destruct H as [e [He H]].
    pose proof (make_move_body_wf gs move e Hwf He) as Hw.
    destruct e as [g|g|g]; simpl in Hw; destruct H as [_ H]; try (subst; exact Hw).
    destruct H as [-> | [b [_ Hc]]]; [exact Hw |].
    apply check_game_over_same_position in Hc. destruct Hc as [Hb _]. now rewrite Hb.
  - intros p. unfold complete_promotion.
    destruct (needs_promotion_choice gs); [| intro H; inversion H; subst; exact Hwf].
    destruct (promotion_square gs) as [[r f]|]; [| intro H; inversion H; subst; exact Hwf].
    destruct (negb (existsb (char_eqb p) (prom_pieces (get_opposite_color (current_turn gs)))));
      [intro H; inversion H; subst; exact Hwf |].
    intro H. apply bind_Ok in H. destruct H as [b [Hb H]].
    apply (set_cell_wf _ _ _ _ _ Hwf) in Hb.
    apply bind_Ok in H. destruct H as [gs2 [H2 H]].
    apply bind_Ok in H. destruct H as [[x g4] [Hc H]]. inversion H; subst.
    apply check_game_over_same_position in Hc. destruct Hc as [Hb4 _]. rewrite Hb4. simpl.
    assert (Hb2 : board gs2 = b).
    { revert H2. simpl.
      destruct (move_log gs) as [|m0 ml]; destruct (last_move_for_promotion gs) as [lmp|];
        try (destruct (last_move gs) as [[s d pr|c q]|];
             try destruct (square_eqb d (r, f)); intro H2; inversion H2; reflexivity).
      intro H2. apply bind_Ok in H2. destruct H2 as [cm [_ H2]].
      destruct (Move_eqb _ _); inversion H2; reflexivity. }
    now rewrite Hb2.
Qed.

Lemma board_shape_preserved_witness :
  exists gs',
    make_move initial_state (NormalMove (4, 0) (3, 0) None) true = Ok (true, gs') /\
    wf_board (board gs').
Proof.
  assert (Hrun : exists gs',
            make_move initial_state (NormalMove (4, 0) (3, 0) None) true
            = Ok (true, gs'))
    by (eexists; vm_compute; reflexivity).
  destruct Hrun as [gs' Hrun]. exists gs'. split; [exact Hrun |].
  exact (proj1 (board_shape_preserved initial_state gs' true initial_board_wf)
           _ true Hrun).
Defined.

Lemma prom_pieces_disjoint (c : color) (p : ascii) :
  In p (prom_pieces c) -> existsb (char_eqb p) (prom_pieces (get_opposite_color c)) = false.
Proof.
  destruct c; simpl; intros [<- | [<- | [<- | []]]]; reflexivity.
Qed.

(** X7.  After a pawn move that waits for its promotion piece the turn has not
    passed, and [complete_promotion] takes the promoting side to be the
    opponent of the side to move: it refuses every promotion piece of the
    side that moved the pawn, leaving the state as it is, and a piece it
    accepts is one of the other side's; the turn does not pass then
    either. *)
Theorem promotion_completion_colour :
  forall (gs gs' : GameState) (move : Move) (chk : bool),
    make_move gs move chk = Ok (true, gs') ->
    needs_promotion_choice gs' = true ->
    (forall p, In p (prom_pieces (current_turn gs)) ->
               complete_promotion gs' p = Ok (false, gs')) /\
    (forall p g, complete_promotion gs' p = Ok (true, g) ->
                 In p (prom_pieces (get_opposite_color (current_turn gs))) /\
                 current_turn g = current_turn gs /\
                 needs_promotion_choice g = false).
Proof.
  intros gs gs' move chk H Hn.
  apply make_move_exits in H. destruct H as [e [He H]].
  assert (Hpend : exists dst, current_turn gs' = current_turn gs /\
                              promotion_square gs' = Some dst).
  { destruct e as [g|g|g]; destruct H as [H1 H2]; try discriminate.
    - subst g. apply make_move_body_pending in He.
      destruct He as [src [dst [_ [Ht [_ [_ [_ [Hsq _]]]]]]]]. eauto.
    - apply make_move_body_finalised in He. destruct He as [_ [_ [_ [Hf _]]]].
      destruct H2 as [-> | [b [_ Hc]]]; [congruence |].
      apply check_game_over_same_position in Hc.
      destruct Hc as [_ [_ [_ [_ [_ [Hn' _]]]]]]. congruence. }
  destruct Hpend as [[r f] [Ht Hsq]].
  split.
  - intros p Hp. unfold complete_promotion. rewrite Hn, Hsq, Ht.
    now rewrite (prom_pieces_disjoint _ _ Hp).
  - intros p g. unfold complete_promotion. rewrite Hn, Hsq, Ht.
    destruct (existsb (char_eqb p) (prom_pieces (get_opposite_color (current_turn gs))))
      eqn:Ex; cbn [negb]; [| discriminate].
    intro Hc. split.
    + apply existsb_exists in Ex. destruct Ex as [x [Hx Hpx]].
      apply char_eqb_eq in Hpx. now subst x.
    + apply bind_Ok in Hc. destruct Hc as [b [_ Hc]].
      apply bind_Ok in Hc. destruct Hc as [gs2 [H2 Hc]].
      apply bind_Ok in Hc. destruct Hc as [[x g4] [Hgo Hc]]. inversion Hc; subst g4.
      apply check_game_over_same_position in Hgo.
      destruct Hgo as [_ [Ht4 [_ [_ [_ [Hn4 _]]]]]].
      rewrite Ht4, Hn4. simpl. split; [| reflexivity].
      rewrite <- Ht. revert H2. simpl.
      destruct (move_log gs') as [|m0 ml]; destruct (last_move_for_promotion gs') as [lmp|];
        try (destruct (last_move gs') as [[s d pr|c q]|];
             try destruct (square_eqb d (r, f)); intro H2; inversion H2; reflexivity).
      intro H2. apply bind_Ok in H2. destruct H2 as [cm [_ H2]].
      destruct (Move_eqb _ _); inversion H2; reflexivity.
Qed.

Lemma promotion_completion_colour_witness :
  exists gs',
    make_move promotion_position (NormalMove (1, 0) (0, 0) None) true = Ok (true, gs') /\
    needs_promotion_choice gs' = true /\
    complete_promotion gs' "R" = Ok (false, gs').
Proof.
  assert (Hrun : exists gs',
            make_move promotion_position (NormalMove (1, 0) (0, 0) None) true
            = Ok (true, gs') /\ needs_promotion_choice gs' = true)
    by (eexists; split; vm_compute; reflexivity).
  destruct Hrun as [gs' [Hrun Hn]]. exists gs'.
  split; [exact Hrun |]. split; [exact Hn |].
  apply (proj1 (promotion_completion_colour promotion_position gs' _ true Hrun Hn)).
  vm_compute. tauto.
Defined.


(* ------------------------------------------------------------------ *)
(** ** The move generator *)



Lemma mapM_Forall {A B : Type} (P : B -> Prop) (f : A -> outcome B)
    (l : list A) (r : list B) :
  mapM f l = Ok r ->
  (forall x y, In x l -> f x = Ok y -> P y) ->
  Forall P r.
Proof.
  revert r. induction l as [|x l IH]; simpl; intros r H Hf.
  - inversion H. constructor.
  - apply bind_Ok in H. destruct H as [y [Hy H]].
    apply bind_Ok in H. destruct H as [ys [Hys H]]. inversion H; subst.
    constructor; [eapply Hf; eauto | apply IH; eauto].
Qed.

Lemma concatM_Forall {A B : Type} (P : B -> Prop) (f : A -> outcome (list B))
    (l : list A) (r : list B) :
  concatM f l = Ok r ->
  (forall x ys, In x l -> f x = Ok ys -> Forall P ys) ->
  Forall P r.
Proof.
  unfold concatM. intros H Hf. apply bind_Ok in H. destruct H as [ls [Hls H]].
  inversion H; subst. apply Forall_concat.
  exact (mapM_Forall (Forall P) f l ls Hls Hf).
Qed.

Lemma filterM_Forall {A : Type} (P : A -> Prop) (f : A -> outcome bool)
    (l r : list A) :
  filterM f l = Ok r -> Forall P l -> Forall P r.
Proof.
  revert r. induction l as [|x l IH]; simpl; intros r H Hl.
  - inversion H. constructor.
  - inversion Hl; subst.
    apply bind_Ok in H. destruct H as [b [_ H]].
    apply bind_Ok in H. destruct H as [ys [Hys H]]. inversion H; subst.
    destruct b; [constructor |]; auto.
Qed.

Lemma empty_has_no_color (c : color) :
  color_is (get_piece_color EMPTY_SQUARE) c = false.
Proof. reflexivity. Qed.

Lemma pawn_step_ok (gs : GameState) (c : color) (r f nr nf : Z) (t : ascii) :
  is_on_board nr nf = true ->
  get_cell (board gs) nr nf = Ok t ->
  color_is (get_piece_color t) c = false ->
  Forall (target_ok gs c r f) (pawn_step r f nr nf c).
Proof.
  intros Hb Ht Hc. unfold pawn_step.
  destruct (Z.eqb_spec nr (promotion_rank c)) as [E|E].
  - apply Forall_forall. intros m Hm. apply in_map_iff in Hm.
    destruct Hm as [p [<- Hp]]. exists nr, nf, (Some p).
    split; [reflexivity |]. split; [exact Hb |]. split; [eauto |].
    intros x Hx. inversion Hx; subst. auto.
  - constructor; [| constructor]. exists nr, nf, None.
    split; [reflexivity |]. split; [exact Hb |]. split; [eauto |]. discriminate.
Qed.

Lemma get_pawn_moves_ok (gs : GameState) (r f : Z) (c : color) (l : list Move) :
  get_pawn_moves gs r f c = Ok l -> Forall (target_ok gs c r f) l.
Proof.
  unfold get_pawn_moves. intro H.
  apply bind_Ok in H. destruct H as [fw [Hfw H]].
  apply bind_Ok in H. destruct H as [cp [Hcp H]]. inversion H; subst.
  apply Forall_app. split.
  - match type of Hfw with
    | (if ?b then _ else _) = _ => destruct b eqn:Hb
    end; [| inversion Hfw; constructor].
    apply bind_Ok in Hfw. destruct Hfw as [t [Ht Hfw]].
    destruct (char_eqb t EMPTY_SQUARE) eqn:Et; inversion Hfw; [| constructor].
    apply char_eqb_eq in Et. subst t.
    eapply pawn_step_ok; eauto.
  - eapply concatM_Forall; [exact Hcp |].
    intros df ys _ Hys. cbv beta zeta in Hys.
    match type of Hys with
    | (if ?b then _ else _) = _ => destruct b eqn:Hb
    end; [| inversion Hys; constructor].
    apply bind_Ok in Hys. destruct Hys as [t [Ht Hys]].
    destruct (negb (char_eqb t EMPTY_SQUARE) && negb (color_is (get_piece_color t) c))
      eqn:E; inversion Hys; [| constructor].
    apply andb_true_iff in E. destruct E as [_ E]. apply negb_true_iff in E.
    eapply pawn_step_ok; eauto.
Qed.

Lemma get_step_moves_ok (gs : GameState) (r f : Z) (c : color)
    (steps : list (Z * Z)) (l : list Move) :
  get_step_moves gs r f c steps = Ok l -> Forall (target_ok gs c r f) l.
Proof.
  unfold get_step_moves. intro H. eapply concatM_Forall; [exact H |].
  intros d ys _ Hys. cbv beta zeta in Hys.
  destruct (is_on_board (r + fst d) (f + snd d)) eqn:Hb; [| inversion Hys; constructor].
  apply bind_Ok in Hys. destruct Hys as [t [Ht Hys]].
  destruct (char_eqb t EMPTY_SQUARE || negb (color_is (get_piece_color t) c)) eqn:E;
    inversion Hys; [| constructor].
  constructor; [| constructor].
  exists (r + fst d), (f + snd d), None.
  split; [reflexivity |]. split; [exact Hb |]. split; [| discriminate].
  exists t. split; [exact Ht |].
  apply orb_true_iff in E. destruct E as [E | E].
  - apply char_eqb_eq in E. subst t. reflexivity.
  - now apply negb_true_iff in E.
Qed.

Lemma slide_ok (gs : GameState) (r f : Z) (c : color) (dr df : Z) (n : nat) :
  forall nr nf l,
    slide n (board gs) r f c nr nf dr df = Ok l -> Forall (target_ok gs c r f) l.
Proof.
  induction n as [|n IH]; simpl; intros nr nf l H.
  - inversion H. constructor.
  - destruct (is_on_board nr nf) eqn:Hb; [| inversion H; constructor].
    apply bind_Ok in H. destruct H as [t [Ht H]].
    assert (Hhere : color_is (get_piece_color t) c = false ->
                    target_ok gs c r f (NormalMove (r, f) (nr, nf) None)).
    { intro Hc. exists nr, nf, None. split; [reflexivity |]. split; [exact Hb |].
      split; [eauto | discriminate]. }
    destruct (char_eqb t EMPTY_SQUARE) eqn:Et.
    + apply bind_Ok in H. destruct H as [rest [Hrest H]]. inversion H; subst.
      constructor; [| eapply IH; eauto].
      apply Hhere. apply char_eqb_eq in Et. subst t. reflexivity.
    + destruct (negb (color_is (get_piece_color t) c)) eqn:Ec; inversion H; [| constructor].
      constructor; [| constructor]. apply Hhere. now apply negb_true_iff in Ec.
Qed.

Lemma get_sliding_moves_ok (gs : GameState) (r f : Z) (c : color)
    (directions : list (Z * Z)) (l : list Move) :
  get_sliding_moves gs r f c directions = Ok l -> Forall (target_ok gs c r f) l.
Proof.
  unfold get_sliding_moves. intro H. eapply concatM_Forall; [exact H |].
  intros d ys _ Hys. cbv beta in Hys. exact (slide_ok gs r f c _ _ 6 _ _ ys Hys).
Qed.

Lemma in_range_iff (a b x : Z) : In x (range a b) <-> a <= x < b.
Proof.
  unfold range. rewrite in_map_iff. split.
  - intros [k [<- Hk]]. apply in_seq in Hk. lia.
  - intro H. exists (Z.to_nat (x - a)). split; [lia |]. apply in_seq. lia.
Qed.

Lemma in_squares_on_board (r f : Z) :
  In (r, f) (list_prod (range 0 BOARD_SIZE) (range 0 BOARD_SIZE)) ->
  is_on_board r f = true.
Proof.
  intro H. apply in_prod_iff in H. destruct H as [Hr Hf].
  apply in_range_iff in Hr, Hf. unfold is_on_board.
  rewrite !andb_true_iff, !Z.leb_le, !Z.ltb_lt. lia.
Qed.

Lemma drops_of_entry_ok (gs : GameState) (c : color) (kv : hand_key * Z)
    (l : list Move) :
  In kv (hand_of gs c) ->
  drops_of_entry gs c kv = Ok l -> Forall (generated_ok gs c) l.
Proof.
  intros Hin. unfold drops_of_entry. destruct kv as [k n].
  destruct (Z.ltb_spec 0 n) as [Hn|Hn]; [| intro H; inversion H; constructor].
  destruct k as [s| | |]; try discriminate.
  intro H. eapply concatM_Forall; [exact H |].
  intros r ys Hr Hys. cbv beta in Hys.
  destruct (String.eqb s "P" && (r =? promotion_rank c)) eqn:Ep;
    [inversion Hys; constructor |].
  eapply concatM_Forall; [exact Hys |].
  intros f zs Hf Hzs. cbv beta in Hzs.
  apply bind_Ok in Hzs. destruct Hzs as [t [Ht Hzs]].
  destruct (char_eqb t EMPTY_SQUARE) eqn:Et; inversion Hzs; [| constructor].
  constructor; [| constructor]. simpl.
  apply char_eqb_eq in Et. subst t.
  split.
  { apply in_squares_on_board. apply in_prod_iff. auto. }
  split; [exact Ht |].
  exists s, n. split; [reflexivity |]. split; [exact Hin |]. split; [exact Hn |].
  intros -> ->. rewrite String.eqb_refl, Z.eqb_refl in Ep. discriminate.
Qed.

Lemma generate_all_ok (gs : GameState) (c : color) (l : list Move) :
  generate_all_pseudo_legal_moves gs c = Ok l -> Forall (generated_ok gs c) l.
Proof.
  unfold generate_all_pseudo_legal_moves. intro H.
  apply bind_Ok in H. destruct H as [bm [Hbm H]].
  apply bind_Ok in H. destruct H as [dm [Hdm H]]. inversion H; subst.
  apply Forall_app. split.
  - eapply concatM_Forall; [exact Hbm |].
    intros [r f] ys Hrf Hys. cbv beta iota in Hys.
    apply in_squares_on_board in Hrf.
    apply bind_Ok in Hys. destruct Hys as [piece [Hpiece Hys]].
    destruct (negb (char_eqb piece EMPTY_SQUARE) && color_is (get_piece_color piece) c)
      eqn:Eown; [| inversion Hys; constructor].
    apply andb_true_iff in Eown. destruct Eown as [_ Eown].
    assert (Hlift : forall ms, Forall (target_ok gs c r f) ms ->
                               Forall (generated_ok gs c) ms).
    { intros ms Hms. eapply Forall_impl; [| exact Hms].
      intros m [r2 [f2 [p [-> [Hb [Ht Hp]]]]]]. simpl.
      split; [exact Hrf |]. split; [exact Hb |]. split; [eauto |]. split; assumption. }
    cbv beta zeta in Hys.
    repeat match type of Hys with
           | (if ?b then _ else _) = _ => destruct b
           end;
      try (inversion Hys; constructor); apply Hlift.
    + now apply get_pawn_moves_ok.
    + now apply get_step_moves_ok in Hys.
    + now apply get_sliding_moves_ok in Hys.
    + now apply get_sliding_moves_ok in Hys.
    + now apply get_sliding_moves_ok in Hys.
    + now apply get_step_moves_ok in Hys.
  - eapply concatM_Forall; [exact Hdm |].
    intros kv ys Hkv Hys. eapply drops_of_entry_ok; eauto.
Qed.

(** X8.  Every pseudo-legal move, and every legal move computed by
    [get_all_legal_moves], satisfies [generated_ok]: the generator never
    leaves the board, never moves a piece of the other side or an empty
    square, never captures a piece of the moving side, never drops on an
    occupied square and never drops a pawn on the last rank. *)
Theorem generated_moves_sound :
  forall (gs : GameState) (c : color) (l : list Move),
    (generate_all_pseudo_legal_moves gs c = Ok l -> Forall (generated_ok gs c) l) /\
    (forall gs', _all_legal_moves_cache gs = None ->
                 get_all_legal_moves gs = Ok (l, gs') ->
                 Forall (generated_ok gs (current_turn gs)) l).
Proof.
  intros gs c l. split; [apply generate_all_ok |].
  intros gs' Hc. unfold get_all_legal_moves. rewrite Hc.
  destruct (needs_promotion_choice gs); [intro H; inversion H; constructor |].
  intro H. apply bind_Ok in H. destruct H as [pseudo [Hps H]].
  apply bind_Ok in H. destruct H as [legal [Hlg H]]. inversion H; subst.
  eapply filterM_Forall; [exact Hlg |]. now apply generate_all_ok.
Qed.

Lemma generated_moves_sound_witness :
  Forall (generated_ok initial_state White) initial_moves.
Proof.
  apply (proj2 (generated_moves_sound initial_state White initial_moves)
           (set_cache initial_state (Some initial_moves)));
    vm_compute; reflexivity.
Defined.


(* ------------------------------------------------------------------ *)
(** ** Move ordering *)

Lemma insert_desc_perm (x : Z * Move) (l : list (Z * Move)) :
  Permutation (x :: l) (insert_desc x l).
Proof.
  induction l as [|y l IH]; simpl; [apply Permutation_refl |].
  destruct (fst y <=? fst x); [apply Permutation_refl |].
  eapply Permutation_trans; [apply perm_swap |]. now apply perm_skip.
Qed.

Lemma sort_desc_perm (l : list (Z * Move)) : Permutation l (sort_desc l).
Proof.
  unfold sort_desc. induction l as [|x l IH]; simpl; [constructor |].
  eapply Permutation_trans; [| apply insert_desc_perm]. now apply perm_skip.
Qed.

Lemma map_snd_combine {A B : Type} (a : list A) (b : list B) :
  List.length a = List.length b -> map snd (combine a b) = b.
Proof.
  revert b. induction a as [|x a IH]; intros [|y b] H; simpl in *; try discriminate; auto.
  f_equal. apply IH. lia.
Qed.

Lemma sort_moves_perm (key : Move -> outcome Z) (moves sorted : list Move) :
  sort_moves key moves = Ok sorted -> Permutation moves sorted.
Proof.
  unfold sort_moves. intro H. apply bind_Ok in H. destruct H as [keys [Hk H]].
  inversion H; subst. apply mapM_length in Hk.
  rewrite <- (map_snd_combine keys moves Hk) at 1.
  apply Permutation_map. apply sort_desc_perm.
Qed.

(* ------------------------------------------------------------------ *)
(** ** The move the engine returns *)

Lemma square_eqb_eq (a b : Square) : square_eqb a b = true -> a = b.
Proof.
  destruct a, b. unfold square_eqb. simpl.
  rewrite andb_true_iff, !Z.eqb_eq. intros [-> ->]. reflexivity.
Qed.

Lemma Move_eqb_eq (a b : Move) : Move_eqb a b = true -> a = b.
Proof.
  destruct a as [s1 d1 p1|c1 q1], b as [s2 d2 p2|c2 q2]; simpl; try discriminate.
  - rewrite !andb_true_iff. intros [[Hs Hd] Hp].
    apply square_eqb_eq in Hs, Hd. subst.
    destruct p1, p2; simpl in Hp; try discriminate; [| reflexivity].
    apply Ascii.eqb_eq in Hp. now subst.
  - rewrite andb_true_iff. intros [Hc Hq].
    apply String.eqb_eq in Hc. apply square_eqb_eq in Hq. now subst.
Qed.

Lemma move_in_In (m : Move) (l : list Move) : move_in m l = true -> In m l.
Proof.
  unfold move_in. intro H. apply existsb_exists in H. destruct H as [x [Hx He]].
  apply Move_eqb_eq in He. now subst.
Qed.

Lemma random_choice_In (n : nat) (l : list Move) (m : Move) :
  random_choice n l = Ok m -> In m l.
Proof.
  unfold random_choice. destruct (nth_error l _) eqn:E; intro H; inversion H; subst.
  eapply nth_error_In; eauto.
Qed.

Lemma _minimax_worker_move (fc : GameState -> outcome GameState) (fuel : nat)
    (move : Move) (gs : GameState) (depth : Z) (alpha beta : score)
    (maximizing : bool) (r : Move * score) :
  _minimax_worker fc fuel move gs depth alpha beta maximizing = Ok r -> fst r = move.
Proof.
  unfold _minimax_worker, try_except.
  destruct (make_move gs move false) as [[made g]| |]; cbn [bind].
  - destruct (negb made); cbn [bind]; [intro H; now inversion H |].
    destruct (_minimax_recursive fc fuel g (depth - 1) alpha beta (negb maximizing));
      cbn [bind]; intro H; inversion H; reflexivity.
  - intro H. now inversion H.
  - discriminate.
Qed.

Lemma workers_keep_moves (f : Move -> outcome (Move * score)) (l : list Move)
    (rs : list (Move * score)) :
  (forall m r, f m = Ok r -> fst r = m) ->
  mapM f l = Ok rs -> map fst rs = l.
Proof.
  intro Hf. revert rs. induction l as [|m l IH]; simpl; intros rs H.
  - now inversion H.
  - apply bind_Ok in H. destruct H as [r [Hr H]].
    apply bind_Ok in H. destruct H as [rs' [Hrs H]]. inversion H; subst. simpl.
    f_equal; [now apply Hf | now apply IH].
Qed.

Lemma reconcile_In (c : color) (rs : list (Move * score)) (m : Move) (s : score) :
  reconcile c rs = Some (m, s) -> In m (map fst rs).
Proof.
  unfold reconcile. destruct rs as [|[f0 s0] rs]; [discriminate |].
  destruct (find_mate c ((f0, s0) :: rs)) as [bm|] eqn:E.
  - intro H. inversion H; subst. apply find_mate_Some in E.
    apply in_map_iff. exists (m, mating_score c). auto.
  - intro H. inversion H as [Hp].
    destruct (pick_extremal_spec c f0 s0 rs) as [Hin _].
    rewrite Hp in Hin. apply in_map_iff. exists (m, s). auto.
Qed.

Lemma minimax_fallback_legal (env : Env) (gs gs' : GameState) (depth : Z)
    (l : list Move) (g1 : GameState) (r : option Move * score) :
  get_all_legal_moves gs = Ok (l, g1) ->
  minimax_fallback env gs depth = Ok (r, gs') ->
  gs' = g1 /\ forall m, fst r = Some m -> In m l.
Proof.
  intros Hg. unfold minimax_fallback. rewrite Hg.
  destruct l as [|x l]; [intro H; inversion H; split; [reflexivity | discriminate] |].
  destruct (random_choice _ _) eqn:E; intro H; inversion H; subst;
    (split; [reflexivity |]); simpl; intros m0 Hm; inversion Hm; subst.
  now apply random_choice_In in E.
Qed.

Lemma minimax_returns_legal (fc : GameState -> outcome GameState) (env : Env)
    (fuel : nat) (gs gs' g1 : GameState) (depth : Z) (l : list Move)
    (r : option Move * score) :
  get_all_legal_moves gs = Ok (l, g1) ->
  minimax fc env fuel gs depth = Ok (r, gs') ->
  gs' = g1 /\ forall m, fst r = Some m -> In m l.
Proof.
  intros Hg. unfold minimax. rewrite Hg.
  pose proof (get_all_legal_moves_again _ _ _ Hg) as Hg1.
  destruct l as [|x l]; [intro H; inversion H; split; [reflexivity | discriminate] |].
  destruct (pool_fault env depth); [apply (minimax_fallback_legal _ _ _ _ _ _ _ Hg1) |].
  destruct (mapM _ (x :: l)) as [rs| |] eqn:Hm;
    [| apply (minimax_fallback_legal _ _ _ _ _ _ _ Hg1) | discriminate].
  apply workers_keep_moves in Hm; [| intros m0 r0; apply _minimax_worker_move].
  destruct (reconcile (current_turn g1) rs) as [[bm bs]|] eqn:Hr.
  - intro H. inversion H; subst. split; [reflexivity |].
    simpl. intros m Hm'. inversion Hm'; subst.
    apply reconcile_In in Hr. now rewrite Hm in Hr.
  - exfalso. apply (reconcile_nonempty (current_turn g1) rs); [| exact Hr].
    intro Hnil. subst rs. discriminate.
Qed.

Lemma deepening_loop_legal (fc : GameState -> outcome GameState) (env : Env)
    (fuel : nat) (pos_hash : string) (depth : Z) (l : list Move) (depths : list Z) :
  forall (best_move : option Move) (best_score : score) (gs : GameState)
         (mc : MoveCache) (d : driver_state),
    (exists g, get_all_legal_moves gs = Ok (l, g)) ->
    (forall b, best_move = Some b -> In b l) ->
    deepening_loop fc env fuel pos_hash depth depths best_move best_score gs mc = Ok d ->
    forall b, d_best_move d = Some b -> In b l.
Proof.
  induction depths as [|cd rest IH]; intros bm bs gs mc d [g Hg] Hbm; simpl; intro H.
  - inversion H; subst. exact Hbm.
  - destruct (driver_fault env cd); [inversion H; subst; exact Hbm |].
    apply bind_Ok in H. destruct H as [[hit gs1] [Hhit H]].
    assert (H1 : (exists g1, get_all_legal_moves gs1 = Ok (l, g1)) /\
                 forall cm, hit = Some cm -> In cm l).
    { destruct (cache_get mc (pos_hash, cd)) as [cm|];
        [| inversion Hhit; subst; split; [eauto | discriminate]].
      destruct (cd =? depth); [| inversion Hhit; subst; split; [eauto | discriminate]].
      rewrite (is_move_legal_known gs g l cm Hg) in Hhit. cbn [bind] in Hhit.
      pose proof (get_all_legal_moves_again _ _ _ Hg) as Hg2.
      inversion Hhit; subst. split; [eauto |].
      destruct (move_in cm l) eqn:E; [| discriminate].
      intros c Hc. inversion Hc; subst. now apply move_in_In. }
    destruct H1 as [[g1 Hg1] Hcm].
    destruct hit as [cm|]; [inversion H; subst; simpl; exact Hcm |].
    apply bind_Ok in H. destruct H as [[[om s] gs2] [Hmm H]]. cbn [fst snd] in H.
    destruct (minimax_returns_legal _ _ _ _ _ _ _ _ _ Hg1 Hmm) as [-> Hin].
    destruct om as [ibm|]; [| inversion H; subst; exact Hbm].
    destruct (mate_found s).
    + inversion H; subst. simpl. intros b Hb. inversion Hb; subst. now apply Hin.
    + eapply IH; [| | exact H].
      * exists g1. now apply get_all_legal_moves_again in Hg1.
      * intros b Hb. inversion Hb; subst. now apply Hin.
Qed.

(** X9.  Whatever [find_best_move] and [minimax] return is one of the legal
    moves of the state they were given: the cached move is checked against
    them, a worker answers for the move it was handed, the reconciliation
    picks among the workers' answers, and the fallbacks draw from the legal
    moves. *)
Theorem engine_returns_legal_move :
  forall (fc : GameState -> outcome GameState) (env : Env) (fuel : nat)
         (gs g1 : GameState) (depth : Z) (l : list Move),
    get_all_legal_moves gs = Ok (l, g1) ->
    (forall mc bm gs' mc',
        find_best_move fc env fuel gs depth mc = Ok (Some bm, gs', mc') -> In bm l) /\
    (forall bm s gs',
        minimax fc env fuel gs depth = Ok ((Some bm, s), gs') -> In bm l).
Proof.
  intros fc env fuel gs g1 depth l Hg. split.
  - intros mc bm gs' mc'. unfold find_best_move.
    destruct (needs_promotion_choice gs); [discriminate |].
    intro H. apply bind_Ok in H. destruct H as [[hit gs1] [Hhit H]].
    assert (H1 : (exists g, get_all_legal_moves gs1 = Ok (l, g)) /\
                 forall cm, hit = Some cm -> In cm l).
    { destruct (cache_get mc (get_position_hash gs, depth)) as [cm|];
        [| inversion Hhit; subst; split; [eauto | discriminate]].
      rewrite (is_move_legal_known gs g1 l cm Hg) in Hhit. cbn [bind] in Hhit.
      pose proof (get_all_legal_moves_again _ _ _ Hg) as Hg2.
      inversion Hhit; subst. split; [eauto |].
      destruct (move_in cm l) eqn:E; [| discriminate].
      intros c Hc. inversion Hc; subst. now apply move_in_In. }
    destruct H1 as [[g Hg'] Hcm].
    destruct hit as [cm|]; [inversion H; subst; now apply Hcm |].
    unfold deepcopy in H. rewrite Hg' in H. cbn [bind] in H.
    destruct l as [|a [|b l]].
    + apply bind_Ok in H. destruct H as [sc [_ H]]. discriminate.
    + inversion H; subst. now left.
    + apply bind_Ok in H. destruct H as [d [Hd H]].
      assert (Hnone : forall x : Move, @None Move = Some x -> In x (a :: b :: l))
        by discriminate.
      pose proof (deepening_loop_legal fc env fuel _ depth (a :: b :: l) _ None (Num 0)
                    gs1 mc d (ex_intro _ g Hg') Hnone Hd) as Hbest.
      destruct (d_raised d).
      * destruct (d_best_move d) as [x|] eqn:Ex.
        -- inversion H; subst. now apply Hbest.
        -- destruct (random_choice (rand env 0) (a :: b :: l)) eqn:Er;
             inversion H; subst. now apply random_choice_In in Er.
      * destruct (d_best_move d) as [x|] eqn:Ex; inversion H; subst. now apply Hbest.
  - intros bm s gs' H.
    destruct (minimax_returns_legal fc env fuel gs gs' g1 depth l _ Hg H) as [_ Hin].
    now apply Hin.
Qed.

Lemma engine_returns_legal_move_witness :
  exists bm gs' mc',
    find_best_move no_fast_copy (calm 0) 10 initial_state 1 []
    = Ok (Some bm, gs', mc') /\
    In bm initial_moves.
Proof.
  assert (Hrun : exists bm gs' mc',
            find_best_move no_fast_copy (calm 0) 10 initial_state 1 []
            = Ok (Some bm, gs', mc'))
    by (do 3 eexists; vm_compute; reflexivity).
  destruct Hrun as [bm [gs' [mc' Hrun]]]. exists bm, gs', mc'.
  split; [exact Hrun |].
  assert (Hg : get_all_legal_moves initial_state
               = Ok (initial_moves, set_cache initial_state (Some initial_moves)))
    by (vm_compute; reflexivity).
  exact (proj1 (engine_returns_legal_move no_fast_copy (calm 0) 10%nat initial_state
                  _ 1 initial_moves Hg) [] bm gs' mc' Hrun).
Defined.


(* ------------------------------------------------------------------ *)
(** ** What a search leaves in the caller's legal-move cache *)

Lemma quiescence_search_state (fuel : nat) (t : Tables) (gs gs' : GameState)
    (alpha beta : score) (depth : Z) (s : score) :
  quiescence_search fuel t gs alpha beta depth = Ok (s, gs') ->
  gs' = gs \/ exists l, get_all_legal_moves gs = Ok (l, gs').
Proof.
  destruct fuel as [|fuel]; [discriminate |]. simpl.
  destruct (checkmate gs || stalemate gs).
  - intro H. apply bind_Ok in H. destruct H as [x [_ H]]. inversion H. now left.
  - intro H. apply bind_Ok in H. destruct H as [sp [_ H]].
    destruct (depth =? 0); [inversion H; now left |].
    match type of H with
    | (if ?c then _ else _) = _ => destruct c
    end; [inversion H; now left |].
    apply bind_Ok in H. destruct H as [[noisy g] [Hn H]].
    apply bind_Ok in H. destruct H as [sorted [_ H]].
    apply bind_Ok in H. destruct H as [s' [_ H]]. inversion H; subst.
    unfold get_noisy_moves in Hn.
    apply bind_Ok in Hn. destruct Hn as [[l g'] [Hl Hn]]. inversion Hn; subst.
    right. eauto.
Qed.

Lemma get_all_legal_moves_cached (gs : GameState) (l : list Move) :
  get_all_legal_moves (set_cache gs (Some l)) = Ok (l, set_cache gs (Some l)).
Proof. reflexivity. Qed.

(** X10.  A search may reorder the legal moves that the caller's state object
    reports, but it neither adds nor drops one: after [minimax_alpha_beta]
    or [quiescence_search] the object answers [get_all_legal_moves] with a
    permutation of what it answered before. *)
Theorem search_keeps_legal_moves :
  forall (fuel : nat) (gs g1 : GameState) (l : list Move),
    get_all_legal_moves gs = Ok (l, g1) ->
    (forall depth alpha beta maximizing t r gs' t',
        minimax_alpha_beta fuel gs depth alpha beta maximizing t = Ok (r, gs', t') ->
        exists l' g', get_all_legal_moves gs' = Ok (l', g') /\ Permutation l l') /\
    (forall depth alpha beta t s gs',
        quiescence_search fuel t gs alpha beta depth = Ok (s, gs') ->
        exists g', get_all_legal_moves gs' = Ok (l, g')).
Proof.
  intros fuel gs g1 l Hg.
  assert (Hq : forall depth alpha beta t s gs',
             quiescence_search fuel t gs alpha beta depth = Ok (s, gs') ->
             exists g', get_all_legal_moves gs' = Ok (l, g')).
  { intros depth alpha beta t s gs' H.
    apply quiescence_search_state in H. destruct H as [-> | [l0 Hl0]]; [eauto |].
    rewrite Hg in Hl0. injection Hl0 as <- <-.
    exists g1. now apply get_all_legal_moves_again in Hg. }
  split; [| exact Hq].
  intros depth alpha beta maximizing t r gs' t'.
  destruct fuel as [|fuel]; [discriminate |]. simpl.
  destruct ((depth =? 0) || checkmate gs || stalemate gs).
  - intro H. apply bind_Ok in H. destruct H as [[q g] [Hqs H]]. inversion H; subst.
    apply quiescence_search_state in Hqs. destruct Hqs as [-> | [l0 Hl0]].
    + exists l, g1. split; [exact Hg | apply Permutation_refl].
    + rewrite Hg in Hl0. injection Hl0 as <- <-.
      exists l, g1. split; [now apply get_all_legal_moves_again in Hg |].
      apply Permutation_refl.
  - rewrite Hg. cbn [bind].
    pose proof (get_all_legal_moves_again _ _ _ Hg) as Hg1.
    assert (Hsame : exists l' g', get_all_legal_moves g1 = Ok (l', g') /\ Permutation l l')
      by (exists l, g1; split; [exact Hg1 | apply Permutation_refl]).
    assert (Hexp : forall rec h e a b,
               ab_expand rec g1 h e l depth a b maximizing t = Ok (r, gs', t') ->
               exists l' g', get_all_legal_moves gs' = Ok (l', g') /\ Permutation l l').
    { intros rec h e a b He. unfold ab_expand in He.
      apply bind_Ok in He. destruct He as [sorted [Hs He]].
      apply bind_Ok in He. destruct He as [[st t1] [_ He]]. inversion He; subst.
      exists sorted, (set_cache g1 (Some sorted)).
      split; [apply get_all_legal_moves_cached | now apply sort_moves_perm in Hs]. }
    destruct l as [|m ms].
    + intro H. apply bind_Ok in H. destruct H as [x [_ H]]. inversion H; subst.
      exact Hsame.
    + cbv zeta.
      destruct (tt_get t (get_position_hash gs)) as [e|]; [| apply Hexp].
      destruct (depth <=? te_depth e); [| apply Hexp].
      destruct (te_flag e).
      * intro H. inversion H; subst. exact Hsame.
      * destruct (score_leb _ _); [intro H; inversion H; subst; exact Hsame | apply Hexp].
      * destruct (score_leb _ _); [intro H; inversion H; subst; exact Hsame | apply Hexp].
Qed.

Lemma search_keeps_legal_moves_witness :
  exists r gs' t' l' g',
    minimax_alpha_beta 10 initial_state 1 NegInf PosInf true empty_tables
    = Ok (r, gs', t') /\
    get_all_legal_moves gs' = Ok (l', g') /\
    Permutation initial_moves l'.
Proof.
  assert (Hrun : exists r gs' t',
            minimax_alpha_beta 10 initial_state 1 NegInf PosInf true empty_tables
            = Ok (r, gs', t'))
    by (do 3 eexists; vm_compute; reflexivity).
  destruct Hrun as [r [gs' [t' Hrun]]].
  assert (Hg : get_all_legal_moves initial_state
               = Ok (initial_moves, set_cache initial_state (Some initial_moves)))
    by (vm_compute; reflexivity).
  destruct (proj1 (search_keeps_legal_moves 10%nat initial_state _ initial_moves Hg)
              1 NegInf PosInf true empty_tables r gs' t' Hrun) as [l' [g' [Hl Hp]]].
  exists r, gs', t', l', g'. split; [exact Hrun |]. split; assumption.
Defined.

(* ------------------------------------------------------------------ *)
(** ** The tables only grow *)


Lemma tables_grow_refl (t : Tables) : tables_grow t t.
Proof. split; [intro k; lia | auto]. Qed.

Lemma tables_grow_trans (a b c : Tables) :
  tables_grow a b -> tables_grow b c -> tables_grow a c.
Proof.
  intros [H1 H2] [H3 H4]. split.
  - intro k. specialize (H1 k). specialize (H3 k). lia.
  - auto.
Qed.

Lemma record_cutoff_grows (depth : Z) (m : Move) (t : Tables) :
  tables_grow t (record_cutoff depth m t).
Proof.
  split.
  - intro k. destruct (record_cutoff_history depth m t) as [Hsame Hother].
    destruct (string_dec k (repr (py_of_move m))) as [-> | Hne].
    + rewrite Hsame. nia.
    + rewrite (Hother k Hne). lia.
  - intros h H. unfold tt_get in *. now rewrite record_cutoff_tt.
Qed.

Lemma tt_store_grows (t : Tables) (h : string) (e : tt_entry) :
  tables_grow t (mkTables (dict_set String.eqb (tt t) h e) (killer_moves t)
                          (history_scores t)).
Proof.
  split.
  - intro k. unfold history_get. cbn [history_scores]. lia.
  - intros h' H. unfold tt_get in *. cbn [tt].
    destruct (string_dec h h') as [-> | Hne].
    + rewrite dict_get_set_same. discriminate.
    + now rewrite (dict_get_set_other _ _ String.eqb string_eqb_spec (tt t) h h' e Hne).
Qed.

Section LoopTables.

Variables (rec : GameState -> score -> score -> Tables -> outcome (score * Tables))
          (maximizing : bool) (depth : Z) (gs : GameState).

Hypothesis rec_grows :
  forall ns a b t0 s t1, rec ns a b t0 = Ok (s, t1) -> tables_grow t0 t1.

Lemma ab_loop_grows (moves : list Move) (st st' : loop_state) (t t' : Tables) :
  ab_loop rec maximizing depth gs moves st t = Ok (st', t') -> tables_grow t t'.
Proof.
  revert st t. induction moves as [|m rest IH]; intros st t H; simpl in H.
  - inversion H; subst. apply tables_grow_refl.
  - apply bind_Ok in H. destruct H as [next [Hc H]].
    destruct next as [ns|]; [| eapply IH; eauto].
    apply bind_Ok in H. destruct H as [[e t1] [Hrec H]].
    pose proof (rec_grows _ _ _ _ _ _ Hrec) as Hg1.
    unfold ab_update in H.
    destruct (score_leb _ _).
    + inversion H; subst.
      destruct (if (if maximizing then score_ltb (ls_eval st) e else score_ltb e (ls_eval st))
                then Some m else ls_best st);
        [| exact Hg1].
      eapply tables_grow_trans; [exact Hg1 | apply record_cutoff_grows].
    + eapply tables_grow_trans; [exact Hg1 |]. eapply IH; eauto.
Qed.

End LoopTables.

(** X11.  The tables only grow during a search: when [minimax_alpha_beta]
    returns, every history counter is at least what it was and every
    position that had a transposition entry still has one. *)
Theorem search_tables_grow :
  forall (fuel : nat) (gs : GameState) (depth : Z) (alpha beta : score)
         (maximizing : bool) (t : Tables) (r : score * option Move)
         (gs' : GameState) (t' : Tables),
    minimax_alpha_beta fuel gs depth alpha beta maximizing t = Ok (r, gs', t') ->
    tables_grow t t'.
Proof.
  induction fuel as [|fuel IH]; intros gs depth alpha beta maximizing t r gs' t' H;
    [discriminate |].
  simpl in H.
  assert (Hexp : forall e legal g a b,
             ab_expand
               (fun ns a0 b0 t0 =>
                  '(r0, _, t'0) <- minimax_alpha_beta fuel ns (depth - 1) a0 b0
                                     (negb maximizing) t0 ;;
                  Ok (fst r0, t'0))
               g (get_position_hash gs) e legal depth a b maximizing t = Ok (r, gs', t') ->
             tables_grow t t').
  { intros e legal g a b Hx. unfold ab_expand in Hx.
    apply bind_Ok in Hx. destruct Hx as [sorted [_ Hx]].
    apply bind_Ok in Hx. destruct Hx as [[st t1] [Hloop Hx]].
    inversion Hx; subst.
    eapply tables_grow_trans; [| apply tt_store_grows].
    eapply ab_loop_grows; [| exact Hloop].
    intros ns a0 b0 t0 s t2 Hrec.
    apply bind_Ok in Hrec. destruct Hrec as [[[r0 g0] t3] [Hrec Hok]].
    inversion Hok; subst. eapply IH; eauto. }
  destruct ((depth =? 0) || checkmate gs || stalemate gs).
  - apply bind_Ok in H. destruct H as [[q g] [_ H]]. inversion H; subst.
    apply tables_grow_refl.
  - apply bind_Ok in H. destruct H as [[legal gs1] [_ H]].
    destruct legal as [|m0 legal].
    + apply bind_Ok in H. destruct H as [s [_ H]]. inversion H; subst.
      apply tables_grow_refl.
    + destruct (tt_get t (get_position_hash gs)) as [e|]; [| eapply Hexp; eauto].
      destruct (depth <=? te_depth e); [| eapply Hexp; eauto].
      destruct (te_flag e).
      * inversion H; subst. apply tables_grow_refl.
      * destruct (score_leb _ _);
          [inversion H; subst; apply tables_grow_refl | eapply Hexp; eauto].
      * destruct (score_leb _ _);
          [inversion H; subst; apply tables_grow_refl | eapply Hexp; eauto].
Qed.

Lemma search_tables_grow_witness :
  exists r gs' t',
    minimax_alpha_beta 10 initial_state 1 NegInf PosInf true sentinel_tables
    = Ok (r, gs', t') /\
    tables_grow sentinel_tables t'.
Proof.
  assert (Hrun : exists r gs' t',
            minimax_alpha_beta 10 initial_state 1 NegInf PosInf true sentinel_tables
            = Ok (r, gs', t'))
    by (do 3 eexists; vm_compute; reflexivity).
  destruct Hrun as [r [gs' [t' Hrun]]]. exists r, gs', t'.
  split; [exact Hrun |].
  exact (search_tables_grow 10%nat initial_state 1 NegInf PosInf true sentinel_tables
           r gs' t' Hrun).
Defined.

(* ------------------------------------------------------------------ *)
(** ** The window of the quiescence search *)

Lemma quiescence_loop_window
    (rec : GameState -> score -> score -> outcome score) (white : bool)
    (gs : GameState) (moves : list Move) :
  forall (alpha beta r : score),
    quiescence_loop rec white gs moves alpha beta = Ok r ->
    score_le (score_min alpha beta) r /\ score_le r (score_max alpha beta).
Proof.
  induction moves as [|m rest IH]; intros alpha beta r H; simpl in H.
  - inversion H; subst. destruct white; split; score_cases; simpl; score_cases.
  - apply bind_Ok in H. destruct H as [next [_ H]].
    destruct next as [ns|]; [| now apply IH].
    apply bind_Ok in H. destruct H as [s [_ H]].
    destruct white; cbv beta zeta iota in H;
      match type of H with
      | (if ?c then _ else _) = _ => destruct c eqn:E
      end.
    + inversion H; subst. clear IH H. split; score_cases; simpl; score_cases.
    + apply IH in H. destruct H as [H1 H2]. clear IH. split; score_cases; simpl; score_cases.
    + inversion H; subst. clear IH H. split; score_cases; simpl; score_cases.
    + apply IH in H. destruct H as [H1 H2]. clear IH. split; score_cases; simpl; score_cases.
Qed.

(** X12.  Away from the leaves ([depth <> 0], state not flagged as finished) the
    value of [quiescence_search] stays inside the window it was given, and
    the side to move does not fall below standing pat: with White to move
    the value lies between [min(stand_pat, beta)] and [max(alpha, beta)],
    with Black to move between [min(alpha, beta)] and
    [max(stand_pat, alpha)]. *)
Theorem quiescence_stays_in_window :
  forall (fuel : nat) (t : Tables) (gs gs' : GameState) (alpha beta : score)
         (depth : Z) (stand_pat s : score),
    checkmate gs = false -> stalemate gs = false -> depth <> 0 ->
    evaluate_position gs = Ok stand_pat ->
    quiescence_search fuel t gs alpha beta depth = Ok (s, gs') ->
    match current_turn gs with
    | White => score_le (score_min stand_pat beta) s /\ score_le s (score_max alpha beta)
    | Black => score_le (score_min alpha beta) s /\ score_le s (score_max stand_pat alpha)
    end.
Proof.
  intros fuel t gs gs' alpha beta depth sp s Hcm Hsm Hd Hsp.
  destruct fuel as [|fuel]; [discriminate |]. simpl.
  rewrite Hcm, Hsm, Hsp. cbn [orb bind].
  destruct (Z.eqb_spec depth 0) as [|_]; [contradiction |].
  destruct (current_turn gs); cbn [color_eqb].
  - destruct (score_leb beta sp) eqn:E.
    + intro H. inversion H; subst. split; score_cases; simpl; score_cases.
    + intro H. apply bind_Ok in H. destruct H as [[noisy g] [_ H]].
      apply bind_Ok in H. destruct H as [sorted [_ H]].
      apply bind_Ok in H. destruct H as [r [Hl H]]. inversion H; subst.
      apply quiescence_loop_window in Hl. destruct Hl as [H1 H2].
      split; score_cases; simpl; score_cases.
  - destruct (score_leb sp alpha) eqn:E.
    + intro H. inversion H; subst. split; score_cases; simpl; score_cases.
    + intro H. apply bind_Ok in H. destruct H as [[noisy g] [_ H]].
      apply bind_Ok in H. destruct H as [sorted [_ H]].
      apply bind_Ok in H. destruct H as [r [Hl H]]. inversion H; subst.
      apply quiescence_loop_window in Hl. destruct Hl as [H1 H2].
      split; score_cases; simpl; score_cases.
Qed.

Lemma quiescence_stays_in_window_witness :
  exists stand_pat s gs',
    evaluate_position initial_state = Ok stand_pat /\
    quiescence_search 10 empty_tables initial_state (Num (-50)) (Num 50) 2
    = Ok (s, gs') /\
    score_le (score_min stand_pat (Num 50)) s /\
    score_le s (score_max (Num (-50)) (Num 50)).
Proof.
  assert (He : exists stand_pat, evaluate_position initial_state = Ok stand_pat)
    by (eexists; vm_compute; reflexivity).
  destruct He as [stand_pat He].
  assert (Hrun : exists s gs',
            quiescence_search 10 empty_tables initial_state (Num (-50)) (Num 50) 2
            = Ok (s, gs'))
    by (do 2 eexists; vm_compute; reflexivity).
  destruct Hrun as [s [gs' Hrun]]. exists stand_pat, s, gs'.
  split; [exact He |]. split; [exact Hrun |].
  assert (Hd : 2 <> 0) by discriminate.
  exact (quiescence_stays_in_window 10%nat empty_tables initial_state gs'
           (Num (-50)) (Num 50) 2 stand_pat s eq_refl eq_refl Hd He Hrun).
Defined.


(* ------------------------------------------------------------------ *)
(** ** evaluate_position returns a score on every well-formed state *)

Lemma foldM_inv {A B : Type} (f : B -> A -> outcome B) (l : list A)
    (P : A -> Prop) (I : B -> Prop) :
  Forall P l ->
  (forall acc x, P x -> I acc -> exists acc', f acc x = Ok acc' /\ I acc') ->
  forall acc, I acc -> exists r, foldM f l acc = Ok r /\ I r.
Proof.
  intros HP Hf. induction HP as [|x l Hx _ IH]; intros acc Hacc; simpl.
  - eauto.
  - destruct (Hf acc x Hx Hacc) as [acc' [-> Hacc']]. cbn [bind]. now apply IH.
Qed.

Lemma existsM_ok {A : Type} (f : A -> outcome bool) (l : list A) (P : A -> Prop) :
  Forall P l -> (forall x, P x -> exists b, f x = Ok b) -> exists b, existsM f l = Ok b.
Proof.
  intros HP Hf. induction HP as [|x l Hx _ IH]; simpl; [eauto |].
  destruct (Hf x Hx) as [b ->]. cbn [bind]. destruct b; eauto.
Qed.

Lemma cell_ok (b : list (list ascii)) (r f : Z) :
  wf_board b -> 0 <= r < 6 -> 0 <= f < 6 -> exists x, get_cell b r f = Ok x.
Proof.
  intros Hwf Hr Hf. apply get_cell_ok; [exact Hwf |].
  apply is_on_board_range. auto.
Qed.

Lemma eval_board_ok (gs : GameState) (wk bk : Z * Z) :
  wf_board (board gs) ->
  exists a, eval_board gs wk bk = Ok a /\
            Forall (fun rc => is_on_board (fst rc) (snd rc) = true) (ea_wp a) /\
            Forall (fun rc => is_on_board (fst rc) (snd rc) = true) (ea_bp a).
Proof.
  intro Hwf. unfold eval_board.
  apply (foldM_inv _ all_squares
           (fun rc => is_on_board (fst rc) (snd rc) = true)
           (fun a => Forall (fun rc => is_on_board (fst rc) (snd rc) = true) (ea_wp a) /\
                     Forall (fun rc => is_on_board (fst rc) (snd rc) = true) (ea_bp a))).
  - exact all_squares_on_board.
  - intros a [r c] Hrc [Hw Hb]. simpl in Hrc.
    destruct (get_cell_ok (board gs) r c Hwf Hrc) as [piece ->]. cbn [bind].
    destruct (negb (char_eqb piece EMPTY_SQUARE)); [| eauto].
    cbv zeta.
    destruct (color_is (get_piece_color piece) White);
      destruct (char_eqb (upper piece) "P");
      eexists; (split; [reflexivity |]); cbn [ea_wp ea_bp]; split; auto;
      apply Forall_app; split; auto.
  - simpl. split; constructor.
Qed.

Lemma blocked_at_ok (gs : GameState) (scan_r c : Z) (enemy : ascii) :
  wf_board (board gs) -> 0 <= scan_r < 6 -> 0 <= c < 6 ->
  exists b, blocked_at gs scan_r c enemy = Ok b.
Proof.
  intros Hwf Hr Hc. unfold blocked_at, BOARD_SIZE.
  destruct (cell_ok (board gs) scan_r c Hwf Hr Hc) as [a ->]. cbn [bind].
  destruct (char_eqb a enemy); [eauto |].
  destruct (Z.ltb_spec 0 c) as [H0|H0].
  - destruct (cell_ok (board gs) scan_r (c - 1) Hwf Hr) as [x ->]; [lia |]. cbn [bind].
    destruct (char_eqb x enemy); [eauto |].
    destruct (Z.ltb_spec c (6 - 1)) as [H1|H1]; [| eauto].
    destruct (cell_ok (board gs) scan_r (c + 1) Hwf Hr) as [y ->]; [lia |]. cbn [bind]. eauto.
  - cbn [bind].
    destruct (Z.ltb_spec c (6 - 1)) as [H1|H1]; [| eauto].
    destruct (cell_ok (board gs) scan_r (c + 1) Hwf Hr) as [y ->]; [lia |]. cbn [bind]. eauto.
Qed.

Lemma pawn_bonus_ok (gs : GameState) (white : bool) (rc : Square) :
  wf_board (board gs) -> is_on_board (fst rc) (snd rc) = true ->
  exists z, pawn_bonus gs white rc = Ok z.
Proof.
  intros Hwf Hrc. destruct rc as [r c]. simpl in Hrc.
  apply is_on_board_range in Hrc. destruct Hrc as [Hr Hc].
  unfold pawn_bonus, BOARD_SIZE.
  assert (Hl : exists l, (if 0 <? c
                          then x <- get_cell (board gs) r (c - 1) ;;
                               Ok (char_eqb x (if white then "P" else "p")%char)
                          else Ok false) = Ok l).
  { destruct (Z.ltb_spec 0 c); [| eauto].
    destruct (cell_ok (board gs) r (c - 1) Hwf Hr) as [x ->]; [lia |]. cbn [bind]. eauto. }
  destruct Hl as [l ->]. cbn [bind].
  assert (Hrt : exists rt, (if c <? 6 - 1
                            then x <- get_cell (board gs) r (c + 1) ;;
                                 Ok (char_eqb x (if white then "P" else "p")%char)
                            else Ok false) = Ok rt).
  { destruct (Z.ltb_spec c (6 - 1)); [| eauto].
    destruct (cell_ok (board gs) r (c + 1) Hwf Hr) as [x ->]; [lia |]. cbn [bind]. eauto. }
  destruct Hrt as [rt ->]. cbn [bind].
  destruct (existsM_ok
              (fun scan_r => blocked_at gs scan_r c (if white then "p" else "P")%char)
              (if white then rev (range 0 r) else range (r + 1) 6)
              (fun x => 0 <= x < 6)) as [b ->].
  - apply Forall_forall. intros x Hx.
    destruct white.
    + apply in_rev in Hx. apply range_bounds in Hx. lia.
    + apply range_bounds in Hx. lia.
  - intros x Hx. now apply blocked_at_ok.
  - cbn [bind]. eauto.
Qed.

Lemma pawn_sum_ok (gs : GameState) (white : bool) (l : list Square) :
  wf_board (board gs) ->
  Forall (fun rc => is_on_board (fst rc) (snd rc) = true) l ->
  exists z, foldM (fun acc rc => b <- pawn_bonus gs white rc ;; Ok (acc + b)) l 0 = Ok z.
Proof.
  intros Hwf Hl. eapply foldM_ok; [exact Hl |].
  intros acc rc Hrc. cbv beta in *.
  destruct (pawn_bonus_ok gs white rc Hwf Hrc) as [z ->]. cbn [bind]. eauto.
Qed.

Lemma range_Forall (a b : Z) : Forall (fun x => a <= x < b) (range a b).
Proof. apply Forall_forall. intros x Hx. now apply range_bounds. Qed.

Lemma undeveloped_ok (gs : GameState) (row : Z) (pieces : list ascii) :
  wf_board (board gs) -> 0 <= row < 6 -> exists z, undeveloped gs row pieces = Ok z.
Proof.
  intros Hwf Hrow. unfold undeveloped, BOARD_SIZE.
  eapply foldM_ok; [apply (range_Forall 0 6) |].
  intros acc c Hc. cbv beta in *.
  destruct (cell_ok (board gs) row c Hwf Hrow Hc) as [x ->]. cbn [bind]. eauto.
Qed.

Lemma attack_halves_ok (gs : GameState) (att : color) (kr kc : Z) :
  wf_board (board gs) -> exists z, attack_halves gs att kr kc = Ok z.
Proof.
  intro Hwf. unfold attack_halves.
  eapply (foldM_ok _ _ (fun _ => True)); [apply Forall_forall; auto |].
  intros acc [dr dc] _.
  destruct ((dr =? 0) && (dc =? 0)); [eauto |].
  cbv zeta.
  destruct (is_on_board (kr + dr) (kc + dc)); [| eauto].
  eapply foldM_ok; [exact all_squares_on_board |].
  intros acc2 [r c] Hrc. simpl in Hrc.
  destruct (get_cell_ok (board gs) r c Hwf Hrc) as [piece ->]. cbn [bind].
  destruct (negb (char_eqb piece EMPTY_SQUARE) && color_is (get_piece_color piece) att);
    [| eauto].
  cbv zeta.
  destruct (char_eqb (upper piece) "N"); [eauto |].
  destruct (char_eqb (upper piece) "B" || char_eqb (upper piece) "Q"); [eauto |].
  destruct (char_eqb (upper piece) "R" || char_eqb (upper piece) "Q"); eauto.
Qed.

Lemma full_evaluation_ok (gs : GameState) :
  wf_board (board gs) -> hands_have_upper gs -> exists z, full_evaluation gs = Ok z.
Proof.
  intros Hwf [Hw Hb]. unfold full_evaluation. cbv zeta.
  destruct (eval_board_ok gs (king_rc (king_of gs White)) (king_rc (king_of gs Black)) Hwf)
    as [a [-> [Hwp Hbp]]]. cbn [bind].
  destruct (hand_material_ok HAND_PIECE_VALUES _ Hw) as [wh ->]. cbn [bind].
  destruct (hand_material_ok PIECE_VALUES _ Hw) as [wt ->]. cbn [bind].
  destruct (hand_material_ok HAND_PIECE_VALUES _ Hb) as [bh ->]. cbn [bind].
  destruct (hand_material_ok PIECE_VALUES _ Hb) as [bt ->]. cbn [bind].
  destruct (pawn_sum_ok gs true (ea_wp a) Hwf Hwp) as [wp ->]. cbn [bind].
  destruct (pawn_sum_ok gs false (ea_bp a) Hwf Hbp) as [bp ->]. cbn [bind].
  match goal with
  | |- exists z, (s5 <- ?c ;; _) = Ok z =>
      assert (H5 : exists v, c = Ok v)
  end.
  { destruct (_ =? OPENING_PHASE); [| eauto].
    destruct (undeveloped_ok gs 5 ["N"; "B"; "R"]%char Hwf) as [wu ->]; [lia |].
    cbn [bind].
    destruct (undeveloped_ok gs 0 ["n"; "b"; "r"]%char Hwf) as [bu ->]; [lia |].
    cbn [bind]. eauto. }
  destruct H5 as [s5 ->]. cbn [bind].
  match goal with
  | |- exists z, (s6 <- ?c ;; _) = Ok z =>
      assert (H6 : exists v, c = Ok v)
  end.
  { destruct (negb _ && negb _); [| eauto].
    destruct (attack_halves_ok gs White (fst (king_rc (king_of gs Black)))
                (snd (king_rc (king_of gs Black))) Hwf) as [wa ->]. cbn [bind].
    destruct (attack_halves_ok gs Black (fst (king_rc (king_of gs White)))
                (snd (king_rc (king_of gs White))) Hwf) as [ba ->]. cbn [bind]. eauto. }
  destruct H6 as [s6 ->]. cbn [bind]. eauto.
Qed.




(* ------------------------------------------------------------------ *)
(** ** Pieces are conserved *)





Lemma row_count_replace (row : list ascii) (n : nat) (old x : ascii) :
  nth_error row n = Some old ->
  row_count (replace_nth row n x) = row_count row - occ old + occ x.
Proof.
  revert n. induction row as [|c row IH]; intros [|n] H; simpl in *; try discriminate.
  - inversion H; subst. lia.
  - rewrite (IH n H). lia.
Qed.

Lemma board_count_replace (b : list (list ascii)) (n : nat) (row row' : list ascii) :
  nth_error b n = Some row ->
  board_count (replace_nth b n row') = board_count b - row_count row + row_count row'.
Proof.
  revert n. induction b as [|r0 b IH]; intros [|n] H; simpl in *; try discriminate.
  - inversion H; subst. lia.
  - rewrite (IH n H). lia.
Qed.

Lemma set_cell_count (b b' : list (list ascii)) (r f : Z) (old x : ascii) :
  get_cell b r f = Ok old -> set_cell b r f x = Ok b' ->
  board_count b' = board_count b - occ old + occ x.
Proof.
  unfold get_cell. intros Hg Hs.
  apply bind_Ok in Hg. destruct Hg as [row [Hr Hg]].
  apply set_cell_Ok in Hs. destruct Hs as [row0 [row' [Hr0 [Hs1 Hs2]]]].
  rewrite Hr in Hr0. inversion Hr0. subst row0.
  apply py_index_Ok in Hr. destruct Hr as [_ Hr].
  apply py_index_Ok in Hg. destruct Hg as [_ Hg].
  apply py_setitem_Ok in Hs1. destruct Hs1 as [_ ->].
  apply py_setitem_Ok in Hs2. destruct Hs2 as [_ ->].
  rewrite (board_count_replace _ _ _ _ Hr), (row_count_replace _ _ _ _ Hg). lia.
Qed.

Lemma py_index_nonneg {A : Type} (l : list A) (i : Z) :
  0 <= i ->
  py_index l i = match nth_error l (Z.to_nat i) with
                 | Some x => Ok x
                 | None => Raise IndexError
                 end.
Proof.
  intro H. unfold py_index.
  destruct (Z.ltb_spec i 0); [lia |].
  destruct (Z.ltb_spec i 0); [lia |]. cbn [orb].
  destruct (Z.leb_spec (Z.of_nat (List.length l)) i) as [Hge|Hlt]; [| reflexivity].
  assert (Hn : nth_error l (Z.to_nat i) = None) by (apply nth_error_None; lia).
  now rewrite Hn.
Qed.

Lemma get_cell_set_cell_other (b b1 : list (list ascii)) (r1 f1 r2 f2 : Z) (x : ascii) :
  is_on_board r1 f1 = true -> is_on_board r2 f2 = true ->
  (r1, f1) <> (r2, f2) ->
  set_cell b r1 f1 x = Ok b1 ->
  get_cell b1 r2 f2 = get_cell b r2 f2.
Proof.
  intros H1 H2 Hne Hs.
  apply is_on_board_range in H1, H2. destruct H1 as [Hr1 Hf1], H2 as [Hr2 Hf2].
  apply set_cell_Ok in Hs. destruct Hs as [row [row' [Hr [Hs1 Hs2]]]].
  apply py_index_Ok in Hr. destruct Hr as [Hb Hr].
  apply py_setitem_Ok in Hs1. destruct Hs1 as [Hb1 ->].
  apply py_setitem_Ok in Hs2. destruct Hs2 as [Hb2 ->].
  unfold norm_index in *.
  destruct (Z.ltb_spec r1 0); [lia |]. destruct (Z.ltb_spec f1 0); [lia |].
  unfold get_cell. rewrite !(py_index_nonneg _ r2) by lia.
  destruct (Z.eq_dec r1 r2) as [Er|Er].
  - subst r2. rewrite nth_error_replace_nth_same by lia. rewrite Hr. cbn [bind].
    rewrite !(py_index_nonneg _ f2) by lia.
    rewrite nth_error_replace_nth_other; [reflexivity |].
    intro E. apply Hne. f_equal. lia.
  - rewrite nth_error_replace_nth_other; [reflexivity |]. lia.
Qed.

Lemma hand_count_acc (h : hand) (a : Z) :
  fold_left (fun acc (kv : hand_key * Z) => acc + snd kv) h a
  = a + fold_left (fun acc (kv : hand_key * Z) => acc + snd kv) h 0.
Proof.
  revert a. induction h as [|kv h IH]; intro a; simpl; [lia |].
  rewrite (IH (a + snd kv)), (IH (snd kv)). lia.
Qed.

Lemma hand_count_cons (kv : hand_key * Z) (h : hand) :
  hand_count (kv :: h) = snd kv + hand_count h.
Proof. unfold hand_count. simpl. rewrite hand_count_acc. lia. Qed.

Lemma hand_count_set (h : hand) (k : hand_key) (v : Z) :
  hand_count (hand_set h k v) = hand_count h - hand_get h k 0 + v.
Proof.
  induction h as [|[k0 v0] h IH]; simpl.
  - unfold hand_count. simpl. lia.
  - destruct (hand_key_eqb k k0); rewrite !hand_count_cons; simpl; [lia |].
    rewrite IH. lia.
Qed.

Lemma hand_count_ensure (keys : list ascii) (h : hand) :
  hand_count (fold_left (fun acc p => if hand_mem acc (HStr (str1 p)) then acc
                                      else hand_set acc (HStr (str1 p)) 0) keys h)
  = hand_count h.
Proof.
  revert h. induction keys as [|p keys IH]; intro h; simpl; [reflexivity |].
  rewrite IH. destruct (hand_mem h (HStr (str1 p))) eqn:E; [reflexivity |].
  rewrite hand_count_set, (hand_get_absent _ _ 0 E). lia.
Qed.

Lemma add_captured_count (h : hand) (t : ascii) :
  hand_count (add_captured h t) = hand_count h + 1.
Proof.
  unfold add_captured. rewrite hand_count_set, hand_count_ensure. lia.
Qed.

Lemma pieces_total_same_position (gs gs' : GameState) :
  same_position gs gs' -> pieces_total gs' = pieces_total gs.
Proof.
  intros [Hb [_ [Hh _]]]. unfold pieces_total, hand_of. now rewrite Hb, Hh.
Qed.

Lemma occ_upper (t : ascii) : occ (upper t) = occ t.
Proof. destruct t as [[] [] [] [] [] [] [] []]; reflexivity. Qed.

Lemma occ_lower (t : ascii) : occ (lower t) = occ t.
Proof. destruct t as [[] [] [] [] [] [] [] []]; reflexivity. Qed.

Lemma occ_prom_piece (c : color) (p : ascii) :
  existsb (char_eqb p) (prom_pieces c) = true -> occ p = 1.
Proof.
  intro H. apply existsb_exists in H. destruct H as [x [Hx Hp]].
  apply char_eqb_eq in Hp. subst x.
  destruct c; simpl in Hx; destruct Hx as [<- | [<- | [<- | []]]]; reflexivity.
Qed.


Lemma make_move_body_normal_total (gs : GameState) (r1 f1 r2 f2 : Z)
    (p : option ascii) (t : ascii) (e : move_exit) :
  is_on_board r1 f1 = true -> is_on_board r2 f2 = true ->
  (r1, f1) <> (r2, f2) ->
  get_cell (board gs) r2 f2 = Ok t ->
  make_move_body gs (NormalMove (r1, f1) (r2, f2) p) = Ok e ->
  match e with
  | Rejected _ => True
  | Pending g | Finalised g => pieces_total g = pieces_total gs - king_lost t
  end.
Proof.
  intros H1 H2 Hne Ht. unfold make_move_body.
  change (needs_promotion_choice (set_cache gs None)) with (needs_promotion_choice gs).
  change (board (set_cache gs None)) with (board gs).
  destruct (needs_promotion_choice gs); [intro H; inversion H; exact I |].
  intro H. apply bind_Ok in H. destruct H as [piece [Hpiece H]].
  destruct (char_eqb piece EMPTY_SQUARE) eqn:Ep; [inversion H; exact I |].
  set (mc := if isupper piece then White else Black) in *.
  destruct (negb (color_eqb mc (current_turn (set_cache gs None))));
    [inversion H; exact I |].
  rewrite Ht in H. cbn [bind] in H.
  apply bind_Ok in H. destruct H as [b1 [Hb1 H]].
  pose proof (set_cell_count _ _ _ _ _ _ Hpiece Hb1) as Hc1.
  pose proof (get_cell_set_cell_other _ _ _ _ _ _ _ H1 H2 Hne Hb1) as Hg2.
  rewrite Ht in Hg2.
  assert (Hop : occ piece = 1) by (unfold occ; now rewrite Ep).
  assert (Hoe : occ EMPTY_SQUARE = 0) by reflexivity.
  cbv zeta in H.
  assert (Hfinal : forall (x : ascii) (b2 : list (list ascii)) (g : GameState),
             occ x = 1 ->
             set_cell b1 r2 f2 x = Ok b2 ->
             board g = b2 ->
             hands g = hands (if negb (char_eqb t EMPTY_SQUARE) &&
                                 negb (char_eqb (upper t) "K")
                              then set_hand_of (set_board (set_cache gs None) b1) mc
                                     (add_captured
                                        (hand_of (set_board (set_cache gs None) b1) mc)
                                        (upper t))
                              else set_board (set_cache gs None) b1) ->
             pieces_total g = pieces_total gs - king_lost t).
  { intros x b2 g Hx Hb2 Hbg Hhg.
    pose proof (set_cell_count _ _ _ _ _ _ Hg2 Hb2) as Hc2.
    unfold pieces_total, hand_of, king_lost. rewrite Hbg, Hhg, Hc2, Hc1, Hop, Hoe, Hx.
    unfold occ. destruct (char_eqb t EMPTY_SQUARE) eqn:Et; cbn [negb andb].
    - simpl. lia.
    - destruct (char_eqb (upper t) "K"); cbn [negb].
      + simpl. lia.
      + destruct mc; simpl; rewrite add_captured_count; lia. }
  destruct (char_eqb (upper piece) "P" && (r2 =? promotion_rank mc)).
  - destruct p as [choice|].
    + destruct (existsb (char_eqb choice) (prom_pieces mc)) eqn:Ex; cbn [negb] in H.
      * apply bind_Ok in H. destruct H as [b2 [Hb2 H]]. inversion H; subst e.
        assert (Hb2' : set_cell b1 r2 f2 choice = Ok b2).
        { revert Hb2.
          destruct (negb (char_eqb t EMPTY_SQUARE) && negb (char_eqb (upper t) "K"));
            destruct (char_eqb (upper piece) "K"); destruct mc; simpl; auto. }
        apply (Hfinal choice b2); [eapply occ_prom_piece; eauto | exact Hb2' | |].
        -- destruct (negb (char_eqb t EMPTY_SQUARE) && negb (char_eqb (upper t) "K"));
             destruct (char_eqb (upper piece) "K"); destruct mc; reflexivity.
        -- destruct (negb (char_eqb t EMPTY_SQUARE) && negb (char_eqb (upper t) "K"));
             destruct (char_eqb (upper piece) "K"); destruct mc; reflexivity.
      * apply bind_Ok in H. destruct H as [b2 [_ H]]. inversion H. exact I.
    + apply bind_Ok in H. destruct H as [b2 [Hb2 H]]. inversion H; subst e.
      assert (Hb2' : set_cell b1 r2 f2 piece = Ok b2).
      { revert Hb2.
        destruct (negb (char_eqb t EMPTY_SQUARE) && negb (char_eqb (upper t) "K"));
          destruct (char_eqb (upper piece) "K"); destruct mc; simpl; auto. }
      apply (Hfinal piece b2); [exact Hop | exact Hb2' | |].
      * destruct (negb (char_eqb t EMPTY_SQUARE) && negb (char_eqb (upper t) "K"));
          destruct (char_eqb (upper piece) "K"); destruct mc; reflexivity.
      * destruct (negb (char_eqb t EMPTY_SQUARE) && negb (char_eqb (upper t) "K"));
          destruct (char_eqb (upper piece) "K"); destruct mc; reflexivity.
  - apply bind_Ok in H. destruct H as [b2 [Hb2 H]]. inversion H; subst e.
    assert (Hb2' : set_cell b1 r2 f2 piece = Ok b2).
    { revert Hb2.
      destruct (negb (char_eqb t EMPTY_SQUARE) && negb (char_eqb (upper t) "K"));
        destruct (char_eqb (upper piece) "K"); destruct mc; simpl; auto. }
    apply (Hfinal piece b2); [exact Hop | exact Hb2' | |].
    + destruct (negb (char_eqb t EMPTY_SQUARE) && negb (char_eqb (upper t) "K"));
        destruct (char_eqb (upper piece) "K"); destruct mc; reflexivity.
    + destruct (negb (char_eqb t EMPTY_SQUARE) && negb (char_eqb (upper t) "K"));
        destruct (char_eqb (upper piece) "K"); destruct mc; reflexivity.
Qed.

Lemma make_move_body_drop_total (gs : GameState) (code : string) (r f : Z)
    (e : move_exit) :
  (forall t, str_index code 1 = Ok t -> t <> EMPTY_SQUARE) ->
  make_move_body gs (DropMove code (r, f)) = Ok e ->
  match e with
  | Rejected _ => True
  | Pending g | Finalised g => pieces_total g = pieces_total gs
  end.
Proof.
  intros Hcode. unfold make_move_body.
  change (needs_promotion_choice (set_cache gs None)) with (needs_promotion_choice gs).
  change (board (set_cache gs None)) with (board gs).
  destruct (needs_promotion_choice gs); [intro H; inversion H; exact I |].
  intro H. apply bind_Ok in H. destruct H as [col [_ H]].
  apply bind_Ok in H. destruct H as [pt [Hpt H]].
  apply bind_Ok in H. destruct H as [target [Htarget H]].
  destruct (char_eqb target EMPTY_SQUARE) eqn:Et; cbn [negb] in H;
    [| inversion H; exact I].
  repeat match type of H with
         | (if ?c then _ else _) = _ => destruct c; [inversion H; exact I |]
         end.
  cbv zeta in H. apply bind_Ok in H. destruct H as [b' [Hb' H]]. inversion H; subst e.
  pose proof (set_cell_count _ _ _ _ _ _ Htarget Hb') as Hc.
  assert (Hot : occ target = 0) by (unfold occ; now rewrite Et).
  assert (Hop : occ (if char_eqb col "w" then upper pt else lower pt) = 1).
  { specialize (Hcode pt Hpt).
    assert (Ho : occ pt = 1).
    { unfold occ. destruct (char_eqb pt EMPTY_SQUARE) eqn:E; [| reflexivity].
      apply char_eqb_eq in E. contradiction. }
    destruct (char_eqb col "w"); [now rewrite occ_upper | now rewrite occ_lower]. }
  unfold pieces_total.
  destruct (current_turn gs) eqn:Etn; simpl; rewrite ?Etn; simpl;
    rewrite Hc, Hot, Hop, hand_count_set; lia.
Qed.

(** X14.  Pieces are conserved.  An accepted board move between two different
    squares of the board keeps the number of pieces on the board and in the
    hands together, except that a captured king leaves the game (any other
    captured piece is counted in a hand from then on); an accepted drop of
    a piece keeps it as well. *)
Theorem make_move_conserves_pieces :
  forall (gs gs' : GameState) (move : Move) (chk : bool),
    make_move gs move chk = Ok (true, gs') ->
    match move with
    | NormalMove (r1, f1) (r2, f2) _ =>
        is_on_board r1 f1 = true -> is_on_board r2 f2 = true ->
        (r1, f1) <> (r2, f2) ->
        forall t, get_cell (board gs) r2 f2 = Ok t ->
                  pieces_total gs' = pieces_total gs - king_lost t
    | DropMove code _ =>
        (forall t, str_index code 1 = Ok t -> t <> EMPTY_SQUARE) ->
        pieces_total gs' = pieces_total gs
    end.
Proof.
  intros gs gs' move chk H.
  apply make_move_exits in H. destruct H as [e [He H]].
  assert (Hexit : forall n, match e with
                            | Rejected _ => True
                            | Pending g | Finalised g => pieces_total g = n
                            end -> pieces_total gs' = n).
  { intros n Hn. destruct e as [g|g|g]; destruct H as [Hm H]; try discriminate.
    - now subst.
    - destruct H as [-> | [b [_ Hc]]]; [exact Hn |].
      apply check_game_over_same_position in Hc.
      now rewrite (pieces_total_same_position _ _ Hc). }
  destruct move as [[r1 f1] [r2 f2] p | code [r f]].
  - intros H1 H2 Hne t Ht. apply Hexit.
    exact (make_move_body_normal_total gs r1 f1 r2 f2 p t e H1 H2 Hne Ht He).
  - intros Hcode. apply Hexit.
    exact (make_move_body_drop_total gs code r f e Hcode He).
Qed.

Lemma make_move_conserves_pieces_witness :
  exists gs',
    make_move promotion_position (NormalMove (5, 1) (0, 1) None) false = Ok (true, gs') /\
    pieces_total gs' = pieces_total promotion_position - king_lost "n".
Proof.
  assert (Hrun : exists gs',
            make_move promotion_position (NormalMove (5, 1) (0, 1) None) false
            = Ok (true, gs'))
    by (eexists; vm_compute; reflexivity).
  destruct Hrun as [gs' Hrun]. exists gs'. split; [exact Hrun |].
  assert (Hne : (5, 1) <> (0, 1)) by discriminate.
  exact (make_move_conserves_pieces promotion_position gs' _ false Hrun
           eq_refl eq_refl Hne "n"%char eq_refl).
Defined.


(* ------------------------------------------------------------------ *)
(** ** minimax_alpha_beta terminates *)

Lemma ff_move_order_score (gs : GameState) (t : Tables) (tt_best : option Move)
    (killers : list Move) (move : Move) :
  fuel_free (move_order_score gs t tt_best killers move).
Proof.
  unfold move_order_score.
  destruct (match tt_best with Some b => Move_eqb move b | None => false end);
    [apply ff_Ok |].
  destruct (move_in move killers); [apply ff_Ok | apply ff_mvv_lva_score].
Qed.

Lemma ab_loop_terminates
    (rec : GameState -> score -> score -> Tables -> outcome (score * Tables))
    (maximizing : bool) (depth : Z) (gs : GameState) (moves : list Move) :
  (forall ns a b t, fuel_free (rec ns a b t)) ->
  forall st t, fuel_free (ab_loop rec maximizing depth gs moves st t).
Proof.
  intro Hrec. induction moves as [|m rest IH]; intros st t; simpl; [apply ff_Ok |].
  apply ff_bind; [apply ff_child_state | intros [ns|]; [| apply IH]].
  apply ff_bind; [apply Hrec | intros [e t1]].
  destruct (ab_update maximizing depth m e st t1) as [[stop st'] t2].
  destruct stop; [apply ff_Ok | apply IH].
Qed.

Lemma ab_expand_terminates
    (rec : GameState -> score -> score -> Tables -> outcome (score * Tables))
    (gs : GameState) (pos_hash : string) (e : option tt_entry) (legal : list Move)
    (depth : Z) (alpha beta : score) (maximizing : bool) (t : Tables) :
  (forall ns a b t0, fuel_free (rec ns a b t0)) ->
  fuel_free (ab_expand rec gs pos_hash e legal depth alpha beta maximizing t).
Proof.
  intro Hrec. unfold ab_expand. cbv zeta.
  apply ff_bind; [apply ff_sort_moves; intro; apply ff_move_order_score | intro sorted].
  apply ff_bind; [now apply ab_loop_terminates | intros [st t1]; apply ff_Ok].
Qed.

(** X15.  The recursion of [minimax_alpha_beta] is bounded by the requested
    depth: for [depth >= 0] a call stack of [depth + 6] frames is enough,
    [depth] for the plies and the rest for the quiescence search at the
    leaves. *)
Theorem minimax_alpha_beta_terminates :
  forall (fuel : nat) (gs : GameState) (depth : Z) (alpha beta : score)
         (maximizing : bool) (t : Tables),
    0 <= depth -> (Z.to_nat depth + 5 < fuel)%nat ->
    fuel_free (minimax_alpha_beta fuel gs depth alpha beta maximizing t).
Proof.
  induction fuel as [|fuel IH]; intros gs depth alpha beta maximizing t Hd Hf; [lia |].
  simpl.
  destruct (Z.eqb_spec depth 0) as [E0|E0].
  - cbn [orb]. apply ff_bind; [| intros [q g]; apply ff_Ok].
    apply quiescence_search_terminates; unfold MAX_QUIESCENCE_DEPTH; lia.
  - cbn [orb].
    destruct (checkmate gs || stalemate gs).
    + apply ff_bind; [| intros [q g]; apply ff_Ok].
      apply quiescence_search_terminates; unfold MAX_QUIESCENCE_DEPTH; lia.
    + apply ff_bind; [apply ff_get_all_legal_moves | intros [legal gs1]].
      assert (Hrec : forall ns a b t0,
                 fuel_free ('(r, _, t') <- minimax_alpha_beta fuel ns (depth - 1) a b
                                            (negb maximizing) t0 ;;
                            Ok (fst r, t'))).
      { intros ns a b t0. apply ff_bind; [| intros [[r g] t']; apply ff_Ok].
        apply IH; lia. }
      destruct legal as [|m ms].
      * apply ff_bind; [apply ff_evaluate_position | intro; apply ff_Ok].
      * cbv zeta.
        destruct (tt_get t (get_position_hash gs)) as [e|];
          [| now apply ab_expand_terminates].
        destruct (depth <=? te_depth e); [| now apply ab_expand_terminates].
        destruct (te_flag e); [apply ff_Ok | |];
          (destruct (score_leb _ _); [apply ff_Ok | now apply ab_expand_terminates]).
Qed.

Lemma minimax_alpha_beta_terminates_witness :
  fuel_free (minimax_alpha_beta 7 initial_state 1 NegInf PosInf true empty_tables).
Proof.
  apply minimax_alpha_beta_terminates; [lia | simpl; lia].
Defined.

(* ------------------------------------------------------------------ *)
(** ** The legal-move cache *)

(** X16.  [get_all_legal_moves] computes once: asked again, the state object
    answers with the same list and is left as it is, and [make_move]
    without the game-over check always leaves the cache empty, so the moves
    of the new position are computed afresh. *)
Theorem legal_moves_cache_coherent :
  forall (gs gs1 : GameState) (l : list Move),
    get_all_legal_moves gs = Ok (l, gs1) ->
    get_all_legal_moves gs1 = Ok (l, gs1) /\
    _all_legal_moves_cache gs1 = Some l /\
    (forall move made g, make_move gs1 move false = Ok (made, g) ->
                         _all_legal_moves_cache g = None).
Proof.
  intros gs gs1 l H.
  pose proof (get_all_legal_moves_frame _ _ _ H) as Hf.
  split; [now apply get_all_legal_moves_again in H |].
  split; [subst gs1; reflexivity |].
  intros move made g Hm. apply make_move_exits in Hm. destruct Hm as [e [He Hm]].
  destruct e as [x|x|x]; destruct Hm as [_ Hm].
  - subst x. apply make_move_body_rejected in He. apply He.
  - subst x. apply make_move_body_pending in He.
    destruct He as [src [dst He]]. apply He.
  - destruct Hm as [-> | [b [Hb _]]]; [| discriminate].
    apply make_move_body_finalised in He. apply He.
Qed.

Lemma legal_moves_cache_coherent_witness :
  get_all_legal_moves (set_cache initial_state (Some initial_moves))
  = Ok (initial_moves, set_cache initial_state (Some initial_moves)) /\
  _all_legal_moves_cache (set_cache initial_state (Some initial_moves))
  = Some initial_moves.
Proof.
  assert (Hg : get_all_legal_moves initial_state
               = Ok (initial_moves, set_cache initial_state (Some initial_moves)))
    by (vm_compute; reflexivity).
  destruct (legal_moves_cache_coherent initial_state _ initial_moves Hg)
    as [H1 [H2 _]].
  split; assumption.
Defined.

(* ------------------------------------------------------------------ *)
(** ** Every legal move can be ordered *)

Lemma generated_on_board (gs : GameState) (c : color) (m : Move) :
  generated_ok gs c m -> move_on_board m.
Proof.
  destruct m as [[r1 f1] [r2 f2] p | code [r f]]; simpl; [| auto].
  intros [H1 [H2 _]]. auto.
Qed.

(** X17.  On a well-formed board the moves that [get_all_legal_moves] computes
    can always be ordered: [mvv_lva_score] gives each of them a number, so
    sorting them by it succeeds and returns the same moves in some
    order. *)
Theorem legal_moves_can_be_ordered :
  forall (gs gs' : GameState) (l : list Move) (t : Tables),
    wf_board (board gs) ->
    _all_legal_moves_cache gs = None ->
    get_all_legal_moves gs = Ok (l, gs') ->
    exists sorted,
      sort_moves (fun m => mvv_lva_score gs' t (py_of_move m)) l = Ok sorted /\
      Permutation l sorted.
Proof.
  intros gs gs' l t Hwf Hc Hg.
  assert (Hok : Forall (generated_ok gs (current_turn gs)) l).
  { revert Hg. unfold get_all_legal_moves. rewrite Hc.
    destruct (needs_promotion_choice gs); [intro H; inversion H; constructor |].
    intro H. apply bind_Ok in H. destruct H as [pseudo [Hps H]].
    apply bind_Ok in H. destruct H as [legal [Hlg H]]. inversion H; subst.
    eapply filterM_Forall; [exact Hlg |]. now apply generate_all_ok. }
  apply get_all_legal_moves_frame in Hg. subst gs'.
  assert (Hkeys : exists keys,
             mapM (fun m => mvv_lva_score (set_cache gs (Some l)) t (py_of_move m)) l
             = Ok keys).
  { eapply mapM_ok; [exact Hok |].
    intros m Hm. apply mvv_lva_move_ok; [exact Hwf |].
    eapply generated_on_board; eauto. }
  destruct Hkeys as [keys Hkeys].
  unfold sort_moves. rewrite Hkeys. cbn [bind].
  eexists. split; [reflexivity |].
  apply mapM_length in Hkeys.
  rewrite <- (map_snd_combine keys l Hkeys) at 1.
  apply Permutation_map. apply sort_desc_perm.
Qed.

Lemma legal_moves_can_be_ordered_witness :
  exists sorted,
    sort_moves (fun m => mvv_lva_score (set_cache initial_state (Some initial_moves))
                           empty_tables (py_of_move m)) initial_moves
    = Ok sorted /\
    Permutation initial_moves sorted.
Proof.
  assert (Hg : get_all_legal_moves initial_state
               = Ok (initial_moves, set_cache initial_state (Some initial_moves)))
    by (vm_compute; reflexivity).
  exact (legal_moves_can_be_ordered initial_state _ initial_moves empty_tables
           initial_board_wf eq_refl Hg).
Defined.


(* ------------------------------------------------------------------ *)
(** ** get_all_legal_moves returns on every well-formed state *)


Lemma py_setitem_ok {A : Type} (l : list A) (i : Z) (x : A) :
  0 <= i < Z.of_nat (List.length l) -> exists l', py_setitem l i x = Ok l'.
Proof.
  intro H. unfold py_setitem.
  destruct (Z.ltb_spec i 0); [lia |].
  destruct (Z.ltb_spec i 0); [lia |].
  destruct (Z.leb_spec (Z.of_nat (List.length l)) i); [lia |]. simpl. eauto.
Qed.

Lemma set_cell_ok (b : list (list ascii)) (r f : Z) (x : ascii) :
  wf_board b -> is_on_board r f = true -> exists b', set_cell b r f x = Ok b'.
Proof.
  intros [Hlen Hrows] Hon. apply is_on_board_range in Hon. destruct Hon as [Hr Hf].
  unfold set_cell.
  destruct (py_index_ok b r) as [row Hrow]; [lia |].
  rewrite Hrow. cbn [bind].
  pose proof (py_index_In _ _ _ Hrow) as Hin.
  rewrite Forall_forall in Hrows. specialize (Hrows _ Hin).
  destruct (py_setitem_ok row f x) as [row' ->]; [lia |]. cbn [bind].
  apply py_setitem_ok. lia.
Qed.

Lemma concatM_ok {A B : Type} (f : A -> outcome (list B)) (l : list A) (P : A -> Prop) :
  Forall P l -> (forall x, P x -> exists y, f x = Ok y) -> exists r, concatM f l = Ok r.
Proof.
  intros HP Hf. unfold concatM.
  destruct (mapM_ok f l P HP Hf) as [ls ->]. cbn [bind]. eauto.
Qed.

Lemma Forall_True {A : Type} (l : list A) : Forall (fun _ => True) l.
Proof. apply Forall_forall. auto. Qed.

Lemma filterM_ok {A : Type} (f : A -> outcome bool) (l : list A) (P : A -> Prop) :
  Forall P l -> (forall x, P x -> exists b, f x = Ok b) -> exists r, filterM f l = Ok r.
Proof.
  intros HP Hf. induction HP as [|x l Hx _ [r IH]]; simpl; [eauto |].
  destruct (Hf x Hx) as [b ->]. cbn [bind]. rewrite IH. cbn [bind]. eauto.
Qed.

Section Generators.

Variable gs : GameState.
Hypothesis Hwf : wf_board (board gs).

Lemma get_pawn_moves_total (r f : Z) (c : color) :
  exists l, get_pawn_moves gs r f c = Ok l.
Proof.
  unfold get_pawn_moves. cbv zeta.
  match goal with
  | |- exists l, (fw <- ?x ;; _) = Ok l => assert (Hfw : exists v, x = Ok v)
  end.
  { match goal with |- exists v, (if ?b then _ else _) = _ => destruct b eqn:Hb end;
      [| eauto].
    destruct (get_cell_ok (board gs) _ _ Hwf Hb) as [t ->]. cbn [bind]. eauto. }
  destruct Hfw as [fw ->]. cbn [bind].
  destruct (concatM_ok
              (fun df =>
                 if is_on_board (r + match c with White => -1 | Black => 1 end) (f + df)
                 then t <- get_cell (board gs)
                             (r + match c with White => -1 | Black => 1 end) (f + df) ;;
                      Ok (if negb (char_eqb t EMPTY_SQUARE) &&
                             negb (color_is (get_piece_color t) c)
                          then pawn_step r f
                                 (r + match c with White => -1 | Black => 1 end)
                                 (f + df) c
                          else [])
                 else Ok []) [-1; 1] (fun _ => True)) as [cp Hcp].
  - apply Forall_True.
  - intros df _.
    match goal with |- exists v, (if ?b then _ else _) = _ => destruct b eqn:Hb end;
      [| eauto].
    destruct (get_cell_ok (board gs) _ _ Hwf Hb) as [t ->]. cbn [bind]. eauto.
  - rewrite Hcp. cbn [bind]. eauto.
Qed.

Lemma get_step_moves_total (r f : Z) (c : color) (steps : list (Z * Z)) :
  exists l, get_step_moves gs r f c steps = Ok l.
Proof.
  unfold get_step_moves. apply (concatM_ok _ steps (fun _ => True)); [apply Forall_True |].
  intros d _. cbv zeta.
  destruct (is_on_board (r + fst d) (f + snd d)) eqn:Hb; [| eauto].
  destruct (get_cell_ok (board gs) _ _ Hwf Hb) as [t ->]. cbn [bind]. eauto.
Qed.

Lemma slide_total (r f : Z) (c : color) (dr df : Z) (n : nat) :
  forall nr nf, exists l, slide n (board gs) r f c nr nf dr df = Ok l.
Proof.
  induction n as [|n IH]; intros nr nf; simpl; [eauto |].
  destruct (is_on_board nr nf) eqn:Hb; [| eauto].
  destruct (get_cell_ok (board gs) _ _ Hwf Hb) as [t ->]. cbn [bind].
  destruct (char_eqb t EMPTY_SQUARE).
  - destruct (IH (nr + dr) (nf + df)) as [rest ->]. cbn [bind]. eauto.
  - destruct (negb (color_is (get_piece_color t) c)); eauto.
Qed.

Lemma get_sliding_moves_total (r f : Z) (c : color) (directions : list (Z * Z)) :
  exists l, get_sliding_moves gs r f c directions = Ok l.
Proof.
  unfold get_sliding_moves.
  apply (concatM_ok _ directions (fun _ => True)); [apply Forall_True |].
  intros d _. apply slide_total.
Qed.

Lemma drops_of_entry_total (c : color) (kv : hand_key * Z) :
  (0 < snd kv -> exists a s, fst kv = HStr (String a s)) ->
  exists l, drops_of_entry gs c kv = Ok l.
Proof.
  intro Hk. unfold drops_of_entry. destruct kv as [k n]. simpl in Hk.
  destruct (Z.ltb_spec 0 n) as [Hn|Hn]; [| eauto].
  destruct (Hk Hn) as [a [s ->]].
  apply (concatM_ok _ _ (fun r => 0 <= r < BOARD_SIZE)); [apply range_Forall |].
  intros r Hr. cbv beta.
  destruct (String.eqb (String a s) "P" && (r =? promotion_rank c)); [eauto |].
  apply (concatM_ok _ _ (fun f => 0 <= f < BOARD_SIZE)); [apply range_Forall |].
  intros f Hf. cbv beta.
  destruct (cell_ok (board gs) r f Hwf Hr Hf) as [t ->]. cbn [bind]. eauto.
Qed.

Lemma generate_all_total (c : color) :
  hand_keys_ok (hand_of gs c) ->
  exists l, generate_all_pseudo_legal_moves gs c = Ok l.
Proof.
  intro Hh. unfold generate_all_pseudo_legal_moves.
  match goal with
  | |- exists l, (bm <- concatM ?f ?sq ;; _) = Ok l =>
      destruct (concatM_ok f sq (fun rc => is_on_board (fst rc) (snd rc) = true))
        as [bm Hbm]
  end.
  - exact all_squares_on_board.
  - intros [r f] Hrf. simpl in Hrf. cbv beta iota.
    destruct (get_cell_ok (board gs) r f Hwf Hrf) as [piece ->]. cbn [bind].
    destruct (negb (char_eqb piece EMPTY_SQUARE) && color_is (get_piece_color piece) c);
      [| eauto].
    cbv zeta.
    destruct (char_eqb (upper piece) "P"); [apply get_pawn_moves_total |].
    destruct (char_eqb (upper piece) "N"); [apply get_step_moves_total |].
    destruct (char_eqb (upper piece) "B"); [apply get_sliding_moves_total |].
    destruct (char_eqb (upper piece) "R"); [apply get_sliding_moves_total |].
    destruct (char_eqb (upper piece) "Q"); [apply get_sliding_moves_total |].
    destruct (char_eqb (upper piece) "K"); [apply get_step_moves_total | eauto].
  - rewrite Hbm. cbn [bind].
    destruct (concatM_ok (drops_of_entry gs c) (hand_of gs c)
                (fun kv => 0 < snd kv -> exists a s, fst kv = HStr (String a s)))
      as [dm ->]; [exact Hh | intros kv Hkv; now apply drops_of_entry_total |].
    cbn [bind]. eauto.
Qed.

End Generators.

Lemma make_move_body_total (gs : GameState) (m : Move) :
  wf_board (board gs) ->
  match m with
  | NormalMove (r1, f1) (r2, f2) _ =>
      is_on_board r1 f1 = true /\ is_on_board r2 f2 = true
  | DropMove code (r, f) =>
      is_on_board r f = true /\ exists a b s, code = String a (String b s)
  end ->
  exists e, make_move_body gs m = Ok e.
Proof.
  intros Hwf Hm. unfold make_move_body.
  change (needs_promotion_choice (set_cache gs None)) with (needs_promotion_choice gs).
  change (board (set_cache gs None)) with (board gs).
  destruct (needs_promotion_choice gs); [eauto |].
  destruct m as [[r1 f1] [r2 f2] p | code [r f]].
  - destruct Hm as [H1 H2].
    destruct (get_cell_ok (board gs) r1 f1 Hwf H1) as [piece ->]. cbn [bind].
    destruct (char_eqb piece EMPTY_SQUARE); [eauto |].
    set (mc := if isupper piece then White else Black).
    destruct (negb (color_eqb mc (current_turn (set_cache gs None)))); [eauto |].
    destruct (get_cell_ok (board gs) r2 f2 Hwf H2) as [t ->]. cbn [bind].
    destruct (set_cell_ok (board gs) r1 f1 EMPTY_SQUARE Hwf H1) as [b1 Hb1].
    rewrite Hb1. cbn [bind]. cbv zeta.
    pose proof (set_cell_wf _ _ _ _ _ Hwf Hb1) as Hwf1.
    assert (Hset : forall (g : GameState) (rr ff : Z) (x : ascii) (k : list (list ascii) -> outcome move_exit),
               board g = b1 -> is_on_board rr ff = true ->
               (forall b2, exists e, k b2 = Ok e) ->
               exists e, (b2 <- set_cell (board g) rr ff x ;; k b2) = Ok e).
    { intros g rr ff x k Hg Hon Hk. rewrite Hg.
      destruct (set_cell_ok b1 rr ff x Hwf1 Hon) as [b2 ->]. cbn [bind]. apply Hk. }
    assert (Hb3 : forall (g : GameState), board g = b1 ->
               board (if char_eqb (upper piece) "K"
                      then set_king_of g mc (Some (r2, f2)) else g) = b1).
    { intros g Hg. destruct (char_eqb (upper piece) "K"); [| exact Hg].
      destruct mc; exact Hg. }
    assert (Hb2 : board (if negb (char_eqb t EMPTY_SQUARE) &&
                            negb (char_eqb (upper t) "K")
                         then set_hand_of (set_board (set_cache gs None) b1) mc
                                (add_captured
                                   (hand_of (set_board (set_cache gs None) b1) mc)
                                   (upper t))
                         else set_board (set_cache gs None) b1) = b1).
    { destruct (_ && _); [destruct mc |]; reflexivity. }
    destruct (char_eqb (upper piece) "P" && (r2 =? promotion_rank mc)).
    + destruct p as [choice|].
      * destruct (negb (existsb (char_eqb choice) (prom_pieces mc)));
          (apply Hset; [apply Hb3; exact Hb2 | assumption | intros; eauto]).
      * apply Hset; [apply Hb3; exact Hb2 | assumption | intros; eauto].
    + apply Hset; [apply Hb3; exact Hb2 | assumption | intros; eauto].
  - destruct Hm as [Hon [a [b [s ->]]]].
    unfold str_index. cbn [list_ascii_of_string].
    change (py_index (a :: b :: list_ascii_of_string s) 0) with (@Ok ascii a).
    cbn [bind].
    assert (H1 : py_index (a :: b :: list_ascii_of_string s) 1 = Ok b).
    { unfold py_index. cbn [List.length]. change (1 <? 0) with false.
      cbv iota. cbn [orb].
      destruct (Z.leb_spec (Z.of_nat (S (S (List.length (list_ascii_of_string s))))) 1);
        [lia | reflexivity]. }
    rewrite H1. cbn [bind].
    destruct (get_cell_ok (board gs) r f Hwf Hon) as [target ->]. cbn [bind].
    repeat match goal with
           | |- exists e, (if ?c then _ else _) = Ok e => destruct c; [eauto |]
           end.
    cbv zeta.
    destruct (set_cell_ok (board gs) r f
                (if char_eqb a "w" then upper b else lower b) Hwf Hon) as [b' ->].
    cbn [bind]. eauto.
Qed.

Lemma cell_is_ok (b : list (list ascii)) (r f : Z) (p : ascii) :
  wf_board b -> exists x, cell_is b r f p = Ok x.
Proof.
  intro Hwf. unfold cell_is. destruct (is_on_board r f) eqn:Hb; [| eauto].
  destruct (get_cell_ok b r f Hwf Hb) as [c ->]. cbn [bind]. eauto.
Qed.

Lemma ray_attacked_ok (n : nat) (b : list (list ascii)) (dr df : Z) (p1 p2 : ascii) :
  wf_board b -> forall cr cf, exists x, ray_attacked n b cr cf dr df p1 p2 = Ok x.
Proof.
  intro Hwf. induction n as [|n IH]; intros cr cf; simpl; [eauto |].
  destruct (is_on_board cr cf) eqn:Hb; [| eauto].
  destruct (get_cell_ok b cr cf Hwf Hb) as [c ->]. cbn [bind].
  destruct (negb (char_eqb c EMPTY_SQUARE)); [eauto | apply IH].
Qed.

Lemma attacked_ok (gs : GameState) (r f : Z) (c : color) :
  wf_board (board gs) -> exists x, _internal_is_square_attacked gs r f c = Ok x.
Proof.
  intro Hwf. unfold _internal_is_square_attacked. cbv zeta.
  match goal with
  | |- exists x, (v <- existsM ?g ?l ;; _) = Ok x =>
      destruct (existsM_ok g l (fun _ => True)) as [bp ->];
        [apply Forall_True | intros; now apply cell_is_ok |]
  end.
  cbn [bind]. destruct bp; [eauto |].
  match goal with
  | |- exists x, (v <- existsM ?g ?l ;; _) = Ok x =>
      destruct (existsM_ok g l (fun _ => True)) as [bn ->];
        [apply Forall_True | intros; now apply cell_is_ok |]
  end.
  cbn [bind]. destruct bn; [eauto |].
  match goal with
  | |- exists x, (v <- existsM ?g ?l ;; _) = Ok x =>
      destruct (existsM_ok g l (fun _ => True)) as [bd ->];
        [apply Forall_True | intros; now apply ray_attacked_ok |]
  end.
  cbn [bind]. destruct bd; [eauto |].
  match goal with
  | |- exists x, (v <- existsM ?g ?l ;; _) = Ok x =>
      destruct (existsM_ok g l (fun _ => True)) as [bl ->];
        [apply Forall_True | intros; now apply ray_attacked_ok |]
  end.
  cbn [bind]. destruct bl; [eauto |].
  apply (existsM_ok _ _ (fun _ => True)); [apply Forall_True |].
  intros; now apply cell_is_ok.
Qed.

Lemma fold_left_outcome_ok {A B : Type} (f : outcome B -> A -> outcome B)
    (P : A -> Prop) (l : list A) :
  (forall b x, P x -> exists b', f (Ok b) x = Ok b') ->
  Forall P l -> forall b, exists b', fold_left f l (Ok b) = Ok b'.
Proof.
  intros Hf HP. induction HP as [|x l Hx _ IH]; intro b; simpl; [eauto |].
  destruct (Hf b x Hx) as [b' ->]. apply IH.
Qed.

Lemma find_kings_ok (gs : GameState) :
  wf_board (board gs) -> exists gs', find_kings gs = Ok gs' /\ board gs' = board gs.
Proof.
  intro Hwf. unfold find_kings. cbv zeta.
  match goal with
  | |- exists g, (kp <- fold_left ?f ?l ?a ;; _) = Ok g /\ _ =>
      destruct (fold_left_outcome_ok f
                  (fun rc => is_on_board (fst rc) (snd rc) = true) l) with (b := (@None Square, @None Square))
        as [kp Hkp]
  end.
  - intros b [r c] Hrc. simpl in Hrc. cbn [bind fst snd].
    destruct (get_cell_ok (board gs) r c Hwf Hrc) as [piece ->]. cbn [bind].
    destruct (char_eqb piece "K"); [eauto |]. destruct (char_eqb piece "k"); eauto.
  - exact all_squares_on_board.
  - rewrite Hkp. cbn [bind]. eexists. split; reflexivity.
Qed.

Lemma is_in_check_ok (gs : GameState) (c : color) :
  wf_board (board gs) -> exists b gs', is_in_check gs c = Ok (b, gs').
Proof.
  intro Hwf. unfold is_in_check.
  destruct (king_of gs c) as [[kr kf]|].
  - destruct (attacked_ok gs kr kf (get_opposite_color c) Hwf) as [a ->].
    cbn [bind]. eauto.
  - destruct (find_kings_ok gs Hwf) as [g [-> Hb]]. cbn [bind].
    destruct (king_of g c) as [[kr kf]|]; [| eauto].
    assert (Hwf' : wf_board (board g)) by now rewrite Hb.
    destruct (attacked_ok g kr kf (get_opposite_color c) Hwf') as [a ->].
    cbn [bind]. eauto.
Qed.

(** X18.  Move generation does not fail: on a board of six rows of six squares,
    when the pieces held in hand by the side to move are filed under
    non-empty string keys, [get_all_legal_moves] returns a list and raises
    nothing. *)
Theorem get_all_legal_moves_total :
  forall gs : GameState,
    wf_board (board gs) ->
    hand_keys_ok (hand_of gs (current_turn gs)) ->
    exists l gs', get_all_legal_moves gs = Ok (l, gs').
Proof.
  intros gs Hwf Hh. unfold get_all_legal_moves.
  destruct (_all_legal_moves_cache gs) as [l|]; [eauto |].
  destruct (needs_promotion_choice gs); [eauto |].
  cbv zeta.
  destruct (generate_all_total gs Hwf (current_turn gs) Hh) as [pseudo Hps].
  rewrite Hps. cbn [bind].
  pose proof (generate_all_ok gs (current_turn gs) pseudo Hps) as Hok.
  match goal with
  | |- exists l g, (legal <- filterM ?f ?p ;; _) = Ok (l, g) =>
      destruct (filterM_ok f p (fun m => generated_ok gs (current_turn gs) m /\
                                         In m pseudo)) as [legal ->]
  end.
  - apply Forall_forall. intros m Hm. split; [| exact Hm].
    rewrite Forall_forall in Hok. now apply Hok.
  - intros m [Hm Hin]. cbv beta.
    assert (Hbody : exists e, make_move_body (copy gs) m = Ok e).
    { apply make_move_body_total; [exact Hwf |].
      destruct m as [[r1 f1] [r2 f2] p | code [r f]]; simpl in Hm.
      - destruct Hm as [H1 [H2 _]]. auto.
      - destruct Hm as [Hon [_ [s [n [-> [Hins [Hn _]]]]]]]. split; [exact Hon |].
        unfold hand_keys_ok in Hh. rewrite Forall_forall in Hh.
        destruct (Hh _ Hins Hn) as [a [s' Hk]]. simpl in Hk. inversion Hk; subst.
        eauto. }
    destruct Hbody as [e He].
    pose proof (make_move_body_wf (copy gs) m e Hwf He) as Hwfe.
    unfold make_move_no_check. rewrite He. cbn [bind].
    destruct e as [g|g|g]; cbn [bind]; [eauto | |];
      simpl in Hwfe;
      destruct (is_in_check_ok g (current_turn gs) Hwfe) as [b [g' ->]];
      cbn [bind]; eauto.
  - cbn [bind]. eauto.
Qed.

Lemma get_all_legal_moves_total_witness :
  exists l gs', get_all_legal_moves promotion_position = Ok (l, gs').
Proof.
  apply get_all_legal_moves_total.
  - split; [reflexivity | repeat constructor].
  - constructor; [| constructor].
    intros _. exists "N"%char, EmptyString. reflexivity.
Defined.


(* ------------------------------------------------------------------ *)
(** ** find_kings and check_game_over *)

#[local] Abbreviation scan_kings b :=
  (fun (acc : outcome (option Square * option Square)) (rf : Z * Z) =>
     kp <- acc ;;
     piece <- get_cell b (fst rf) (snd rf) ;;
     if char_eqb piece "K" then Ok (Some rf, snd kp)
     else if char_eqb piece "k" then Ok (fst kp, Some rf)
     else Ok kp).

Lemma scan_kings_stuck (b : list (list ascii)) (l : list (Z * Z))
    (acc : outcome (option Square * option Square)) :
  (forall kp, acc <> Ok kp) -> forall kp, fold_left (scan_kings b) l acc <> Ok kp.
Proof.
  revert acc. induction l as [|sq l IH]; intros acc Hacc kp; simpl; [apply Hacc |].
  apply IH. intros kp' H. destruct acc as [x| |]; simpl in H; try discriminate.
  now apply (Hacc x).
Qed.

Lemma scan_kings_inv (b : list (list ascii)) (l : list (Z * Z)) :
  forall kp0 kp,
    fold_left (scan_kings b) l (Ok kp0) = Ok kp ->
    ((fst kp = fst kp0 /\
      forall sq, In sq l -> get_cell b (fst sq) (snd sq) <> Ok "K"%char) \/
     (exists sq, In sq l /\ fst kp = Some sq /\
                 get_cell b (fst sq) (snd sq) = Ok "K"%char)) /\
    ((snd kp = snd kp0 /\
      forall sq, In sq l -> get_cell b (fst sq) (snd sq) <> Ok "k"%char) \/
     (exists sq, In sq l /\ snd kp = Some sq /\
                 get_cell b (fst sq) (snd sq) = Ok "k"%char)).
Proof.
  induction l as [|sq l IH]; intros kp0 kp H.
  - simpl in H. inversion H. subst. split; left; (split; [reflexivity | intros ? []]).
  - simpl in H. cbn [bind] in H.
    destruct (get_cell b (fst sq) (snd sq)) as [piece| |] eqn:Hc; cbn [bind] in H;
      try (exfalso; revert H; apply scan_kings_stuck; intros ? ?; discriminate).
    destruct (char_eqb piece "K") eqn:EK.
    + apply char_eqb_eq in EK. subst piece.
      apply IH in H. cbn [fst snd] in H. destruct H as [HK Hk]. split.
      * right. destruct HK as [[Hf _] | [sq' [Hin [Hf Hg]]]].
        -- exists sq. split; [now left | split; assumption].
        -- exists sq'. split; [now right | split; assumption].
      * destruct Hk as [[Hs Hno] | [sq' [Hin [Hs Hg]]]].
        -- left. split; [exact Hs |]. intros x [<- | Hx]; [| now apply Hno].
           rewrite Hc. discriminate.
        -- right. exists sq'. split; [now right | split; assumption].
    + destruct (char_eqb piece "k") eqn:Ek.
      * apply char_eqb_eq in Ek. subst piece.
        apply IH in H. cbn [fst snd] in H. destruct H as [HK Hk]. split.
        -- destruct HK as [[Hf Hno] | [sq' [Hin [Hf Hg]]]].
           ++ left. split; [exact Hf |]. intros x [<- | Hx]; [| now apply Hno].
              rewrite Hc. discriminate.
           ++ right. exists sq'. split; [now right | split; assumption].
        -- right. destruct Hk as [[Hs _] | [sq' [Hin [Hs Hg]]]].
           ++ exists sq. split; [now left | split; assumption].
           ++ exists sq'. split; [now right | split; assumption].
      * apply IH in H. destruct H as [HK Hk].
        assert (HnK : get_cell b (fst sq) (snd sq) <> Ok "K"%char).
        { rewrite Hc. intro E. inversion E. subst piece. discriminate EK. }
        assert (Hnk : get_cell b (fst sq) (snd sq) <> Ok "k"%char).
        { rewrite Hc. intro E. inversion E. subst piece. discriminate Ek. }
        split.
        -- destruct HK as [[Hf Hno] | [sq' [Hin [Hf Hg]]]].
           ++ left. split; [exact Hf |]. intros x [<- | Hx]; [exact HnK | now apply Hno].
           ++ right. exists sq'. split; [now right | split; assumption].
        -- destruct Hk as [[Hs Hno] | [sq' [Hin [Hs Hg]]]].
           ++ left. split; [exact Hs |]. intros x [<- | Hx]; [exact Hnk | now apply Hno].
           ++ right. exists sq'. split; [now right | split; assumption].
Qed.

Lemma on_board_in_squares (r f : Z) :
  is_on_board r f = true ->
  In (r, f) (list_prod (range 0 BOARD_SIZE) (range 0 BOARD_SIZE)).
Proof.
  intro H. apply is_on_board_range in H. apply in_prod_iff.
  unfold BOARD_SIZE. split; apply in_range_iff; lia.
Qed.

(** X19.  [find_kings] records a king only on a square of the board where that
    king stands, and reports a king as missing only when no square of the
    board holds it; the position itself is left alone. *)
Theorem find_kings_sound :
  forall (gs gs' : GameState) (c : color),
    find_kings gs = Ok gs' ->
    same_position gs gs' /\
    (forall r f, king_of gs' c = Some (r, f) ->
       is_on_board r f = true /\
       get_cell (board gs) r f = Ok (king_char c)) /\
    (king_of gs' c = None ->
       forall r f, is_on_board r f = true ->
                   get_cell (board gs) r f <> Ok (king_char c)).
Proof.
  intros gs gs' c H. split; [now apply find_kings_same_position |].
  unfold find_kings in H. apply bind_Ok in H. destruct H as [kp [Hkp H]].
  inversion H. subst gs'. clear H.
  apply scan_kings_inv in Hkp. cbn [fst snd] in Hkp. destruct Hkp as [HK Hk].
  assert (Hsel : king_of (set_king_pos gs kp) c
                 = match c with White => fst kp | Black => snd kp end)
    by (destruct c; reflexivity).
  rewrite Hsel. destruct c; cbn [king_char].
  - destruct HK as [[Hf Hno] | [[r0 f0] [Hin [Hf Hg]]]]; rewrite Hf; split.
    + intros r f E. discriminate E.
    + intros _ r f Hon. apply (Hno (r, f)). now apply on_board_in_squares.
    + intros r f E. inversion E. subst. split; [now apply in_squares_on_board | exact Hg].
    + intro E. discriminate E.
  - destruct Hk as [[Hf Hno] | [[r0 f0] [Hin [Hf Hg]]]]; rewrite Hf; split.
    + intros r f E. discriminate E.
    + intros _ r f Hon. apply (Hno (r, f)). now apply on_board_in_squares.
    + intros r f E. inversion E. subst. split; [now apply in_squares_on_board | exact Hg].
    + intro E. discriminate E.
Qed.

Lemma find_kings_sound_witness :
  find_kings promotion_position
  = Ok (set_king_pos promotion_position (Some (5, 0), Some (0, 5))) /\
  is_on_board 5 0 = true /\
  get_cell (board promotion_position) 5 0 = Ok (king_char White).
Proof.
  assert (Hrun : find_kings promotion_position
                 = Ok (set_king_pos promotion_position (Some (5, 0), Some (0, 5))))
    by (vm_compute; reflexivity).
  split; [exact Hrun |].
  exact (proj1 (proj2 (find_kings_sound promotion_position _ White Hrun)) 5 0 eq_refl).
Defined.

(** X20.  [check_game_over] reports the game as over exactly when the side to
    move has no legal move, and then sets the checkmate or the stalemate
    flag, leaving the other flag as it found it; otherwise it clears both.
    It caches the legal moves and leaves the position alone. *)
Theorem check_game_over_verdict :
  forall (gs gs' : GameState) (over : bool),
    needs_promotion_choice gs = false ->
    check_game_over gs = Ok (over, gs') ->
    same_position gs gs' /\
    exists l g1,
      get_all_legal_moves gs = Ok (l, g1) /\
      _all_legal_moves_cache gs' = Some l /\
      (over = true <-> l = []) /\
      (over = false -> checkmate gs' = false /\ stalemate gs' = false) /\
      (over = true ->
         checkmate gs' = true /\ stalemate gs' = stalemate gs \/
         stalemate gs' = true /\ checkmate gs' = checkmate gs).
Proof.
  intros gs gs' over Hn H.
  split; [eapply check_game_over_same_position; eassumption |].
  unfold check_game_over in H. rewrite Hn in H.
  apply bind_Ok in H. destruct H as [[l g1] [Hl H]].
  exists l, g1. split; [exact Hl |].
  apply get_all_legal_moves_frame in Hl. subst g1.
  destruct l as [|m ms].
  - apply bind_Ok in H. destruct H as [[chk g2] [Hc H]].
    assert (Hg2 : _all_legal_moves_cache g2 = Some [] /\
                  checkmate g2 = checkmate gs /\ stalemate g2 = stalemate gs).
    { revert Hc. unfold is_in_check.
      destruct (king_of (set_cache gs (Some [])) _) as [[kr kf]|].
      - intro Hc. apply bind_Ok in Hc. destruct Hc as [a [_ Hc]].
        inversion Hc. subst. simpl. auto.
      - intro Hc. apply bind_Ok in Hc. destruct Hc as [g [Hg Hc]].
        unfold find_kings in Hg. apply bind_Ok in Hg. destruct Hg as [kp [_ Hg]].
        inversion Hg. subst g. clear Hg.
        destruct (king_of _ _) as [[kr kf]|].
        + apply bind_Ok in Hc. destruct Hc as [a [_ Hc]].
          inversion Hc. subst. simpl. auto.
        + inversion Hc. subst. simpl. auto. }
    destruct Hg2 as [Hcache [Hcm Hsm]].
    destruct chk; inversion H; subst over gs'; simpl;
      (split; [exact Hcache |]); (split; [tauto |]);
      (split; [discriminate |]); intros _; [left | right]; auto.
  - inversion H. subst over gs'. simpl. split; [reflexivity |].
    split; [split; discriminate |]. split; [auto |]. discriminate.
Qed.

Lemma check_game_over_verdict_witness :
  exists gs',
    check_game_over stalemate_position = Ok (true, gs') /\
    same_position stalemate_position gs'.
Proof.
  assert (Hrun : exists gs', check_game_over stalemate_position = Ok (true, gs'))
    by (eexists; vm_compute; reflexivity).
  destruct Hrun as [gs' Hrun]. exists gs'. split; [exact Hrun |].
  exact (proj1 (check_game_over_verdict stalemate_position gs' true eq_refl Hrun)).
Defined.
